(** * ChrisB_Blog: the WordPress migration pipeline

    A shallow embedding of [scripts/migrate_wordpress.py],
    [scripts/download_images.py], [scripts/extract_featured_images.py] and of
    the parts of [blog/models.py] they drive, with the properties of the
    pipeline stated and proved over it.

    Conventions.
    - A Python [str] is a [string]; its characters are the 256 code points
      of Latin-1.  The regular-expression engine and the string methods work
      on the list of characters of the string.
    - A Python [int] is a [Z].  A timestamp is a [Z] too.
    - [None] is [None]: a value that may be [None] has an [option] type.
    - The Django tables are lists of rows in insertion order; primary keys
      come from a counter per table. *)

From Stdlib Require Import String Ascii List ZArith Lia Bool Arith DecimalString.
From stdpp Require Import base option list sorting strings gmap.

Local Open Scope string_scope.
Local Open Scope list_scope.
Local Open Scope nat_scope.

(* ===================================================================== *)
(** * Part I: definitions                                                 *)
(* ===================================================================== *)

(** ** Characters and Python's string methods *)

Definition chars := list ascii.

Definition nl : ascii := "010"%char.

(** [str.isspace] on one character, which is also the class [\s] of a
    [str] pattern: TAB, LF, VT, FF, CR, the separators FS GS RS US, SPACE,
    NEL and NBSP. *)
Definition is_space (c : ascii) : bool :=
  let n := nat_of_ascii c in
  ((9 <=? n) && (n <=? 13)) || ((28 <=? n) && (n <=? 32))
  || (n =? 133) || (n =? 160).

(** [s.lstrip()], [s.rstrip()] and [s.strip()] on the characters. *)
Fixpoint lstrip (s : chars) : chars :=
  match s with
  | c :: s' => if is_space c then lstrip s' else s
  | [] => []
  end.

Definition rstrip (s : chars) : chars := rev (lstrip (rev s)).

Definition strip (s : chars) : chars := rstrip (lstrip s).

(** [s.startswith(p)]. *)
Fixpoint starts_with (p s : chars) : bool :=
  match p, s with
  | [], _ => true
  | a :: p', b :: s' => Ascii.eqb a b && starts_with p' s'
  | _ :: _, [] => false
  end.

(** [p in s] for strings: [p] occurs in [s] as a substring. *)
Fixpoint contains (p s : chars) : bool :=
  starts_with p s ||
  match s with
  | [] => false
  | _ :: s' => contains p s'
  end.

(** [s.replace(old, new)]: the occurrences of [old] are replaced from the
    left, without overlap.  [skip] counts the characters of an occurrence
    that are still to be passed over.  An empty [old] puts [new] before
    every character and at the end, as Python does. *)
Fixpoint replace_from (old new : chars) (skip : nat) (s : chars) : chars :=
  match skip with
  | S k =>
      match s with
      | [] => []
      | _ :: s' => replace_from old new k s'
      end
  | O =>
      if starts_with old s then
        new ++ match s with
               | [] => []
               | c :: s' =>
                   match old with
                   | [] => c :: replace_from old new 0 s'
                   | _ :: old' => replace_from old new (length old') s'
                   end
               end
      else
        match s with
        | [] => []
        | c :: s' => c :: replace_from old new 0 s'
        end
  end.

Definition replace (old new s : chars) : chars := replace_from old new 0 s.

(** ** The regular expressions of the scripts

    The patterns of the scripts use literals, character classes, one
    quantified character class at a time (greedy or lazy), and capturing
    groups that are not nested.  [Rep cs lo hi greedy] is [cs{lo,hi}], with
    [hi = None] for no upper bound; [*] is [{0,}], [+] is [{1,}] and [?] is
    [{0,1}]. *)

Inductive charset :=
| Any                         (* [.] under re.DOTALL *)
| Space                       (* [\s] *)
| OneOf (l : list ascii)      (* [[...]], or one literal character *)
| NoneOf (l : list ascii).    (* [[^...]] *)

Inductive regex :=
| Lit (l : chars)
| Rep (cs : charset) (lo : nat) (hi : option nat) (greedy : bool)
| Grp (i : nat) (r : regex)
| Cat (r1 r2 : regex).

Fixpoint mem_ascii (c : ascii) (l : list ascii) : bool :=
  match l with
  | [] => false
  | a :: l' => Ascii.eqb a c || mem_ascii c l'
  end.

Definition cs_mem (cs : charset) (c : ascii) : bool :=
  match cs with
  | Any => true
  | Space => is_space c
  | OneOf l => mem_ascii c l
  | NoneOf l => negb (mem_ascii c l)
  end.

(** The groups captured so far, the latest first. *)
Definition caps := list (nat * chars).

(** [m.group(i)]. *)
Fixpoint group (g : caps) (i : nat) : chars :=
  match g with
  | [] => []
  | (j, w) :: g' => if Nat.eqb i j then w else group g' i
  end.

(** The number of leading characters of [s] in the class, at most [hi]. *)
Fixpoint run_len (cs : charset) (hi : option nat) (s : chars) : nat :=
  match hi with
  | Some O => O
  | _ =>
      match s with
      | c :: s' =>
          if cs_mem cs c then S (run_len cs (pred <$> hi) s') else O
      | [] => O
      end
  end.

(** The backtracking matcher, in continuation-passing style: [k] is the
    rest of the pattern, applied to the input that is left and the groups.
    The result is the input left after the whole match. *)
Definition cont := chars -> caps -> option (chars * caps).

(** Greedy: the longest repetition first, [lo + j] characters, then one
    less at a time down to [lo]. *)
Fixpoint rep_greedy (k : cont) (s : chars) (g : caps) (lo j : nat)
  : option (chars * caps) :=
  match k (drop (lo + j) s) g with
  | Some r => Some r
  | None =>
      match j with
      | O => None
      | S j' => rep_greedy k s g lo j'
      end
  end.

(** Lazy: the shortest repetition first, [n] characters, then one more at
    a time, [j] more at most. *)
Fixpoint rep_lazy (k : cont) (s : chars) (g : caps) (n j : nat)
  : option (chars * caps) :=
  match k (drop n s) g with
  | Some r => Some r
  | None =>
      match j with
      | O => None
      | S j' => rep_lazy k s g (S n) j'
      end
  end.

Fixpoint rmatch (r : regex) (s : chars) (g : caps) (k : cont)
  : option (chars * caps) :=
  match r with
  | Lit l => if starts_with l s then k (drop (length l) s) g else None
  | Rep cs lo hi greedy =>
      let n := run_len cs hi s in
      if n <? lo then None
      else if greedy then rep_greedy k s g lo (n - lo)
      else rep_lazy k s g lo (n - lo)
  | Grp i r1 =>
      rmatch r1 s g
        (fun s' g' => k s' ((i, take (length s - length s') s) :: g'))
  | Cat r1 r2 => rmatch r1 s g (fun s' g' => rmatch r2 s' g' k)
  end.

(** [pattern.match(s)] at the start of [s]: the input left after the match
    and the groups. *)
Definition re_match (r : regex) (s : chars) : option (chars * caps) :=
  rmatch r s [] (fun s' g' => Some (s', g')).

(** [re.sub(pattern, repl, s)] on the characters.  [repl] is the
    replacement as a function of the match's groups: a template such as
    [r'# \1\n'] is [fun m => "# " ++ m 1 ++ "\n"].  The scan goes from the
    left; after a match it goes on where the match ended.  An empty match
    is replaced and the scan moves one character on. *)
Fixpoint sub_from (r : regex) (repl : (nat -> chars) -> chars)
  (skip : nat) (s : chars) : chars :=
  match skip with
  | S k =>
      match s with
      | [] => []
      | _ :: s' => sub_from r repl k s'
      end
  | O =>
      match re_match r s with
      | Some (rest, g) =>
          repl (group g) ++
          match s with
          | [] => []
          | c :: s' =>
              match length s - length rest with
              | O => c :: sub_from r repl 0 s'
              | S n => sub_from r repl n s'
              end
          end
      | None =>
          match s with
          | [] => []
          | c :: s' => c :: sub_from r repl 0 s'
          end
      end
  end.

Definition sub_chars (r : regex) (repl : (nat -> chars) -> chars)
  (s : chars) : chars := sub_from r repl 0 s.

(** [[m.group(i) for m in re.finditer(pattern, s)]]. *)
Fixpoint finditer_from (r : regex) (i : nat) (skip : nat) (s : chars)
  : list chars :=
  match skip with
  | S k =>
      match s with
      | [] => []
      | _ :: s' => finditer_from r i k s'
      end
  | O =>
      match re_match r s with
      | Some (rest, g) =>
          group g i ::
          match s with
          | [] => []
          | _ :: s' => finditer_from r i (pred (length s - length rest)) s'
          end
      | None =>
          match s with
          | [] => []
          | _ :: s' => finditer_from r i 0 s'
          end
      end
  end.

(** [re.search(pattern, s)], as the group [i] of the first match. *)
Fixpoint search_group (r : regex) (i : nat) (s : chars) : option chars :=
  match re_match r s with
  | Some (_, g) => Some (group g i)
  | None =>
      match s with
      | [] => None
      | _ :: s' => search_group r i s'
      end
  end.

(** The strings of the program and their characters. *)
Abbreviation chs := list_ascii_of_string.
Abbreviation str := string_of_list_ascii.

Definition re_sub (r : regex) (repl : (nat -> chars) -> chars) (s : string)
  : string :=
  string_of_list_ascii (sub_chars r repl (list_ascii_of_string s)).

(** Pattern combinators, to write the patterns as the scripts do. *)
Definition lit (s : string) : regex := Lit (list_ascii_of_string s).
Definition star (cs : charset) : regex := Rep cs 0 None true.
Definition plus (cs : charset) : regex := Rep cs 1 None true.
Definition opt (c : ascii) : regex := Rep (OneOf [c]) 0 (Some 1) true.
Definition lazy_star (cs : charset) : regex := Rep cs 0 None false.
Definition not_of (s : string) : charset := NoneOf (list_ascii_of_string s).

Fixpoint cat (l : list regex) : regex :=
  match l with
  | [] => Lit []
  | [r] => r
  | r :: l' => Cat r (cat l')
  end.

(** ** The markup transcoder ([migrate_wordpress.py], [html_to_markdown]) *)

Definition dq : ascii := "034"%char.   (* the double quote *)

(** [<name[^>]*>(.*?)</name>] *)
Definition elem_re (name : string) : regex :=
  cat [lit ("<" +:+ name); star (not_of ">"); lit ">";
       Grp 1 (lazy_star Any); lit ("</" +:+ name +:+ ">")].

(** The pattern [<a[^>]*href=Q([^Q]* )Q[^>]*>(.*?)</a>], where Q stands for
    the double quote. *)
Definition a_re : regex :=
  cat [lit "<a"; star (not_of ">"); Lit (chs "href=" ++ [dq]);
       Grp 1 (star (NoneOf [dq])); Lit [dq]; star (not_of ">"); lit ">";
       Grp 2 (lazy_star Any); lit "</a>"].

(** [<img[^>]*src=Q([^Q]* )Q[^>]*alt=Q([^Q]* )Q[^>]*/?>] *)
Definition img_alt_re : regex :=
  cat [lit "<img"; star (not_of ">"); Lit (chs "src=" ++ [dq]);
       Grp 1 (star (NoneOf [dq])); Lit [dq]; star (not_of ">");
       Lit (chs "alt=" ++ [dq]); Grp 2 (star (NoneOf [dq])); Lit [dq];
       star (not_of ">"); opt "/"; lit ">"].

(** [<img[^>]*src=Q([^Q]* )Q[^>]*/?>] *)
Definition img_re : regex :=
  cat [lit "<img"; star (not_of ">"); Lit (chs "src=" ++ [dq]);
       Grp 1 (star (NoneOf [dq])); Lit [dq]; star (not_of ">");
       opt "/"; lit ">"].

(** [<ul[^>]*>] and [<ol[^>]*>] *)
Definition open_re (name : string) : regex :=
  cat [lit ("<" +:+ name); star (not_of ">"); lit ">"].

(** [<pre[^>]*><code[^>]*>(.*?)</code></pre>] *)
Definition pre_code_re : regex :=
  cat [lit "<pre"; star (not_of ">"); lit "><code"; star (not_of ">");
       lit ">"; Grp 1 (lazy_star Any); lit "</code></pre>"].

(** [<br\s*/?>] and [<hr\s*/?>] *)
Definition void_re (name : string) : regex :=
  cat [lit ("<" +:+ name); star Space; opt "/"; lit ">"].

(** [<[^>]+>] *)
Definition tag_re : regex := cat [lit "<"; plus (not_of ">"); lit ">"].

(** [\n{3,}] *)
Definition nl3_re : regex := Rep (OneOf [nl]) 3 None true.

(** The lambda of the blockquote rule:
    ['> ' + m.group(1).strip().replace('\n', '\n> ') + '\n']. *)
Definition blockquote_repl (m : nat -> chars) : chars :=
  chs "> " ++ replace [nl] (nl :: chs "> ") (strip (m 1)) ++ [nl].

Definition html_to_markdown (html : string) : string :=
  if String.eqb html "" then ""
  else
    let md := html in
    (* Headings *)
    let md := re_sub (elem_re "h1") (fun m => chs "# " ++ m 1 ++ [nl]) md in
    let md := re_sub (elem_re "h2") (fun m => chs "## " ++ m 1 ++ [nl]) md in
    let md := re_sub (elem_re "h3") (fun m => chs "### " ++ m 1 ++ [nl]) md in
    let md := re_sub (elem_re "h4") (fun m => chs "#### " ++ m 1 ++ [nl]) md in
    (* Bold and italic *)
    let md := re_sub (elem_re "strong") (fun m => chs "**" ++ m 1 ++ chs "**") md in
    let md := re_sub (elem_re "b") (fun m => chs "**" ++ m 1 ++ chs "**") md in
    let md := re_sub (elem_re "em") (fun m => chs "*" ++ m 1 ++ chs "*") md in
    let md := re_sub (elem_re "i") (fun m => chs "*" ++ m 1 ++ chs "*") md in
    (* Links *)
    let md := re_sub a_re
                (fun m => chs "[" ++ m 2 ++ chs "](" ++ m 1 ++ chs ")") md in
    (* Images *)
    let md := re_sub img_alt_re
                (fun m => chs "![" ++ m 2 ++ chs "](" ++ m 1 ++ chs ")") md in
    let md := re_sub img_re (fun m => chs "![](" ++ m 1 ++ chs ")") md in
    (* Lists *)
    let md := re_sub (open_re "ul") (fun _ => []) md in
    let md := re_sub (lit "</ul>") (fun _ => [nl]) md in
    let md := re_sub (open_re "ol") (fun _ => []) md in
    let md := re_sub (lit "</ol>") (fun _ => [nl]) md in
    let md := re_sub (elem_re "li") (fun m => chs "- " ++ m 1 ++ [nl]) md in
    (* Code blocks *)
    let md := re_sub pre_code_re
                (fun m => chs "```" ++ [nl] ++ m 1 ++ [nl] ++ chs "```" ++ [nl])
                md in
    let md := re_sub (elem_re "code") (fun m => chs "`" ++ m 1 ++ chs "`") md in
    (* Blockquotes *)
    let md := re_sub (elem_re "blockquote") blockquote_repl md in
    (* Paragraphs and line breaks *)
    let md := re_sub (elem_re "p") (fun m => m 1 ++ [nl; nl]) md in
    let md := re_sub (void_re "br") (fun _ => [nl]) md in
    let md := re_sub (void_re "hr") (fun _ => [nl] ++ chs "---" ++ [nl]) md in
    (* Remove remaining HTML tags *)
    let md := re_sub tag_re (fun _ => []) md in
    (* Clean up whitespace *)
    let md := re_sub nl3_re (fun _ => [nl; nl]) md in
    let md := str (strip (chs md)) in
    md.


(** ** Exceptions and results *)

Inductive exn :=
| AttributeError | TypeError | ValueError | IndexError
| IntegrityError | MultipleObjectsReturned
| OSError | SuspiciousFileOperation.

Inductive res (A : Type) :=
| Ok (a : A)
| Raise (e : exn).
Arguments Ok {A} a.
Arguments Raise {A} e.

(** ** The export parser ([migrate_wordpress.py], [parse_posts]) *)

(** What [find] returns: [None] when the element is missing, else the
    element's [text], which is [None] for an empty element. *)
Definition found := option (option string).

Record xml_comment := {
  x_comment_approved : found;
  x_comment_date : found;
  x_comment_id : found;
  x_comment_parent : found;
  x_comment_author : found;
  x_comment_author_email : found;
  x_comment_content : found;
}.

(** A [category] element: its [domain] and [nicename] attributes. *)
Record xml_category := {
  cat_domain : option string;
  cat_nicename : option string;
}.

Record xml_item := {
  x_post_type : found;
  x_status : found;
  x_pubDate : found;
  x_content_encoded : found;
  x_excerpt_encoded : found;
  x_categories : list xml_category;
  x_comments : list xml_comment;
  x_post_id : found;
  x_title : found;
  x_post_name : found;
  x_creator : found;
}.

Record xml_tag := {
  x_term_id : found;
  x_tag_slug : found;
  x_tag_name : found;
}.

Record xml_author := {
  x_author_login : found;
  x_author_email : found;
  x_author_display_name : found;
}.

(** The [channel] element: its [wp:tag], [item] and [wp:author]
    children. *)
Record xml_channel := {
  ch_tags : list xml_tag;
  ch_items : list xml_item;
  ch_authors : list xml_author;
}.

(** The dictionaries the parser builds. *)
Record wp_comment := {
  c_id : Z;
  c_parent : Z;
  c_author_name : string;
  c_author_email : string;
  c_content : string;
  c_status : string;
  c_created_at : option Z;
}.

Record wp_post := {
  p_id : Z;
  p_title : string;
  p_slug : option string;
  p_content : string;
  p_excerpt : string;
  p_status : string;
  p_author : option string;
  p_published_at : option Z;
  p_tags : list (option string);
  p_comments : list wp_comment;
}.

Record wp_tag := {
  t_term_id : Z;
  t_slug : option string;
  t_name : option string;
}.

Record wp_author := {
  a_login : option string;
  a_email : string;
  a_display_name : string;
}.

Record wp_data := {
  d_tags : list wp_tag;
  d_posts : list wp_post;
  d_authors : list wp_author;
}.

(** [e.text] for [e = find(...)]: AttributeError when [e] is [None]. *)
Definition text (e : found) : res (option string) :=
  match e with
  | Some t => Ok t
  | None => Raise AttributeError
  end.

(** [x or d] for a text [x]: [None] and the empty string are false. *)
Definition or_str (x : option string) (d : string) : string :=
  match x with
  | Some t => if String.eqb t "" then d else t
  | None => d
  end.

#[global] Instance res_ret : MRet res := fun A a => Ok a.
#[global] Instance res_bind : MBind res := fun A B f m =>
  match m with
  | Ok a => f a
  | Raise e => Raise e
  end.

Fixpoint rmap {A B} (f : A -> res B) (l : list A) : res (list B) :=
  match l with
  | [] => Ok []
  | a :: l' => b ← f a ; bs ← rmap f l' ; Ok (b :: bs)
  end.

Section Parser.

(** [int(s)] for a string: [None] when it raises ValueError. *)
Variable py_int : string -> option Z.
(** [datetime.strptime(s, format)] as a timestamp: [None] when it raises
    ValueError. *)
Variable strptime : string -> string -> option Z.

Definition int_of_text (t : option string) : res Z :=
  match t with
  | None => Raise TypeError
  | Some s => match py_int s with Some n => Ok n | None => Raise ValueError end
  end.

Definition parse_comment (comment : xml_comment) : res wp_comment :=
  comment_approved ← text (x_comment_approved comment) ;
  let comment_status :=
    if bool_decide (comment_approved = Some "1") then "approved"
    else if bool_decide (comment_approved = Some "spam") then "spam"
    else "pending" in
  comment_date ← text (x_comment_date comment) ;
  comment_created ←
    match comment_date with
    | None => Raise TypeError
    | Some d => Ok (strptime d "%Y-%m-%d %H:%M:%S")
    end ;
  id_text ← text (x_comment_id comment) ;
  id ← int_of_text id_text ;
  parent_text ← text (x_comment_parent comment) ;
  parent ←
    match parent_text with
    | None => Ok 0%Z
    | Some s => if String.eqb s "" then Ok 0%Z else int_of_text (Some s)
    end ;
  author_name ← text (x_comment_author comment) ;
  author_email ← text (x_comment_author_email comment) ;
  content ← text (x_comment_content comment) ;
  Ok {| c_id := id; c_parent := parent;
        c_author_name := or_str author_name "Anonymous";
        c_author_email := or_str author_email "";
        c_content := or_str content "";
        c_status := comment_status;
        c_created_at := comment_created |}.

(** The status of the post for a [wp:status], [None] where the loop
    goes on to the next item. *)
Definition map_status (wp_status : option string) : option string :=
  if bool_decide (wp_status = Some "publish") then Some "published"
  else if bool_decide (wp_status = Some "draft") then Some "draft"
  else if bool_decide (wp_status = Some "future") then Some "scheduled"
  else None.                                (* Skip trash, private, etc. *)

(** The rest of a turn of the loop, once the status is known: the date,
    the content, the excerpt, the tags, the comments and the dictionary of
    the post. *)
Definition parse_post_fields (item : xml_item) (status : string)
  : res wp_post :=
  pub_date ← text (x_pubDate item);
  let published_at :=
    match pub_date with
    | None => None
    | Some d =>
        if String.eqb d "" then None
        else strptime d "%a, %d %b %Y %H:%M:%S %z"
    end in
  let content :=
    match x_content_encoded item with
    | Some t => or_str t ""
    | None => ""
    end in
  let excerpt :=
    match x_excerpt_encoded item with
    | Some t => or_str t ""
    | None => ""
    end in
  let tags :=
    cat_nicename <$>
      filter (fun c => cat_domain c = Some "post_tag") (x_categories item) in
  comments ← rmap parse_comment (x_comments item);
  id_text ← text (x_post_id item);
  id ← int_of_text id_text;
  title ← text (x_title item);
  slug ← text (x_post_name item);
  author ← text (x_creator item);
  Ok {| p_id := id; p_title := or_str title "Untitled";
        p_slug := slug; p_content := content;
        p_excerpt := excerpt; p_status := status;
        p_author := author; p_published_at := published_at;
        p_tags := tags; p_comments := comments |}.

(** One turn of the loop of [parse_posts]: [Ok None] when the item is
    passed over by [continue], [Ok (Some post)] when it is appended. *)
Definition parse_item (item : xml_item) : res (option wp_post) :=
  match x_post_type item with
  | None => Ok None
  | Some post_type =>
      if negb (bool_decide (post_type = Some "post")) then Ok None
      else
        wp_status ← text (x_status item);
        match map_status wp_status with
        | None => Ok None
        | Some status =>
            post ← parse_post_fields item status;
            Ok (Some post)
        end
  end.

(** [parse_posts], on the [item] elements of the channel. *)
Fixpoint parse_posts (items : list xml_item) : res (list wp_post) :=
  match items with
  | [] => Ok []
  | item :: items' =>
      r ← parse_item item ;
      posts ← parse_posts items' ;
      Ok (match r with Some post => post :: posts | None => posts end)
  end.

(** [parse_tags] and [parse_authors]. *)
Definition parse_tag (tag : xml_tag) : res wp_tag :=
  id_text ← text (x_term_id tag);
  term_id ← int_of_text id_text;
  slug ← text (x_tag_slug tag);
  name ← text (x_tag_name tag);
  Ok {| t_term_id := term_id; t_slug := slug; t_name := name |}.

Definition parse_author (author : xml_author) : res wp_author :=
  login ← text (x_author_login author);
  email ← text (x_author_email author);
  display_name ← text (x_author_display_name author);
  Ok {| a_login := login; a_email := or_str email "";
        a_display_name := or_str display_name "" |}.

(** [parse_wordpress_xml], on the channel of the document. *)
Definition parse_wordpress_xml (channel : xml_channel) : res wp_data :=
  tags ← rmap parse_tag (ch_tags channel);
  posts ← parse_posts (ch_items channel);
  authors ← rmap parse_author (ch_authors channel);
  Ok {| d_tags := tags; d_posts := posts; d_authors := authors |}.

End Parser.

(** ** The tables ([blog/models.py])

    A table is the list of its rows, the oldest first.  A foreign key
    holds the primary key of the row it refers to.  The length limits of
    the columns are not part of the model. *)

Inductive PostStatus := DRAFT | SCHEDULED | PUBLISHED.
Inductive CommentStatus := PENDING | APPROVED | SPAM.

Record User := {
  user_pk : nat;
  username : string;
  user_email : string;
  first_name : string;
  last_name : string;
  is_staff : bool;
  is_superuser : bool;
}.

Record Tag := {
  tag_pk : nat;
  tag_name : string;
  tag_slug : string;
  wp_term_id : option Z;
}.

Record Image := {
  image_pk : nat;
  image_file : string;
  original_name : string;
  alt_text : string;
  image_size : option (nat * nat);
  size_bytes : option nat;
  uploaded_at : Z;
}.

Record Post := {
  post_pk : nat;
  post_title : string;
  post_slug : string;
  content_md : string;
  content_html : string;
  post_excerpt : string;
  post_status : PostStatus;
  post_author : nat;
  featured_image : option nat;
  published_at : option Z;
  post_created_at : Z;
  post_updated_at : Z;
  wp_post_id : option Z;
}.

Record Comment := {
  comment_pk : nat;
  comment_post : nat;
  comment_parent : option nat;
  author_name : string;
  author_email : string;
  comment_content : string;
  comment_status : CommentStatus;
  comment_created_at : Z;
  wp_comment_id : option Z;
}.

Record DB := {
  users : list User;
  tags : list Tag;
  posts : list Post;
  post_tags : list (nat * nat);      (* the rows (post, tag) of Post.tags *)
  comments : list Comment;
  images : list Image;
}.

Definition empty_db : DB :=
  {| users := []; tags := []; posts := []; post_tags := [];
     comments := []; images := [] |}.

Definition with_users (db : DB) (l : list User) : DB :=
  {| users := l; tags := tags db; posts := posts db;
     post_tags := post_tags db; comments := comments db;
     images := images db |}.
Definition with_tags (db : DB) (l : list Tag) : DB :=
  {| users := users db; tags := l; posts := posts db;
     post_tags := post_tags db; comments := comments db;
     images := images db |}.
Definition with_posts (db : DB) (l : list Post) : DB :=
  {| users := users db; tags := tags db; posts := l;
     post_tags := post_tags db; comments := comments db;
     images := images db |}.
Definition with_post_tags (db : DB) (l : list (nat * nat)) : DB :=
  {| users := users db; tags := tags db; posts := posts db;
     post_tags := l; comments := comments db; images := images db |}.
Definition with_comments (db : DB) (l : list Comment) : DB :=
  {| users := users db; tags := tags db; posts := posts db;
     post_tags := post_tags db; comments := l; images := images db |}.
Definition with_images (db : DB) (l : list Image) : DB :=
  {| users := users db; tags := tags db; posts := posts db;
     post_tags := post_tags db; comments := comments db; images := l |}.

(** The primary key of a new row: above every key of the table. *)
Definition fresh_pk (pks : list nat) : nat := S (foldr Nat.max 0 pks).

(** A program on the store: it ends with a value or raises, and the
    writes made before an exception stay. *)
Definition M (A : Type) : Type := DB -> DB * res A.

#[global] Instance M_ret : MRet M := fun A a db => (db, Ok a).
#[global] Instance M_bind : MBind M := fun A B f m db =>
  match m db with
  | (db', Ok a) => f a db'
  | (db', Raise e) => (db', Raise e)
  end.

Definition raise {A} (e : exn) : M A := fun db => (db, Raise e).

(** A [for] loop that carries its local variables in [acc]. *)
Fixpoint foldM {X S : Type} (f : S -> X -> M S) (l : list X) (acc : S)
  : M S :=
  match l with
  | [] => mret acc
  | x :: l' => acc' ← f acc x; foldM f l' acc'
  end.

(** [s.split()]: the words of [s] between runs of whitespace. *)
Fixpoint split_ws (s cur : chars) : list chars :=
  match s with
  | [] => match cur with [] => [] | _ => [cur] end
  | c :: s' =>
      if is_space c then
        match cur with
        | [] => split_ws s' []
        | _ => cur :: split_ws s' []
        end
      else split_ws s' (cur ++ [c])
  end.

Definition py_split (s : string) : list string :=
  str <$> split_ws (chs s) [].

(** [sep.join(l)]. *)
Fixpoint join (sep : string) (l : list string) : string :=
  match l with
  | [] => ""
  | [x] => x
  | x :: l' => x +:+ sep +:+ join sep l'
  end.

(** The decimal numeral of [n], as an f-string prints it. *)
Definition decimal (n : nat) : string :=
  NilEmpty.string_of_uint (Nat.to_uint n).

(** ** The importer ([migrate_wordpress.py], [import_data]) *)

Record Stats := {
  tags_created : nat;
  posts_created : nat;
  comments_created : nat;
}.

(** [User.objects.get_or_create(username=login, defaults=...)]. *)
Definition get_or_create_user (login : option string)
  (email first last : string) (staff superuser : bool)
  : M (User * bool) := fun db =>
  match login with
  | None => (db, Raise IntegrityError)     (* username is NOT NULL *)
  | Some name =>
      match filter (fun u => username u = name) (users db) with
      | [] =>
          let pk := fresh_pk (user_pk <$> users db) in
          let u := {| user_pk := pk; username := name; user_email := email;
                      first_name := first; last_name := last;
                      is_staff := staff; is_superuser := superuser |} in
          (with_users db (users db ++ [u]), Ok (u, true))
      | [u] => (db, Ok (u, false))
      | _ => (db, Raise MultipleObjectsReturned)
      end
  end.

(** The loop of [post.tags.add(tag)]: the row is added unless it is there. *)
Definition tags_add (post tag : nat) : M unit := fun db =>
  if bool_decide ((post, tag) ∈ post_tags db) then (db, Ok ())
  else (with_post_tags db (post_tags db ++ [(post, tag)]), Ok ()).

Definition comment_status_of (s : string) : CommentStatus :=
  if String.eqb s "approved" then APPROVED
  else if String.eqb s "pending" then PENDING
  else if String.eqb s "spam" then SPAM
  else PENDING.

Definition post_status_of (s : string) : PostStatus :=
  if String.eqb s "published" then PUBLISHED
  else if String.eqb s "draft" then DRAFT
  else if String.eqb s "scheduled" then SCHEDULED
  else DRAFT.

(** [Comment.objects.update_or_create(wp_comment_id=id, defaults=...)].
    On the update path the row that [get] found, the one row with this
    [wp_comment_id], is rewritten; [created_at] is [auto_now_add] and
    stays. *)
Definition update_or_create_comment (now : Z) (id : Z) (post : nat)
  (parent : option nat) (name email content : string)
  (status : CommentStatus) : M (nat * bool) := fun db =>
  match filter (fun c => wp_comment_id c = Some id) (comments db) with
  | [] =>
      if bool_decide (id < 0)%Z then (db, Raise IntegrityError)
      else
        let pk := fresh_pk (comment_pk <$> comments db) in
        let c := {| comment_pk := pk; comment_post := post;
                    comment_parent := parent; author_name := name;
                    author_email := email; comment_content := content;
                    comment_status := status; comment_created_at := now;
                    wp_comment_id := Some id |} in
        (with_comments db (comments db ++ [c]), Ok (pk, true))
  | [c0] =>
      let c := {| comment_pk := comment_pk c0; comment_post := post;
                  comment_parent := parent; author_name := name;
                  author_email := email; comment_content := content;
                  comment_status := status;
                  comment_created_at := comment_created_at c0;
                  wp_comment_id := wp_comment_id c0 |} in
      (with_comments db
         ((fun x => if bool_decide (wp_comment_id x = Some id) then c else x)
            <$> comments db),
       Ok (comment_pk c0, false))
  | _ => (db, Raise MultipleObjectsReturned)
  end.

(** [Comment.objects.filter(pk=pk).update(created_at=t)]. *)
Definition set_comment_created_at (pk : nat) (t : Z) : M unit := fun db =>
  (with_comments db
     ((fun c =>
         if bool_decide (comment_pk c = pk) then
           {| comment_pk := comment_pk c; comment_post := comment_post c;
              comment_parent := comment_parent c;
              author_name := author_name c; author_email := author_email c;
              comment_content := comment_content c;
              comment_status := comment_status c;
              comment_created_at := t;
              wp_comment_id := wp_comment_id c |}
         else c) <$> comments db),
   Ok ()).

(** [sorted(l, key=lambda c: c['id'])]: a stable insertion sort. *)
Fixpoint insert_by_id (c : wp_comment) (l : list wp_comment)
  : list wp_comment :=
  match l with
  | [] => [c]
  | d :: l' =>
      if bool_decide (c_id d <= c_id c)%Z then d :: insert_by_id c l'
      else c :: l
  end.

Definition sorted_by_id (l : list wp_comment) : list wp_comment :=
  foldl (fun acc c => insert_by_id c acc) [] l.

Section Importer.

(** [django.utils.text.slugify]. *)
Variable slugify : string -> string.
(** [Post._render_markdown], as a function of [content_md]. *)
Variable render_markdown : string -> string.

(** [Tag.objects.get_or_create(slug=slug, defaults=...)].  [Tag.save]
    gives a tag without slug the slug of its name. *)
Definition get_or_create_tag (slug name : option string) (term_id : Z)
  : M (nat * bool) := fun db =>
  match
    match slug with
    | None => []
    | Some sl => filter (fun t => tag_slug t = sl) (tags db)
    end
  with
  | [] =>
      match name with
      | None => (db, Raise IntegrityError)        (* name is NOT NULL *)
      | Some nm =>
          let sl := or_str slug (slugify nm) in
          if bool_decide (term_id < 0)%Z then (db, Raise IntegrityError)
          else if bool_decide (sl ∈ tag_slug <$> tags db)
          then (db, Raise IntegrityError)         (* slug is unique *)
          else
            let pk := fresh_pk (tag_pk <$> tags db) in
            let t := {| tag_pk := pk; tag_name := nm; tag_slug := sl;
                        wp_term_id := Some term_id |} in
            (with_tags db (tags db ++ [t]), Ok (pk, true))
      end
  | [t] => (db, Ok (tag_pk t, false))
  | _ => (db, Raise MultipleObjectsReturned)
  end.

(** The loop of [Post.save] that makes the slug of the title unique:
    [slug], then [base-1], [base-2], ... until no other post has it.
    More than [fuel] turns are never needed when [fuel] is above the
    number of other posts. *)
Fixpoint unique_slug (taken : list string) (base slug : string)
  (counter fuel : nat) : string :=
  match fuel with
  | O => slug
  | S fuel' =>
      if bool_decide (slug ∈ taken)
      then unique_slug taken base (base +:+ "-" +:+ decimal counter)
             (S counter) fuel'
      else slug
  end.

(** The slug [Post.save] leaves on the post, [others] being the posts
    with another primary key. *)
Definition save_slug (others : list Post) (slug title : string) : string :=
  if String.eqb slug "" then
    unique_slug (post_slug <$> others) (slugify title) (slugify title) 1
      (S (length others))
  else slug.

(** The [published_at] that [Post.save] leaves on the post. *)
Definition save_published_at (now : Z) (status : PostStatus)
  (published_at : option Z) : option Z :=
  match status, published_at with
  | PUBLISHED, None => Some now
  | _, _ => published_at
  end.

(** [Post.objects.update_or_create(wp_post_id=id, defaults=...)].  Both
    paths go through [Post.save].  On the update path the row that [get]
    found, the one row with this [wp_post_id], is rewritten with
    [update_fields]: the fields of [defaults] and the date fields, so
    [content_html] stays as it was stored. *)
Definition update_or_create_post (now : Z) (id : Z)
  (title slug content excerpt : string) (status : PostStatus)
  (author : nat) (published : option Z) : M (nat * bool) := fun db =>
  match filter (fun p => wp_post_id p = Some id) (posts db) with
  | [] =>
      let slug' := save_slug (posts db) slug title in
      if bool_decide (id < 0)%Z then (db, Raise IntegrityError)
      else if bool_decide (slug' ∈ post_slug <$> posts db)
      then (db, Raise IntegrityError)             (* slug is unique *)
      else
        let pk := fresh_pk (post_pk <$> posts db) in
        let p := {| post_pk := pk; post_title := title; post_slug := slug';
                    content_md := content;
                    content_html := render_markdown content;
                    post_excerpt := excerpt; post_status := status;
                    post_author := author; featured_image := None;
                    published_at := save_published_at now status published;
                    post_created_at := now; post_updated_at := now;
                    wp_post_id := Some id |} in
        (with_posts db (posts db ++ [p]), Ok (pk, true))
  | [p0] =>
      let others := filter (fun p => wp_post_id p <> Some id) (posts db) in
      let slug' := save_slug others slug title in
      if bool_decide (slug' ∈ post_slug <$> others)
      then (db, Raise IntegrityError)             (* slug is unique *)
      else
        let p := {| post_pk := post_pk p0; post_title := title;
                    post_slug := slug'; content_md := content;
                    content_html := content_html p0;
                    post_excerpt := excerpt; post_status := status;
                    post_author := author;
                    featured_image := featured_image p0;
                    published_at := save_published_at now status published;
                    post_created_at := post_created_at p0;
                    post_updated_at := now;
                    wp_post_id := wp_post_id p0 |} in
        (with_posts db
           ((fun x => if bool_decide (wp_post_id x = Some id) then p else x)
              <$> posts db),
         Ok (post_pk p0, false))
  | _ => (db, Raise MultipleObjectsReturned)
  end.

(** The first loop of [import_data]: the author mapping. *)
Definition import_author (authors : gmap (option string) nat)
  (wp_author : wp_author) : M (gmap (option string) nat) :=
  let display_name := a_display_name wp_author in
  first ←
    (if String.eqb display_name "" then mret ""
     else match py_split display_name with
          | [] => raise IndexError
          | w :: _ => mret w
          end);
  let last :=
    if String.eqb display_name "" then ""
    else join " " (tail (py_split display_name)) in
  '(user, created) ←
    get_or_create_user (a_login wp_author) (a_email wp_author) first last
      false false;
  mret (<[a_login wp_author := user_pk user]> authors).

(** The second loop: the tags. *)
Definition import_tag (acc : gmap (option string) nat * Stats)
  (wp_tag : wp_tag) : M (gmap (option string) nat * Stats) :=
  let '(tag_map, stats) := acc in
  '(tag, created) ←
    get_or_create_tag (t_slug wp_tag) (t_name wp_tag) (t_term_id wp_tag);
  mret (<[t_slug wp_tag := tag]> tag_map,
        if (created : bool)
        then {| tags_created := S (tags_created stats);
                posts_created := posts_created stats;
                comments_created := comments_created stats |}
        else stats).

(** The loop over the comments of one post. *)
Definition import_comment (now : Z) (post : nat)
  (acc : gmap Z nat * Stats) (wp_comment : wp_comment)
  : M (gmap Z nat * Stats) :=
  let '(comment_map, stats) := acc in
  let parent :=
    if bool_decide (c_parent wp_comment <> 0%Z)
    then comment_map !! c_parent wp_comment
    else None in
  '(comment, created) ←
    update_or_create_comment now (c_id wp_comment) post parent
      (c_author_name wp_comment) (c_author_email wp_comment)
      (c_content wp_comment) (comment_status_of (c_status wp_comment));
  _ ← match c_created_at wp_comment with
      | Some t => if (created : bool) then set_comment_created_at comment t
                  else mret ()
      | None => mret ()
      end;
  mret (<[c_id wp_comment := comment]> comment_map,
        if (created : bool)
        then {| tags_created := tags_created stats;
                posts_created := posts_created stats;
                comments_created := S (comments_created stats) |}
        else stats).

(** The loop over the posts. *)
Definition import_post (now : Z) (authors tag_map : gmap (option string) nat)
  (default_author : User) (stats : Stats) (wp_post : wp_post) : M Stats :=
  let author := default (user_pk default_author)
                  (authors !! p_author wp_post) in
  let content_md := html_to_markdown (p_content wp_post) in
  let status := post_status_of (p_status wp_post) in
  '(post, created) ←
    update_or_create_post now (p_id wp_post) (p_title wp_post)
      (or_str (p_slug wp_post) (slugify (p_title wp_post)))
      content_md (p_excerpt wp_post) status author
      (p_published_at wp_post);
  _ ← foldM (fun _ tag_slug =>
               match tag_map !! tag_slug with
               | Some tag => tags_add post tag
               | None => mret ()
               end) (p_tags wp_post) ();
  let stats :=
    if (created : bool)
    then {| tags_created := tags_created stats;
            posts_created := S (posts_created stats);
            comments_created := comments_created stats |}
    else stats in
  '(_, stats) ←
    foldM (import_comment now post) (sorted_by_id (p_comments wp_post))
      (∅, stats);
  mret stats.

Definition import_data (now : Z) (data : wp_data) (default_author : User)
  : M Stats :=
  let stats := {| tags_created := 0; posts_created := 0;
                  comments_created := 0 |} in
  authors ← foldM import_author (d_authors data) ∅;
  '(tag_map, stats) ← foldM import_tag (d_tags data) (∅, stats);
  foldM (import_post now authors tag_map default_author) (d_posts data) stats.

End Importer.

Section Main.

Variable py_int : string -> option Z.
Variable strptime : string -> string -> option Z.
Variable slugify : string -> string.
Variable render_markdown : string -> string.

(** [main] of [migrate_wordpress.py], once the file is found: parse,
    get or create the default author, import. *)
Definition main (now : Z) (channel : xml_channel) : M Stats :=
  data ← (fun db => (db, parse_wordpress_xml py_int strptime channel));
  '(default_author, _) ← get_or_create_user (Some "admin") "" "" "" true true;
  import_data slugify render_markdown now data default_author.

End Main.

(** ** The media resolver ([download_images.py],
       [extract_featured_images.py]) *)

Definition sq : ascii := "'"%char.     (* the single quote *)

(** Exactly one character of the class. *)
Definition one (cs : charset) : regex := Rep cs 1 (Some 1) true.

(** The pattern [!\[[^\]]*\]\(([^)]+)\)] of a Markdown image. *)
Definition md_pattern : regex :=
  cat [lit "!["; star (not_of "]"); lit "]("; Grp 1 (plus (not_of ")"));
       lit ")"].

(** The pattern [<img[^>]+src=[Qq]([^Qq]+)[Qq]] of an HTML image, where Q
    and q stand for the double and the single quote. *)
Definition html_pattern : regex :=
  cat [lit "<img"; plus (not_of ">"); lit "src="; one (OneOf [dq; sq]);
       Grp 1 (plus (NoneOf [dq; sq])); one (OneOf [dq; sq])].

(** [urls.add(url)] on a Python set, kept as the list of its elements in
    the order they came in. *)
Definition set_add (url : string) (urls : list string) : list string :=
  if bool_decide (url ∈ urls) then urls else urls ++ [url].

(** [s.find(p)]: the index of the first occurrence of [p] in [s]. *)
Fixpoint find_sub (p s : chars) : option nat :=
  if starts_with p s then Some 0
  else match s with
       | [] => None
       | _ :: s' => S <$> find_sub p s'
       end.

(** The part of [s] after the last [c], and the part before the first:
    [s.split(c)[-1]] and [s.split(c)[0]]. *)
Fixpoint after_last (c : ascii) (s : chars) : chars :=
  match s with
  | [] => []
  | a :: s' => if mem_ascii c s' then after_last c s'
               else if Ascii.eqb a c then s' else s
  end.

Fixpoint before_first (c : ascii) (s : chars) : chars :=
  match s with
  | [] => []
  | a :: s' => if Ascii.eqb a c then [] else a :: before_first c s'
  end.

(** ASCII lower case, for [icontains]. *)
Definition lower (c : ascii) : ascii :=
  let n := nat_of_ascii c in
  if (65 <=? n) && (n <=? 90) then ascii_of_nat (n + 32) else c.

(** [qs.first()] under [ordering = ['-uploaded_at']]: the row uploaded
    last, the earliest row among equals. *)
Fixpoint first_latest (l : list Image) : option Image :=
  match l with
  | [] => None
  | i :: l' =>
      match first_latest l' with
      | Some j => if bool_decide (uploaded_at i < uploaded_at j)%Z
                  then Some j else Some i
      | None => Some i
      end
  end.

Section Media.

(** [list(urls)]: the order in which Python iterates over a set whose
    elements came in the given order.  The language leaves it open. *)
Variable set_iter : list string -> list string.

(** [requests.get(url)] with [raise_for_status]: the body and the
    content-type header, [None] when an exception is raised. *)
Variable http_get : string -> option (string * option string).
(** [urllib.parse.urljoin], which raises ValueError on a URL that it
    cannot parse. *)
Variable urljoin : string -> string -> res string.
(** [os.path.basename(urlparse(url).path)]: [urlparse] raises ValueError on
    a URL that it cannot parse. *)
Variable url_basename : string -> res string.
(** [hashlib.md5(url.encode()).hexdigest()]. *)
Variable md5_hexdigest : string -> string.
(** The name under which the file storage saves an upload, given the
    names in use and the time, and the URL it serves the name at.  The
    storage raises for a name that it refuses (SuspiciousFileOperation for
    [..]) and when it cannot write (OSError). *)
Variable storage_save : list string -> Z -> string -> res string.
Variable storage_url : string -> string.
(** The dimensions PIL reads from the bytes of an image. *)
Variable pil_size : string -> option (nat * nat).

Variable slugify : string -> string.
Variable render_markdown : string -> string.

(** [extract_image_urls] of [download_images.py]. *)
Definition extract_image_urls (content domain : string) : list string :=
  let keep (url : string) :=
    contains (chs domain) (chs url) || starts_with (chs "/") (chs url) in
  let add urls url := if keep url then set_add url urls else urls in
  let urls := [] in
  (* Markdown images *)
  let urls := foldl add urls (str <$> finditer_from md_pattern 1 0 (chs content)) in
  (* HTML images *)
  let urls := foldl add urls (str <$> finditer_from html_pattern 1 0 (chs content)) in
  set_iter urls.

(** The [try] block of [download_image], in both scripts: whatever is
    raised in it, also by [urlparse], is caught and gives [None]. *)
Definition fetch_image (url : string) : option (string * string) :=
  match http_get url with
  | None => None
  | Some (content, header) =>
      match url_basename url with
      | Raise _ => None
      | Ok filename =>
          let filename :=
            if String.eqb filename "" then
              let url_hash := str (take 8 (chs (md5_hexdigest url))) in
              let content_type := default "image/jpeg" header in
              let ext :=
                str (before_first ";" (after_last "/" (chs content_type))) in
              "image-" +:+ url_hash +:+ "." +:+ ext
            else filename in
          Some (content, filename)
      end
  end.

(** [download_image] of [download_images.py].  The relative URL is joined
    before the [try], so what [urljoin] raises leaves the function. *)
Definition download_image (url base_url : string)
  : res (option (string * string)) :=
  if starts_with (chs "/") (chs url) then
    match urljoin base_url url with
    | Raise e => Raise e
    | Ok url => Ok (fetch_image url)
    end
  else Ok (fetch_image url).

(** [Image(file=ContentFile(bytes, name=filename), original_name=filename,
    alt_text=alt).save()], as the row it inserts. *)
Definition save_image (now : Z) (bytes filename alt : string) : M Image :=
  fun db =>
  match storage_save (image_file <$> images db) now filename with
  | Raise e => (db, Raise e)
  | Ok name =>
      let i := {| image_pk := fresh_pk (image_pk <$> images db);
                  image_file := name;
                  original_name := filename;
                  alt_text := alt;
                  image_size := pil_size bytes;
                  size_bytes := Some (String.length bytes);
                  uploaded_at := now |} in
      (with_images db (images db ++ [i]), Ok i)
  end.

(** [post.save()] for a post read from the table: [Post.save], then the
    row with the key of [post] is rewritten. *)
Definition save_post (now : Z) (post : Post) : M unit := fun db =>
  let others := filter (fun p => post_pk p <> post_pk post) (posts db) in
  let slug' := save_slug slugify others (post_slug post) (post_title post) in
  if bool_decide (slug' ∈ post_slug <$> others)
  then (db, Raise IntegrityError)
  else
    let p := {| post_pk := post_pk post; post_title := post_title post;
                post_slug := slug'; content_md := content_md post;
                content_html := render_markdown (content_md post);
                post_excerpt := post_excerpt post;
                post_status := post_status post;
                post_author := post_author post;
                featured_image := featured_image post;
                published_at :=
                  save_published_at now (post_status post) (published_at post);
                post_created_at := post_created_at post;
                post_updated_at := now;
                wp_post_id := wp_post_id post |} in
    (with_posts db
       ((fun x => if bool_decide (post_pk x = post_pk post) then p else x)
          <$> posts db),
     Ok ()).

(** [process_post_images] of [download_images.py]. *)
Definition process_post_images (now : Z) (post : Post)
  (domain base_url : string) : M nat :=
  let image_urls := extract_image_urls (content_md post) domain in
  '(new_content, downloaded) ←
    foldM (fun '(new_content, downloaded) url =>
             match download_image url base_url with
             | Raise e => raise e
             | Ok None => mret (new_content, downloaded)
             | Ok (Some (image_bytes, filename)) =>
                 image ← save_image now image_bytes filename
                           ("Image from " +:+ post_title post);
                 let new_url := storage_url (image_file image) in
                 mret (str (replace (chs url) (chs new_url) (chs new_content)),
                       S downloaded)
             end)
      image_urls (content_md post, 0);
  _ ← (if bool_decide (new_content <> content_md post)
       then save_post now
              {| post_pk := post_pk post; post_title := post_title post;
                 post_slug := post_slug post; content_md := new_content;
                 content_html := content_html post;
                 post_excerpt := post_excerpt post;
                 post_status := post_status post;
                 post_author := post_author post;
                 featured_image := featured_image post;
                 published_at := published_at post;
                 post_created_at := post_created_at post;
                 post_updated_at := post_updated_at post;
                 wp_post_id := wp_post_id post |}
       else mret ());
  mret downloaded.

(** [find_existing_image] of [extract_featured_images.py].  [urlparse] is
    called outside a [try]: what it raises leaves the function. *)
Definition find_existing_image (url : string) (db : DB)
  : res (option Image) :=
  match url_basename url with
  | Raise e => Raise e
  | Ok filename =>
      Ok (if String.eqb filename "" then None
          else
            match first_latest
                    (filter (fun i => original_name i = filename)
                       (images db)) with
            | Some existing => Some existing
            | None =>
                first_latest
                  (filter (fun i => contains (lower <$> chs filename)
                                      (lower <$> chs (image_file i)) = true)
                     (images db))
            end)
  end.

End Media.

(** ** The scenarios of the specification *)

(** [int] on a plain decimal numeral with an optional minus sign.  It
    stands for Python's [int] where an example has to run. *)
Fixpoint digits_value (s : chars) (acc : Z) : option Z :=
  match s with
  | [] => Some acc
  | c :: s' =>
      let n := nat_of_ascii c in
      if (48 <=? n) && (n <=? 57)
      then digits_value s' (10 * acc + Z.of_nat (n - 48))%Z
      else None
  end.

Definition dec_int (s : string) : option Z :=
  match chs s with
  | [] => None
  | c :: d =>
      if Ascii.eqb c "-" then
        match d with
        | [] => None
        | _ => Z.opp <$> digits_value d 0
        end
      else digits_value (c :: d) 0
  end.

(** A clock-free [strptime]: no date is understood. *)
Definition no_date (s fmt : string) : option Z := None.

(** An element with a text. *)
Definition el (s : string) : found := Some (Some s).

(** The end-to-end scenario: one post with [source_id = 1], status
    [publish], body [<h1>Hi</h1><p>World</p>], tag [foo], a comment 10
    with parent 0 and a reply 11 with parent 10. *)
Definition scenario_comment (id parent : string) : xml_comment :=
  {| x_comment_approved := el "1";
     x_comment_date := el "2024-01-01 10:00:00";
     x_comment_id := el id;
     x_comment_parent := el parent;
     x_comment_author := el "Ann";
     x_comment_author_email := el "ann@example.org";
     x_comment_content := el "Nice" |}.

Definition scenario_item : xml_item :=
  {| x_post_type := el "post";
     x_status := el "publish";
     x_pubDate := el "Mon, 01 Jan 2024 09:00:00 +0000";
     x_content_encoded := el "<h1>Hi</h1><p>World</p>";
     x_excerpt_encoded := None;
     x_categories := [ {| cat_domain := Some "post_tag";
                          cat_nicename := Some "foo" |} ];
     x_comments := [scenario_comment "10" "0"; scenario_comment "11" "10"];
     x_post_id := el "1";
     x_title := el "Hi";
     x_post_name := el "hi";
     x_creator := el "chris" |}.

Definition scenario : xml_channel :=
  {| ch_tags := [ {| x_term_id := el "7"; x_tag_slug := el "foo";
                     x_tag_name := el "Foo" |} ];
     ch_items := [scenario_item];
     ch_authors := [ {| x_author_login := el "chris";
                        x_author_email := el "chris@example.org";
                        x_author_display_name := el "Chris B" |} ] |}.

(** The body the code stores for the scenario, and the body the
    specification names. *)
Definition scenario_body : string :=
  str (chs "# Hi" ++ [nl] ++ chs "World").
Definition scenario_body_spec : string :=
  str (chs "# Hi" ++ [nl; nl] ++ chs "World" ++ [nl; nl]).

(** The media scenario: two posts whose bodies reference the same
    image URL.  The network, the storage and the other libraries are
    replaced by stand-ins: every fetch succeeds, the storage keeps the
    file name and makes it unique with a suffix when it is in use. *)
Definition media_url : string := "https://example.com/wp/a.png".

Definition media_post (pk : nat) (title slug : string) : Post :=
  {| post_pk := pk; post_title := title; post_slug := slug;
     content_md := "![pic](" +:+ media_url +:+ ")";
     content_html := ""; post_excerpt := ""; post_status := DRAFT;
     post_author := 1; featured_image := None; published_at := None;
     post_created_at := 0; post_updated_at := 0; wp_post_id := None |}.

Definition media_db : DB :=
  with_posts empty_db [media_post 1 "One" "one"; media_post 2 "Two" "two"].

Definition test_http_get (url : string) : option (string * option string) :=
  Some ("PNG", Some "image/png").
Definition test_urljoin (base url : string) : res string :=
  Ok (base +:+ url).
Definition test_basename (url : string) : res string :=
  Ok (str (after_last "/" (chs url))).
Definition test_md5 (url : string) : string := "d41d8cd98f00b204".
Definition test_storage_save (used : list string) (now : Z) (name : string)
  : res string :=
  let path := "images/2024/01/" +:+ name in
  Ok (if bool_decide (path ∈ used) then path +:+ "_" +:+ decimal (length used)
      else path).
Definition test_storage_url (name : string) : string := "/uploads/" +:+ name.
Definition test_pil_size (bytes : string) : option (nat * nat) := None.

Definition test_process_post_images (post : Post) : M nat :=
  process_post_images (fun l => l) test_http_get test_urljoin test_basename
    test_md5 test_storage_save test_storage_url test_pil_size
    (fun s => s) (fun s => s) 0%Z post "example.com" "https://example.com".

(** The URLs of [urls] stand in the order of their first occurrence in
    [content]. *)
Definition first_occurrence_order (content : string) (urls : list string)
  : Prop :=
  forall i j u v,
    urls !! i = Some u -> urls !! j = Some v -> i < j ->
    exists pu pv,
      find_sub (chs u) (chs content) = Some pu /\
      find_sub (chs v) (chs content) = Some pv /\ pu < pv.

(** An HTML image before a Markdown image, and the same two the other
    way round. *)
Definition order_content_1 : string :=
  "<img src='/a.png'> ![b](/b.png)".
Definition order_content_2 : string :=
  "![b](/b.png) <img src='/a.png'>".

(** The default author that [main] gets or creates, and the store that
    holds no other row. *)
Definition admin : User :=
  {| user_pk := 1; username := "admin"; user_email := ""; first_name := "";
     last_name := ""; is_staff := true; is_superuser := true |}.

Definition admin_db : DB := with_users empty_db [admin].

(** A post of an export, with the given author and comments. *)
Definition a_post (id : Z) (slug : string) (author : option string)
  (comments : list wp_comment) : wp_post :=
  {| p_id := id; p_title := "Title"; p_slug := Some slug;
     p_content := "<p>Text</p>"; p_excerpt := ""; p_status := "published";
     p_author := author; p_published_at := Some 100%Z; p_tags := [];
     p_comments := comments |}.

Definition a_comment (id parent : Z) : wp_comment :=
  {| c_id := id; c_parent := parent; c_author_name := "Ann";
     c_author_email := "ann@example.org"; c_content := "Nice";
     c_status := "approved"; c_created_at := Some 50%Z |}.


(** An export whose post has two comments with the same identifier, the
    second naming that identifier as its parent. *)
Definition twin_comments_data : wp_data :=
  {| d_tags := [];
     d_posts := [a_post 1 "one" None [a_comment 5 0; a_comment 5 5]];
     d_authors := [] |}.

(** An export with an author, a tag and a post with two comments. *)
Definition small_data : wp_data :=
  {| d_tags := [ {| t_term_id := 7; t_slug := Some "foo";
                    t_name := Some "Foo" |} ];
     d_posts :=
       [ {| p_id := 1; p_title := "Title"; p_slug := Some "one";
            p_content := "<p>Text</p>"; p_excerpt := "";
            p_status := "published"; p_author := Some "chris";
            p_published_at := None; p_tags := [Some "foo"];
            p_comments := [a_comment 11 10; a_comment 10 0] |} ];
     d_authors := [ {| a_login := Some "chris";
                       a_email := "chris@example.org";
                       a_display_name := "Chris B" |} ] |}.

(** An export with a tag that has no slug, and an export in which two
    entries have the same post identifier. *)
Definition slugless_tag_data : wp_data :=
  {| d_tags := [ {| t_term_id := 7; t_slug := None; t_name := Some "Foo" |} ];
     d_posts := []; d_authors := [] |}.

Definition twin_posts_data : wp_data :=
  {| d_tags := [];
     d_posts := [a_post 1 "a" None []; a_post 1 "b" None [];
                 a_post 2 "a" None []];
     d_authors := [] |}.

(** [slugify] where it matters below: the question mark gives no slug. *)
Definition test_slugify (s : string) : string :=
  str (filter (fun c => c <> "?"%char) (chs s)).

(** A post of an export without slug, whose title gives none either. *)
Definition slugless_post (id : Z) : wp_post :=
  {| p_id := id; p_title := "?"; p_slug := None; p_content := "";
     p_excerpt := ""; p_status := "draft"; p_author := None;
     p_published_at := None; p_tags := []; p_comments := [] |}.

(** An export with the post 2, which has no slug yet, and a later export
    in which it has one and comes after a post without slug. *)
Definition early_data : wp_data :=
  {| d_tags := []; d_posts := [slugless_post 2]; d_authors := [] |}.

Definition slugless_post_data : wp_data :=
  {| d_tags := [];
     d_posts := [slugless_post 1; a_post 2 "two" None []];
     d_authors := [] |}.

(** An [item] of type [post]. *)
Definition is_post (item : xml_item) : Prop := x_post_type item = el "post".

#[global] Instance is_post_dec item : Decision (is_post item).
Proof. unfold is_post. apply _. Defined.

(** A page without any of the elements of a post, and a post without
    [wp:status] element. *)
Definition page_item : xml_item :=
  {| x_post_type := el "page"; x_status := None; x_pubDate := None;
     x_content_encoded := None; x_excerpt_encoded := None;
     x_categories := []; x_comments := []; x_post_id := None;
     x_title := None; x_post_name := None; x_creator := None |}.

Definition statusless_item : xml_item :=
  {| x_post_type := el "post"; x_status := None; x_pubDate := el "";
     x_content_encoded := None; x_excerpt_encoded := None;
     x_categories := []; x_comments := []; x_post_id := el "2";
     x_title := el "Two"; x_post_name := el "two"; x_creator := el "chris" |}.

(** [extract_first_image_url] of [extract_featured_images.py]: the [src]
    of the first HTML image, else the URL of the first Markdown image. *)
Definition extract_first_image_url (content : string) : option string :=
  match search_group html_pattern 1 (chs content) with
  | Some url => Some (str url)
  | None =>
      match search_group md_pattern 1 (chs content) with
      | Some url => Some (str url)
      | None => None
      end
  end.

(** A network on which every fetch fails. *)
Definition no_http (url : string) : option (string * option string) := None.

(** [urljoin] where it raises on the URL [//[x/a.png], as the library
    does. *)
Definition strict_urljoin (base url : string) : res string :=
  if String.eqb url "//[x/a.png" then Raise ValueError else Ok (base +:+ url).

(** A post whose only image has a URL that [urljoin] refuses. *)
Definition bracket_post : Post :=
  {| post_pk := 1; post_title := "One"; post_slug := "one";
     content_md := "![x](//[x/a.png)";
     content_html := ""; post_excerpt := ""; post_status := DRAFT;
     post_author := 1; featured_image := None; published_at := None;
     post_created_at := 0; post_updated_at := 0; wp_post_id := None |}.

(** ** The thumbnail of a post ([blog/models.py], [first_image_url]) *)

(** The class [\d] and the whitespace of the class [\s], as lists. *)
Definition digit : charset := OneOf (chs "0123456789").

Definition whitespace : list ascii :=
  ascii_of_nat <$> [9; 10; 11; 12; 13; 28; 29; 30; 31; 32; 133; 160].

(** [\d{n}] *)
Definition digits (n : nat) : regex := Rep digit n (Some n) true.

(** The pattern [/uploads/(?:images/)?(\d{4}/\d{2}/TAIL)], with the
    optional group taken ([images = true]) or left out. *)
Definition uploads_re (images : bool) (tail : regex) : regex :=
  cat [lit (if images then "/uploads/images/" else "/uploads/");
       Grp 1 (cat [digits 4; lit "/"; digits 2; lit "/"; tail])].

(** A match of the pattern at the start of [s], followed by [k]: the
    optional group is tried first, and left out when no match follows. *)
Definition match_uploads (tail : regex) (k : cont) (s : chars)
  : option (chars * caps) :=
  match rmatch (uploads_re true tail) s [] k with
  | Some r => Some r
  | None => rmatch (uploads_re false tail) s [] k
  end.

(** [$]: the end of the string, or a newline that ends the string. *)
Definition at_end : cont := fun s' g' =>
  match s' with
  | [] => Some (s', g')
  | [c] => if Ascii.eqb c nl then Some (s', g') else None
  | _ => None
  end.

(** The characters of the class [[^)\sQq<>]], Q and q standing for the
    two quotes. *)
Definition url_char : charset :=
  NoneOf (chs ")" ++ [dq; sq] ++ chs "<>" ++ whitespace).

(** [re.search(r'/uploads/(?:images/)?(\d{4}/\d{2}/[^)\sQq<>]+)$', s)], as
    the group 1 of the first match. *)
Fixpoint search_uploads (s : chars) : option chars :=
  match match_uploads (plus url_char) at_end s with
  | Some (_, g) => Some (group g 1)
  | None =>
      match s with
      | [] => None
      | _ :: s' => search_uploads s'
      end
  end.

Definition wp_uploads : string :=
  "https://chrisblanduk.wordpress.com/wp-content/uploads/".

(** The inner function [to_wordpress_url] of [Post.first_image_url]. *)
Definition to_wordpress_url (url : string) : option string :=
  if String.eqb url "" then None
  else if starts_with (chs "http") (chs url) then
    (* Fix corrupted URLs with repeated WordPress prefixes *)
    if contains (chs "wordpress.com") (chs url) then
      match search_uploads (chs url) with
      | Some g => Some (wp_uploads +:+ str g)
      | None => Some url
      end
    else Some url
  else
    match match_uploads (plus (NoneOf [nl])) (fun s' g' => Some (s', g'))
            (chs url) with
    | Some (_, g) => Some (wp_uploads +:+ str (group g 1))
    | None =>
        if starts_with (chs "/uploads/") (chs url) then None else Some url
    end.

(** [Post.first_image_url], [Post.thumbnail_url] and
    [Post.thumbnail_in_content]. *)
Definition first_image_url (post : Post) : option string :=
  match search_group html_pattern 1 (chs (content_html post)) with
  | Some url => to_wordpress_url (str url)
  | None =>
      match search_group md_pattern 1 (chs (content_md post)) with
      | Some url => to_wordpress_url (str url)
      | None => None
      end
  end.

Definition thumbnail_url (post : Post) : option string := first_image_url post.

Definition thumbnail_in_content (post : Post) : bool :=
  match thumbnail_url post with
  | None => false
  | Some url =>
      if String.eqb url "" then false
      else if String.eqb (content_html post) "" then false
      else contains (chs url) (chs (content_html post))
  end.

(** [Post.is_published], at the time [now]. *)
Definition is_published (now : Z) (post : Post) : bool :=
  match post_status post, published_at post with
  | PUBLISHED, Some t => bool_decide (t <= now)%Z
  | _, _ => false
  end.

(** A post that is published and has no date yet. *)
Definition dateless_post : Post :=
  {| post_pk := 1; post_title := "One"; post_slug := "one";
     content_md := "Text"; content_html := ""; post_excerpt := "";
     post_status := PUBLISHED; post_author := 1; featured_image := None;
     published_at := None; post_created_at := 0; post_updated_at := 0;
     wp_post_id := None |}.

(** An export whose one author has a display name of two spaces. *)
Definition blank_author_data : wp_data :=
  {| d_tags := [ {| t_term_id := 7; t_slug := Some "foo";
                    t_name := Some "Foo" |} ];
     d_posts := [a_post 1 "one" None []];
     d_authors := [ {| a_login := Some "chris"; a_email := "";
                       a_display_name := "  " |} ] |}.

(** ** Featured images ([extract_featured_images.py])

    [extract_first_image_url] is above; [find_existing_image] is with the
    media resolver.  The script has a [download_image] of its own, which
    reads a relative URL from the disk; it and [process_post] are in the
    module [Featured]. *)

(** [s.lstrip(c)] for one character [c]. *)
Fixpoint lstrip_char (c : ascii) (s : chars) : chars :=
  match s with
  | a :: s' => if Ascii.eqb a c then lstrip_char c s' else s
  | [] => []
  end.

(** [post.featured_image = image; post.save(update_fields=['featured_image'])]
    for a post read from the table: the column [featured_image] of the row
    with the key of the post is written, and no other column. *)
Definition set_featured_image (pk image : nat) : M unit := fun db =>
  (with_posts db
     ((fun p =>
         if bool_decide (post_pk p = pk) then
           {| post_pk := post_pk p; post_title := post_title p;
              post_slug := post_slug p; content_md := content_md p;
              content_html := content_html p;
              post_excerpt := post_excerpt p; post_status := post_status p;
              post_author := post_author p; featured_image := Some image;
              published_at := published_at p;
              post_created_at := post_created_at p;
              post_updated_at := post_updated_at p;
              wp_post_id := wp_post_id p |}
         else p) <$> posts db),
   Ok ()).

Module Featured.
Section Featured.

Variable http_get : string -> option (string * option string).
Variable url_basename : string -> res string.
Variable md5_hexdigest : string -> string.
Variable storage_save : list string -> Z -> string -> res string.
Variable pil_size : string -> option (nat * nat).
(** [settings.BASE_DIR], [settings.MEDIA_ROOT] and [settings.MEDIA_URL]. *)
Variable base_dir : string.
Variable media_root : string.
Variable media_url : string.
(** [Path(a) / b] and [Path(p).name]. *)
Variable path_join : string -> string -> string.
Variable path_name : string -> string.
(** [Path(p).exists()] and [Path(p).read_bytes()].  Both are called
    outside a [try], and both can raise: [exists] on a path that must not
    be looked at, [read_bytes] on a directory or on a file that must not
    be read. *)
Variable path_exists : string -> res bool.
Variable read_bytes : string -> res string.

(** [if path.exists(): return path.read_bytes(), path.name], and what is
    done when nothing is at the path. *)
Definition read_local (path : string)
  (otherwise : res (option (string * string)))
  : res (option (string * string)) :=
  match path_exists path with
  | Raise e => Raise e
  | Ok true =>
      match read_bytes path with
      | Raise e => Raise e
      | Ok bytes => Ok (Some (bytes, path_name path))
      end
  | Ok false => otherwise
  end.

(** [download_image] of [extract_featured_images.py].  The fetch of a
    URL that is not relative is the [try] block of [download_images.py],
    line for line. *)
Definition download_image (url : string) : res (option (string * string)) :=
  (* Skip data URLs *)
  if starts_with (chs "data:") (chs url) then Ok None
  (* Handle relative URLs (assume local media) *)
  else if starts_with (chs "/") (chs url) then
    let local_path := path_join base_dir (str (lstrip_char "/" (chs url))) in
    read_local local_path
      ((* Try media root *)
       let media_path :=
         path_join media_root
           (str (lstrip_char "/" (replace (chs media_url) [] (chs url)))) in
       read_local media_path (Ok None))
  else Ok (fetch_image http_get url_basename md5_hexdigest url).

(** [process_post] of [extract_featured_images.py]. *)
Definition process_post (now : Z) (post : Post) : M bool :=
  (* Skip if already has featured image *)
  match featured_image post with
  | Some _ => mret false
  | None =>
      (* Try content_html first, fall back to markdown content *)
      let image_url :=
        match extract_first_image_url (content_html post) with
        | Some url => Some url
        | None => extract_first_image_url (content_md post)
        end in
      match image_url with
      | None => mret false
      | Some image_url =>
          (* Check if image already exists *)
          existing ← (fun db =>
                        (db, find_existing_image url_basename image_url db));
          match existing with
          | Some existing =>
              _ ← set_featured_image (post_pk post) (image_pk existing);
              mret true
          | None =>
              (* Download the image *)
              match download_image image_url with
              | Raise e => raise e
              | Ok None => mret false
              | Ok (Some (image_bytes, filename)) =>
                  image ← save_image storage_save pil_size now image_bytes
                            filename
                            ("Featured image for " +:+ post_title post);
                  _ ← set_featured_image (post_pk post) (image_pk image);
                  mret true
              end
          end
      end
  end.

End Featured.
End Featured.

(** A post whose rendered content shows an image that the store has, in
    a store with that image; and a disk without files. *)
Definition featured_post : Post :=
  {| post_pk := 1; post_title := "One"; post_slug := "one";
     content_md := "";
     content_html := "<p><img src='https://example.com/wp/a.png'></p>";
     post_excerpt := ""; post_status := DRAFT; post_author := 1;
     featured_image := None; published_at := None; post_created_at := 0;
     post_updated_at := 0; wp_post_id := None |}.

Definition stored_image : Image :=
  {| image_pk := 4; image_file := "images/2024/01/a.png";
     original_name := "a.png"; alt_text := ""; image_size := None;
     size_bytes := None; uploaded_at := 0 |}.

Definition featured_db : DB :=
  with_images (with_posts empty_db [featured_post]) [stored_image].

Definition no_file (path : string) : res bool := Ok false.

(** A disk where every path is a directory: [exists] holds and
    [read_bytes] raises [IsADirectoryError], an [OSError]. *)
Definition all_directories (path : string) : res bool := Ok true.
Definition read_directory (path : string) : res string := Raise OSError.

(** A post whose first image is the directory [/]. *)
Definition root_image_post : Post :=
  {| post_pk := 1; post_title := "One"; post_slug := "one";
     content_md := "";
     content_html := "<img src='/'>";
     post_excerpt := ""; post_status := DRAFT; post_author := 1;
     featured_image := None; published_at := None; post_created_at := 0;
     post_updated_at := 0; wp_post_id := None |}.

(** ** The command [add_wp_featured_images]

    [blog/management/commands/add_wp_featured_images.py] puts an image at
    the head of the posts of a fixed table that have no thumbnail. *)

(** [Command.WP_FEATURED_IMAGES], in the order of the dictionary. *)
Definition WP_FEATURED_IMAGES : list (string * string) :=
  [("the-church-of-the-invisible-hand",
    "https://chrisblanduk.com/wp-content/uploads/2025/03/image-1.png");
   ("congratulations-youre-already-a-millionaire",
    "https://chrisblanduk.com/wp-content/uploads/2025/03/image.png");
   ("humanitys-achilles-heel",
    "https://chrisblanduk.com/wp-content/uploads/2025/01/image.png");
   ("sortition-in-dao-governance-a-potential-solution-to-voting-vulnerability",
    "https://chrisblanduk.com/wp-content/uploads/2023/06/scs3vegcnt671.webp")].

(** [if value:] on an optional string: [None] and the empty string are
    false. *)
Definition truthy (value : option string) : bool :=
  match value with
  | Some s => negb (String.eqb s "")
  | None => false
  end.

(** [post.content_md = md]. *)
Definition with_content_md (post : Post) (md : string) : Post :=
  {| post_pk := post_pk post; post_title := post_title post;
     post_slug := post_slug post; content_md := md;
     content_html := content_html post; post_excerpt := post_excerpt post;
     post_status := post_status post; post_author := post_author post;
     featured_image := featured_image post;
     published_at := published_at post;
     post_created_at := post_created_at post;
     post_updated_at := post_updated_at post;
     wp_post_id := wp_post_id post |}.

(** [f'![]({img_url})\n\n' + content_md]. *)
Definition img_md (img_url content_md : string) : string :=
  str (chs "![](" ++ chs img_url ++ chs ")" ++ [nl; nl] ++ chs content_md).

Section Command.

Variable slugify : string -> string.
Variable render_markdown : string -> string.

(** One turn of the loop of [handle], on the counters [updated] and
    [skipped], which the last line prints.  [Post.objects.get(slug=slug)]
    raises [Post.DoesNotExist] when no row has the slug, which the loop
    catches, and [MultipleObjectsReturned] when more than one has it, which
    nothing catches. *)
Definition handle_entry (now : Z) (counts : nat * nat)
  (entry : string * string) : M (nat * nat) :=
  let '(updated, skipped) := counts in
  let '(slug, img_url) := entry in
  fun db =>
    match filter (fun p => post_slug p = slug) (posts db) with
    | [] => (db, Ok (updated, skipped))
    | [post] =>
        if truthy (thumbnail_url post) then (db, Ok (updated, S skipped))
        else
          (_ ← save_post slugify render_markdown now
                 (with_content_md post (img_md img_url (content_md post)));
           mret (S updated, skipped)) db
    | _ => (db, Raise MultipleObjectsReturned)
    end.

(** [Command.handle]: the counters [(updated, skipped)] at the end. *)
Definition handle (now : Z) : M (nat * nat) :=
  foldM (handle_entry now) WP_FEATURED_IMAGES (0, 0).

End Command.

(** A store with a post of the table that has no image. *)
Definition heel_post : Post :=
  {| post_pk := 1; post_title := "Humanity's Achilles Heel";
     post_slug := "humanitys-achilles-heel";
     content_md := "Text"; content_html := "Text"; post_excerpt := "";
     post_status := DRAFT; post_author := 1; featured_image := None;
     published_at := None; post_created_at := 0; post_updated_at := 0;
     wp_post_id := None |}.

Definition heel_db : DB := with_posts admin_db [heel_post].

(* ===================================================================== *)
(** * Part II: properties                                                 *)
(* ===================================================================== *)

(** ** Strings *)

Lemma chs_str (l : chars) : chs (str l) = l.
Proof. apply list_ascii_of_string_of_list_ascii. Qed.

Lemma str_chs (s : string) : str (chs s) = s.
Proof. apply string_of_list_ascii_of_string. Qed.

Lemma starts_with_spec (p s : chars) :
  starts_with p s = true <-> exists t, s = p ++ t.
Proof.
  revert s; induction p as [|a p IH]; intros s; simpl.
  - split; eauto.
  - destruct s as [|b s]; simpl.
    + split; [discriminate | intros [t Ht]; discriminate].
    + rewrite andb_true_iff, IH, Ascii.eqb_eq. split.
      * intros [-> [t ->]]; eauto.
      * intros [t Ht]; injection Ht as -> ->; eauto.
Qed.

Lemma starts_with_drop (p s : chars) :
  starts_with p s = true -> s = p ++ drop (length p) s.
Proof.
  intros [t ->]%starts_with_spec. by rewrite drop_app_length.
Qed.

(** ** Stripping *)

Lemma lstrip_suffix (s : chars) : exists a, s = a ++ lstrip s.
Proof.
  induction s as [|c s [a IH]]; simpl.
  - by exists [].
  - destruct (is_space c).
    + exists (c :: a). by rewrite IH at 1.
    + by exists [].
Qed.

Lemma lstrip_head (s : chars) c r :
  lstrip s = c :: r -> is_space c = false.
Proof.
  induction s as [|d s IH]; simpl; [discriminate|].
  destruct (is_space d) eqn:E; [done|]. by intros [= <- _].
Qed.

Lemma lstrip_fixed (s : chars) :
  (forall c r, s = c :: r -> is_space c = false) -> lstrip s = s.
Proof.
  destruct s as [|c r]; [done|]. intros H. simpl. by rewrite (H c r).
Qed.

Lemma lstrip_snoc (s : chars) c :
  is_space c = false -> exists t, lstrip (s ++ [c]) = t ++ [c].
Proof.
  intros Hc. induction s as [|d s [t IH]]; simpl.
  - rewrite Hc. by exists [].
  - destruct (is_space d); [eauto|]. by exists (d :: s).
Qed.

Lemma rstrip_prefix (s : chars) : exists b, s = rstrip s ++ b.
Proof.
  unfold rstrip. destruct (lstrip_suffix (rev s)) as [a Ha].
  exists (rev a). rewrite <- rev_app_distr, <- Ha. by rewrite rev_involutive.
Qed.

Lemma rstrip_last (s : chars) c r :
  rstrip s = r ++ [c] -> is_space c = false.
Proof.
  unfold rstrip. intros H.
  apply (f_equal (@rev ascii)) in H.
  rewrite rev_involutive, rev_app_distr in H. simpl in H.
  by apply lstrip_head in H.
Qed.

Lemma rstrip_head (s : chars) c r :
  (forall c' r', s = c' :: r' -> is_space c' = false) ->
  rstrip s = c :: r -> is_space c = false.
Proof.
  destruct s as [|d s]; [by unfold rstrip|].
  intros Hs H. pose proof (Hs d s eq_refl) as Hd.
  unfold rstrip in H. simpl in H.
  destruct (lstrip_snoc (rev s) d Hd) as [t Ht].
  rewrite Ht, rev_app_distr in H. simpl in H. by injection H as <- _.
Qed.

Lemma rstrip_fixed (s : chars) :
  (forall c r, s = r ++ [c] -> is_space c = false) -> rstrip s = s.
Proof.
  intros H. unfold rstrip. rewrite lstrip_fixed; [apply rev_involutive|].
  intros c r Hr. apply (H c (rev r)).
  by rewrite <- (rev_involutive s), Hr.
Qed.

(** The stripped string is a part of the string, and neither starts nor
    ends with whitespace. *)
Lemma strip_infix (s : chars) : exists a b, s = a ++ strip s ++ b.
Proof.
  unfold strip. destruct (lstrip_suffix s) as [a Ha].
  destruct (rstrip_prefix (lstrip s)) as [b Hb].
  exists a, b. by rewrite <- Hb.
Qed.

Lemma strip_head (s : chars) c r : strip s = c :: r -> is_space c = false.
Proof. apply rstrip_head. apply lstrip_head. Qed.

Lemma strip_last (s : chars) c r : strip s = r ++ [c] -> is_space c = false.
Proof. apply rstrip_last. Qed.

Lemma strip_fixed (s : chars) :
  (forall c r, s = c :: r -> is_space c = false) ->
  (forall c r, s = r ++ [c] -> is_space c = false) ->
  strip s = s.
Proof.
  intros H1 H2. unfold strip. rewrite (lstrip_fixed s H1).
  by apply rstrip_fixed.
Qed.

(** ** Substitution *)

Lemma sub_from_skip r repl k (s : chars) :
  k <= length s -> sub_from r repl k s = sub_from r repl 0 (drop k s).
Proof.
  revert s; induction k as [|k IH]; intros s Hk; [done|].
  destruct s as [|c s]; simpl in Hk; [lia|].
  simpl. apply IH. lia.
Qed.

(** Where the pattern matches at no position, [re.sub] changes nothing. *)
Lemma sub_chars_no_match r repl (s : chars) :
  (forall a t, s = a ++ t -> re_match r t = None) ->
  sub_chars r repl s = s.
Proof.
  unfold sub_chars. induction s as [|c s IH]; intros H; simpl.
  - by rewrite (H [] []).
  - rewrite (H [] (c :: s) eq_refl). f_equal. apply IH.
    intros a t ->. by apply (H (c :: a)).
Qed.

Lemma re_sub_no_match r repl (s : string) :
  (forall a t, chs s = a ++ t -> re_match r t = None) ->
  re_sub r repl s = s.
Proof.
  intros H. unfold re_sub. rewrite sub_chars_no_match by done.
  apply str_chs.
Qed.

(** ** Runs of newlines *)

(** The number of newlines [s] starts with. *)
Definition nls (s : chars) : nat := run_len (OneOf [nl]) None s.

Lemma nls_cons c (s : chars) :
  nls (c :: s) = if Ascii.eqb nl c then S (nls s) else 0.
Proof.
  unfold nls. cbn [run_len cs_mem mem_ascii]. rewrite orb_false_r.
  by destruct (Ascii.eqb nl c).
Qed.

Lemma nls_nl (s : chars) : nls (nl :: s) = S (nls s).
Proof. done. Qed.

Lemma nls_le_length (s : chars) : nls s <= length s.
Proof.
  induction s as [|c s IH]; [done|]. rewrite nls_cons.
  destruct (Ascii.eqb nl c); simpl; lia.
Qed.

Lemma nls_drop (s : chars) : nls (drop (nls s) s) = 0.
Proof.
  induction s as [|c s IH]; [done|]. rewrite nls_cons.
  destruct (Ascii.eqb nl c) eqn:E; simpl; [done|].
  rewrite nls_cons. by rewrite E.
Qed.

Lemma nls_ge3 (s : chars) :
  3 <= nls s -> exists t, s = [nl; nl; nl] ++ t.
Proof.
  intros H.
  destruct s as [|c1 s]; [unfold nls in H; simpl in H; lia|].
  rewrite nls_cons in H. destruct (Ascii.eqb_spec nl c1) as [<-|]; [|lia].
  destruct s as [|c2 s]; [unfold nls in H; simpl in H; lia|].
  rewrite nls_cons in H. destruct (Ascii.eqb_spec nl c2) as [<-|]; [|lia].
  destruct s as [|c3 s]; [unfold nls in H; simpl in H; lia|].
  rewrite nls_cons in H. destruct (Ascii.eqb_spec nl c3) as [<-|]; [|lia].
  by exists s.
Qed.

(** No position of [s] starts a run of three newlines. *)
Fixpoint no3 (s : chars) : Prop :=
  match s with
  | [] => True
  | _ :: s' => nls s < 3 /\ no3 s'
  end.

Lemma no3_no_sub (s : chars) :
  no3 s -> forall a b, s <> a ++ [nl; nl; nl] ++ b.
Proof.
  intros Hs a. revert s Hs. induction a as [|x a IH]; intros s Hs b ->.
  - simpl in Hs. destruct Hs as [Hs _]. rewrite !nls_nl in Hs. lia.
  - simpl in Hs. destruct Hs as [_ Hs]. by eapply IH.
Qed.

Lemma re_match_nl3 (s : chars) :
  re_match nl3_re s =
  if nls s <? 3 then None else Some (drop (nls s) s, []).
Proof.
  unfold re_match, nl3_re. simpl rmatch. fold (nls s).
  destruct (nls s <? 3) eqn:E; [done|].
  apply Nat.ltb_ge in E.
  replace (nls s) with (3 + (nls s - 3)) at 2 by lia.
  by destruct (nls s - 3).
Qed.

Lemma sub_nl3_unfold repl (s : chars) :
  sub_chars nl3_re repl s =
  if nls s <? 3 then
    match s with
    | [] => []
    | c :: s' => c :: sub_chars nl3_re repl s'
    end
  else repl (group []) ++ sub_chars nl3_re repl (drop (nls s) s).
Proof.
  unfold sub_chars. destruct s as [|c s].
  - cbn [sub_from]. by rewrite re_match_nl3.
  - cbn [sub_from]. rewrite re_match_nl3.
    destruct (nls (c :: s) <? 3) eqn:E; [done|].
    apply Nat.ltb_ge in E. f_equal.
    pose proof (nls_le_length (c :: s)) as Hle.
    rewrite length_drop.
    replace (length (c :: s) - (length (c :: s) - nls (c :: s)))
      with (S (nls (c :: s) - 1)) by lia.
    rewrite sub_from_skip by (simpl in Hle; lia).
    replace (nls (c :: s)) with (S (nls (c :: s) - 1)) at 2 by lia.
    done.
Qed.

(** [re.sub(r'\n{3,}', '\n\n', s)] leaves no run of three newlines, and
    starts with as many newlines as [s] does, two at most. *)
Lemma sub_nl3_no3_aux n (s : chars) :
  length s <= n ->
  no3 (sub_chars nl3_re (fun _ => [nl; nl]) s) /\
  nls (sub_chars nl3_re (fun _ => [nl; nl]) s) = Nat.min (nls s) 2.
Proof.
  revert s; induction n as [|n IH]; intros s Hn.
  - destruct s; [|simpl in Hn; lia]. rewrite sub_nl3_unfold. by simpl.
  - rewrite sub_nl3_unfold. destruct (nls s <? 3) eqn:E.
    + apply Nat.ltb_lt in E. destruct s as [|c s]; [done|].
      simpl in Hn. destruct (IH s) as [IH1 IH2]; [lia|].
      rewrite nls_cons in E.
      assert (nls (c :: sub_chars nl3_re (fun _ => [nl; nl]) s)
              = if Ascii.eqb nl c then S (Nat.min (nls s) 2) else 0) as Hc.
      { rewrite nls_cons. by rewrite IH2. }
      split.
      * cbn [no3]. split; [|done]. rewrite Hc.
        destruct (Ascii.eqb nl c); lia.
      * rewrite Hc, nls_cons. destruct (Ascii.eqb nl c); lia.
    + apply Nat.ltb_ge in E.
      pose proof (nls_le_length s) as Hle.
      destruct (IH (drop (nls s) s)) as [IH1 IH2].
      { rewrite length_drop. lia. }
      rewrite nls_drop in IH2. simpl in IH2.
      cbn [app]. split.
      * cbn [no3]. rewrite !nls_nl, IH2. repeat split; [lia|lia|done].
      * rewrite !nls_nl, IH2. lia.
Qed.

Lemma sub_nl3_no3 (s : chars) :
  no3 (sub_chars nl3_re (fun _ => [nl; nl]) s).
Proof. by apply (sub_nl3_no3_aux (length s)). Qed.

(** ** The transcoder's output is whitespace-normalized *)

(** The last two steps of [html_to_markdown], on the characters. *)
Lemma html_to_markdown_last_steps (html : string) :
  html_to_markdown html = "" \/
  exists s, chs (html_to_markdown html)
            = strip (sub_chars nl3_re (fun _ => [nl; nl]) s).
Proof.
  unfold html_to_markdown. destruct (String.eqb html ""); [by left|].
  right. cbv zeta. rewrite chs_str. unfold re_sub at 1. rewrite chs_str.
  eauto.
Qed.

(** The form of every output: no three newlines in a row, no whitespace
    at either end. *)
Lemma html_to_markdown_form (html : string) :
  (forall a b, chs (html_to_markdown html) <> a ++ [nl; nl; nl] ++ b) /\
  (forall c r, chs (html_to_markdown html) = c :: r -> is_space c = false) /\
  (forall c r, chs (html_to_markdown html) = r ++ [c] -> is_space c = false).
Proof.
  destruct (html_to_markdown_last_steps html) as [-> | [s ->]].
  - repeat split; intros x y H; simpl in H.
    + by destruct x.
    + discriminate.
    + by destruct y.
  - repeat split.
    + intros a b H.
      destruct (strip_infix (sub_chars nl3_re (fun _ => [nl; nl]) s))
        as (a' & b' & Hs).
      rewrite H in Hs.
      apply (no3_no_sub _ (sub_nl3_no3 s) (a' ++ a) (b ++ b')).
      rewrite Hs. by rewrite <- !app_assoc.
    + apply strip_head.
    + apply strip_last.
Qed.

(** ** What a match looks like *)

(** The strings a pattern can match, whatever the order in which the
    matcher tries them. *)
Fixpoint lang (r : regex) (w : chars) : Prop :=
  match r with
  | Lit l => w = l
  | Rep cs lo hi _ =>
      Forall (fun c => cs_mem cs c = true) w /\ lo <= length w /\
      forall h, hi = Some h -> length w <= h
  | Grp _ r1 => lang r1 w
  | Cat r1 r2 => exists w1 w2, w = w1 ++ w2 /\ lang r1 w1 /\ lang r2 w2
  end.

Lemma run_len_take cs hi (s : chars) j :
  j <= run_len cs hi s ->
  Forall (fun c => cs_mem cs c = true) (take j s) /\
  length (take j s) = j /\ forall h, hi = Some h -> j <= h.
Proof.
  revert hi s; induction j as [|j IH]; intros hi s Hj.
  - repeat split; [by rewrite take_0 | lia].
  - destruct s as [|c s]; [by destruct hi as [[|h]|]; simpl in Hj; lia|].
    destruct hi as [[|h]|]; simpl in Hj; try lia.
    + destruct (cs_mem cs c) eqn:E; [|lia].
      destruct (IH (Some h) s) as (H1 & H2 & H3); [simpl; lia|].
      repeat split; simpl; [by constructor | lia |].
      intros ? [= <-]. specialize (H3 h eq_refl). lia.
    + destruct (cs_mem cs c) eqn:E; [|lia].
      destruct (IH None s) as (H1 & H2 & H3); [simpl; lia|].
      repeat split; simpl; [by constructor | lia | done].
Qed.

Lemma rep_greedy_some k (s : chars) g lo j res :
  rep_greedy k s g lo j = Some res ->
  exists i, i <= j /\ k (drop (lo + i) s) g = Some res.
Proof.
  induction j as [|j IH]; simpl.
  - destruct (k (drop (lo + 0) s) g) eqn:E; [|done].
    intros [= <-]. exists 0. by split.
  - destruct (k (drop (lo + S j) s) g) eqn:E.
    + intros [= <-]. exists (S j). by split.
    + intros (i & Hi & H)%IH. exists i. split; [lia|done].
Qed.

Lemma rep_lazy_some k (s : chars) g n j res :
  rep_lazy k s g n j = Some res ->
  exists i, i <= j /\ k (drop (n + i) s) g = Some res.
Proof.
  revert n; induction j as [|j IH]; intros n; simpl.
  - destruct (k (drop n s) g) eqn:E; [|done].
    intros [= <-]. exists 0. by rewrite Nat.add_0_r.
  - destruct (k (drop n s) g) eqn:E.
    + intros [= <-]. exists 0. rewrite Nat.add_0_r. split; [lia|done].
    + intros (i & Hi & H)%IH. exists (S i). split; [lia|].
      by replace (n + S i) with (S n + i) by lia.
Qed.

(** The matcher is sound: what it consumes is a string of the pattern. *)
Lemma rmatch_sound r : forall (s : chars) g k res,
  rmatch r s g k = Some res ->
  exists w s' g', s = w ++ s' /\ lang r w /\ k s' g' = Some res.
Proof.
  induction r as [l | cs lo hi greedy | i r IH | r1 IH1 r2 IH2];
    intros s g k res; simpl.
  - destruct (starts_with l s) eqn:E; [|done]. intros H.
    exists l, (drop (length l) s), g. split; [by apply starts_with_drop|done].
  - destruct (run_len cs hi s <? lo) eqn:E; [done|].
    apply Nat.ltb_ge in E. intros H.
    assert (exists i, i <= run_len cs hi s - lo
                      /\ k (drop (lo + i) s) g = Some res)
      as (i & Hi & Hk).
    { destruct greedy; [by apply rep_greedy_some | by apply rep_lazy_some]. }
    destruct (run_len_take cs hi s (lo + i)) as (H1 & H2 & H3); [lia|].
    exists (take (lo + i) s), (drop (lo + i) s), g.
    rewrite H2. split; [by rewrite take_drop|].
    repeat split; [done | lia | done | done].
  - intros (w & s' & g' & -> & Hw & Hk)%IH. eauto 10.
  - intros (w1 & s1 & g1 & -> & Hw1 & H)%IH1.
    apply IH2 in H as (w2 & s2 & g2 & -> & Hw2 & Hk).
    exists (w1 ++ w2), s2, g2. rewrite <- app_assoc. eauto 10.
Qed.

Lemma re_match_sound r (s : chars) rest g :
  re_match r s = Some (rest, g) -> exists w, s = w ++ rest /\ lang r w.
Proof.
  unfold re_match.
  intros (w & s' & g' & -> & Hw & [= -> _])%rmatch_sound. eauto.
Qed.

(** The literal text every match of the pattern starts and ends with. *)
Fixpoint lit_prefix (r : regex) : chars :=
  match r with
  | Lit l => l
  | Rep _ _ _ _ => []
  | Grp _ r1 => lit_prefix r1
  | Cat r1 _ => lit_prefix r1
  end.

Fixpoint lit_suffix (r : regex) : chars :=
  match r with
  | Lit l => l
  | Rep _ _ _ _ => []
  | Grp _ r1 => lit_suffix r1
  | Cat _ r2 => lit_suffix r2
  end.

Lemma lang_lit_prefix r (w : chars) :
  lang r w -> exists t, w = lit_prefix r ++ t.
Proof.
  revert w; induction r as [l | | i r IH | r1 IH1 r2 IH2]; intros w; simpl.
  - intros ->. exists []. by rewrite app_nil_r.
  - by exists w.
  - apply IH.
  - intros (w1 & w2 & -> & [t ->]%IH1 & _). exists (t ++ w2).
    by rewrite app_assoc.
Qed.

Lemma lang_lit_suffix r (w : chars) :
  lang r w -> exists t, w = t ++ lit_suffix r.
Proof.
  revert w; induction r as [l | | i r IH | r1 IH1 r2 IH2]; intros w; simpl.
  - intros ->. by exists [].
  - exists w. by rewrite app_nil_r.
  - apply IH.
  - intros (w1 & w2 & -> & _ & [t ->]%IH2). exists (w1 ++ t).
    by rewrite app_assoc.
Qed.

(** ** HTML tags *)

Definition lt : ascii := "<"%char.
Definition gt : ascii := ">"%char.

(** [s] holds an HTML tag, as the pattern [<[^>]+>] of the script reads
    one: a [<], one character or more that are not [>], and a [>]. *)
Definition has_tag (s : chars) : Prop :=
  exists a w b, s = a ++ lt :: w ++ gt :: b /\ w <> [] /\ gt ∉ w.

(** Every match of the pattern starts with [<] and a character that is
    not [>], and ends with [>]. *)
Definition tag_like (r : regex) : bool :=
  match lit_prefix r with
  | a :: c :: _ =>
      Ascii.eqb a lt && negb (Ascii.eqb c gt) &&
      match last (lit_suffix r) with
      | Some z => Ascii.eqb z gt
      | None => false
      end
  | _ => false
  end.

Lemma tag_like_lang r (w : chars) :
  tag_like r = true -> lang r w ->
  exists x y, w = lt :: x ++ gt :: y /\ x <> [] /\ gt ∉ x.
Proof.
  unfold tag_like. intros H Hw.
  destruct (lang_lit_prefix r w Hw) as [t Ht].
  destruct (lang_lit_suffix r w Hw) as [u Hu].
  destruct (lit_prefix r) as [|a [|c p]]; [done..|].
  destruct (last (lit_suffix r)) as [z|] eqn:Hl;
    [|by rewrite andb_false_r in H].
  apply andb_true_iff in H as [[Ha Hc]%andb_true_iff Hz].
  apply Ascii.eqb_eq in Ha as ->. apply Ascii.eqb_eq in Hz as ->.
  apply negb_true_iff, Ascii.eqb_neq in Hc.
  apply last_Some in Hl as [v Hv]. rewrite Hv in Hu.
  assert (gt ∈ c :: p ++ t) as Hin.
  { assert (last (lt :: c :: p ++ t) = Some gt) as Hlast.
    { change (last (((lt :: c :: p) ++ t)) = Some gt).
      rewrite <- Ht, Hu, app_assoc. apply last_snoc. }
    rewrite last_cons_cons in Hlast.
    apply last_Some in Hlast as [l' ->]. set_solver. }
  apply list_elem_of_split_l in Hin as (x & y & Hxy & Hx).
  exists x, y. split; [|split; [|done]].
  - rewrite Ht. simpl. by rewrite Hxy.
  - intros ->. simpl in Hxy. congruence.
Qed.

(** A pattern of this kind matches nowhere in a text without tags. *)
Lemma tag_like_no_match r (s : chars) :
  tag_like r = true -> ~ has_tag s ->
  forall a t, s = a ++ t -> re_match r t = None.
Proof.
  intros Hr Hs a t ->.
  destruct (re_match r t) as [[rest g]|] eqn:E; [|done].
  destruct Hs.
  apply re_match_sound in E as (w & -> & Hw).
  destruct (tag_like_lang r w Hr Hw) as (x & y & -> & Hx & Hgt).
  exists a, x, (y ++ rest). split; [|done].
  simpl. by rewrite <- app_assoc.
Qed.

Lemma re_sub_no_tag r repl (s : string) :
  tag_like r = true -> ~ has_tag (chs s) -> re_sub r repl s = s.
Proof.
  intros Hr Hs. apply re_sub_no_match. by apply tag_like_no_match.
Qed.

(** ** The transcoder on its own output *)

Lemma nl3_no_match (s : chars) :
  (forall a b, s <> a ++ [nl; nl; nl] ++ b) ->
  forall a t, s = a ++ t -> re_match nl3_re t = None.
Proof.
  intros H a t ->. rewrite re_match_nl3.
  destruct (nls t <? 3) eqn:E; [done|].
  apply Nat.ltb_ge, nls_ge3 in E as [t' ->]. by destruct (H a t').
Qed.

Lemma tag_re_no_match (s : chars) :
  ~ has_tag s -> forall a t, s = a ++ t -> re_match tag_re t = None.
Proof.
  intros Hs a t ->.
  destruct (re_match tag_re t) as [[rest g]|] eqn:E; [|done].
  destruct Hs.
  apply re_match_sound in E as (w & -> & Hw).
  destruct Hw as (w1 & w' & -> & -> & w2 & w3 & -> & (Hall & Hlen & _) & ->).
  exists a, w2, rest. split; [by rewrite <- !app_assoc|].
  split; [by destruct w2; simpl in Hlen; [lia|]|].
  intros Hin. rewrite Forall_forall in Hall. by apply Hall in Hin.
Qed.

(** Markdown without tags that is in the form of an output is left as it
    is. *)
Lemma html_to_markdown_fixed (md : string) :
  ~ has_tag (chs md) ->
  (forall a b, chs md <> a ++ [nl; nl; nl] ++ b) ->
  (forall c r, chs md = c :: r -> is_space c = false) ->
  (forall c r, chs md = r ++ [c] -> is_space c = false) ->
  html_to_markdown md = md.
Proof.
  intros Htag Hnl Hhead Hlast. unfold html_to_markdown.
  destruct (String.eqb_spec md "") as [->|_]; [done|].
  cbv zeta.
  rewrite !(re_sub_no_tag _ _ md) by (reflexivity || assumption).
  rewrite (re_sub_no_match tag_re _ md) by by apply tag_re_no_match.
  rewrite (re_sub_no_match nl3_re _ md) by by apply nl3_no_match.
  rewrite strip_fixed by done. apply str_chs.
Qed.

(** C10: for every input string, the output of [html_to_markdown] contains
    no run of three (or more) consecutive newline characters, and its
    first and its last character, if any, are not whitespace. *)
Theorem html_to_markdown_normalized (html : string) :
  (forall a b, chs (html_to_markdown html) <> a ++ [nl; nl; nl] ++ b) /\
  (forall c r, chs (html_to_markdown html) = c :: r -> is_space c = false) /\
  (forall c r, chs (html_to_markdown html) = r ++ [c] -> is_space c = false).
Proof. apply html_to_markdown_form. Qed.

(** C5: [html_to_markdown] is a function of its input alone: equal
    inputs give equal outputs.  Text without HTML tags that is in the form
    of an output (no three newlines in a row, no whitespace at either end)
    is returned unchanged; so transcoding an output that holds no tag
    again returns it unchanged. *)
Theorem html_to_markdown_stable :
  (forall a b : string, a = b -> html_to_markdown a = html_to_markdown b) /\
  (forall md : string,
     ~ has_tag (chs md) ->
     (forall a b, chs md <> a ++ [nl; nl; nl] ++ b) ->
     (forall c r, chs md = c :: r -> is_space c = false) ->
     (forall c r, chs md = r ++ [c] -> is_space c = false) ->
     html_to_markdown md = md) /\
  (forall html : string,
     ~ has_tag (chs (html_to_markdown html)) ->
     html_to_markdown (html_to_markdown html) = html_to_markdown html).
Proof.
  split; [by intros a b ->|]. split; [apply html_to_markdown_fixed|].
  intros html Htag.
  destruct (html_to_markdown_form html) as (H1 & H2 & H3).
  by apply html_to_markdown_fixed.
Qed.

(** ** The end-to-end scenario *)

(** C2, as the code has it: the scenario imports to one published post
    whose stored Markdown body is [# Hi], a newline and [World]; the tag
    [foo] is created once and attached; two comments are created, comment
    10 without parent and comment 11 with comment 10 as its parent. *)
Theorem scenario_import py_int strptime slugify render_markdown now :
  py_int "1" = Some 1%Z -> py_int "7" = Some 7%Z ->
  py_int "10" = Some 10%Z -> py_int "11" = Some 11%Z ->
  py_int "0" = Some 0%Z ->
  let run := main py_int strptime slugify render_markdown now scenario
               empty_db in
  run.2 = Ok {| tags_created := 1; posts_created := 1;
                comments_created := 2 |} /\
  exists p t c10 c11,
    posts run.1 = [p] /\ wp_post_id p = Some 1%Z /\
    post_status p = PUBLISHED /\ content_md p = scenario_body /\
    tags run.1 = [t] /\ tag_slug t = "foo" /\
    post_tags run.1 = [(post_pk p, tag_pk t)] /\
    comments run.1 = [c10; c11] /\
    wp_comment_id c10 = Some 10%Z /\ wp_comment_id c11 = Some 11%Z /\
    comment_post c10 = post_pk p /\ comment_post c11 = post_pk p /\
    comment_parent c10 = None /\ comment_parent c11 = Some (comment_pk c10).
Proof.
  intros H1 H7 H10 H11 H0 run. subst run.
  unfold main, parse_wordpress_xml, scenario, scenario_item, scenario_comment.
  cbn [mbind M_bind res_bind mret res_ret rmap parse_posts parse_item
       parse_post_fields map_status parse_tag parse_author parse_comment text int_of_text el
       ch_tags ch_items ch_authors x_term_id x_tag_slug x_tag_name
       x_post_type x_status x_pubDate x_content_encoded x_excerpt_encoded
       x_categories x_comments x_post_id x_title x_post_name x_creator
       x_comment_approved x_comment_date x_comment_id x_comment_parent
       x_comment_author x_comment_author_email x_comment_content
       x_author_login x_author_email x_author_display_name].
  rewrite ?H1, ?H7, ?H10, ?H11, ?H0.
  destruct (strptime "2024-01-01 10:00:00" "%Y-%m-%d %H:%M:%S");
    (split; [vm_compute; reflexivity|]);
    eexists _, _, _, _; vm_compute; repeat split.
Qed.

Lemma scenario_import_witness :
  (dec_int "1" = Some 1%Z /\ dec_int "7" = Some 7%Z /\
   dec_int "10" = Some 10%Z /\ dec_int "11" = Some 11%Z /\
   dec_int "0" = Some 0%Z) /\
  let run := main dec_int no_date (fun s => s) (fun s => s) 0%Z scenario
               empty_db in
  run.2 = Ok {| tags_created := 1; posts_created := 1;
                comments_created := 2 |} /\
  exists p t c10 c11,
    posts run.1 = [p] /\ wp_post_id p = Some 1%Z /\
    post_status p = PUBLISHED /\ content_md p = scenario_body /\
    tags run.1 = [t] /\ tag_slug t = "foo" /\
    post_tags run.1 = [(post_pk p, tag_pk t)] /\
    comments run.1 = [c10; c11] /\
    wp_comment_id c10 = Some 10%Z /\ wp_comment_id c11 = Some 11%Z /\
    comment_post c10 = post_pk p /\ comment_post c11 = post_pk p /\
    comment_parent c10 = None /\ comment_parent c11 = Some (comment_pk c10).
Proof.
  split; [repeat split|].
  apply (scenario_import dec_int no_date (fun s => s) (fun s => s) 0%Z);
    reflexivity.
Defined.

(** The body stored for the scenario is not the body the specification
    names: the heading rule writes one newline after the heading, and the
    last step strips the newlines at the end. *)
Lemma scenario_body_counterexample :
  content_md <$>
    posts (main dec_int no_date (fun s => s) (fun s => s) 0%Z scenario
             empty_db).1 = [scenario_body] /\
  html_to_markdown "<h1>Hi</h1><p>World</p>" = scenario_body /\
  scenario_body <> scenario_body_spec.
Proof. repeat split; [vm_compute; reflexivity..|discriminate]. Qed.

(** ** The status mapping of the parser *)

Lemma parse_posts_app py_int strptime (l1 l2 : list xml_item) :
  parse_posts py_int strptime (l1 ++ l2) =
  (p1 ← parse_posts py_int strptime l1;
   p2 ← parse_posts py_int strptime l2;
   Ok (p1 ++ p2)).
Proof.
  induction l1 as [|item l1 IH]; simpl.
  - by destruct (parse_posts py_int strptime l2).
  - destruct (parse_item py_int strptime item) as [[post|]|e]; simpl; [| |done].
    + rewrite IH. destruct (parse_posts py_int strptime l1); simpl; [|done].
      by destruct (parse_posts py_int strptime l2).
    + rewrite IH. destruct (parse_posts py_int strptime l1); simpl; [|done].
      by destruct (parse_posts py_int strptime l2).
Qed.

(** C4: for an item of type post, the status [publish] gives the post
    the status [published], [draft] gives [draft] and [future] gives
    [scheduled], which the importer stores as PUBLISHED, DRAFT and
    SCHEDULED; with any other status (an empty one too) the item alone is
    dropped: the parser's result is the result for the document without
    the item. *)
Theorem parse_status_mapping py_int strptime :
  (forall item,
     x_post_type item = el "post" ->
     (x_status item = el "publish" ->
      parse_item py_int strptime item
      = (post ← parse_post_fields py_int strptime item "published";
         Ok (Some post))) /\
     (x_status item = el "draft" ->
      parse_item py_int strptime item
      = (post ← parse_post_fields py_int strptime item "draft";
         Ok (Some post))) /\
     (x_status item = el "future" ->
      parse_item py_int strptime item
      = (post ← parse_post_fields py_int strptime item "scheduled";
         Ok (Some post)))) /\
  (forall item status post,
     parse_post_fields py_int strptime item status = Ok post ->
     p_status post = status) /\
  (post_status_of "published" = PUBLISHED /\
   post_status_of "draft" = DRAFT /\
   post_status_of "scheduled" = SCHEDULED) /\
  (forall item wp_status before after,
     x_post_type item = el "post" ->
     x_status item = Some wp_status ->
     wp_status <> Some "publish" -> wp_status <> Some "draft" ->
     wp_status <> Some "future" ->
     parse_item py_int strptime item = Ok None /\
     parse_posts py_int strptime (before ++ item :: after)
     = parse_posts py_int strptime (before ++ after)).
Proof.
  split; [|split; [|split]].
  - intros item Ht. unfold parse_item. rewrite Ht. simpl.
    repeat split; intros ->; reflexivity.
  - intros item status post. unfold parse_post_fields.
    destruct (text (x_pubDate item)); simpl; [|done].
    destruct (rmap _ _); simpl; [|done].
    destruct (text (x_post_id item)); simpl; [|done].
    destruct (int_of_text py_int _); simpl; [|done].
    destruct (text (x_title item)); simpl; [|done].
    destruct (text (x_post_name item)); simpl; [|done].
    destruct (text (x_creator item)); simpl; [|done].
    by intros [= <-].
  - done.
  - intros item wp_status before after Ht Hs H1 H2 H3.
    assert (parse_item py_int strptime item = Ok None) as Hitem.
    { unfold parse_item. rewrite Ht, Hs. simpl. unfold map_status.
      by rewrite !bool_decide_eq_false_2. }
    split; [done|].
    rewrite !parse_posts_app. simpl. rewrite Hitem. simpl.
    destruct (parse_posts py_int strptime before); simpl; [|done].
    by destruct (parse_posts py_int strptime after).
Qed.

Lemma parse_status_mapping_witness :
  parse_posts dec_int no_date [scenario_item]
  = Ok [ {| p_id := 1; p_title := "Hi"; p_slug := Some "hi";
            p_content := "<h1>Hi</h1><p>World</p>"; p_excerpt := "";
            p_status := "published"; p_author := Some "chris";
            p_published_at := None; p_tags := [Some "foo"];
            p_comments :=
              [ {| c_id := 10; c_parent := 0; c_author_name := "Ann";
                   c_author_email := "ann@example.org";
                   c_content := "Nice"; c_status := "approved";
                   c_created_at := None |};
                {| c_id := 11; c_parent := 10; c_author_name := "Ann";
                   c_author_email := "ann@example.org";
                   c_content := "Nice"; c_status := "approved";
                   c_created_at := None |} ] |} ].
Proof.
  cbn [parse_posts].
  rewrite (proj1 (proj1 (parse_status_mapping dec_int no_date)
                    scenario_item eq_refl) eq_refl).
  reflexivity.
Defined.

(** ** The media resolver *)

Section MediaFacts.

Variable set_iter : list string -> list string.
Hypothesis set_iter_perm : forall l, set_iter l ≡ₚ l.

Lemma set_add_spec url (urls : list string) :
  NoDup urls ->
  NoDup (set_add url urls) /\
  forall u, u ∈ set_add url urls <-> u ∈ urls \/ u = url.
Proof.
  intros Hnd. unfold set_add. case_bool_decide as Hin.
  - split; [done|]. intros u. split; [by left|]. by intros [?| ->].
  - split.
    + apply NoDup_app. repeat split; [done| |apply NoDup_singleton].
      intros x Hx ->%list_elem_of_singleton. done.
    + intros u. rewrite elem_of_app, list_elem_of_singleton. done.
Qed.

Lemma foldl_add_spec (keep : string -> bool) (l acc : list string) :
  NoDup acc ->
  NoDup (foldl (fun urls url => if keep url then set_add url urls else urls)
           acc l) /\
  forall u,
    u ∈ foldl (fun urls url => if keep url then set_add url urls else urls)
          acc l
    <-> u ∈ acc \/ (u ∈ l /\ keep u = true).
Proof.
  revert acc; induction l as [|x l IH]; intros acc Hnd; simpl.
  - split; [done|]. intros u. rewrite elem_of_nil. tauto.
  - destruct (keep x) eqn:Hk.
    + destruct (set_add_spec x acc Hnd) as [Hnd' Hin].
      destruct (IH _ Hnd') as [H1 H2]. split; [done|].
      intros u. rewrite H2, Hin, elem_of_cons.
      split; [|intros [?|[[->|?] ?]]; eauto].
      intros [[?| ->]|[? ?]]; eauto.
    + destruct (IH _ Hnd) as [H1 H2]. split; [done|].
      intros u. rewrite H2, elem_of_cons.
      split; [intros [?|[? ?]]; eauto|].
      intros [?|[[->|?] ?]]; eauto. congruence.
Qed.

(** C8, as the code has it: [extract_image_urls] returns every
    distinct image URL of the content that passes the domain filter
    exactly once (a Markdown image, or the [src] of an HTML image), in
    the order in which Python iterates over the set: the order of the
    URLs is left open. *)
Theorem extract_image_urls_set (content domain : string) :
  NoDup (extract_image_urls set_iter content domain) /\
  forall url,
    url ∈ extract_image_urls set_iter content domain <->
    (url ∈ str <$> finditer_from md_pattern 1 0 (chs content) \/
     url ∈ str <$> finditer_from html_pattern 1 0 (chs content)) /\
    (contains (chs domain) (chs url) || starts_with (chs "/") (chs url))
    = true.
Proof.
  unfold extract_image_urls.
  set (keep := fun url : string =>
    contains (chs domain) (chs url) || starts_with (chs "/") (chs url)).
  destruct (foldl_add_spec keep
              (str <$> finditer_from md_pattern 1 0 (chs content)) [])
    as [Hnd1 Hin1]; [apply NoDup_nil_2|].
  destruct (foldl_add_spec keep
              (str <$> finditer_from html_pattern 1 0 (chs content)) _ Hnd1)
    as [Hnd2 Hin2].
  split.
  - by rewrite set_iter_perm.
  - intros url. rewrite set_iter_perm.
    specialize (Hin1 url). specialize (Hin2 url).
    rewrite elem_of_nil in Hin1.
    subst keep. cbv beta in Hin1, Hin2. tauto.
Qed.

End MediaFacts.

Lemma extract_image_urls_set_witness :
  (forall l : list string, (fun l => l) l ≡ₚ l) /\
  NoDup (extract_image_urls (fun l => l) order_content_1 "") /\
  forall url,
    url ∈ extract_image_urls (fun l => l) order_content_1 "" <->
    (url ∈ str <$> finditer_from md_pattern 1 0 (chs order_content_1) \/
     url ∈ str <$> finditer_from html_pattern 1 0 (chs order_content_1)) /\
    (contains (chs "") (chs url) || starts_with (chs "/") (chs url)) = true.
Proof.
  split; [reflexivity|].
  apply (extract_image_urls_set (fun l => l)). reflexivity.
Defined.

(** No iteration order of the set makes the result follow the first
    occurrences: the two contents below put the same two URLs into the set
    in the same order (the Markdown images are collected first), and their
    first occurrences are in opposite orders. *)
Lemma extract_image_urls_order_counterexample :
  ~ exists set_iter : list string -> list string,
      (forall l, set_iter l ≡ₚ l) /\
      first_occurrence_order order_content_1
        (extract_image_urls set_iter order_content_1 "") /\
      first_occurrence_order order_content_2
        (extract_image_urls set_iter order_content_2 "").
Proof.
  intros (set_iter & Hperm & H1 & H2).
  assert (extract_image_urls set_iter order_content_1 ""
          = set_iter ["/b.png"; "/a.png"]) as E1 by reflexivity.
  assert (extract_image_urls set_iter order_content_2 ""
          = set_iter ["/b.png"; "/a.png"]) as E2 by reflexivity.
  rewrite E1 in H1. rewrite E2 in H2.
  pose proof (Hperm ["/b.png"; "/a.png"]) as Hp. symmetry in Hp.
  apply Permutation_length_2_inv in Hp as [Hp|Hp]; rewrite Hp in H1, H2.
  - destruct (H1 0 1 "/b.png" "/a.png") as (pu & pv & Hu & Hv & Hlt);
      [done|done|lia|].
    vm_compute in Hu, Hv. injection Hu as <-. injection Hv as <-. lia.
  - destruct (H2 0 1 "/a.png" "/b.png") as (pu & pv & Hu & Hv & Hlt);
      [done|done|lia|].
    vm_compute in Hu, Hv. injection Hu as <-. injection Hv as <-. lia.
Qed.

(** C7 on the code: [process_post_images] looks up no media record
    before it fetches.  For two posts that reference the same image URL it
    stores two media records and rewrites the two bodies to two different
    URLs, although the lookup of the sibling script,
    [find_existing_image], finds the record of the first post for that
    URL. *)
Theorem process_post_images_no_dedup :
  let p1 := media_post 1 "One" "one" in
  let p2 := media_post 2 "Two" "two" in
  let run1 := test_process_post_images p1 media_db in
  let run2 := test_process_post_images p2 run1.1 in
  (run1.2 = Ok 1 /\ run2.2 = Ok 1) /\
  length (images run1.1) = 1 /\
  find_existing_image test_basename media_url run1.1
  = Ok (head (images run1.1)) /\
  length (images run2.1) = 2 /\
  content_md <$> posts run2.1
  = ["![pic](/uploads/images/2024/01/a.png)";
     "![pic](/uploads/images/2024/01/a.png_1)"].
Proof. vm_compute. repeat split. Qed.

(** ** What an import never removes *)

(** [db'] keeps the tag associations, the tags and the posts of [db]. *)
Definition keeps (db db' : DB) : Prop :=
  (forall pt, pt ∈ post_tags db -> pt ∈ post_tags db') /\
  (forall t, t ∈ tags db -> t ∈ tags db') /\
  (forall p, p ∈ posts db -> exists p', p' ∈ posts db' /\ post_pk p' = post_pk p).

Lemma keeps_refl db : keeps db db.
Proof. repeat split; eauto. Qed.

Lemma keeps_trans db1 db2 db3 : keeps db1 db2 -> keeps db2 db3 -> keeps db1 db3.
Proof.
  intros (A1 & B1 & C1) (A2 & B2 & C2). repeat split; eauto.
  intros p (p' & Hp' & <-)%C1. by apply C2.
Qed.

Ltac keeps_same :=
  first [apply keeps_refl | by repeat split; simpl; eauto].

(** A program keeps them whether it ends or raises. *)
Definition keeping {A} (m : M A) : Prop := forall db, keeps db (m db).1.

Lemma keeping_ret {A} (a : A) : keeping (mret a).
Proof. intros db. apply keeps_refl. Qed.

Lemma keeping_raise {A} e : keeping (@raise A e).
Proof. intros db. apply keeps_refl. Qed.

Lemma keeping_bind {A B} (m : M A) (f : A -> M B) :
  keeping m -> (forall a, keeping (f a)) -> keeping (m ≫= f).
Proof.
  intros Hm Hf db. unfold mbind, M_bind.
  specialize (Hm db). destruct (m db) as [db' [a|e]]; simpl in *; [|done].
  eapply keeps_trans; [done|apply Hf].
Qed.

Lemma keeping_foldM {X S} (f : S -> X -> M S) (l : list X) (acc : S) :
  (forall acc x, keeping (f acc x)) -> keeping (foldM f l acc).
Proof.
  intros Hf. revert acc; induction l as [|x l IH]; intros acc; simpl.
  - apply keeping_ret.
  - apply keeping_bind; [apply Hf|apply IH].
Qed.

Lemma keeping_get_or_create_user login email first last staff superuser :
  keeping (get_or_create_user login email first last staff superuser).
Proof.
  intros db. unfold get_or_create_user.
  destruct login as [name|]; [|apply keeps_refl].
  destruct (filter _ _) as [|u [|u' l]]; keeps_same.
Qed.

Lemma keeping_get_or_create_tag slugify slug name term_id :
  keeping (get_or_create_tag slugify slug name term_id).
Proof.
  intros db. unfold get_or_create_tag.
  destruct (match slug with Some _ => _ | None => _ end) as [|t [|t' l]];
    try apply keeps_refl.
  destruct name as [nm|]; [|apply keeps_refl].
  repeat case_bool_decide; try apply keeps_refl.
  repeat split; simpl; eauto. intros t Ht. apply elem_of_app. by left.
Qed.

Lemma keeping_tags_add post tag : keeping (tags_add post tag).
Proof.
  intros db. unfold tags_add. case_bool_decide; [apply keeps_refl|].
  repeat split; simpl; eauto. intros pt Hpt. apply elem_of_app. by left.
Qed.

Lemma keeping_update_or_create_comment now id post parent name email content
  status :
  keeping (update_or_create_comment now id post parent name email content
             status).
Proof.
  intros db. unfold update_or_create_comment.
  destruct (filter _ _) as [|c [|c' l]]; try keeps_same.
  case_bool_decide; keeps_same.
Qed.

Lemma keeping_set_comment_created_at pk t :
  keeping (set_comment_created_at pk t).
Proof. intros db. keeps_same. Qed.

Lemma keeping_update_or_create_post slugify render_markdown now id title slug
  content excerpt status author published :
  keeping (update_or_create_post slugify render_markdown now id title slug
             content excerpt status author published).
Proof.
  intros db. unfold update_or_create_post.
  destruct (filter _ _) as [|p0 [|p' l]] eqn:Hf; try apply keeps_refl.
  - repeat case_bool_decide; try apply keeps_refl.
    repeat split; simpl; eauto. intros p Hp. exists p.
    split; [|done]. apply elem_of_app. by left.
  - case_bool_decide; [apply keeps_refl|].
    repeat split; simpl; eauto. intros p Hp.
    eexists. split; [apply list_elem_of_fmap; by exists p|].
    case_bool_decide as Hid; [|done]. simpl.
    assert (p ∈ [p0]) as ->%list_elem_of_singleton; [|done].
    rewrite <- Hf. by apply list_elem_of_filter.
Qed.

Lemma keeping_import_data slugify render_markdown now data default_author :
  keeping (import_data slugify render_markdown now data default_author).
Proof.
  unfold import_data.
  apply keeping_bind.
  { apply keeping_foldM. intros authors a. unfold import_author.
    apply keeping_bind.
    - destruct (String.eqb _ _); [apply keeping_ret|].
      destruct (py_split _); [apply keeping_raise|apply keeping_ret].
    - intros first. apply keeping_bind;
        [apply keeping_get_or_create_user|].
      intros [user created]. apply keeping_ret. }
  intros authors. apply keeping_bind.
  { apply keeping_foldM. intros [tag_map stats] t. unfold import_tag.
    apply keeping_bind; [apply keeping_get_or_create_tag|].
    intros [tag created]. apply keeping_ret. }
  intros [tag_map stats]. apply keeping_foldM.
  intros stats' p. unfold import_post.
  apply keeping_bind; [apply keeping_update_or_create_post|].
  intros [post created]. apply keeping_bind.
  { apply keeping_foldM. intros _ ts.
    destruct (tag_map !! ts); [apply keeping_tags_add|apply keeping_ret]. }
  intros _. apply keeping_bind.
  { apply keeping_foldM. intros [comment_map st] c. unfold import_comment.
    apply keeping_bind; [apply keeping_update_or_create_comment|].
    intros [comment cr]. apply keeping_bind.
    - destruct (c_created_at c); [|apply keeping_ret].
      destruct cr; [apply keeping_set_comment_created_at|apply keeping_ret].
    - intros _. apply keeping_ret. }
  intros [cm st]. apply keeping_ret.
Qed.

(** C6: an import, a first one or a repeated one, whether it ends or
    raises, removes no tag association: every pair (post, tag) of the
    association table is still there afterwards, whatever tag slugs the
    export lists for the post; the tag is still a row of the tag table,
    unchanged, and the post still has a row with its key. *)
Theorem import_keeps_tags slugify render_markdown now data default_author db :
  let db' :=
    (import_data slugify render_markdown now data default_author db).1 in
  (forall post tag, (post, tag) ∈ post_tags db -> (post, tag) ∈ post_tags db')
  /\ (forall t, t ∈ tags db -> t ∈ tags db')
  /\ (forall p, p ∈ posts db ->
        exists p', p' ∈ posts db' /\ post_pk p' = post_pk p).
Proof.
  destruct (keeping_import_data slugify render_markdown now data
              default_author db) as (H1 & H2 & H3).
  repeat split; eauto.
Qed.

(** ** Loops on the store *)

(** An invariant of a loop that ends without exception: [I pre acc db]
    speaks of the elements [pre] done so far. *)
Lemma foldM_ok_inv {X S} (f : S -> X -> M S) (I : list X -> S -> DB -> Prop)
  (l : list X) :
  (forall pre x suf acc db acc' db',
     l = pre ++ x :: suf -> I pre acc db ->
     f acc x db = (db', Ok acc') -> I (pre ++ [x]) acc' db') ->
  forall acc db acc' db',
    I [] acc db -> foldM f l acc db = (db', Ok acc') -> I l acc' db'.
Proof.
  intros Hstep.
  assert (forall suf pre acc db acc' db',
            l = pre ++ suf -> I pre acc db ->
            foldM f suf acc db = (db', Ok acc') -> I l acc' db') as H.
  { induction suf as [|x suf IH]; intros pre acc db acc' db' Hl HI Hrun.
    - simpl in Hrun. injection Hrun as <- <-. by rewrite Hl, app_nil_r.
    - simpl in Hrun. unfold mbind, M_bind in Hrun.
      destruct (f acc x db) as [db1 [acc1|e]] eqn:Hf; [|done].
      apply (IH (pre ++ [x]) acc1 db1); [by rewrite <- app_assoc| |done].
      by eapply Hstep. }
  intros acc db acc' db'. by apply (H l []).
Qed.

(** A loop whose every turn ends without exception under the invariant
    ends without exception. *)
Lemma foldM_run_inv {X S} (f : S -> X -> M S) (I : list X -> S -> DB -> Prop)
  (l : list X) :
  (forall pre x suf acc db,
     l = pre ++ x :: suf -> I pre acc db ->
     exists acc' db', f acc x db = (db', Ok acc') /\ I (pre ++ [x]) acc' db') ->
  forall acc db,
    I [] acc db ->
    exists acc' db', foldM f l acc db = (db', Ok acc') /\ I l acc' db'.
Proof.
  intros Hstep.
  assert (forall suf pre acc db,
            l = pre ++ suf -> I pre acc db ->
            exists acc' db',
              foldM f suf acc db = (db', Ok acc') /\ I l acc' db') as H.
  { induction suf as [|x suf IH]; intros pre acc db Hl HI.
    - exists acc, db. split; [done|]. by rewrite Hl, app_nil_r.
    - destruct (Hstep pre x suf acc db Hl HI) as (acc1 & db1 & Hf & HI1).
      destruct (IH (pre ++ [x]) acc1 db1) as (acc' & db' & Hrun & HI');
        [by rewrite <- app_assoc|done|].
      exists acc', db'. split; [|done].
      simpl. unfold mbind, M_bind. by rewrite Hf. }
  intros acc db. by apply (H l []).
Qed.

(** A property of the store that every turn keeps, whether it ends or
    raises. *)
Lemma foldM_any_inv {X S} (f : S -> X -> M S) (P : DB -> Prop) (l : list X) :
  (forall acc x db, P db -> P (f acc x db).1) ->
  forall acc db, P db -> P (foldM f l acc db).1.
Proof.
  intros Hf. induction l as [|x l IH]; intros acc db HP; [done|].
  simpl. unfold mbind, M_bind.
  specialize (Hf acc x db HP).
  destruct (f acc x db) as [db1 [acc1|e]]; simpl in *; [by apply IH|done].
Qed.

Lemma bind_ok {A B} (m : M A) (f : A -> M B) db db' b :
  (m ≫= f) db = (db', Ok b) ->
  exists a db1, m db = (db1, Ok a) /\ f a db1 = (db', Ok b).
Proof.
  unfold mbind, M_bind. destruct (m db) as [db1 [a|e]]; [eauto|done].
Qed.

Lemma bind_any {A B} (m : M A) (f : A -> M B) db db' r :
  (m ≫= f) db = (db', r) ->
  (exists e, m db = (db', Raise e)) \/
  (exists a db1, m db = (db1, Ok a) /\ f a db1 = (db', r)).
Proof.
  unfold mbind, M_bind. destruct (m db) as [db1 [a|e]]; [eauto|].
  intros [= <- _]. eauto.
Qed.

(** ** Filters *)

Lemma filter_none {A} (P : A -> Prop) `{forall x, Decision (P x)} (l : list A) :
  (forall x, x ∈ l -> ~ P x) -> filter P l = [].
Proof.
  induction l as [|a l IH]; intros Hl; [done|].
  rewrite filter_cons_False by (apply Hl; left).
  apply IH. intros x Hx. apply Hl. by right.
Qed.

Lemma filter_fmap_stable {A} (P : A -> Prop) `{forall x, Decision (P x)}
  (f : A -> A) (l : list A) :
  (forall x, P (f x) <-> P x) -> filter P (f <$> l) = f <$> filter P l.
Proof.
  intros Hf. induction l as [|a l IH]; [done|].
  rewrite fmap_cons, !filter_cons.
  destruct (decide (P (f a))) as [H1|H1], (decide (P a)) as [H2|H2];
    rewrite ?fmap_cons, IH; try done.
  - destruct H2. by apply Hf.
  - destruct H1. by apply Hf.
Qed.

Lemma fmap_id_on {A} (f : A -> A) (l : list A) :
  (forall x, x ∈ l -> f x = x) -> f <$> l = l.
Proof.
  induction l as [|a l IH]; intros Hl; [done|].
  rewrite fmap_cons, Hl, IH; [done| |left].
  intros x Hx. apply Hl. by right.
Qed.

(** ** The rows of a natural key *)

Definition user_rows (name : string) (db : DB) : list User :=
  filter (fun u => username u = name) (users db).
Definition tag_rows (slug : string) (db : DB) : list Tag :=
  filter (fun t => tag_slug t = slug) (tags db).
Definition post_rows (id : Z) (db : DB) : list Post :=
  filter (fun p => wp_post_id p = Some id) (posts db).
Definition comment_rows (id : Z) (db : DB) : list Comment :=
  filter (fun c => wp_comment_id c = Some id) (comments db).

(** The tables other than [users] are the same in both stores. *)
Definition same_but_users (db db' : DB) : Prop :=
  tags db' = tags db /\ posts db' = posts db /\
  post_tags db' = post_tags db /\ comments db' = comments db /\
  images db' = images db.

Definition same_but_tags (db db' : DB) : Prop :=
  users db' = users db /\ posts db' = posts db /\
  post_tags db' = post_tags db /\ comments db' = comments db /\
  images db' = images db.

(** ** The author mapping *)

(** A turn of the author loop adds at most one user, with a login no user
    had. *)
Lemma import_author_users authors a db db' r :
  import_author authors a db = (db', r) ->
  same_but_users db db' /\
  (users db' = users db \/
   exists u, users db' = users db ++ [u] /\ user_rows (username u) db = []).
Proof.
  unfold import_author.
  intros [[e E0]|(first & db0 & E0 & H)]%bind_any.
  { assert (db' = db) as ->; [|split; [done|by left]].
    destruct (String.eqb _ _); [by injection E0|].
    destruct (py_split _); by injection E0. }
  assert (db0 = db) as ->.
  { destruct (String.eqb _ _); [by injection E0|].
    destruct (py_split _); by injection E0. }
  assert (exists r', get_or_create_user (a_login a) (a_email a) first
            (if String.eqb (a_display_name a) "" then ""
             else join " " (tail (py_split (a_display_name a))))
            false false db = (db', r')) as [r' Hg].
  { apply bind_any in H as [[e He]|([u c] & db1 & Hg & [= <- _])]; eauto. }
  clear H. unfold get_or_create_user in Hg.
  destruct (a_login a) as [name|];
    [|injection Hg as <- _; split; [done|by left]].
  destruct (filter _ _) as [|u [|u' l]] eqn:Hf; injection Hg as <- _;
    (split; [done|]); [|by left..].
  right. eexists. split; [done|]. done.
Qed.

Lemma user_rows_snoc name db u :
  user_rows name (with_users db (users db ++ [u])) =
  user_rows name db ++ (if bool_decide (username u = name) then [u] else []).
Proof.
  unfold user_rows. simpl. rewrite filter_app. f_equal.
  rewrite filter_cons, filter_nil. case_bool_decide; by case_decide.
Qed.

(** Once a login has exactly one user, the author loop leaves it so. *)
Lemma import_authors_keeps_user name u l acc db :
  user_rows name db = [u] ->
  user_rows name (foldM import_author l acc db).1 = [u].
Proof.
  apply (foldM_any_inv import_author (fun db => user_rows name db = [u])).
  clear. intros acc a db Hu.
  destruct (import_author acc a db) as [db' r] eqn:E.
  destruct (import_author_users acc a db db' r E) as [_ [H|(u' & H & Hnew)]];
    simpl.
  - unfold user_rows in *. by rewrite H.
  - unfold user_rows in *. rewrite H, filter_app, Hu.
    rewrite filter_cons, filter_nil.
    case_decide as Hn; [|done]. rewrite Hn in Hnew. by rewrite Hnew in Hu.
Qed.


(** A turn of the author loop that ends: the login is there, it has
    exactly one user afterwards, and the mapping sends the login to the
    key of that user. *)
Lemma import_author_ok authors a db db' authors' :
  import_author authors a db = (db', Ok authors') ->
  exists name u,
    a_login a = Some name /\ user_rows name db' = [u] /\
    authors' = <[Some name := user_pk u]> authors /\
    (db' = db \/ user_rows name db = []).
Proof.
  unfold import_author. intros (first & db0 & E0 & H)%bind_ok.
  assert (db0 = db) as ->.
  { destruct (String.eqb _ _); [by injection E0|].
    destruct (py_split _); by injection E0. }
  apply bind_ok in H as ([u created] & db1 & Hg & Hret).
  injection Hret as <- <-.
  unfold get_or_create_user in Hg.
  destruct (a_login a) as [name|]; [|done].
  exists name, u. split; [done|].
  destruct (filter _ _) as [|u0 [|u' l]] eqn:Hf; [| |done].
  - injection Hg as <- <- <-. split; [|split; [done|by right]].
    rewrite user_rows_snoc. unfold user_rows. rewrite Hf. simpl.
    by rewrite bool_decide_eq_true_2.
  - injection Hg as <- <- <-. split; [done|]. split; [done|by left].
Qed.

(** What the author mapping is after the loop: every login of the export
    has exactly one user, and the mapping sends it to the key of that
    user; any other key has the value it had. *)
Definition authors_of (l : list wp_author) (db : DB)
  (authors : gmap (option string) nat) : Prop :=
  (forall a, a ∈ l ->
     exists name u, a_login a = Some name /\ user_rows name db = [u] /\
                    authors !! Some name = Some (user_pk u)) /\
  (forall k, k ∉ a_login <$> l -> authors !! k = None).

Lemma import_authors_ok l db db' authors :
  foldM import_author l ∅ db = (db', Ok authors) -> authors_of l db' authors.
Proof.
  assert (forall l acc db db' authors,
    foldM import_author l acc db = (db', Ok authors) ->
    (forall a, a ∈ l ->
       exists name u, a_login a = Some name /\ user_rows name db' = [u] /\
                      authors !! Some name = Some (user_pk u)) /\
    (forall k, k ∉ a_login <$> l -> authors !! k = acc !! k)) as H.
  { clear. induction l as [|a l IH]; intros acc db db' authors Hrun.
    - injection Hrun as <- <-. split; [by intros a Ha%elem_of_nil|done].
    - simpl in Hrun. apply bind_ok in Hrun as (acc1 & db1 & Ha & Hrest).
      destruct (import_author_ok _ _ _ _ _ Ha)
        as (name & u & Hlogin & Hrows & -> & _).
      destruct (IH _ _ _ _ Hrest) as [IH1 IH2]. split.
      + intros a' [->|Ha']%elem_of_cons; [|by apply IH1].
        exists name, u. split; [done|].
        pose proof (import_authors_keeps_user name u l
                      (<[Some name:=user_pk u]> acc) db1 Hrows) as Hkeep.
        rewrite Hrest in Hkeep. simpl in Hkeep. split; [done|].
        destruct (decide (Some name ∈ a_login <$> l)) as [Hin|Hnin].
        * apply list_elem_of_fmap in Hin as (a2 & Ha2 & Hin).
          destruct (IH1 a2 Hin) as (name2 & u2 & Hl2 & Hr2 & Hm2).
          rewrite Hl2 in Ha2. injection Ha2 as ->.
          rewrite Hr2 in Hkeep. by injection Hkeep as ->.
        * rewrite IH2 by done. apply lookup_insert_eq.
      + intros k Hk. rewrite fmap_cons, not_elem_of_cons in Hk.
        destruct Hk as [Hk1 Hk2]. rewrite IH2 by done.
        rewrite Hlogin in Hk1. by rewrite lookup_insert_ne. }
  intros Hrun. destruct (H _ _ _ _ _ Hrun) as [H1 H2]. split; [done|].
  intros k Hk. by rewrite H2.
Qed.

(** Two mappings for the same logins in the same store are equal. *)
Lemma authors_of_unique l db m1 m2 :
  authors_of l db m1 -> authors_of l db m2 -> m1 = m2.
Proof.
  intros [A1 B1] [A2 B2]. apply map_eq. intros k.
  destruct (decide (k ∈ a_login <$> l)) as [Hin|Hnin].
  - apply list_elem_of_fmap in Hin as (a & -> & Ha).
    destruct (A1 a Ha) as (n1 & u1 & L1 & R1 & M1).
    destruct (A2 a Ha) as (n2 & u2 & L2 & R2 & M2).
    rewrite L1 in L2. injection L2 as <-. rewrite R1 in R2.
    injection R2 as <-. rewrite L1. congruence.
  - by rewrite B1, B2.
Qed.

(** The display name of the author can be split and the login is there:
    what a turn of the author loop needs besides the store. *)
Definition author_ok (a : wp_author) : Prop :=
  (String.eqb (a_display_name a) "" = true \/
   py_split (a_display_name a) <> []) /\ is_Some (a_login a).

Lemma import_author_author_ok authors a db db' authors' :
  import_author authors a db = (db', Ok authors') -> author_ok a.
Proof.
  intros H. destruct (import_author_ok _ _ _ _ _ H) as (name & u & Hl & _).
  split; [|by rewrite Hl].
  unfold import_author in H. apply bind_ok in H as (first & db0 & E0 & _).
  destruct (String.eqb _ _); [by left|]. right.
  by destruct (py_split _).
Qed.

(** A turn of the author loop for a login that has its user changes
    nothing. *)
Lemma import_author_found authors a db name u :
  author_ok a -> a_login a = Some name -> user_rows name db = [u] ->
  import_author authors a db = (db, Ok (<[Some name := user_pk u]> authors)).
Proof.
  intros [Hd _] Hl Hu. unfold import_author, mbind, M_bind.
  assert (exists first,
    (if String.eqb (a_display_name a) "" then mret (M:=M) ""
     else match py_split (a_display_name a) with
          | [] => raise IndexError
          | w :: _ => mret w
          end) db = (db, Ok first)) as [first ->].
  { destruct (String.eqb _ _); [by eexists|].
    destruct Hd as [?|Hd]; [done|].
    destruct (py_split _); [done|by eexists]. }
  unfold get_or_create_user. rewrite Hl.
  unfold user_rows in Hu. rewrite Hu. done.
Qed.

Lemma import_authors_author_ok l acc db db' authors :
  foldM import_author l acc db = (db', Ok authors) ->
  forall a, a ∈ l -> author_ok a.
Proof.
  revert acc db. induction l as [|a l IH]; intros acc db Hrun a' Ha';
    [by apply elem_of_nil in Ha'|].
  simpl in Hrun. apply bind_ok in Hrun as (acc1 & db1 & Ha & Hrest).
  apply elem_of_cons in Ha' as [->|Ha'].
  - by eapply import_author_author_ok.
  - by eapply IH.
Qed.

(** The author loop run again on the users it left changes nothing and
    builds the same mapping. *)
Lemma import_authors_again l db db' authors db2 :
  foldM import_author l ∅ db = (db', Ok authors) ->
  users db2 = users db' ->
  foldM import_author l ∅ db2 = (db2, Ok authors).
Proof.
  intros Hrun Husers.
  pose proof (import_authors_ok _ _ _ _ Hrun) as Hspec.
  pose proof (import_authors_author_ok _ _ _ _ _ Hrun) as Hok.
  destruct (foldM_run_inv import_author (fun _ _ db => db = db2) l)
    with (acc := (∅ : gmap (option string) nat)) (db := db2)
    as (authors2 & db3 & Hrun2 & ->); [|done|].
  { intros pre a suf acc ? -> ->.
    destruct Hspec as [Hspec _].
    destruct (Hspec a) as (name & u & Hl & Hu & _); [set_solver|].
    eexists _, db2. split; [|done].
    apply import_author_found; [apply Hok; set_solver|done|].
    unfold user_rows in *. by rewrite Husers. }
  rewrite Hrun2. do 2 f_equal.
  apply (authors_of_unique l db2); [by eapply import_authors_ok|].
  destruct Hspec as [A B]. split; [|done].
  intros a Ha. destruct (A a Ha) as (name & u & ? & Hu & ?).
  exists name, u. unfold user_rows in *. by rewrite Husers.
Qed.

(** ** The tag mapping *)

Lemma tag_rows_snoc slug db t :
  tag_rows slug (with_tags db (tags db ++ [t])) =
  tag_rows slug db ++ (if bool_decide (tag_slug t = slug) then [t] else []).
Proof.
  unfold tag_rows. simpl. rewrite filter_app. f_equal.
  rewrite filter_cons, filter_nil. case_bool_decide; by case_decide.
Qed.

Section TagFacts.

Variable slugify : string -> string.

(** What [get_or_create_tag] does when it ends. *)
Lemma get_or_create_tag_ok slug name term_id db db' tag created :
  get_or_create_tag slugify slug name term_id db = (db', Ok (tag, created)) ->
  (created = false /\ db' = db /\
   exists sl row, slug = Some sl /\ tag_rows sl db = [row] /\
                  tag_pk row = tag) \/
  (created = true /\
   exists nm row,
     name = Some nm /\ db' = with_tags db (tags db ++ [row]) /\
     tag_pk row = tag /\ tag_slug row = or_str slug (slugify nm) /\
     tag_name row = nm /\
     tag_rows (tag_slug row) db = [] /\
     (forall sl, slug = Some sl -> tag_rows sl db = [])).
Proof.
  unfold get_or_create_tag. intros H.
  destruct (match slug with Some _ => _ | None => _ end)
    as [|t [|t' l]] eqn:Hf; [| |done].
  - right. destruct name as [nm|]; [|done].
    repeat case_bool_decide; try done.
    injection H as <- <- <-. split; [done|].
    eexists nm, _. repeat split; try done.
    + simpl. unfold tag_rows.
      match goal with H : ?s ∉ _ |- _ => rename H into Hnew end.
      apply filter_none. intros x Hx Hsl. apply Hnew.
      apply list_elem_of_fmap. by exists x.
    + intros sl ->. done.
  - left. injection H as <- <- <-. split; [done|]. split; [done|].
    destruct slug as [sl|]; [|done]. by exists sl, t.
Qed.

(** A turn of the tag loop adds at most one tag, with a slug no tag had. *)
Lemma import_tag_tags acc t db db' r :
  import_tag slugify acc t db = (db', r) ->
  same_but_tags db db' /\
  (tags db' = tags db \/
   exists row, tags db' = tags db ++ [row] /\ tag_rows (tag_slug row) db = []).
Proof.
  unfold import_tag. destruct acc as [tag_map stats].
  intros H.
  assert (exists r', get_or_create_tag slugify (t_slug t) (t_name t)
                       (t_term_id t) db = (db', r')) as [r' Hg].
  { apply bind_any in H as [[e He]|([u c] & db1 & Hg & [= <- _])]; eauto. }
  clear H. destruct r' as [[tag created]|e].
  - apply get_or_create_tag_ok in Hg
      as [(_ & -> & _)|(_ & nm & row & _ & -> & _ & _ & _ & Hnew & _)].
    + split; [done|by left].
    + split; [done|]. right. by exists row.
  - assert (db' = db) as ->; [|split; [done|by left]].
    unfold get_or_create_tag in Hg.
    destruct (match t_slug t with Some _ => _ | None => _ end)
      as [|t0 [|t' l]]; [|by injection Hg..].
    destruct (t_name t); [|by injection Hg].
    repeat case_bool_decide; by injection Hg.
Qed.

Lemma import_tags_keeps_tag slug row l acc db :
  tag_rows slug db = [row] ->
  tag_rows slug (foldM (import_tag slugify) l acc db).1 = [row].
Proof.
  apply (foldM_any_inv (import_tag slugify)
           (fun db => tag_rows slug db = [row])).
  clear. intros acc t db Hrow.
  destruct (import_tag slugify acc t db) as [db' r] eqn:E.
  destruct (import_tag_tags acc t db db' r E) as [_ [H|(row' & H & Hnew)]];
    simpl.
  - unfold tag_rows in *. by rewrite H.
  - unfold tag_rows in *. rewrite H, filter_app, Hrow.
    rewrite filter_cons, filter_nil.
    case_decide as Hn; [|done]. rewrite Hn in Hnew. by rewrite Hnew in Hrow.
Qed.

Lemma import_tags_same_but_tags l acc db :
  same_but_tags db (foldM (import_tag slugify) l acc db).1.
Proof.
  apply (foldM_any_inv (import_tag slugify) (same_but_tags db)); [|done].
  intros acc' t db' (H1 & H2 & H3 & H4 & H5).
  destruct (import_tag slugify acc' t db') as [db2 r] eqn:E.
  destruct (import_tag_tags acc' t db' db2 r E)
    as [(G1 & G2 & G3 & G4 & G5) _].
  repeat split; simpl; congruence.
Qed.

(** A turn of the tag loop that ends, for a tag with a slug. *)
Lemma import_tag_ok tag_map stats t db db' tag_map' stats' sl :
  import_tag slugify (tag_map, stats) t db = (db', Ok (tag_map', stats')) ->
  t_slug t = Some sl -> sl <> "" ->
  exists row, tag_rows sl db' = [row] /\
              tag_map' = <[Some sl := tag_pk row]> tag_map.
Proof.
  unfold import_tag. intros ([tag created] & db1 & Hg & Hret)%bind_ok Hsl Hne.
  injection Hret as <- <- <-. rewrite Hsl in *.
  apply get_or_create_tag_ok in Hg
    as [(_ & -> & sl' & row & [= <-] & Hrow & <-)
       |(_ & nm & row & _ & -> & <- & Hslug & _ & _ & Hnew)].
  - by exists row.
  - exists row. split; [|done].
    assert (tag_slug row = sl) as Hrs.
    { rewrite Hslug. simpl. destruct (String.eqb_spec sl ""); done. }
    rewrite tag_rows_snoc, (Hnew sl eq_refl). simpl.
    by rewrite bool_decide_eq_true_2.
Qed.

(** What the tag mapping is after the loop: every slug of the export that
    is not empty has exactly one tag, and the mapping sends it to the key
    of that tag; a key that is no slug of the export has no value. *)
Definition tags_of (l : list wp_tag) (db : DB)
  (tag_map : gmap (option string) nat) : Prop :=
  (forall t sl, t ∈ l -> t_slug t = Some sl -> sl <> "" ->
     exists row, tag_rows sl db = [row] /\
                 tag_map !! Some sl = Some (tag_pk row)) /\
  (forall k, k ∉ t_slug <$> l -> tag_map !! k = None).

Lemma import_tags_ok l db db' tag_map stats stats' :
  foldM (import_tag slugify) l (∅, stats) db = (db', Ok (tag_map, stats')) ->
  tags_of l db' tag_map.
Proof.
  assert (forall l acc stats db db' tag_map stats',
    foldM (import_tag slugify) l (acc, stats) db
    = (db', Ok (tag_map, stats')) ->
    (forall t sl, t ∈ l -> t_slug t = Some sl -> sl <> "" ->
       exists row, tag_rows sl db' = [row] /\
                   tag_map !! Some sl = Some (tag_pk row)) /\
    (forall k, k ∉ t_slug <$> l -> tag_map !! k = acc !! k)) as H.
  { clear. induction l as [|t l IH];
      intros acc stats db db' tag_map stats' Hrun.
    - injection Hrun as <- <- <-. split; [|done].
      by intros t sl Ht%elem_of_nil.
    - simpl in Hrun.
      apply bind_ok in Hrun as ([acc1 stats1] & db1 & Ht & Hrest).
      destruct (IH _ _ _ _ _ _ Hrest) as [IH1 IH2]. split.
      + intros t' sl [->|Ht']%elem_of_cons Hsl Hne; [|by eapply IH1].
        destruct (import_tag_ok _ _ _ _ _ _ _ sl Ht Hsl Hne)
          as (row & Hrow & ->).
        exists row.
        pose proof (import_tags_keeps_tag sl row l
                      (<[Some sl:=tag_pk row]> acc, stats1) db1 Hrow) as Hkeep.
        rewrite Hrest in Hkeep. simpl in Hkeep. split; [done|].
        destruct (decide (Some sl ∈ t_slug <$> l)) as [Hin|Hnin].
        * apply list_elem_of_fmap in Hin as (t2 & Ht2 & Hin).
          destruct (IH1 t2 sl Hin (eq_sym Ht2) Hne) as (row2 & Hr2 & Hm2).
          rewrite Hr2 in Hkeep. by injection Hkeep as ->.
        * rewrite IH2 by done. apply lookup_insert_eq.
      + intros k Hk. rewrite fmap_cons, not_elem_of_cons in Hk.
        destruct Hk as [Hk1 Hk2]. rewrite IH2 by done.
        unfold import_tag in Ht.
        apply bind_ok in Ht as ([tag created] & db2 & _ & Hret).
        injection Hret as <- <- <-. by rewrite lookup_insert_ne. }
  intros Hrun. destruct (H _ _ _ _ _ _ _ Hrun) as [H1 H2]. split; [done|].
  intros k Hk. by rewrite H2.
Qed.

(** Every tag of the export has a slug that is not empty. *)
Definition tags_have_slug (l : list wp_tag) : Prop :=
  forall t, t ∈ l -> exists sl, t_slug t = Some sl /\ sl <> "".

Lemma tags_of_unique l db m1 m2 :
  tags_have_slug l -> tags_of l db m1 -> tags_of l db m2 -> m1 = m2.
Proof.
  intros Hl [A1 B1] [A2 B2]. apply map_eq. intros k.
  destruct (decide (k ∈ t_slug <$> l)) as [Hin|Hnin].
  - apply list_elem_of_fmap in Hin as (t & -> & Ht).
    destruct (Hl t Ht) as (sl & Hsl & Hne).
    destruct (A1 t sl Ht Hsl Hne) as (r1 & R1 & M1).
    destruct (A2 t sl Ht Hsl Hne) as (r2 & R2 & M2).
    rewrite R1 in R2. injection R2 as <-. rewrite Hsl. congruence.
  - by rewrite B1, B2.
Qed.

(** A turn of the tag loop for a slug that has its tag changes nothing. *)
Lemma import_tag_found tag_map stats t db sl row :
  t_slug t = Some sl -> tag_rows sl db = [row] ->
  import_tag slugify (tag_map, stats) t db
  = (db, Ok (<[Some sl := tag_pk row]> tag_map, stats)).
Proof.
  intros Hsl Hrow. unfold import_tag, mbind, M_bind, get_or_create_tag.
  rewrite Hsl. unfold tag_rows in Hrow. by rewrite Hrow.
Qed.

(** The tag loop run again on the tags it left changes nothing, creates
    nothing and builds the same mapping. *)
Lemma import_tags_again l db db' tag_map stats stats' db2 stats2 :
  tags_have_slug l ->
  foldM (import_tag slugify) l (∅, stats) db = (db', Ok (tag_map, stats')) ->
  tags db2 = tags db' ->
  foldM (import_tag slugify) l (∅, stats2) db2 = (db2, Ok (tag_map, stats2)).
Proof.
  intros Hl Hrun Htags.
  pose proof (import_tags_ok _ _ _ _ _ _ Hrun) as Hspec.
  destruct (foldM_run_inv (import_tag slugify)
              (fun _ acc db => db = db2 /\ acc.2 = stats2) l)
    with (acc := ((∅ : gmap (option string) nat), stats2)) (db := db2)
    as ([tag_map2 st] & db3 & Hrun2 & -> & Hst); [|done|].
  { intros pre t suf [m st] ? -> [-> Hst]. simpl in Hst. subst st.
    destruct (Hl t) as (sl & Hsl & Hne); [set_solver|].
    destruct Hspec as [Hspec _].
    destruct (Hspec t sl) as (row & Hrow & _); [set_solver|done|done|].
    eexists (_, stats2), db2. split; [|done].
    apply import_tag_found; [done|].
    unfold tag_rows in *. by rewrite Htags. }
  simpl in Hst. subst st. rewrite Hrun2. do 3 f_equal.
  apply (tags_of_unique l db2); [done|by eapply import_tags_ok|].
  destruct Hspec as [A B]. split; [|done].
  intros t sl Ht Hsl Hne. destruct (A t sl Ht Hsl Hne) as (row & Hr & ?).
  exists row. unfold tag_rows in *. by rewrite Htags.
Qed.

End TagFacts.

(** ** Upserting a post *)

Definition same_but_posts (db db' : DB) : Prop :=
  users db' = users db /\ tags db' = tags db /\
  post_tags db' = post_tags db /\ comments db' = comments db /\
  images db' = images db.

Definition same_but_post_tags (db db' : DB) : Prop :=
  users db' = users db /\ tags db' = tags db /\
  posts db' = posts db /\ comments db' = comments db /\
  images db' = images db.

Definition same_but_comments (db db' : DB) : Prop :=
  users db' = users db /\ tags db' = tags db /\
  posts db' = posts db /\ post_tags db' = post_tags db /\
  images db' = images db.

(** No other row has the slug of the post [id]. *)
Definition slug_is_of (id : Z) (slug : string) (db : DB) : Prop :=
  forall x, x ∈ posts db -> post_slug x = slug -> wp_post_id x = Some id.

Section PostFacts.

Variable slugify : string -> string.
Variable render_markdown : string -> string.

(** What [update_or_create_post] does when it ends: the post has one
    row, with the fields of [defaults] and a slug no other row has; the
    rows of the other posts are as they were. *)
Lemma update_or_create_post_ok now id title slug content excerpt status
  author published db db' pk created :
  update_or_create_post slugify render_markdown now id title slug content
    excerpt status author published db = (db', Ok (pk, created)) ->
  same_but_posts db db' /\
  (exists r,
     post_rows id db' = [r] /\ post_pk r = pk /\
     wp_post_id r = Some id /\ post_title r = title /\
     content_md r = content /\ post_excerpt r = excerpt /\
     post_status r = status /\ post_author r = author /\
     (slug <> "" -> post_slug r = slug) /\
     slug_is_of id (post_slug r) db' /\
     (forall x, x ∈ posts db -> wp_post_id x <> Some id ->
                post_slug x <> post_slug r)) /\
  (forall id', id' <> id -> post_rows id' db' = post_rows id' db) /\
  (forall x, x ∈ posts db' ->
             wp_post_id x = Some id \/ (x ∈ posts db /\ wp_post_id x <> Some id)) /\
  (created = true -> post_rows id db = []) /\
  (created = false -> exists r0, post_rows id db = [r0] /\ post_pk r0 = pk).
Proof.
  unfold update_or_create_post. intros H.
  destruct (filter (fun p => wp_post_id p = Some id) (posts db))
    as [|p0 [|p' l]] eqn:Hf; [| |done].
  - (* create *)
    case_bool_decide as Hneg; [done|].
    case_bool_decide as Hslug; [done|].
    injection H as <- <- <-. split; [done|].
    set (r := {| post_pk := fresh_pk (post_pk <$> posts db);
                 post_title := title |}).
    assert (forall x, x ∈ posts db -> wp_post_id x <> Some id) as Hother.
    { intros x Hx Hid. eapply (filter_nil_not_elem_of _ _ x Hf); done. }
    split; [|split; [|split; [|split; [done|done]]]].
    + exists r. unfold post_rows. simpl. rewrite filter_app, Hf.
      rewrite filter_cons_True by done. rewrite filter_nil.
      repeat split; try done.
      * intros Hne. unfold save_slug.
        by destruct (String.eqb_spec slug "").
      * intros x [Hx| ->%list_elem_of_singleton]%elem_of_app Hs; [|done].
        destruct Hslug. apply list_elem_of_fmap. eauto.
      * intros x Hx _ Hs. destruct Hslug. apply list_elem_of_fmap. eauto.
    + intros id' Hid'. unfold post_rows. simpl. rewrite filter_app.
      rewrite filter_cons_False, filter_nil, app_nil_r; [done|].
      simpl. congruence.
    + simpl. intros x [Hx| ->%list_elem_of_singleton]%elem_of_app;
        [right|by left]. split; [done|by apply Hother].
  - (* update *)
    case_bool_decide as Hslug; [done|].
    injection H as <- <- <-. split; [done|].
    assert (p0 ∈ posts db /\ wp_post_id p0 = Some id) as [Hp0 Hid0].
    { assert (p0 ∈ [p0]) as Hin by set_solver. rewrite <- Hf in Hin.
      apply list_elem_of_filter in Hin. tauto. }
    set (r := {| post_pk := post_pk p0; post_title := title |}).
    set (others := filter (fun p => wp_post_id p <> Some id) (posts db))
      in *.
    assert (forall id',
      filter (fun p => wp_post_id p = Some id')
        ((fun x => if bool_decide (wp_post_id x = Some id) then r else x)
           <$> posts db)
      = (fun x => if bool_decide (wp_post_id x = Some id) then r else x)
          <$> filter (fun p => wp_post_id p = Some id') (posts db))
      as Hmap.
    { intros id'. apply filter_fmap_stable. intros x.
      case_bool_decide as Hx; [|done]. simpl. by rewrite Hid0, Hx. }
    split; [|split; [|split; [|split; [done|]]]].
    + exists r. unfold post_rows. simpl. rewrite Hmap, Hf. simpl.
      rewrite bool_decide_eq_true_2 by done.
      repeat split; try done.
      * intros Hne. unfold save_slug.
        by destruct (String.eqb_spec slug "").
      * intros x (y & -> & Hy)%list_elem_of_fmap Hs.
        case_bool_decide as Hyid; [done|].
        destruct Hslug. apply list_elem_of_fmap. exists y.
        split; [done|]. by apply list_elem_of_filter.
      * intros x Hx Hxid Hs. destruct Hslug. apply list_elem_of_fmap.
        exists x. split; [done|]. by apply list_elem_of_filter.
    + intros id' Hid'. unfold post_rows. simpl. rewrite Hmap.
      apply fmap_id_on. intros x [Hx _]%list_elem_of_filter.
      rewrite bool_decide_eq_false_2; [done|]. congruence.
    + simpl. intros x (y & -> & Hy)%list_elem_of_fmap.
      case_bool_decide as Hyid; [by left|by right].
    + intros _. exists p0. split; [|done]. done.
Qed.

End PostFacts.

(** ** Attaching tags *)

Lemma with_same db :
  {| users := users db; tags := tags db; posts := posts db;
     post_tags := post_tags db; comments := comments db;
     images := images db |} = db.
Proof. by destruct db. Qed.

(** The loop that attaches the tags of a post never raises; it adds the
    missing associations and removes none. *)
Lemma tags_loop_ok (tag_map : gmap (option string) nat) post
  (l : list (option string)) db :
  exists db',
    foldM (fun (_ : unit) tag_slug =>
             match tag_map !! tag_slug with
             | Some tag => tags_add post tag
             | None => mret ()
             end) l () db = (db', Ok ()) /\
    same_but_post_tags db db' /\
    (forall pt, pt ∈ post_tags db -> pt ∈ post_tags db') /\
    (forall ts tag, ts ∈ l -> tag_map !! ts = Some tag ->
                    (post, tag) ∈ post_tags db') /\
    ((forall ts tag, ts ∈ l -> tag_map !! ts = Some tag ->
                     (post, tag) ∈ post_tags db) -> db' = db).
Proof.
  revert db. induction l as [|ts l IH]; intros db.
  - exists db. repeat split; try done. by intros ts tag Hts%elem_of_nil.
  - simpl. unfold mbind, M_bind.
    assert (exists db1,
      match tag_map !! ts with
      | Some tag => tags_add post tag
      | None => mret ()
      end db = (db1, Ok ()) /\ same_but_post_tags db db1 /\
      (forall pt, pt ∈ post_tags db -> pt ∈ post_tags db1) /\
      (forall tag, tag_map !! ts = Some tag -> (post, tag) ∈ post_tags db1) /\
      ((forall tag, tag_map !! ts = Some tag -> (post, tag) ∈ post_tags db)
       -> db1 = db)) as (db1 & -> & S1 & M1 & A1 & N1).
    { destruct (tag_map !! ts) as [tag|]; [|by exists db].
      unfold tags_add. case_bool_decide as Hin.
      - exists db. repeat split; try done. by intros ? [= <-].
      - eexists. split; [done|]. repeat split; simpl.
        + intros pt Hpt. apply elem_of_app. by left.
        + intros ? [= <-]. apply elem_of_app. right. by left.
        + intros Hall. by destruct Hin; apply Hall. }
    destruct (IH db1) as (db' & -> & S2 & M2 & A2 & N2).
    exists db'. split; [done|].
    destruct S1 as (?&?&?&?&?), S2 as (?&?&?&?&?).
    repeat split; try congruence.
    + eauto.
    + intros ts' tag [->|Hts]%elem_of_cons Htag; eauto.
    + intros Hall. rewrite N2.
      * apply N1. intros tag Htag. apply (Hall ts); [by left|done].
      * rewrite N1.
        -- intros ts' tag Hts Htag. apply (Hall ts'); [by right|done].
        -- intros tag Htag. apply (Hall ts); [by left|done].
Qed.

(** ** Upserting a comment *)

Lemma fresh_pk_gt (l : list nat) x : x ∈ l -> x < fresh_pk l.
Proof.
  unfold fresh_pk. induction l as [|a l IH]; [by intros ?%elem_of_nil|].
  intros [->|Hx]%elem_of_cons; simpl; [lia|]. specialize (IH Hx). lia.
Qed.

(** The row of the comment has the fields of the export. *)
Definition comment_matches (post : nat) (c : wp_comment) (rc : Comment)
  : Prop :=
  wp_comment_id rc = Some (c_id c) /\ comment_post rc = post /\
  author_name rc = c_author_name c /\ author_email rc = c_author_email c /\
  comment_content rc = c_content c /\
  comment_status rc = comment_status_of (c_status c).

(** The parent the loop gives a comment, [comment_map] being the mapping
    at that turn. *)
Definition parent_of (comment_map : gmap Z nat) (c : wp_comment)
  : option nat :=
  if bool_decide (c_parent c <> 0%Z) then comment_map !! c_parent c else None.

Lemma comment_rows_fmap id (f : Comment -> Comment) db :
  (forall x, wp_comment_id (f x) = wp_comment_id x) ->
  comment_rows id (with_comments db (f <$> comments db))
  = f <$> comment_rows id db.
Proof.
  intros Hf. unfold comment_rows. simpl. apply filter_fmap_stable.
  intros x. by rewrite Hf.
Qed.

(** A turn of the comment loop that ends: the comment has one row, with
    the fields of the export and the parent the mapping gives; the rows of
    the other comments are as they were. *)
Lemma import_comment_ok now post cm st c db db' cm' st' :
  import_comment now post (cm, st) c db = (db', Ok (cm', st')) ->
  same_but_comments db db' /\
  (exists rc,
     comment_rows (c_id c) db' = [rc] /\ comment_matches post c rc /\
     comment_parent rc = parent_of cm c /\
     cm' = <[c_id c := comment_pk rc]> cm) /\
  (forall id', id' <> c_id c -> comment_rows id' db' = comment_rows id' db).
Proof.
  unfold import_comment. fold (parent_of cm c).
  intros ([pk created] & db1 & Hup & H)%bind_ok.
  apply bind_ok in H as ([] & db2 & Hset & Hret).
  injection Hret as <- <- <-.
  unfold update_or_create_comment in Hup.
  destruct (filter (fun x => wp_comment_id x = Some (c_id c)) (comments db))
    as [|c0 [|c1 l]] eqn:Hf; [| |done].
  - (* create *)
    case_bool_decide as Hneg; [done|]. injection Hup as <- <- <-.
    set (rc := {| comment_pk := fresh_pk (comment_pk <$> comments db);
                  comment_post := post |}) in *.
    set (t := default now (c_created_at c)).
    set (rc' := {| comment_pk := comment_pk rc; comment_post := post;
                   comment_parent := parent_of cm c;
                   author_name := c_author_name c;
                   author_email := c_author_email c;
                   comment_content := c_content c;
                   comment_status := comment_status_of (c_status c);
                   comment_created_at := t;
                   wp_comment_id := Some (c_id c) |}).
    assert (db2 = with_comments db (comments db ++ [rc'])) as ->.
    { subst t rc'. destruct (c_created_at c) as [t0|] eqn:Ht;
        [|by injection Hset as <-].
      injection Hset as <-. unfold with_comments. simpl. f_equal.
      rewrite fmap_app. f_equal.
      - apply fmap_id_on. intros x Hx.
        rewrite bool_decide_eq_false_2; [done|].
        assert (comment_pk x < fresh_pk (comment_pk <$> comments db));
          [|lia].
        apply fresh_pk_gt, list_elem_of_fmap. eauto.
      - simpl. by rewrite bool_decide_eq_true_2. }
    split; [done|]. split.
    + exists rc'. unfold comment_rows. simpl. rewrite filter_app, Hf.
      rewrite filter_cons_True by done. by rewrite filter_nil.
    + intros id' Hid'. unfold comment_rows. simpl. rewrite filter_app.
      rewrite filter_cons_False, filter_nil, app_nil_r; [done|].
      simpl. congruence.
  - (* update *)
    injection Hup as <- <- <-.
    assert (wp_comment_id c0 = Some (c_id c)) as Hid0.
    { assert (c0 ∈ [c0]) as Hin by set_solver. rewrite <- Hf in Hin.
      apply list_elem_of_filter in Hin. tauto. }
    match type of Hset with _ ?d = _ => assert (db2 = d) as -> end.
    { by destruct (c_created_at c); injection Hset. }
    split; [done|]. split.
    + eexists. rewrite comment_rows_fmap.
      * unfold comment_rows. rewrite Hf. simpl.
        rewrite bool_decide_eq_true_2 by done. split; [done|].
        split; [|done]. by repeat split.
      * intros x. case_bool_decide as Hx; [|done]. simpl. by rewrite Hid0, Hx.
    + intros id' Hid'. rewrite comment_rows_fmap.
      * apply fmap_id_on. intros x [Hx _]%list_elem_of_filter.
        rewrite bool_decide_eq_false_2; [done|]. congruence.
      * intros x. case_bool_decide as Hx; [|done]. simpl. by rewrite Hid0, Hx.
Qed.

(** A turn of the comment loop for a comment whose row has the fields and
    the parent already changes nothing. *)
Lemma import_comment_same now post cm st c db rc :
  comment_rows (c_id c) db = [rc] -> comment_matches post c rc ->
  comment_parent rc = parent_of cm c ->
  import_comment now post (cm, st) c db
  = (db, Ok (<[c_id c := comment_pk rc]> cm, st)).
Proof.
  intros Hrow (M1 & M2 & M3 & M4 & M5 & M6) Hpar.
  unfold import_comment. fold (parent_of cm c).
  unfold mbind, M_bind, update_or_create_comment.
  unfold comment_rows in Hrow. rewrite Hrow.
  assert (((fun x =>
      if bool_decide (wp_comment_id x = Some (c_id c))
      then {| comment_pk := comment_pk rc; comment_post := post;
              comment_parent := parent_of cm c;
              author_name := c_author_name c;
              author_email := c_author_email c;
              comment_content := c_content c;
              comment_status := comment_status_of (c_status c);
              comment_created_at := comment_created_at rc;
              wp_comment_id := wp_comment_id rc |}
      else x) <$> comments db) = comments db) as ->.
  { apply fmap_id_on. intros x Hx. case_bool_decide as Hid; [|done].
    assert (x ∈ [rc]) as ->%list_elem_of_singleton.
    { rewrite <- Hrow. by apply list_elem_of_filter. }
    destruct rc; simpl in *. by subst. }
  unfold with_comments. rewrite with_same.
  by destruct (c_created_at c).
Qed.

(** ** The comments of one post *)

Lemma snoc_split {A} (pre pre' suf' : list A) (c c' : A) :
  pre ++ [c] = pre' ++ c' :: suf' ->
  (suf' = [] /\ pre' = pre /\ c' = c) \/
  (exists suf'', suf' = suf'' ++ [c] /\ pre = pre' ++ c' :: suf'').
Proof.
  destruct suf' as [|x suf' _] using rev_ind.
  - intros [-> ->]%app_inj_tail. by left.
  - rewrite app_comm_cons, app_assoc. intros [-> ->]%app_inj_tail.
    right. by exists suf'.
Qed.

(** What the store holds for the comments [l] of a post after they were
    imported in the order of [l]: every comment has one row with its
    fields; its parent is the row of the comment that its parent
    identifier names when that identifier is not 0 and belongs to a comment
    before it in [l], and it has no parent otherwise. *)
Definition comments_imported (post : nat) (l : list wp_comment) (db : DB)
  : Prop :=
  forall pre c suf,
    l = pre ++ c :: suf ->
    exists rc,
      comment_rows (c_id c) db = [rc] /\ comment_matches post c rc /\
      ((c_parent c <> 0%Z /\ c_parent c ∈ c_id <$> pre) ->
       exists rp, comment_rows (c_parent c) db = [rp] /\
                  comment_parent rc = Some (comment_pk rp)) /\
      (~ (c_parent c <> 0%Z /\ c_parent c ∈ c_id <$> pre) ->
       comment_parent rc = None).

(** The mapping of the loop after the comments [pre]: their identifiers,
    each with the key of its row. *)
Definition comment_map_of (pre : list wp_comment) (db : DB)
  (cm : gmap Z nat) : Prop :=
  (forall d, d ∈ pre ->
     exists rd, comment_rows (c_id d) db = [rd] /\
                cm !! c_id d = Some (comment_pk rd)) /\
  (forall k, k ∉ c_id <$> pre -> cm !! k = None).

Lemma comments_imported_frame post l db db' :
  (forall id, id ∈ c_id <$> l -> comment_rows id db' = comment_rows id db) ->
  comments_imported post l db -> comments_imported post l db'.
Proof.
  intros Hframe H pre c suf Hl.
  destruct (H pre c suf Hl) as (rc & Hrow & Hm & Hp1 & Hp2).
  exists rc. rewrite Hframe by (rewrite Hl; set_solver).
  split; [done|]. split; [done|]. split; [|done].
  intros [Hne Hin]. destruct (Hp1 (conj Hne Hin)) as (rp & Hrp & Hpar).
  exists rp. rewrite Hframe by (rewrite Hl; set_solver). done.
Qed.

Lemma import_comments_ok now post l st db db' cm st' :
  NoDup (c_id <$> l) ->
  foldM (import_comment now post) l (∅, st) db = (db', Ok (cm, st')) ->
  same_but_comments db db' /\ comments_imported post l db' /\
  (forall id, id ∉ c_id <$> l -> comment_rows id db' = comment_rows id db).
Proof.
  intros Hnd Hrun.
  pose (I := fun (pre : list wp_comment) (acc : gmap Z nat * Stats) dbc =>
    same_but_comments db dbc /\ comments_imported post pre dbc /\
    (forall id, id ∉ c_id <$> pre -> comment_rows id dbc = comment_rows id db)
    /\ comment_map_of pre dbc acc.1).
  assert (I l (cm, st') db') as (H1 & H2 & H3 & _); [|done].
  eapply (foldM_ok_inv (import_comment now post) I l); [| |exact Hrun].
  2:{ repeat split; try done.
      - intros pre c suf Hl. by destruct pre.
      - by intros d Hd%elem_of_nil. }
  clear Hrun cm st' db'.
  intros pre c suf [cm st0] dbc [cm' st'] db1 Hl (S0 & Himp & Hfr & Hcm & Hkeys)
    Hstep.
  simpl in Hcm, Hkeys.
  assert (c_id c ∉ c_id <$> pre) as Hfresh.
  { rewrite Hl, fmap_app, fmap_cons in Hnd.
    apply NoDup_app in Hnd as (_ & Hnd & _). intros Hin.
    apply (Hnd (c_id c)); [done|by left]. }
  destruct (import_comment_ok _ _ _ _ _ _ _ _ _ Hstep)
    as (S1 & (rc & Hrc & Hmatch & Hpar & ->) & Hframe).
  assert (forall id, id ∈ c_id <$> pre ->
            comment_rows id db1 = comment_rows id dbc) as Hold.
  { intros id Hid. apply Hframe. intros ->. done. }
  assert ((c_parent c <> 0%Z /\ c_parent c ∈ c_id <$> pre) ->
          exists rp, comment_rows (c_parent c) db1 = [rp] /\
                     comment_parent rc = Some (comment_pk rp)) as Hp1.
  { intros [Hne Hin]. pose proof Hin as Hin'.
    apply list_elem_of_fmap in Hin as (d & Hd & Hdin).
    destruct (Hcm d Hdin) as (rd & Hrd & Hlook).
    exists rd. rewrite Hold by done. rewrite Hd. split; [done|].
    rewrite Hpar. unfold parent_of.
    rewrite bool_decide_eq_true_2 by done. by rewrite Hd. }
  assert (~ (c_parent c <> 0%Z /\ c_parent c ∈ c_id <$> pre) ->
          comment_parent rc = None) as Hp2.
  { intros Hno. rewrite Hpar. unfold parent_of.
    case_bool_decide as Hne; [|done]. apply Hkeys. tauto. }
  split; [|split; [|split; [|split]]].
  - destruct S0 as (?&?&?&?&?), S1 as (?&?&?&?&?).
    repeat split; congruence.
  - intros pre' c' suf' Hsplit.
    apply snoc_split in Hsplit as [(-> & -> & ->)|(suf'' & -> & Hpre)].
    + by exists rc.
    + destruct (Himp pre' c' suf'' Hpre) as (rc' & Hrow' & Hm' & Hq1 & Hq2).
      exists rc'. rewrite Hold by (rewrite Hpre; set_solver).
      split; [done|]. split; [done|]. split; [|done].
      intros [Hne Hin]. destruct (Hq1 (conj Hne Hin)) as (rp & Hrp & Hpp).
      exists rp. rewrite Hold by (rewrite Hpre; set_solver). done.
  - intros id Hid. rewrite fmap_app, not_elem_of_app in Hid.
    destruct Hid as [Hid1 Hid2]. rewrite Hframe by set_solver.
    by apply Hfr.
  - simpl. intros d [Hd| ->%list_elem_of_singleton]%elem_of_app.
    + destruct (Hcm d Hd) as (rd & Hrd & Hlook).
      assert (c_id d ∈ c_id <$> pre) as Hin by (apply list_elem_of_fmap; eauto).
      exists rd. rewrite Hold by done. split; [done|].
      rewrite lookup_insert_ne; [done|]. intros Heq. by rewrite Heq in Hfresh.
    + exists rc. split; [done|]. apply lookup_insert_eq.
  - simpl. intros k Hk. rewrite fmap_app, not_elem_of_app in Hk.
    destruct Hk as [Hk1 Hk2]. rewrite lookup_insert_ne by set_solver.
    by apply Hkeys.
Qed.

(** The comment loop run again on the rows it left changes nothing and
    creates nothing. *)
Lemma import_comments_again now post l st db :
  comments_imported post l db ->
  exists cm, foldM (import_comment now post) l (∅, st) db = (db, Ok (cm, st)).
Proof.
  intros Himp.
  pose (I := fun (pre : list wp_comment) (acc : gmap Z nat * Stats) dbc =>
    dbc = db /\ acc.2 = st /\ comment_map_of pre db acc.1).
  destruct (foldM_run_inv (import_comment now post) I l)
    with (acc := ((∅ : gmap Z nat), st)) (db := db)
    as ([cm st'] & db' & Hrun & -> & Hst & _).
  - intros pre c suf [cm st0] dbc Hl (-> & Hst & Hcm & Hkeys).
    simpl in Hst, Hcm, Hkeys. subst st0.
    destruct (Himp pre c suf Hl) as (rc & Hrc & Hmatch & Hp1 & Hp2).
    exists (<[c_id c := comment_pk rc]> cm, st), db. split.
    + apply import_comment_same; [done|done|].
      unfold parent_of. case_bool_decide as Hne.
      * destruct (decide (c_parent c ∈ c_id <$> pre)) as [Hin|Hnin].
        -- destruct (Hp1 (conj Hne Hin)) as (rp & Hrp & ->).
           apply list_elem_of_fmap in Hin as (d & Hd & Hdin).
           destruct (Hcm d Hdin) as (rd & Hrd & Hlook).
           rewrite <- Hd in Hrd. rewrite Hrp in Hrd. injection Hrd as ->.
           by rewrite Hd.
        -- rewrite Hkeys by done. apply Hp2. tauto.
      * apply Hp2. tauto.
    + split; [done|]. split; [done|]. split; simpl.
      * intros d [Hd| ->%list_elem_of_singleton]%elem_of_app.
        -- destruct (Hcm d Hd) as (rd & Hrd & Hlook). exists rd.
           split; [done|].
           destruct (decide (c_id d = c_id c)) as [Heq|Hne].
           ++ rewrite Heq in *. rewrite Hrc in Hrd. injection Hrd as ->.
              apply lookup_insert_eq.
           ++ by rewrite lookup_insert_ne.
        -- exists rc. split; [done|]. apply lookup_insert_eq.
      * intros k Hk. rewrite fmap_app, not_elem_of_app in Hk.
        destruct Hk as [Hk1 Hk2]. rewrite lookup_insert_ne by set_solver.
        by apply Hkeys.
  - repeat split; try done. by intros d Hd%elem_of_nil.
  - simpl in Hst. subst st'. by exists cm.
Qed.

(** ** Sorting the comments *)

Definition id_le (a b : wp_comment) : Prop := (c_id a <= c_id b)%Z.

Lemma insert_by_id_perm c l : insert_by_id c l ≡ₚ c :: l.
Proof.
  induction l as [|d l IH]; [done|]. simpl. case_bool_decide; [|done].
  rewrite IH. apply Permutation_swap.
Qed.

Lemma insert_by_id_sorted c l :
  StronglySorted id_le l -> StronglySorted id_le (insert_by_id c l).
Proof.
  induction l as [|d l IH]; intros Hl; simpl.
  - repeat constructor.
  - apply StronglySorted_cons in Hl as [Hd Hl]. case_bool_decide as Hle.
    + apply StronglySorted_cons. split; [|by apply IH].
      rewrite insert_by_id_perm. by constructor.
    + apply StronglySorted_cons. split; [|by apply StronglySorted_cons].
      assert (id_le c d) as Hcd by (unfold id_le; lia).
      constructor; [done|]. eapply Forall_impl; [done|].
      intros x Hx. unfold id_le in *. lia.
Qed.

Lemma sorted_by_id_perm l : sorted_by_id l ≡ₚ l.
Proof.
  unfold sorted_by_id.
  assert (forall acc, foldl (fun acc c => insert_by_id c acc) acc l
                      ≡ₚ l ++ acc) as H.
  { induction l as [|c l IH]; intros acc; [done|]. simpl.
    rewrite IH, insert_by_id_perm. by rewrite Permutation_middle. }
  by rewrite H, app_nil_r.
Qed.

Lemma sorted_by_id_sorted l : StronglySorted id_le (sorted_by_id l).
Proof.
  unfold sorted_by_id.
  assert (forall acc, StronglySorted id_le acc ->
            StronglySorted id_le
              (foldl (fun acc c => insert_by_id c acc) acc l)) as H.
  { induction l as [|c l IH]; intros acc Hacc; [done|]. simpl.
    by apply IH, insert_by_id_sorted. }
  apply H. constructor.
Qed.

Lemma sorted_by_id_ids l : c_id <$> sorted_by_id l ≡ₚ c_id <$> l.
Proof. by rewrite sorted_by_id_perm. Qed.

(** In the sorted list of comments with distinct identifiers, the
    comments before [c] are those with a smaller identifier. *)
Lemma sorted_before l pre c suf id :
  NoDup (c_id <$> l) -> sorted_by_id l = pre ++ c :: suf ->
  id ∈ c_id <$> pre <-> (id ∈ c_id <$> l /\ (id < c_id c)%Z).
Proof.
  intros Hnd Hs.
  pose proof (sorted_by_id_sorted l) as Hsorted. rewrite Hs in Hsorted.
  assert (id ∈ c_id <$> l <-> id ∈ c_id <$> (pre ++ c :: suf)) as ->.
  { rewrite <- Hs. by rewrite sorted_by_id_perm. }
  rewrite <- sorted_by_id_ids, Hs in Hnd.
  rewrite fmap_app, fmap_cons in Hnd |- *.
  apply NoDup_app in Hnd as (Hnd1 & Hnd2 & Hnd3).
  apply NoDup_cons in Hnd3 as [Hnd3 _].
  split.
  - intros Hin. split; [set_solver|].
    pose proof Hin as Hin'.
    apply list_elem_of_fmap in Hin as (d & -> & Hd).
    assert (id_le d c) as Hle.
    { eapply StronglySorted_app_1_elem_of; [done|done|by left]. }
    assert (c_id d <> c_id c); [|unfold id_le in Hle; lia].
    intros Heq. apply (Hnd2 (c_id d)); [done|]. rewrite Heq. by left.
  - intros [[Hin|[->|Hin]%elem_of_cons]%elem_of_app Hlt]; [done|lia|].
    apply list_elem_of_fmap in Hin as (d & -> & Hd).
    apply StronglySorted_app_1_r, StronglySorted_cons in Hsorted
      as [Hall _].
    rewrite Forall_forall in Hall. specialize (Hall d Hd).
    unfold id_le in Hall. lia.
Qed.

(** ** One turn of the post loop *)

Lemma import_comment_same_but now post acc c db db' r :
  import_comment now post acc c db = (db', r) -> same_but_comments db db'.
Proof.
  destruct acc as [cm st]. unfold import_comment.
  intros [[e He]|([pk created] & db1 & Hup & H)]%bind_any.
  - unfold update_or_create_comment in He.
    destruct (filter _ _) as [|c0 [|c1 l]]; [| |by injection He as <-].
    + case_bool_decide; by injection He as <-.
    + done.
  - assert (same_but_comments db db1) as S1.
    { unfold update_or_create_comment in Hup.
      destruct (filter _ _) as [|c0 [|c1 l]]; [| |by injection Hup as <-].
      + case_bool_decide; by injection Hup as <-.
      + by injection Hup as <-. }
    assert (same_but_comments db1 db') as S2.
    { apply bind_any in H as [[e He]|([] & db2 & Hset & [= <- _])].
      - by destruct (c_created_at c), created.
      - destruct (c_created_at c), created; by injection Hset as <-. }
    destruct S1 as (?&?&?&?&?), S2 as (?&?&?&?&?).
    repeat split; congruence.
Qed.

Lemma import_comments_same_but now post l acc db :
  same_but_comments db (foldM (import_comment now post) l acc db).1.
Proof.
  apply (foldM_any_inv (import_comment now post) (same_but_comments db));
    [|done].
  intros acc' c db' (H1 & H2 & H3 & H4 & H5).
  destruct (import_comment now post acc' c db') as [db2 r] eqn:E.
  destruct (import_comment_same_but _ _ _ _ _ _ _ E) as (?&?&?&?&?).
  repeat split; simpl; congruence.
Qed.

Section ImportFacts.

Variable slugify : string -> string.
Variable render_markdown : string -> string.

(** The slug that [import_data] hands to [update_or_create]. *)
Definition slug_arg (p : wp_post) : string :=
  or_str (p_slug p) (slugify (p_title p)).

(** A turn of the post loop that ends is an upsert of the post, the tag
    loop and the comment loop, one after the other. *)
Lemma import_post_steps now authors tag_map default_author stats p db db'
  stats' :
  import_post slugify render_markdown now authors tag_map default_author
    stats p db = (db', Ok stats') ->
  exists db1 db2 pk created cm stats1,
    update_or_create_post slugify render_markdown now (p_id p) (p_title p)
      (slug_arg p) (html_to_markdown (p_content p)) (p_excerpt p)
      (post_status_of (p_status p))
      (default (user_pk default_author) (authors !! p_author p))
      (p_published_at p) db = (db1, Ok (pk, created)) /\
    foldM (fun (_ : unit) tag_slug =>
             match tag_map !! tag_slug with
             | Some tag => tags_add pk tag
             | None => mret ()
             end) (p_tags p) () db1 = (db2, Ok ()) /\
    foldM (import_comment now pk) (sorted_by_id (p_comments p))
      (∅, stats1) db2 = (db', Ok (cm, stats')) /\
    (created = false -> stats1 = stats).
Proof.
  unfold import_post. intros ([pk created] & db1 & Hup & H)%bind_ok.
  apply bind_ok in H as ([] & db2 & Htags & H).
  apply bind_ok in H as ([cm st] & db3 & Hcs & Hret).
  injection Hret as <- <-.
  exists db1, db2, pk, created, cm.
  eexists. split; [done|]. split; [done|]. split; [exact Hcs|].
  by intros ->.
Qed.

(** The row of the post has the fields of the export. *)
Definition post_matches (author : nat) (p : wp_post) (r : Post) : Prop :=
  wp_post_id r = Some (p_id p) /\ post_title r = p_title p /\
  content_md r = html_to_markdown (p_content p) /\
  post_excerpt r = p_excerpt p /\
  post_status r = post_status_of (p_status p) /\
  post_author r = author /\
  (slug_arg p <> "" -> post_slug r = slug_arg p).

(** What the store holds for a post after it was imported: one row with
    its fields, a slug of its own, and the tags of the mapping. *)
Definition post_imported (authors tag_map : gmap (option string) nat)
  (default_author : User) (p : wp_post) (db : DB) : Prop :=
  exists r,
    post_rows (p_id p) db = [r] /\
    post_matches (default (user_pk default_author) (authors !! p_author p))
      p r /\
    slug_is_of (p_id p) (post_slug r) db /\
    (forall ts tag, ts ∈ p_tags p -> tag_map !! ts = Some tag ->
                    (post_pk r, tag) ∈ post_tags db).

(** What a turn of the post loop does to the posts and their tags. *)
Lemma import_post_ok now authors tag_map default_author stats p db db'
  stats' :
  import_post slugify render_markdown now authors tag_map default_author
    stats p db = (db', Ok stats') ->
  (users db' = users db /\ tags db' = tags db) /\
  post_imported authors tag_map default_author p db' /\
  (forall id', id' <> p_id p -> post_rows id' db' = post_rows id' db) /\
  (forall r0, post_rows (p_id p) db = [r0] ->
     exists r, post_rows (p_id p) db' = [r] /\ post_pk r = post_pk r0) /\
  (forall r x, post_rows (p_id p) db' = [r] -> x ∈ posts db' ->
     wp_post_id x = Some (p_id p) \/
     (x ∈ posts db /\ wp_post_id x <> Some (p_id p) /\
      post_slug x <> post_slug r)) /\
  (forall pt, pt ∈ post_tags db -> pt ∈ post_tags db').
Proof.
  intros (db1 & db2 & pk & created & cm & stats1 & Hup & Htags & Hcs & _)
    %import_post_steps.
  apply update_or_create_post_ok in Hup
    as (S1 & (r & Hr & Hpk & F1 & F2 & F3 & F4 & F5 & F6 & F7 & F8 & F9)
        & Hfr & Hmem & Hc1 & Hc2).
  destruct (tags_loop_ok tag_map pk (p_tags p) db1)
    as (db2' & Htags' & S2 & Hmono & Hatt & _).
  rewrite Htags in Htags'. injection Htags' as <-.
  pose proof (import_comments_same_but now pk (sorted_by_id (p_comments p))
                (∅, stats1) db2) as S3.
  rewrite Hcs in S3. simpl in S3.
  destruct S1 as (U1 & T1 & PT1 & C1 & I1), S2 as (U2 & T2 & P2 & C2 & I2),
    S3 as (U3 & T3 & P3 & PT3 & I3).
  assert (posts db' = posts db1) as HP by congruence.
  assert (forall id', post_rows id' db' = post_rows id' db1) as HPR.
  { intros id'. unfold post_rows. by rewrite HP. }
  split; [split; congruence|].
  split; [|split; [|split; [|split]]].
  - exists r. rewrite HPR. split; [done|]. split; [by repeat split|].
    split.
    + intros x Hx. rewrite HP in Hx. by apply F8.
    + intros ts tag Hts Htag. rewrite PT3, Hpk. by eapply Hatt.
  - intros id' Hid'. rewrite HPR. by apply Hfr.
  - intros r0 Hr0. exists r. rewrite HPR. split; [done|].
    destruct created.
    + rewrite Hc1 in Hr0 by done. done.
    + destruct (Hc2 eq_refl) as (r0' & Hr0' & Hpk0).
      rewrite Hr0 in Hr0'. injection Hr0' as <-. congruence.
  - intros r' x Hr' Hx. rewrite HPR, Hr in Hr'. injection Hr' as <-.
    rewrite HP in Hx. destruct (Hmem x Hx) as [?|[Hxin Hxid]]; [by left|].
    right. split; [done|]. split; [done|]. by apply F9.
  - intros pt Hpt. rewrite PT3. apply Hmono. by rewrite PT1.
Qed.

(** A later turn for another post leaves what the store holds for a post
    that was imported. *)
Lemma post_imported_frame authors tag_map default_author p0 p db db' :
  p_id p0 <> p_id p ->
  post_imported authors tag_map default_author p0 db ->
  post_imported authors tag_map default_author p db' ->
  (forall id', id' <> p_id p -> post_rows id' db' = post_rows id' db) ->
  (forall r x, post_rows (p_id p) db' = [r] -> x ∈ posts db' ->
     wp_post_id x = Some (p_id p) \/
     (x ∈ posts db /\ wp_post_id x <> Some (p_id p) /\
      post_slug x <> post_slug r)) ->
  (forall pt, pt ∈ post_tags db -> pt ∈ post_tags db') ->
  post_imported authors tag_map default_author p0 db'.
Proof.
  intros Hne (r0 & Hr0 & Hm0 & Hs0 & Ht0) (r & Hr & Hm & Hs & Ht) Hfr Hmem
    Hmono.
  exists r0. rewrite Hfr by done. split; [done|]. split; [done|]. split.
  - intros x Hx Hslug.
    destruct (Hmem r x Hr Hx) as [Hxid|(Hxin & Hxid & Hxs)].
    + (* the row of [p] cannot have the slug of [p0] *)
      assert (x ∈ [r]) as ->%list_elem_of_singleton.
      { rewrite <- Hr. by apply list_elem_of_filter. }
      assert (r0 ∈ posts db') as Hr0in.
      { assert (r0 ∈ post_rows (p_id p0) db') as Hin.
        { rewrite Hfr by done. rewrite Hr0. by left. }
        apply list_elem_of_filter in Hin. tauto. }
      destruct (Hmem r r0 Hr Hr0in) as [Hbad|(_ & _ & Hdiff)].
      * destruct Hm0 as (Hid0 & _). congruence.
      * congruence.
    + by apply Hs0.
  - intros ts tag Hts Htag. apply Hmono. by eapply Ht0.
Qed.

(** The post loop, for posts with distinct identifiers. *)
Lemma import_posts_ok now authors tag_map default_author l stats db db'
  stats' :
  NoDup (p_id <$> l) ->
  foldM (import_post slugify render_markdown now authors tag_map
           default_author) l stats db = (db', Ok stats') ->
  users db' = users db /\ tags db' = tags db /\
  forall p, p ∈ l -> post_imported authors tag_map default_author p db'.
Proof.
  intros Hnd Hrun.
  pose (I := fun (pre : list wp_post) (_ : Stats) dbc =>
    users dbc = users db /\ tags dbc = tags db /\
    forall p, p ∈ pre -> post_imported authors tag_map default_author p dbc).
  eapply (foldM_ok_inv _ I l); [| |exact Hrun].
  2:{ repeat split. by intros p Hp%elem_of_nil. }
  clear Hrun. intros pre p suf st dbc st1 db1 Hl (HU & HT & Himp) Hstep.
  apply import_post_ok in Hstep as ((U1 & T1) & Hp & Hfr & _ & Hmem & Hmono).
  split; [congruence|]. split; [congruence|].
  intros p0 [Hp0| ->%list_elem_of_singleton]%elem_of_app; [|done].
  eapply post_imported_frame; eauto.
  rewrite Hl, fmap_app, fmap_cons in Hnd.
  apply NoDup_app in Hnd as (_ & Hnd & _). intros Heq.
  apply (Hnd (p_id p0)); [apply list_elem_of_fmap; eauto|].
  rewrite Heq. by left.
Qed.

End ImportFacts.

(** ** The whole import *)

(** The identifiers of all the comments of the posts. *)
Definition comment_ids (l : list wp_post) : list Z :=
  l ≫= (fun p => c_id <$> p_comments p).

Lemma comment_ids_split pre p suf :
  NoDup (comment_ids (pre ++ p :: suf)) ->
  NoDup (c_id <$> p_comments p) /\
  forall p0 id, p0 ∈ pre -> id ∈ c_id <$> p_comments p0 ->
                id ∉ c_id <$> p_comments p.
Proof.
  unfold comment_ids. rewrite bind_app, bind_cons.
  intros (_ & Hdis & [Hnd _]%NoDup_app)%NoDup_app. split; [done|].
  intros p0 id Hp0 Hid Hin. apply (Hdis id); [|set_solver].
  apply list_elem_of_bind. by exists p0.
Qed.

Section ImportDataFacts.

Variable slugify : string -> string.
Variable render_markdown : string -> string.

(** An import that ends is the three loops, one after the other. *)
Lemma import_data_steps now data default_author db db' stats :
  import_data slugify render_markdown now data default_author db
  = (db', Ok stats) ->
  exists dbA authors dbT tag_map statsT,
    foldM import_author (d_authors data) ∅ db = (dbA, Ok authors) /\
    foldM (import_tag slugify) (d_tags data)
      (∅, {| tags_created := 0; posts_created := 0; comments_created := 0 |})
      dbA = (dbT, Ok (tag_map, statsT)) /\
    foldM (import_post slugify render_markdown now authors tag_map
             default_author) (d_posts data) statsT dbT = (db', Ok stats).
Proof.
  unfold import_data. intros (authors & dbA & HA & H)%bind_ok.
  apply bind_ok in H as ([tag_map statsT] & dbT & HT & HP).
  by exists dbA, authors, dbT, tag_map, statsT.
Qed.

(** What a turn of the post loop does to the comments. *)
Lemma import_post_comments_ok now authors tag_map default_author stats p db
  db' stats' :
  NoDup (c_id <$> p_comments p) ->
  import_post slugify render_markdown now authors tag_map default_author
    stats p db = (db', Ok stats') ->
  (exists r, post_rows (p_id p) db' = [r] /\
             comments_imported (post_pk r) (sorted_by_id (p_comments p)) db')
  /\ (forall id, id ∉ c_id <$> p_comments p ->
                 comment_rows id db' = comment_rows id db).
Proof.
  intros Hnd Hstep. pose proof Hstep as Hstep'.
  apply import_post_steps in Hstep
    as (db1 & db2 & pk & created & cm & stats1 & Hup & Htags & Hcs & _).
  apply update_or_create_post_ok in Hup
    as (S1 & (r & Hr & Hpk & _) & _).
  destruct (tags_loop_ok tag_map pk (p_tags p) db1)
    as (db2' & Htags' & S2 & _).
  rewrite Htags in Htags'. injection Htags' as <-.
  apply import_comments_ok in Hcs as (S3 & Himp & Hfr);
    [|by rewrite sorted_by_id_ids].
  destruct S1 as (U1 & T1 & PT1 & C1 & I1), S2 as (U2 & T2 & P2 & C2 & I2),
    S3 as (U3 & T3 & P3 & PT3 & I3).
  split.
  - exists r. split; [|by rewrite Hpk].
    unfold post_rows in *. by rewrite P3, P2.
  - intros id Hid. rewrite Hfr by (by rewrite sorted_by_id_ids).
    unfold comment_rows. by rewrite C2, C1.
Qed.

(** The post loop, for comments with distinct identifiers. *)
Lemma import_posts_comments_ok now authors tag_map default_author l stats db
  db' stats' :
  NoDup (comment_ids l) ->
  foldM (import_post slugify render_markdown now authors tag_map
           default_author) l stats db = (db', Ok stats') ->
  forall p, p ∈ l ->
    exists r, post_rows (p_id p) db' = [r] /\
              comments_imported (post_pk r) (sorted_by_id (p_comments p)) db'.
Proof.
  intros Hnd Hrun.
  pose (I := fun (pre : list wp_post) (_ : Stats) dbc =>
    forall p, p ∈ pre ->
      exists r, post_rows (p_id p) dbc = [r] /\
                comments_imported (post_pk r) (sorted_by_id (p_comments p))
                  dbc).
  eapply (foldM_ok_inv _ I l); [| |exact Hrun].
  2:{ by intros p Hp%elem_of_nil. }
  clear Hrun. intros pre p suf st dbc st1 db1 Hl Himp Hstep.
  rewrite Hl in Hnd. apply comment_ids_split in Hnd as [Hndp Hdis].
  destruct (import_post_comments_ok _ _ _ _ _ _ _ _ _ Hndp Hstep)
    as [Hp Hfr].
  apply import_post_ok in Hstep as (_ & _ & Hpfr & Hsame & _).
  intros p0 [Hp0| ->%list_elem_of_singleton]%elem_of_app; [|done].
  destruct (Himp p0 Hp0) as (r0 & Hr0 & Hc0).
  assert (comments_imported (post_pk r0) (sorted_by_id (p_comments p0)) db1)
    as Hc1.
  { eapply comments_imported_frame; [|done].
    intros id Hid. apply Hfr. rewrite sorted_by_id_ids in Hid. by eapply Hdis. }
  destruct (decide (p_id p0 = p_id p)) as [Heq|Hne].
  - rewrite Heq in Hr0. destruct (Hsame r0 Hr0) as (r & Hr & Hpk).
    exists r. rewrite Heq. split; [done|]. by rewrite Hpk.
  - exists r0. by rewrite Hpfr.
Qed.

End ImportDataFacts.

(** ** Identity resolution and comment threading *)






(** The comments of an export are threaded in the store [db']: a comment
    has one row, which belongs to the row of its post; its parent is the
    row of the comment that its parent identifier names when that
    identifier is not 0, is smaller than its own and belongs to a comment
    of the same post; it has no parent otherwise. *)
Definition comments_threaded (data : wp_data) (db' : DB) : Prop :=
  forall p c, p ∈ d_posts data -> c ∈ p_comments p ->
    exists r rc,
      post_rows (p_id p) db' = [r] /\
      comment_rows (c_id c) db' = [rc] /\ comment_post rc = post_pk r /\
      ((c_parent c <> 0%Z /\ (c_parent c < c_id c)%Z /\
        c_parent c ∈ c_id <$> p_comments p) ->
       exists rp, comment_rows (c_parent c) db' = [rp] /\
                  comment_parent rc = Some (comment_pk rp)) /\
      (~ (c_parent c <> 0%Z /\ (c_parent c < c_id c)%Z /\
          c_parent c ∈ c_id <$> p_comments p) ->
       comment_parent rc = None).


(** C3, as the code has it: after an import that ends, of an export
    whose comments have distinct identifiers, in whatever order the
    comments of a post are listed: a comment C with parent identifier P is
    the child of the imported comment P when P is not 0, is smaller than
    the identifier of C and is the identifier of a comment of the same
    post; in every other case C has no parent. *)
Theorem comment_threading slugify render_markdown now data default_author
  db db' stats :
  NoDup (comment_ids (d_posts data)) ->
  import_data slugify render_markdown now data default_author db
  = (db', Ok stats) ->
  comments_threaded data db'.
Proof.
  intros Hnd Hrun.
  apply import_data_steps in Hrun
    as (dbA & authors & dbT & tag_map & statsT & HA & HT & HP).
  intros p c Hp Hc.
  destruct (import_posts_comments_ok _ _ _ _ _ _ _ _ _ _ _ Hnd HP p Hp)
    as (r & Hr & Himp).
  assert (NoDup (c_id <$> p_comments p)) as Hndp.
  { apply list_elem_of_split in Hp as (pre & suf & Hl). rewrite Hl in Hnd.
    by apply comment_ids_split in Hnd as [? _]. }
  assert (c ∈ sorted_by_id (p_comments p)) as Hcs
    by (by rewrite sorted_by_id_perm).
  apply list_elem_of_split in Hcs as (pre & suf & Hs).
  destruct (Himp pre c suf Hs) as (rc & Hrc & Hm & Hp1 & Hp2).
  exists r, rc. split; [done|]. split; [done|].
  split; [by destruct Hm as (_ & ? & _)|].
  pose proof (sorted_before (p_comments p) pre c suf (c_parent c) Hndp Hs)
    as Hiff.
  split.
  - intros (Hne & Hlt & Hin). apply Hp1. split; [done|]. apply Hiff. done.
  - intros Hno. apply Hp2. intros [Hne Hin]. apply Hno.
    apply Hiff in Hin as [? ?]. done.
Qed.



Lemma comment_threading_witness :
  let run := import_data (fun s => s) (fun s => s) 0%Z small_data admin
               admin_db in
  NoDup (comment_ids (d_posts small_data)) /\
  run = (run.1, Ok {| tags_created := 1; posts_created := 1;
                      comments_created := 2 |}) /\
  comments_threaded small_data run.1.
Proof.
  intros run.
  assert (NoDup (comment_ids (d_posts small_data))) as Hnd.
  { apply (bool_decide_unpack _). by vm_compute. }
  assert (run = (run.1, Ok {| tags_created := 1; posts_created := 1;
                              comments_created := 2 |})) as Hrun
    by (vm_compute; reflexivity).
  split; [done|]. split; [done|].
  exact (comment_threading _ _ _ _ _ _ _ _ Hnd Hrun).
Defined.

(** The post of [twin_comments_data] lists two comments with the
    identifier 5; the second names 5, its own identifier, as its parent.
    The import leaves one row for them, and that row is its own parent: it
    is no root comment. *)
Lemma twin_comments_counterexample :
  let run := import_data (fun s => s) (fun s => s) 0%Z twin_comments_data
               admin admin_db in
  (fun c => (c_id c, c_parent c)) <$>
    (d_posts twin_comments_data ≫= p_comments) = [(5, 0); (5, 5)]%Z /\
  run.2 = Ok {| tags_created := 0; posts_created := 1;
                comments_created := 1 |} /\
  (fun c => (wp_comment_id c, comment_pk c, comment_parent c)) <$>
    comments run.1 = [(Some 5%Z, 1, Some 1)].
Proof. vm_compute. repeat split. Qed.

(** ** Importing the same export again *)

(** *** The rows of the comments, for identifiers that come again *)

(** A turn of the comment loop keeps the row that an identifier has, with
    its key. *)
Lemma import_comment_kept now post cm st c db db' cm' st' :
  import_comment now post (cm, st) c db = (db', Ok (cm', st')) ->
  forall id rc0, comment_rows id db = [rc0] ->
    exists rc, comment_rows id db' = [rc] /\ comment_pk rc = comment_pk rc0.
Proof.
  intros Hstep id rc0 Hrow0.
  destruct (import_comment_ok _ _ _ _ _ _ _ _ _ Hstep)
    as (_ & (rc & Hrc & _ & _ & _) & Hframe).
  destruct (decide (id = c_id c)) as [->|Hne].
  2:{ exists rc0. by rewrite Hframe. }
  exists rc. split; [done|].
  unfold import_comment in Hstep.
  apply bind_ok in Hstep as ([pk created] & db1 & Hup & H).
  apply bind_ok in H as ([] & db2 & Hset & Hret).
  injection Hret as <- <- <-.
  unfold update_or_create_comment in Hup. unfold comment_rows in Hrow0.
  rewrite Hrow0 in Hup. injection Hup as <- <- <-.
  assert (db2 = with_comments db
            ((fun x => if bool_decide (wp_comment_id x = Some (c_id c))
                       then {| comment_pk := comment_pk rc0;
                               comment_post := post;
                               comment_parent :=
                                 if bool_decide (c_parent c <> 0%Z)
                                 then cm !! c_parent c else None;
                               author_name := c_author_name c;
                               author_email := c_author_email c;
                               comment_content := c_content c;
                               comment_status :=
                                 comment_status_of (c_status c);
                               comment_created_at := comment_created_at rc0;
                               wp_comment_id := wp_comment_id rc0 |}
                       else x) <$> comments db)) as ->.
  { by destruct (c_created_at c); injection Hset. }
  assert (wp_comment_id rc0 = Some (c_id c)) as Hid0.
  { assert (rc0 ∈ [rc0]) as Hin by set_solver. rewrite <- Hrow0 in Hin.
    apply list_elem_of_filter in Hin. tauto. }
  rewrite comment_rows_fmap in Hrc.
  2:{ intros x.
      destruct (bool_decide (wp_comment_id x = Some (c_id c))) eqn:Hx;
        [|done].
      apply bool_decide_eq_true in Hx. simpl. by rewrite Hid0, Hx. }
  unfold comment_rows in Hrc. rewrite Hrow0 in Hrc. simpl in Hrc.
  rewrite bool_decide_eq_true_2 in Hrc by done. by injection Hrc as <-.
Qed.

(** What the store holds for the comments [l] of a post after they were
    imported in the order of [l], for a comment whose identifier does not
    come again after it, in [l] or among [later]: one row with its fields;
    its parent is the row of the comment that its parent identifier names
    when that identifier is not 0 and belongs to a comment before it in
    [l], and it has no parent otherwise. *)
Definition comments_settled (post : nat) (l : list wp_comment)
  (later : list Z) (db : DB) : Prop :=
  forall pre c suf,
    l = pre ++ c :: suf -> c_id c ∉ c_id <$> suf -> c_id c ∉ later ->
    exists rc,
      comment_rows (c_id c) db = [rc] /\ comment_matches post c rc /\
      ((c_parent c <> 0%Z /\ c_parent c ∈ c_id <$> pre) ->
       exists rp, comment_rows (c_parent c) db = [rp] /\
                  comment_parent rc = Some (comment_pk rp)) /\
      (~ (c_parent c <> 0%Z /\ c_parent c ∈ c_id <$> pre) ->
       comment_parent rc = None).

(** The rows that [db] has keep their keys in [db']. *)
Definition keeps_comment_keys (db db' : DB) : Prop :=
  forall id rc0, comment_rows id db = [rc0] ->
    exists rc, comment_rows id db' = [rc] /\ comment_pk rc = comment_pk rc0.

Lemma keeps_comment_keys_refl db : keeps_comment_keys db db.
Proof. intros id rc0 H. by exists rc0. Qed.

Lemma keeps_comment_keys_trans db1 db2 db3 :
  keeps_comment_keys db1 db2 -> keeps_comment_keys db2 db3 ->
  keeps_comment_keys db1 db3.
Proof.
  intros H12 H23 id rc0 H. destruct (H12 id rc0 H) as (rc1 & H1 & E1).
  destruct (H23 id rc1 H1) as (rc2 & H2 & E2). exists rc2.
  split; [done|congruence].
Qed.

Lemma comments_settled_kept post l later later' db db' :
  (forall id, id ∉ later' ->
     (id ∉ later) /\ comment_rows id db' = comment_rows id db) ->
  keeps_comment_keys db db' ->
  comments_settled post l later db -> comments_settled post l later' db'.
Proof.
  intros Hframe Hkeys H pre c suf Hl Hsuf Hlater.
  destruct (Hframe _ Hlater) as [Hl0 Hrows].
  destruct (H pre c suf Hl Hsuf Hl0) as (rc & Hrow & Hm & Hp1 & Hp2).
  exists rc. rewrite Hrows. split; [done|]. split; [done|].
  split; [|done]. intros Hpar. destruct (Hp1 Hpar) as (rp & Hrp & Hpp).
  destruct (Hkeys _ _ Hrp) as (rp' & Hrp' & Hpk). exists rp'.
  split; [done|congruence].
Qed.

(** The comment loop of a post, whatever the identifiers. *)
Lemma import_comments_settled now post l st db db' cm st' :
  foldM (import_comment now post) l (∅, st) db = (db', Ok (cm, st')) ->
  same_but_comments db db' /\ comments_settled post l [] db' /\
  (forall id, id ∉ c_id <$> l -> comment_rows id db' = comment_rows id db) /\
  keeps_comment_keys db db'.
Proof.
  intros Hrun.
  pose (I := fun (pre : list wp_comment) (acc : gmap Z nat * Stats) dbc =>
    same_but_comments db dbc /\ comments_settled post pre [] dbc /\
    (forall id, id ∉ c_id <$> pre -> comment_rows id dbc = comment_rows id db)
    /\ keeps_comment_keys db dbc /\ comment_map_of pre dbc acc.1).
  assert (I l (cm, st') db') as (H1 & H2 & H3 & H4 & _); [|done].
  eapply (foldM_ok_inv (import_comment now post) I l); [| |exact Hrun].
  2:{ repeat split; try done.
      - intros pre c suf Hl. by destruct pre.
      - apply keeps_comment_keys_refl.
      - by intros d Hd%elem_of_nil. }
  clear Hrun cm st' db'.
  intros pre c suf [cm st0] dbc [cm' st'] db1 Hl
    (S0 & Himp & Hfr & Hkept & Hcm & Hkeys) Hstep.
  simpl in Hcm, Hkeys.
  pose proof (import_comment_kept _ _ _ _ _ _ _ _ _ Hstep) as Hk1.
  destruct (import_comment_ok _ _ _ _ _ _ _ _ _ Hstep)
    as (S1 & (rc & Hrc & Hmatch & Hpar & ->) & Hframe).
  assert ((c_parent c <> 0%Z /\ c_parent c ∈ c_id <$> pre) ->
          exists rp, comment_rows (c_parent c) db1 = [rp] /\
                     comment_parent rc = Some (comment_pk rp)) as Hp1.
  { intros [Hne Hin].
    apply list_elem_of_fmap in Hin as (d & Hd & Hdin).
    destruct (Hcm d Hdin) as (rd & Hrd & Hlook).
    destruct (Hk1 _ _ Hrd) as (rp & Hrp & Hpk).
    exists rp. rewrite Hd. split; [done|].
    rewrite Hpar. unfold parent_of.
    rewrite bool_decide_eq_true_2 by done. rewrite Hd, Hlook. congruence. }
  assert (~ (c_parent c <> 0%Z /\ c_parent c ∈ c_id <$> pre) ->
          comment_parent rc = None) as Hp2.
  { intros Hno. rewrite Hpar. unfold parent_of.
    case_bool_decide as Hne; [|done]. apply Hkeys. tauto. }
  split; [|split; [|split; [|split; [|split]]]].
  - destruct S0 as (?&?&?&?&?), S1 as (?&?&?&?&?).
    repeat split; congruence.
  - intros pre' c' suf' Hsplit Hlast _.
    apply snoc_split in Hsplit as [(-> & -> & ->)|(suf'' & -> & Hpre)].
    + by exists rc.
    + assert (c_id c' <> c_id c) as Hne.
      { intros Heq. apply Hlast. rewrite fmap_app, Heq. set_solver. }
      destruct (Himp pre' c' suf'' Hpre) as (rc' & Hrow' & Hm' & Hq1 & Hq2).
      { intros Hin. apply Hlast. rewrite fmap_app. set_solver. }
      { by intros ?%elem_of_nil. }
      exists rc'. rewrite Hframe by done.
      split; [done|]. split; [done|]. split; [|done].
      intros Hp. destruct (Hq1 Hp) as (rp & Hrp & Hpp).
      destruct (Hk1 _ _ Hrp) as (rp' & Hrp' & Hpk).
      exists rp'. split; [done|congruence].
  - intros id Hid. rewrite fmap_app, not_elem_of_app in Hid.
    destruct Hid as [Hid1 Hid2]. rewrite Hframe by set_solver.
    by apply Hfr.
  - eapply keeps_comment_keys_trans; [exact Hkept|exact Hk1].
  - simpl. intros d [Hd| ->%list_elem_of_singleton]%elem_of_app.
    + destruct (Hcm d Hd) as (rd & Hrd & Hlook).
      destruct (Hk1 _ _ Hrd) as (rd' & Hrd' & Hpk).
      exists rd'. split; [done|].
      destruct (decide (c_id d = c_id c)) as [Heq|Hne].
      * rewrite Heq in *. rewrite Hrc in Hrd'. injection Hrd' as ->.
        apply lookup_insert_eq.
      * rewrite lookup_insert_ne by done. congruence.
    + exists rc. split; [done|]. apply lookup_insert_eq.
  - simpl. intros k Hk. rewrite fmap_app, not_elem_of_app in Hk.
    destruct Hk as [Hk1' Hk2]. rewrite lookup_insert_ne by set_solver.
    by apply Hkeys.
Qed.

(** *** The rows of the posts and of their comments after an import *)

Section SettledFacts.

Variable slugify : string -> string.
Variable render_markdown : string -> string.

(** What a turn of the post loop does to the comments. *)
Lemma import_post_comments_settled now authors tag_map default_author stats p
  db db' stats' :
  import_post slugify render_markdown now authors tag_map default_author
    stats p db = (db', Ok stats') ->
  (exists r, post_rows (p_id p) db' = [r] /\
             comments_settled (post_pk r) (sorted_by_id (p_comments p)) []
               db') /\
  (forall id, id ∉ c_id <$> p_comments p ->
              comment_rows id db' = comment_rows id db) /\
  keeps_comment_keys db db'.
Proof.
  intros Hstep.
  apply import_post_steps in Hstep
    as (db1 & db2 & pk & created & cm & stats1 & Hup & Htags & Hcs & _).
  apply update_or_create_post_ok in Hup
    as (S1 & (r & Hr & Hpk & _) & _).
  destruct (tags_loop_ok tag_map pk (p_tags p) db1)
    as (db2' & Htags' & S2 & _).
  rewrite Htags in Htags'. injection Htags' as <-.
  apply import_comments_settled in Hcs as (S3 & Himp & Hfr & Hkept).
  destruct S1 as (U1 & T1 & PT1 & C1 & I1), S2 as (U2 & T2 & P2 & C2 & I2),
    S3 as (U3 & T3 & P3 & PT3 & I3).
  assert (forall id, comment_rows id db2 = comment_rows id db) as Hsame.
  { intros id. unfold comment_rows. by rewrite C2, C1. }
  split; [|split].
  - exists r. split; [|by rewrite Hpk].
    unfold post_rows in *. by rewrite P3, P2.
  - intros id Hid. rewrite Hfr by (by rewrite sorted_by_id_ids).
    apply Hsame.
  - intros id rc0 H0. rewrite <- Hsame in H0. by apply Hkept.
Qed.

(** The date of publication that a turn of the post loop leaves: the date
    of the export, but for a published post without date. *)
Definition post_dated (p : wp_post) (r : Post) : Prop :=
  ~ (post_status r = PUBLISHED /\ p_published_at p = None) ->
  published_at r = p_published_at p.

Lemma import_post_dated now authors tag_map default_author stats p db db'
  stats' r :
  import_post slugify render_markdown now authors tag_map default_author
    stats p db = (db', Ok stats') ->
  post_rows (p_id p) db' = [r] -> post_dated p r.
Proof.
  intros Hstep Hrow.
  apply import_post_steps in Hstep
    as (db1 & db2 & pk & created & cm & stats1 & Hup & Htags & Hcs & _).
  destruct (tags_loop_ok tag_map pk (p_tags p) db1)
    as (db2' & Htags' & S2 & _).
  rewrite Htags in Htags'. injection Htags' as <-.
  apply import_comments_settled in Hcs as (S3 & _).
  destruct S2 as (U2 & T2 & P2 & C2 & I2), S3 as (U3 & T3 & P3 & PT3 & I3).
  assert (post_rows (p_id p) db1 = [r]) as Hrow1.
  { unfold post_rows in *. by rewrite <- P2, <- P3. }
  clear - Hup Hrow1. unfold update_or_create_post in Hup.
  unfold post_rows in Hrow1.
  assert (r ∈ filter (fun x => wp_post_id x = Some (p_id p)) (posts db1))
    as [Hid Hin]%list_elem_of_filter by (rewrite Hrow1; left).
  assert (published_at r
          = save_published_at now (post_status r) (p_published_at p)) as Hp.
  { destruct (filter _ (posts db)) as [|p0 [|p' l]] eqn:Hf; [| |done].
    - case_bool_decide; [done|]. case_bool_decide; [done|].
      injection Hup as <- _ _. simpl in Hin.
      apply elem_of_app in Hin as [Hin | ->%list_elem_of_singleton]; [|done].
      assert (r ∈ filter (fun x => wp_post_id x = Some (p_id p)) (posts db))
        as Hbad by by apply list_elem_of_filter.
      rewrite Hf in Hbad. by apply elem_of_nil in Hbad.
    - case_bool_decide; [done|]. injection Hup as <- _ _. simpl in Hin.
      apply list_elem_of_fmap in Hin as (x & -> & Hx).
      case_bool_decide as Hxid; [done|]. done. }
  intros Hno. rewrite Hp. unfold save_published_at.
  destruct (post_status r); try done.
  destruct (p_published_at p); [done|]. by destruct Hno.
Qed.

(** The post loop: every post has a row with its date, and the comments
    are settled, a comment of a post with respect to the comments of the
    posts after it. *)
Definition posts_settled (l : list wp_post) (db : DB) : Prop :=
  forall lpre p lsuf,
    l = lpre ++ p :: lsuf ->
    exists r,
      post_rows (p_id p) db = [r] /\
      comments_settled (post_pk r) (sorted_by_id (p_comments p))
        (comment_ids lsuf) db.

Lemma import_posts_settled now authors tag_map default_author l stats db db'
  stats' :
  foldM (import_post slugify render_markdown now authors tag_map
           default_author) l stats db = (db', Ok stats') ->
  posts_settled l db' /\ keeps_comment_keys db db'.
Proof.
  intros Hrun.
  pose (I := fun (pre : list wp_post) (_ : Stats) dbc =>
    posts_settled pre dbc /\ keeps_comment_keys db dbc).
  eapply (foldM_ok_inv _ I l); [| |exact Hrun].
  2:{ split; [|apply keeps_comment_keys_refl].
      intros lpre p lsuf Hl. by destruct lpre. }
  clear Hrun. intros pre p suf st dbc st1 db1 Hl [Himp Hkept] Hstep.
  destruct (import_post_comments_settled _ _ _ _ _ _ _ _ _ Hstep)
    as (Hp & Hfr & Hk1).
  apply import_post_ok in Hstep as (_ & _ & Hpfr & Hsame & _).
  split; [|by eapply keeps_comment_keys_trans].
  intros lpre p0 lsuf Hsplit.
  apply snoc_split in Hsplit as [(-> & -> & ->)|(lsuf' & -> & Hpre)].
  { done. }
  destruct (Himp lpre p0 lsuf' Hpre) as (r0 & Hr0 & Hc0).
  assert (comments_settled (post_pk r0) (sorted_by_id (p_comments p0))
            (comment_ids (lsuf' ++ [p])) db1) as Hc1.
  { eapply comments_settled_kept; [|exact Hk1|exact Hc0].
    intros id Hid. unfold comment_ids in *. rewrite bind_app in Hid.
    apply not_elem_of_app in Hid as [Hid1 Hid2]. split; [done|].
    apply Hfr. intros Hin. apply Hid2. simpl. rewrite app_nil_r. done. }
  destruct (decide (p_id p0 = p_id p)) as [Heq|Hne].
  - rewrite Heq in Hr0. destruct (Hsame r0 Hr0) as (r & Hr & Hpk).
    exists r. rewrite Heq. split; [done|]. by rewrite Hpk.
  - exists r0. by rewrite Hpfr.
Qed.

(** The dates, for posts with distinct identifiers. *)
Lemma import_posts_dated now authors tag_map default_author l stats db db'
  stats' :
  NoDup (p_id <$> l) ->
  foldM (import_post slugify render_markdown now authors tag_map
           default_author) l stats db = (db', Ok stats') ->
  forall p r, p ∈ l -> post_rows (p_id p) db' = [r] -> post_dated p r.
Proof.
  intros Hnd Hrun.
  pose (I := fun (pre : list wp_post) (_ : Stats) dbc =>
    forall p r, p ∈ pre -> post_rows (p_id p) dbc = [r] -> post_dated p r).
  eapply (foldM_ok_inv _ I l); [| |exact Hrun].
  2:{ by intros p r Hp%elem_of_nil. }
  clear Hrun. intros pre p suf st dbc st1 db1 Hl Himp Hstep.
  pose proof (fun r => import_post_dated now authors tag_map default_author
                          st p dbc db1 st1 r Hstep) as Hd.
  apply import_post_ok in Hstep as (_ & _ & Hpfr & _).
  intros p0 r [Hp0| ->%list_elem_of_singleton]%elem_of_app Hr; [|by apply Hd].
  apply (Himp p0 r Hp0). rewrite <- Hpfr; [done|].
  rewrite Hl, fmap_app, fmap_cons in Hnd.
  apply NoDup_app in Hnd as (_ & Hnd & _). intros Heq.
  apply (Hnd (p_id p0)); [apply list_elem_of_fmap; eauto|].
  rewrite Heq. by left.
Qed.

End SettledFacts.

(** *** A second run *)

(** The row [r] after the save of a second import at the time [now], for
    an export that gives the date [published]: [updated_at] is the time of
    the save, and so is [published_at] for a published post without date
    in the export; no other field changes. *)
Definition restamp (now : Z) (published : option Z) (r : Post) : Post :=
  {| post_pk := post_pk r; post_title := post_title r;
     post_slug := post_slug r; content_md := content_md r;
     content_html := content_html r; post_excerpt := post_excerpt r;
     post_status := post_status r; post_author := post_author r;
     featured_image := featured_image r;
     published_at :=
       match post_status r, published with
       | PUBLISHED, None => Some now
       | _, _ => published_at r
       end;
     post_created_at := post_created_at r;
     post_updated_at := now;
     wp_post_id := wp_post_id r |}.

(** The values of [wp_post_id] for the posts of an export. *)
Definition post_keys (l : list wp_post) : list (option Z) :=
  (fun p => Some (p_id p)) <$> l.

(** [r'] is [r] itself when [r] is no post of [l], and [r] with the dates
    of a save at [now] when it is one. *)
Definition restamped_by (l : list wp_post) (now : Z) (r r' : Post) : Prop :=
  ((wp_post_id r ∉ post_keys l) /\ r' = r) \/
  (exists p, p ∈ l /\ wp_post_id r = Some (p_id p) /\
             r' = restamp now (p_published_at p) r).

(** What a second import of [data] at the time [now] does to the store:
    nothing to the users, tags, tag associations, comments and images, and
    nothing to the posts either but for the dates [updated_at] and
    [published_at] of the posts of the export. *)
Definition run_again (data : wp_data) (now : Z) (db1 db2 : DB) : Prop :=
  users db2 = users db1 /\ tags db2 = tags db1 /\
  post_tags db2 = post_tags db1 /\ comments db2 = comments db1 /\
  images db2 = images db1 /\
  Forall2 (restamped_by (d_posts data) now) (posts db1) (posts db2).

Lemma restamped_by_fields l now r r' :
  restamped_by l now r r' ->
  wp_post_id r' = wp_post_id r /\ post_slug r' = post_slug r /\
  post_pk r' = post_pk r.
Proof. by intros [[_ ->]|(p & _ & _ & ->)]. Qed.

Lemma Forall2_fmap_r_elem {A B} (R R' : A -> B -> Prop) (f : B -> B) l k :
  Forall2 R l k ->
  (forall x y, x ∈ l -> y ∈ k -> R x y -> R' x (f y)) ->
  Forall2 R' l (f <$> k).
Proof.
  induction 1 as [|x y l k Hxy Hlk IH]; intros Hf; [constructor|].
  rewrite fmap_cons. constructor.
  - apply Hf; [by left|by left|done].
  - apply IH. intros x' y' Hx' Hy'. apply Hf; by right.
Qed.

Lemma Forall2_elem_r {A B} (R : A -> B -> Prop) l k y :
  Forall2 R l k -> y ∈ k -> exists x, x ∈ l /\ R x y.
Proof.
  induction 1 as [|x y' l k Hxy Hlk IH]; [by intros ?%elem_of_nil|].
  intros [->|Hy]%elem_of_cons.
  - exists x. split; [by left|done].
  - destruct (IH Hy) as (x' & Hx' & HR). exists x'. split; [by right|done].
Qed.

Lemma Forall2_compose {A B C} (R : A -> B -> Prop) (S : B -> C -> Prop)
  (T : A -> C -> Prop) l k m :
  (forall x y z, R x y -> S y z -> T x z) ->
  Forall2 R l k -> Forall2 S k m -> Forall2 T l m.
Proof.
  intros H HR. revert m. induction HR as [|x y l k Hxy _ IH]; intros m HS.
  - apply Forall2_nil_inv_l in HS as ->. constructor.
  - apply Forall2_cons_inv_l in HS as (z & m' & Hyz & HS & ->).
    constructor; eauto.
Qed.

Lemma Forall2_eq_elem {A} (R : A -> A -> Prop) l k :
  Forall2 R l k -> (forall x y, x ∈ l -> y ∈ k -> R x y -> y = x) -> k = l.
Proof.
  induction 1 as [|x y l k Hxy _ IH]; intros H; [done|]. f_equal.
  - apply H; [left|left|done].
  - apply IH. intros x' y' Hx' Hy'. apply H; by right.
Qed.

(** A comment row after updates of the comments [ids]: the key, the
    identifier and the date of creation are those of the row before, and a
    row of another comment is the row before. *)
Definition kept_comment (ids : list Z) (x y : Comment) : Prop :=
  comment_pk y = comment_pk x /\ wp_comment_id y = wp_comment_id x /\
  comment_created_at y = comment_created_at x /\
  ((wp_comment_id x ∉ Some <$> ids) -> y = x).

Lemma kept_comment_rows ids db db' id :
  Forall2 (kept_comment ids) (comments db) (comments db') ->
  Forall2 (kept_comment ids) (comment_rows id db) (comment_rows id db').
Proof.
  intros H. apply Forall2_filter; [|done].
  intros x y (_ & -> & _). done.
Qed.

Lemma kept_comment_row ids db db' id rc :
  Forall2 (kept_comment ids) (comments db) (comments db') ->
  comment_rows id db = [rc] ->
  exists rc', comment_rows id db' = [rc'] /\ kept_comment ids rc rc'.
Proof.
  intros H Hrow. apply (kept_comment_rows ids db db' id) in H.
  rewrite Hrow in H.
  apply Forall2_cons_inv_l in H as (y & k & Hy & ->%Forall2_nil_inv_l & ->).
  by exists y.
Qed.

(** A turn of the comment loop for a comment that has a row writes that
    row and creates nothing. *)
Lemma import_comment_update now post cm st c db rc0 :
  comment_rows (c_id c) db = [rc0] ->
  exists db',
    import_comment now post (cm, st) c db
    = (db', Ok (<[c_id c := comment_pk rc0]> cm, st)) /\
    same_but_comments db db' /\
    Forall2 (kept_comment [c_id c]) (comments db) (comments db').
Proof.
  intros Hrow.
  assert (wp_comment_id rc0 = Some (c_id c)) as Hid0.
  { assert (rc0 ∈ comment_rows (c_id c) db) as Hin by (rewrite Hrow; left).
    apply list_elem_of_filter in Hin. tauto. }
  unfold import_comment, mbind, M_bind, update_or_create_comment.
  unfold comment_rows in Hrow. rewrite Hrow.
  eexists. split; [by destruct (c_created_at c)|]. split; [done|].
  cbn [comments with_comments].
  apply Forall2_fmap_r, Forall_Forall2_diag, Forall_forall. intros x Hx.
  unfold compose.
  destruct (bool_decide (wp_comment_id x = Some (c_id c))) eqn:Hxid.
  - apply bool_decide_eq_true in Hxid.
    assert (x ∈ [rc0]) as ->%list_elem_of_singleton.
    { rewrite <- Hrow. by apply list_elem_of_filter. }
    repeat split; try done. intros Hnot. destruct Hnot.
    rewrite Hid0. set_solver.
  - by repeat split.
Qed.

(** The comment loop of a post whose comments have rows writes these rows
    and creates nothing. *)
Lemma import_comments_update now post l st db :
  (forall c, c ∈ l -> exists rc, comment_rows (c_id c) db = [rc]) ->
  exists cm db',
    foldM (import_comment now post) l (∅, st) db = (db', Ok (cm, st)) /\
    same_but_comments db db' /\
    Forall2 (kept_comment (c_id <$> l)) (comments db) (comments db').
Proof.
  intros Hrows.
  pose (I := fun (pre : list wp_comment) (acc : gmap Z nat * Stats) dbc =>
    acc.2 = st /\ same_but_comments db dbc /\
    Forall2 (kept_comment (c_id <$> pre)) (comments db) (comments dbc)).
  destruct (foldM_run_inv (import_comment now post) I l)
    with (acc := ((∅ : gmap Z nat), st)) (db := db)
    as ([cm st'] & db' & Hrun & Hst & HS & HK).
  - intros pre c suf [cm st0] dbc Hl (Hst & S0 & HK). simpl in Hst.
    subst st0.
    destruct (Hrows c) as [rc Hrc]; [rewrite Hl; set_solver|].
    destruct (kept_comment_row _ _ _ _ _ HK Hrc) as (rc' & Hrc' & _).
    destruct (import_comment_update now post cm st c dbc rc' Hrc')
      as (db1 & Hstep & S1 & HK1).
    eexists _, db1. split; [exact Hstep|]. split; [done|]. split.
    + destruct S0 as (?&?&?&?&?), S1 as (?&?&?&?&?).
      repeat split; congruence.
    + eapply Forall2_compose; [|exact HK|exact HK1].
      intros x y z (A1 & A2 & A3 & A4) (B1 & B2 & B3 & B4).
      repeat split; try congruence.
      intros Hnot. rewrite !fmap_app in Hnot.
      apply not_elem_of_app in Hnot as [Hn1 Hn2].
      rewrite B4; [by apply A4|]. by rewrite A2.
  - repeat split; try done.
    apply Forall_Forall2_diag, Forall_forall. by intros x _.
  - simpl in Hst. subst st'. by exists cm, db'.
Qed.

Section AgainFacts.

Variable slugify : string -> string.
Variable render_markdown : string -> string.

(** A turn of the post loop for a post whose row and tags are in the
    store already, and whose comments have rows, rewrites the row of the
    post with new dates, writes the rows of the comments and creates
    nothing. *)
Lemma import_post_again now authors tag_map default_author stats p db r1 :
  slug_arg slugify p <> "" ->
  post_rows (p_id p) db = [r1] ->
  post_matches slugify
    (default (user_pk default_author) (authors !! p_author p)) p r1 ->
  post_dated p r1 ->
  slug_is_of (p_id p) (post_slug r1) db ->
  (forall ts tag, ts ∈ p_tags p -> tag_map !! ts = Some tag ->
                  (post_pk r1, tag) ∈ post_tags db) ->
  (forall c, c ∈ p_comments p ->
     exists rc, comment_rows (c_id c) db = [rc]) ->
  exists db',
    import_post slugify render_markdown now authors tag_map default_author
      stats p db = (db', Ok stats) /\
    posts db'
    = (fun x => if bool_decide (wp_post_id x = Some (p_id p))
                then restamp now (p_published_at p) r1 else x)
        <$> posts db /\
    users db' = users db /\ tags db' = tags db /\
    post_tags db' = post_tags db /\ images db' = images db /\
    Forall2 (kept_comment (c_id <$> p_comments p)) (comments db)
      (comments db').
Proof.
  intros Hslug Hrow (M1 & M2 & M3 & M4 & M5 & M6 & M7) Hdated Hsl Htags Hcs.
  specialize (M7 Hslug).
  unfold import_post. fold (slug_arg slugify p).
  set (db1 := with_posts db
                ((fun x => if bool_decide (wp_post_id x = Some (p_id p))
                           then restamp now (p_published_at p) r1 else x)
                   <$> posts db)).
  assert (save_published_at now (post_status_of (p_status p))
            (p_published_at p)
          = match post_status r1, p_published_at p with
            | PUBLISHED, None => Some now
            | _, _ => published_at r1
            end) as Hpub.
  { rewrite <- M5. unfold save_published_at. unfold post_dated in Hdated.
    destruct (post_status r1), (p_published_at p) as [t|];
      try done; symmetry; apply Hdated; by intros [? ?]. }
  assert (update_or_create_post slugify render_markdown now (p_id p)
            (p_title p) (slug_arg slugify p)
            (html_to_markdown (p_content p)) (p_excerpt p)
            (post_status_of (p_status p))
            (default (user_pk default_author) (authors !! p_author p))
            (p_published_at p) db = (db1, Ok (post_pk r1, false))) as Hup.
  { unfold update_or_create_post. unfold post_rows in Hrow. rewrite Hrow.
    unfold save_slug.
    destruct (String.eqb_spec (slug_arg slugify p) "") as [|_]; [done|].
    rewrite bool_decide_eq_false_2.
    2:{ intros (x & Hx & [Hxid Hxin]%list_elem_of_filter)%list_elem_of_fmap.
        apply Hxid, Hsl; [done|]. congruence. }
    subst db1. rewrite Hpub. unfold restamp. do 4 f_equal.
    destruct r1; simpl in *. by subst. }
  unfold mbind at 1, M_bind at 1. rewrite Hup.
  destruct (tags_loop_ok tag_map (post_pk r1) (p_tags p) db1)
    as (db2 & Htl & _ & _ & _ & Hsame).
  rewrite (Hsame Htags) in Htl.
  unfold mbind at 1, M_bind at 1. rewrite Htl.
  destruct (import_comments_update now (post_pk r1)
              (sorted_by_id (p_comments p)) stats db1)
    as (cm & db' & Hcm & (U & T & P & PT & Im) & HK).
  { intros c Hc. rewrite sorted_by_id_perm in Hc. by apply Hcs. }
  exists db'. unfold mbind, M_bind. rewrite Hcm.
  split; [done|]. split; [by rewrite P|].
  split; [by rewrite U|]. split; [by rewrite T|]. split; [by rewrite PT|].
  split; [by rewrite Im|].
  eapply Forall2_impl; [exact HK|].
  intros x y (A1 & A2 & A3 & A4). repeat split; try done.
  intros Hnot. apply A4. by rewrite sorted_by_id_ids.
Qed.

(** The post loop run again on the store it left. *)
Lemma import_posts_again now authors tag_map default_author l db1 stats :
  NoDup (p_id <$> l) ->
  (forall p, p ∈ l -> slug_arg slugify p <> "") ->
  (forall p, p ∈ l ->
     post_imported slugify authors tag_map default_author p db1) ->
  (forall p r, p ∈ l -> post_rows (p_id p) db1 = [r] -> post_dated p r) ->
  (forall id, id ∈ comment_ids l ->
     exists rc, comment_rows id db1 = [rc]) ->
  exists db2,
    foldM (import_post slugify render_markdown now authors tag_map
             default_author) l stats db1 = (db2, Ok stats) /\
    users db2 = users db1 /\ tags db2 = tags db1 /\
    post_tags db2 = post_tags db1 /\ images db2 = images db1 /\
    Forall2 (kept_comment (comment_ids l)) (comments db1) (comments db2) /\
    Forall2 (restamped_by l now) (posts db1) (posts db2).
Proof.
  intros Hnd Hslug Hposts Hdates Hcomments.
  pose (J := fun (pre : list wp_post) (st : Stats) dbc =>
    st = stats /\ users dbc = users db1 /\ tags dbc = tags db1 /\
    post_tags dbc = post_tags db1 /\ images dbc = images db1 /\
    Forall2 (kept_comment (comment_ids pre)) (comments db1) (comments dbc) /\
    Forall2 (restamped_by pre now) (posts db1) (posts dbc)).
  destruct (foldM_run_inv
              (import_post slugify render_markdown now authors tag_map
                 default_author) J l) with (acc := stats) (db := db1)
    as (st & db2 & Hrun & -> & H); [| |by exists db2].
  2:{ repeat split.
      - apply Forall_Forall2_diag, Forall_forall. by intros x _.
      - apply Forall_Forall2_diag, Forall_forall.
        intros x _. left. split; [|done]. by intros ?%elem_of_nil. }
  intros pre p suf st dbc Hl (-> & HU & HT & HPT & HI & HK & HF).
  assert (p ∈ l) as Hp by (rewrite Hl; set_solver).
  assert (Some (p_id p) ∉ post_keys pre) as Hfresh.
  { rewrite Hl, fmap_app, fmap_cons in Hnd.
    apply NoDup_app in Hnd as (_ & Hnd & _).
    intros (p0 & [= Heq] & Hp0)%list_elem_of_fmap.
    apply (Hnd (p_id p0)); [apply list_elem_of_fmap; eauto|].
    rewrite <- Heq. by left. }
  destruct (Hposts p Hp) as (r1 & Hr1 & Hm & Hs & Htags).
  pose proof (Hdates p r1 Hp Hr1) as Hdated.
  assert (wp_post_id r1 = Some (p_id p)) as Hid1 by (by destruct Hm).
  assert (post_rows (p_id p) dbc = [r1]) as Hrow.
  { assert (Forall2 (restamped_by pre now) (post_rows (p_id p) db1)
              (post_rows (p_id p) dbc)) as HF'.
    { apply Forall2_filter; [|done]. intros x y [-> _]%restamped_by_fields.
      done. }
    rewrite Hr1 in HF'. apply Forall2_cons_inv_l in HF'
      as (y & k & Hy & ->%Forall2_nil_inv_l & ->).
    destruct Hy as [[_ ->]|(p0 & Hp0 & Hid0 & _)]; [done|].
    destruct Hfresh. apply list_elem_of_fmap. exists p0.
    split; [congruence|done]. }
  assert (slug_is_of (p_id p) (post_slug r1) dbc) as Hs'.
  { intros x Hx Hxs. destruct (Forall2_elem_r _ _ _ _ HF Hx)
      as (x1 & Hx1 & (Hw & Hsl & _)%restamped_by_fields).
    rewrite Hw. apply Hs; [done|]. congruence. }
  destruct (import_post_again now authors tag_map default_author stats p dbc
              r1) as (db' & Hstep & HP' & HU' & HT' & HPT' & HI' & HK');
    try done.
  { by apply Hslug. }
  { intros ts tag Hts Htag. rewrite HPT. by eapply Htags. }
  { intros c Hc. destruct (Hcomments (c_id c)) as [rc Hrc].
    - apply list_elem_of_bind. exists p. split; [|done].
      apply list_elem_of_fmap. eauto.
    - destruct (kept_comment_row _ _ _ _ _ HK Hrc) as (rc' & Hrc' & _).
      by exists rc'. }
  exists stats, db'. split; [done|]. split; [done|].
  split; [congruence|]. split; [congruence|]. split; [congruence|].
  split; [congruence|]. split.
  - eapply Forall2_compose; [|exact HK|exact HK'].
    intros x y z (A1 & A2 & A3 & A4) (B1 & B2 & B3 & B4).
    repeat split; try congruence.
    intros Hnot. unfold comment_ids in Hnot.
    rewrite bind_app, fmap_app in Hnot.
    apply not_elem_of_app in Hnot as [Hn1 Hn2].
    rewrite B4; [by apply A4|]. rewrite A2. simpl in Hn2.
    by rewrite app_nil_r in Hn2.
  - rewrite HP'. eapply Forall2_fmap_r_elem; [exact HF|].
    intros x1 y Hx1 Hy HR.
    pose proof (restamped_by_fields _ _ _ _ HR) as [Hw _].
    case_bool_decide as Hyid.
    + assert (x1 ∈ [r1]) as ->%list_elem_of_singleton.
      { rewrite <- Hr1. apply list_elem_of_filter. split; [congruence|done]. }
      right. exists p. split; [set_solver|]. done.
    + destruct HR as [[Hnin ->]|(p0 & Hp0 & Hid0 & ->)].
      * left. split; [|done]. unfold post_keys.
        rewrite fmap_app, not_elem_of_app. split; [done|].
        intros Heq%list_elem_of_singleton. congruence.
      * right. exists p0. split; [set_solver|done].
Qed.

End AgainFacts.

(** The last comment with an identifier, in the order of the import. *)
Lemma last_occurrence {A B} `{EqDecision B} (f : A -> B) (l : list A)
  (k : B) :
  k ∈ f <$> l ->
  exists pre x suf, l = pre ++ x :: suf /\ f x = k /\ (k ∉ f <$> suf).
Proof.
  induction l as [|a l IH]; [by intros ?%elem_of_nil|].
  destruct (decide (k ∈ f <$> l)) as [Hin|Hnin].
  - intros _. destruct (IH Hin) as (pre & x & suf & -> & Hx & Hsuf).
    by exists (a :: pre), x, suf.
  - rewrite fmap_cons. intros [->|Hin]%elem_of_cons; [|done].
    by exists [], a, l.
Qed.

Lemma last_post (l : list wp_post) (k : Z) :
  k ∈ comment_ids l ->
  exists lpre p lsuf,
    l = lpre ++ p :: lsuf /\ (k ∈ c_id <$> p_comments p) /\
    (k ∉ comment_ids lsuf).
Proof.
  induction l as [|a l IH]; [by intros ?%elem_of_nil|].
  destruct (decide (k ∈ comment_ids l)) as [Hin|Hnin].
  - intros _. destruct (IH Hin) as (lpre & p & lsuf & -> & Hp & Hsuf).
    by exists (a :: lpre), p, lsuf.
  - unfold comment_ids at 1. rewrite bind_cons.
    intros [Hin|Hin]%elem_of_app; [|done].
    by exists [], a, l.
Qed.

(** Two stores in which the comments of an export are settled, with the
    same keys for the posts and the comments, have the same comments. *)
Lemma settled_same (l : list wp_post) (db1 db2 : DB) :
  posts_settled l db1 -> posts_settled l db2 ->
  Forall2 (kept_comment (comment_ids l)) (comments db1) (comments db2) ->
  (forall p r1 r2, p ∈ l -> post_rows (p_id p) db1 = [r1] ->
     post_rows (p_id p) db2 = [r2] -> post_pk r2 = post_pk r1) ->
  comments db2 = comments db1.
Proof.
  intros H1 H2 HK Hpk. apply (Forall2_eq_elem _ _ _ HK).
  intros x y Hx Hy (A1 & A2 & A3 & A4).
  destruct (decide (wp_comment_id x ∈ Some <$> comment_ids l)) as [Hin|Hnin];
    [|by apply A4].
  apply list_elem_of_fmap in Hin as (k & Hk & Hkin).
  destruct (last_post l k Hkin) as (lpre & p & lsuf & Hl & Hkp & Hlater).
  destruct (last_occurrence c_id (sorted_by_id (p_comments p)) k)
    as (pre & c & suf & Hsorted & Hc & Hlast);
    [by rewrite sorted_by_id_ids|].
  subst k.
  destruct (H1 lpre p lsuf Hl) as (r1 & Hr1 & Hs1).
  destruct (H2 lpre p lsuf Hl) as (r2 & Hr2 & Hs2).
  destruct (Hs1 pre c suf Hsorted Hlast Hlater)
    as (rc1 & Hrc1 & Hm1 & P1 & Q1).
  destruct (Hs2 pre c suf Hsorted Hlast Hlater)
    as (rc2 & Hrc2 & Hm2 & P2 & Q2).
  assert (x ∈ [rc1]) as ->%list_elem_of_singleton.
  { rewrite <- Hrc1. by apply list_elem_of_filter. }
  assert (y ∈ [rc2]) as ->%list_elem_of_singleton.
  { rewrite <- Hrc2. apply list_elem_of_filter. split; [congruence|done]. }
  assert (post_pk r2 = post_pk r1) as Hr.
  { apply (Hpk p); [rewrite Hl; set_solver|done|done]. }
  assert (comment_parent rc2 = comment_parent rc1) as Hpar.
  { destruct (decide (c_parent c <> 0%Z /\ c_parent c ∈ c_id <$> pre))
      as [Hp|Hp]; [|by rewrite Q1, Q2].
    destruct (P1 Hp) as (rp1 & Hrp1 & ->), (P2 Hp) as (rp2 & Hrp2 & ->).
    destruct (kept_comment_row _ _ _ _ _ HK Hrp1) as (rp & Hrp & (E & _)).
    rewrite Hrp2 in Hrp. injection Hrp as <-. by rewrite E. }
  destruct Hm1 as (B1 & B2 & B3 & B4 & B5 & B6),
    Hm2 as (C1 & C2 & C3 & C4 & C5 & C6).
  destruct rc1, rc2; simpl in *. f_equal; congruence.
Qed.

Lemma posts_settled_row (l : list wp_post) (db : DB) (k : Z) :
  posts_settled l db -> k ∈ comment_ids l ->
  exists rc, comment_rows k db = [rc].
Proof.
  intros H Hkin.
  destruct (last_post l k Hkin) as (lpre & p & lsuf & Hl & Hkp & Hlater).
  destruct (last_occurrence c_id (sorted_by_id (p_comments p)) k)
    as (pre & c & suf & Hsorted & Hc & Hlast);
    [by rewrite sorted_by_id_ids|].
  subst k. destruct (H lpre p lsuf Hl) as (r & Hr & Hs).
  destruct (Hs pre c suf Hsorted Hlast Hlater) as (rc & Hrc & _).
  by exists rc.
Qed.

(** C1, as the code has it: when an import of an export has ended,
    importing the same export again ends, creates nothing (the three
    counts of created entities are 0) and leaves every table as it is, but
    for two dates of the posts of the export: [updated_at], which every
    save sets to the time of the save, and [published_at], which a save
    sets to that time for a published post whose export gives no date.
    This is so for an export whose posts have distinct identifiers, whose
    tags have a slug and whose posts have a slug of their own or one
    derived from the title; the identifiers of the comments may come more
    than once. *)
Theorem import_twice slugify render_markdown now1 now2 data default_author
  db db1 stats1 :
  NoDup (p_id <$> d_posts data) ->
  tags_have_slug (d_tags data) ->
  (forall p, p ∈ d_posts data -> slug_arg slugify p <> "") ->
  import_data slugify render_markdown now1 data default_author db
  = (db1, Ok stats1) ->
  exists db2,
    import_data slugify render_markdown now2 data default_author db1
    = (db2, Ok {| tags_created := 0; posts_created := 0;
                  comments_created := 0 |}) /\
    run_again data now2 db1 db2 /\
    length (posts db2) = length (posts db1).
Proof.
  intros Hnd Htags Hslug Hrun.
  apply import_data_steps in Hrun
    as (dbA & authors & dbT & tag_map & statsT & HA & HT & HP).
  pose proof (import_tags_same_but_tags slugify (d_tags data)
                (∅, {| tags_created := 0; posts_created := 0;
                       comments_created := 0 |}) dbA) as HTs.
  rewrite HT in HTs. simpl in HTs. destruct HTs as (T1 & _).
  destruct (import_posts_ok _ _ _ _ _ _ _ _ _ _ _ Hnd HP)
    as (HU & HTg & Hposts).
  pose proof (import_posts_dated _ _ _ _ _ _ _ _ _ _ _ Hnd HP) as Hdates.
  destruct (import_posts_settled _ _ _ _ _ _ _ _ _ _ _ HP) as [Hset1 _].
  assert (foldM import_author (d_authors data) ∅ db1 = (db1, Ok authors))
    as HA2.
  { eapply import_authors_again; [exact HA|]. congruence. }
  assert (foldM (import_tag slugify) (d_tags data)
            (∅, {| tags_created := 0; posts_created := 0;
                   comments_created := 0 |}) db1
          = (db1, Ok (tag_map,
                      {| tags_created := 0; posts_created := 0;
                         comments_created := 0 |}))) as HT2.
  { eapply import_tags_again; [done|exact HT|done]. }
  destruct (import_posts_again slugify render_markdown now2 authors tag_map
              default_author (d_posts data) db1
              {| tags_created := 0; posts_created := 0;
                 comments_created := 0 |} Hnd Hslug Hposts Hdates)
    as (db2 & HP2 & R1 & R2 & R3 & R4 & R5 & R6).
  { intros id Hid. by eapply posts_settled_row. }
  destruct (import_posts_settled _ _ _ _ _ _ _ _ _ _ _ HP2) as [Hset2 _].
  exists db2. split; [|split].
  - unfold import_data, mbind, M_bind. rewrite HA2, HT2. exact HP2.
  - split; [done|]. split; [done|]. split; [done|]. split; [|by split].
    apply (settled_same (d_posts data)); try done.
    intros p r1 r2 Hp Hr1 Hr2.
    assert (Forall2 (restamped_by (d_posts data) now2)
              (post_rows (p_id p) db1) (post_rows (p_id p) db2)) as HF.
    { apply Forall2_filter; [|done]. intros x y [-> _]%restamped_by_fields.
      done. }
    rewrite Hr1, Hr2 in HF.
    apply Forall2_cons_1 in HF as [(_ & _ & E)%restamped_by_fields _].
    done.
  - symmetry. by eapply Forall2_length.
Qed.

Lemma import_twice_witness :
  let run1 := import_data (fun s => s) (fun s => s) 0%Z small_data admin
                admin_db in
  (NoDup (p_id <$> d_posts small_data) /\
   tags_have_slug (d_tags small_data) /\
   (forall p, p ∈ d_posts small_data -> slug_arg (fun s => s) p <> "") /\
   run1 = (run1.1, Ok {| tags_created := 1; posts_created := 1;
                         comments_created := 2 |})) /\
  exists db2,
    import_data (fun s => s) (fun s => s) 1%Z small_data admin run1.1
    = (db2, Ok {| tags_created := 0; posts_created := 0;
                  comments_created := 0 |}) /\
    run_again small_data 1%Z run1.1 db2 /\
    length (posts db2) = length (posts run1.1).
Proof.
  intros run1.
  assert (NoDup (p_id <$> d_posts small_data)) as H1
    by apply NoDup_singleton.
  assert (tags_have_slug (d_tags small_data)) as H3.
  { intros t ->%list_elem_of_singleton. by exists "foo". }
  assert (forall p, p ∈ d_posts small_data ->
                    slug_arg (fun s => s) p <> "") as H4.
  { by intros p ->%list_elem_of_singleton. }
  assert (run1 = (run1.1, Ok {| tags_created := 1; posts_created := 1;
                                comments_created := 2 |})) as H5
    by (vm_compute; reflexivity).
  split; [done|].
  exact (import_twice _ _ 0%Z 1%Z _ _ _ _ _ H1 H3 H4 H5).
Defined.

(** A second import changes dates: the post of [small_data], published
    and without date in the export, has [published_at] and [updated_at] 0
    after an import at the time 0, and 1 after a second import at the
    time 1.  And outside the three conditions a second import need not end
    or changes more than dates.  After an export with a tag without slug,
    or with two entries of one post identifier that swap a slug, importing
    the same export again raises IntegrityError.  After an export with a
    post without slug, whose title gives none, importing the same export
    again can change the slug of that post: the store of [early_data]
    holds the post 2 with the empty slug, so the post 1 of
    [slugless_post_data] gets the slug [-1]; that import gives the post 2
    its slug [two], and the second import finds the empty slug free for
    the post 1. *)
Lemma import_twice_counterexample :
  let run1 := import_data (fun s => s) (fun s => s) 0%Z small_data admin
                admin_db in
  let run2 := import_data (fun s => s) (fun s => s) 1%Z small_data admin
                run1.1 in
  let tag1 := import_data (fun s => s) (fun s => s) 0%Z slugless_tag_data
                admin admin_db in
  let tag2 := import_data (fun s => s) (fun s => s) 1%Z slugless_tag_data
                admin tag1.1 in
  let twin1 := import_data (fun s => s) (fun s => s) 0%Z twin_posts_data
                 admin admin_db in
  let twin2 := import_data (fun s => s) (fun s => s) 1%Z twin_posts_data
                 admin twin1.1 in
  let early := import_data test_slugify (fun s => s) 0%Z early_data admin
                 admin_db in
  let slug1 := import_data test_slugify (fun s => s) 1%Z slugless_post_data
                 admin early.1 in
  let slug2 := import_data test_slugify (fun s => s) 2%Z slugless_post_data
                 admin slug1.1 in
  (run1.2 = Ok {| tags_created := 1; posts_created := 1;
                  comments_created := 2 |} /\
   run2.2 = Ok {| tags_created := 0; posts_created := 0;
                  comments_created := 0 |} /\
   (fun r => (published_at r, post_updated_at r)) <$> posts run1.1
   = [(Some 0%Z, 0%Z)] /\
   (fun r => (published_at r, post_updated_at r)) <$> posts run2.1
   = [(Some 1%Z, 1%Z)]) /\
  (tag1.2 = Ok {| tags_created := 1; posts_created := 0;
                  comments_created := 0 |} /\
   tag2.2 = Raise IntegrityError) /\
  (twin1.2 = Ok {| tags_created := 0; posts_created := 2;
                   comments_created := 0 |} /\
   twin2.2 = Raise IntegrityError) /\
  (NoDup (p_id <$> d_posts slugless_post_data) /\
   slug1.2 = Ok {| tags_created := 0; posts_created := 1;
                   comments_created := 0 |} /\
   slug2.2 = Ok {| tags_created := 0; posts_created := 0;
                   comments_created := 0 |} /\
   (fun r => (wp_post_id r, post_slug r)) <$> posts slug1.1
   = [(Some 2%Z, "two"); (Some 1%Z, "-1")] /\
   (fun r => (wp_post_id r, post_slug r)) <$> posts slug2.1
   = [(Some 2%Z, "two"); (Some 1%Z, "")]).
Proof.
  vm_compute. repeat split. apply (bool_decide_unpack _). by vm_compute.
Qed.

(** The export [twin_comments_data], where two comments of the post have
    the identifier 5: the comment table has one row for them, and a
    second import leaves it as it is. *)
Example import_twice_repeated_comments :
  let run1 := import_data (fun s => s) (fun s => s) 0%Z twin_comments_data
                admin admin_db in
  let run2 := import_data (fun s => s) (fun s => s) 1%Z twin_comments_data
                admin run1.1 in
  run1.2 = Ok {| tags_created := 0; posts_created := 1;
                 comments_created := 1 |} /\
  run2.2 = Ok {| tags_created := 0; posts_created := 0;
                 comments_created := 0 |} /\
  length (comments run1.1) = 1 /\
  comments run2.1 = comments run1.1.
Proof. vm_compute. by repeat split. Qed.

(** ** No tag is left in an output *)

(** A tag opens at the start of [s]: a character that is not [>], and a
    [>] further on. *)
Definition opens (s : chars) : Prop :=
  (exists c r, s = c :: r /\ c <> gt) /\ gt ∈ s.

Lemma opens_spec (s : chars) :
  opens s <-> exists w b, s = w ++ gt :: b /\ w <> [] /\ gt ∉ w.
Proof.
  split.
  - intros [(c & r & -> & Hc) Hin].
    apply list_elem_of_split_l in Hin as (w & b & Hs & Hw).
    exists w, b. split; [done|]. split; [|done].
    intros ->. simpl in Hs. congruence.
  - intros (w & b & -> & Hw & Hgt). split.
    + destruct w as [|c w]; [done|]. exists c, (w ++ gt :: b).
      split; [done|]. intros ->. apply Hgt. left.
    + set_solver.
Qed.

Lemma has_tag_cons c (s : chars) :
  has_tag (c :: s) <-> (c = lt /\ opens s) \/ has_tag s.
Proof.
  rewrite opens_spec. split.
  - intros (a & w & b & Hs & Hw & Hgt). destruct a as [|x a].
    + injection Hs as -> ->. left. eauto 10.
    + injection Hs as -> ->. right. by exists a, w, b.
  - intros [[-> (w & b & -> & Hw & Hgt)] | (a & w & b & -> & Hw & Hgt)].
    + by exists [], w, b.
    + by exists (c :: a), w, b.
Qed.

Lemma has_tag_nil : ~ has_tag [].
Proof. intros (a & w & b & Hs & _). by destruct a. Qed.

Lemma has_tag_app_r (a s : chars) : has_tag s -> has_tag (a ++ s).
Proof.
  intros (a' & w & b & -> & Hw & Hgt). exists (a ++ a'), w, b.
  by rewrite <- app_assoc.
Qed.

Lemma has_tag_app_l (s b : chars) : has_tag s -> has_tag (s ++ b).
Proof.
  intros (a & w & b' & -> & Hw & Hgt). exists a, w, (b' ++ b).
  split; [|done]. rewrite <- !app_assoc. simpl. by rewrite <- app_assoc.
Qed.

(** The characters before the first [>]. *)
Lemma run_len_not_gt (s : chars) :
  gt ∈ s ->
  exists rest, drop (run_len (NoneOf [gt]) None s) s = gt :: rest.
Proof.
  induction s as [|c s IH]; [by intros ?%elem_of_nil|].
  intros Hin. cbn [run_len cs_mem mem_ascii]. rewrite orb_false_r.
  destruct (Ascii.eqb_spec gt c) as [<-|Hc]; simpl.
  - by exists s.
  - apply IH. apply elem_of_cons in Hin as [?|?]; [congruence|done].
Qed.

(** Where the pattern [<[^>]+>] does not match at a [<], the [<] is followed
    by a [>] at once or by none at all. *)
Lemma tag_re_none (s : chars) :
  re_match tag_re (lt :: s) = None ->
  (exists r, s = gt :: r) \/ gt ∉ s.
Proof.
  intros H. destruct (decide (gt ∈ s)) as [Hin|]; [|by right]. left.
  destruct s as [|c s]; [by apply elem_of_nil in Hin|].
  destruct (decide (c = gt)) as [->|Hc]; [by exists s|]. exfalso.
  destruct (run_len_not_gt (c :: s) Hin) as [rest Hrest].
  unfold re_match, tag_re, cat, lit, plus, not_of in H.
  cbn [rmatch chs list_ascii_of_string starts_with length drop] in H.
  rewrite Ascii.eqb_refl in H. cbn [andb] in H.
  change (String ">" EmptyString) with ">" in *.
  set (n := run_len (NoneOf [gt]) None (c :: s)) in *.
  assert (1 <= n) as Hn.
  { subst n. cbn [run_len cs_mem mem_ascii]. rewrite orb_false_r.
    destruct (Ascii.eqb_spec gt c); [congruence|]. simpl. lia. }
  change (NoneOf [">"%char]) with (NoneOf [gt]) in H. fold n in H.
  destruct (n <? 1) eqn:E; [apply Nat.ltb_lt in E; lia|].
  destruct (n - 1) as [|j] eqn:Ej.
  - cbn [rep_greedy] in H. replace (1 + 0) with n in H by lia.
    rewrite Hrest in H. cbn in H. done.
  - cbn [rep_greedy] in H. replace (1 + S j) with n in H by lia.
    rewrite Hrest in H. cbn in H. done.
Qed.

(** A substitution by the empty string only takes characters away. *)
Lemma sub_from_delete r k (s : chars) c :
  c ∈ sub_from r (fun _ => []) k s -> c ∈ s.
Proof.
  revert k; induction s as [|x s IH]; intros k.
  - destruct k; cbn [sub_from]; [|done]. by destruct (re_match r []) as [[]|].
  - destruct k as [|k]; cbn [sub_from].
    + destruct (re_match r (x :: s)) as [[rest g]|].
      * cbn [app]. destruct (length (x :: s) - length rest).
        -- intros [->|H]%elem_of_cons; [left|right; by eapply IH].
        -- intros H. right. by eapply IH.
      * intros [->|H]%elem_of_cons; [left|right; by eapply IH].
    + intros H. right. by eapply IH.
Qed.

(** [re.sub(r'<[^>]+>', '', s)] leaves no tag. *)
Lemma sub_tag_re_no_tag k (s : chars) :
  ~ has_tag (sub_from tag_re (fun _ => []) k s).
Proof.
  revert k; induction s as [|c s IH]; intros k.
  - destruct k; cbn [sub_from]; apply has_tag_nil.
  - destruct k as [|k]; cbn [sub_from]; [|apply IH].
    destruct (re_match tag_re (c :: s)) as [[rest g]|] eqn:E.
    + cbn [app].
      apply re_match_sound in E as (w & Hs & Hw).
      destruct Hw as (w1 & w' & -> & -> & w2 & w3 & -> & (_ & Hlen & _) & ->).
      rewrite Hs. rewrite !length_app. cbn [length lit chs list_ascii_of_string].
      replace (1 + (length w2 + 1) + length rest - length rest)
        with (S (S (length w2))) by lia.
      apply IH.
    + intros [[-> Ho] | Ht]%has_tag_cons; [|by eapply IH].
      destruct Ho as [(x & r & Hx & Hne) Hin].
      apply tag_re_none in E as [[r' ->] | Hnot].
      * cbn [sub_from] in Hx.
        change (re_match tag_re (gt :: r')) with (@None (chars * caps)) in Hx.
        congruence.
      * by apply sub_from_delete in Hin.
Qed.

(** [re.sub(r'\n{3,}', '\n\n', s)] makes no tag. *)
Lemma sub_nl3_elem n (s : chars) c :
  length s <= n ->
  c ∈ sub_chars nl3_re (fun _ => [nl; nl]) s -> c = nl \/ c ∈ s.
Proof.
  revert s; induction n as [|n IH]; intros s Hn.
  - destruct s; [|simpl in Hn; lia]. rewrite sub_nl3_unfold. simpl.
    by intros ?%elem_of_nil.
  - rewrite sub_nl3_unfold. destruct (nls s <? 3) eqn:E.
    + destruct s as [|x s]; [by intros ?%elem_of_nil|]. simpl in Hn.
      intros [->|H]%elem_of_cons; [right; left|].
      apply IH in H as [->|H]; [by left | right; by right | lia].
    + apply Nat.ltb_ge in E. pose proof (nls_le_length s) as Hle.
      cbn [app].
      intros [->|[->|H]%elem_of_cons]%elem_of_cons; [by left..|].
      apply IH in H as [->|H]; [by left| |rewrite length_drop; lia].
      right. rewrite <- (take_drop (nls s) s). set_solver.
Qed.

Lemma sub_nl3_head (s : chars) x r :
  sub_chars nl3_re (fun _ => [nl; nl]) s = x :: r -> exists r', s = x :: r'.
Proof.
  rewrite sub_nl3_unfold. destruct (nls s <? 3) eqn:E.
  - destruct s as [|c s]; [done|]. intros [= <- _]. eauto.
  - apply Nat.ltb_ge, nls_ge3 in E as [t ->]. cbn [app]. intros [= <- _]. eauto.
Qed.

Lemma sub_nl3_opens (s : chars) :
  opens (sub_chars nl3_re (fun _ => [nl; nl]) s) -> opens s.
Proof.
  intros [(c & r & Hs & Hc) Hin].
  apply sub_nl3_head in Hs as [r' ->].
  split; [eauto|].
  apply (sub_nl3_elem (length (c :: r'))) in Hin as [Hnl|H]; [|done|done].
  discriminate.
Qed.

Lemma sub_nl3_has_tag n (s : chars) :
  length s <= n ->
  has_tag (sub_chars nl3_re (fun _ => [nl; nl]) s) -> has_tag s.
Proof.
  revert s; induction n as [|n IH]; intros s Hn.
  - destruct s; [|simpl in Hn; lia]. rewrite sub_nl3_unfold. by simpl.
  - rewrite sub_nl3_unfold. destruct (nls s <? 3) eqn:E.
    + destruct s as [|x s]; [done|]. simpl in Hn.
      rewrite !has_tag_cons.
      intros [[-> Ho]|H]; [left; split; [done|by apply sub_nl3_opens]|].
      right. apply IH; [lia|done].
    + apply Nat.ltb_ge in E. pose proof (nls_le_length s) as Hle.
      cbn [app]. rewrite !has_tag_cons.
      intros [[? _]|[[? _]|H]]; [discriminate..|].
      apply IH in H; [|rewrite length_drop; lia].
      rewrite <- (take_drop (nls s) s). by apply has_tag_app_r.
Qed.

Lemma strip_has_tag (s : chars) : has_tag (strip s) -> has_tag s.
Proof.
  intros H. destruct (strip_infix s) as (a & b & Hs). rewrite Hs.
  by apply has_tag_app_r, has_tag_app_l.
Qed.

Lemma html_to_markdown_tagless (html : string) :
  ~ has_tag (chs (html_to_markdown html)).
Proof.
  unfold html_to_markdown. destruct (String.eqb html ""); [apply has_tag_nil|].
  cbv zeta. rewrite chs_str. unfold re_sub at 1. rewrite chs_str.
  unfold re_sub at 1. rewrite chs_str.
  intros H%strip_has_tag.
  apply (sub_nl3_has_tag _ _ (Nat.le_refl _)) in H.
  by apply sub_tag_re_no_tag in H.
Qed.

(** X1: whatever the input, the output of [html_to_markdown] holds no HTML
    tag, that is no [<] followed by one character or more that are not [>]
    and then a [>]: the pass that removes the remaining tags leaves none,
    and the two passes after it make none. *)
Theorem html_to_markdown_no_tag (html : string) :
  ~ has_tag (chs (html_to_markdown html)).
Proof. apply html_to_markdown_tagless. Qed.

(** X2: [html_to_markdown] is idempotent: transcoding an output again
    returns it unchanged, whatever the first input was. *)
Theorem html_to_markdown_idempotent (html : string) :
  html_to_markdown (html_to_markdown html) = html_to_markdown html.
Proof.
  destruct (html_to_markdown_form html) as (H1 & H2 & H3).
  apply html_to_markdown_fixed; [apply html_to_markdown_tagless|done..].
Qed.

(** ** The parser: what it passes over, what stops it, what it returns *)

Section ParserFacts.

Variable py_int : string -> option Z.
Variable strptime : string -> string -> option Z.

Lemma res_bind_ok {A B} (m : res A) (f : A -> res B) b :
  (x ← m; f x) = Ok b -> exists a, m = Ok a /\ f a = Ok b.
Proof. destruct m as [a|e]; simpl; [eauto|done]. Qed.

Lemma parse_item_other item :
  ~ is_post item -> parse_item py_int strptime item = Ok None.
Proof.
  unfold is_post, parse_item, el. intros H.
  destruct (x_post_type item) as [post_type|]; [|done].
  rewrite bool_decide_eq_false_2; [done|]. congruence.
Qed.

Lemma parse_posts_cons_none item items :
  parse_item py_int strptime item = Ok None ->
  parse_posts py_int strptime (item :: items)
  = parse_posts py_int strptime items.
Proof.
  intros H. cbn [parse_posts]. rewrite H. simpl.
  by destruct (parse_posts py_int strptime items).
Qed.

(** X3: the items that are not of type [post] (pages, attachments, items
    without type) have no part in the result, however they are made. *)
Theorem parse_posts_only_posts (items : list xml_item) :
  parse_posts py_int strptime (filter is_post items)
  = parse_posts py_int strptime items.
Proof.
  induction items as [|item items IH]; [done|].
  destruct (decide (is_post item)) as [Hp|Hp].
  - rewrite filter_cons_True by done. cbn [parse_posts]. by rewrite IH.
  - rewrite filter_cons_False by done.
    by rewrite parse_posts_cons_none by by apply parse_item_other.
Qed.

Lemma parse_posts_raise item items e :
  item ∈ items -> parse_item py_int strptime item = Raise e ->
  exists e', parse_posts py_int strptime items = Raise e'.
Proof.
  intros Hin Hitem. induction items as [|x items IH];
    [by apply elem_of_nil in Hin|].
  cbn [parse_posts].
  destruct (parse_item py_int strptime x) as [r|e1] eqn:Ex; simpl; [|eauto].
  apply elem_of_cons in Hin as [->|Hin]; [congruence|].
  destruct (IH Hin) as [e' ->]. simpl. eauto.
Qed.

(** X4: an item of type [post] without [wp:status] element, or with the
    status [publish] and a [wp:post_id] that is not a number, stops the
    parser: it raises, and no post of the document is returned.  (An
    unknown status only drops the item.) *)
Theorem parse_posts_stops (items : list xml_item) (item : xml_item) :
  item ∈ items -> is_post item ->
  x_status item = None \/
  (x_status item = el "publish" /\
   exists t, x_post_id item = el t /\ py_int t = None) ->
  exists e, parse_posts py_int strptime items = Raise e.
Proof.
  intros Hin Hp H.
  assert (exists e, parse_item py_int strptime item = Raise e) as [e He];
    [|by eapply parse_posts_raise].
  unfold parse_item, is_post in *. rewrite Hp. simpl.
  destruct H as [-> | (-> & t & Hid & Hint)]; [by eexists|].
  simpl. unfold parse_post_fields.
  destruct (text (x_pubDate item)); simpl; [|by eexists].
  destruct (rmap _ _); simpl; [|by eexists].
  rewrite Hid. simpl. rewrite Hint. simpl. by eexists.
Qed.

Lemma or_str_default (x : option string) (d : string) :
  d <> "" -> or_str x d <> "".
Proof.
  intros Hd. unfold or_str. destruct x as [t|]; [|done].
  by destruct (String.eqb_spec t "").
Qed.

Lemma parse_comment_ok comment c :
  parse_comment py_int strptime comment = Ok c ->
  c_author_name c <> "" /\
  c_status c ∈ ["approved"; "spam"; "pending"] /\
  comment_status_of (c_status c)
  = (if bool_decide (x_comment_approved comment = el "1") then APPROVED
     else if bool_decide (x_comment_approved comment = el "spam") then SPAM
     else PENDING).
Proof.
  unfold parse_comment.
  intros (approved & Ha & H)%res_bind_ok.
  apply res_bind_ok in H as (date & _ & H).
  apply res_bind_ok in H as (created & _ & H).
  apply res_bind_ok in H as (id_text & _ & H).
  apply res_bind_ok in H as (id & _ & H).
  apply res_bind_ok in H as (parent_text & _ & H).
  apply res_bind_ok in H as (parent & _ & H).
  apply res_bind_ok in H as (name & _ & H).
  apply res_bind_ok in H as (email & _ & H).
  apply res_bind_ok in H as (content & _ & H).
  injection H as <-. cbn [c_author_name c_status].
  split; [by apply or_str_default|].
  destruct (x_comment_approved comment) as [t|]; [|done].
  injection Ha as ->. unfold el.
  destruct (decide (approved = Some "1")) as [->|H1].
  { rewrite !bool_decide_eq_true_2 by done. split; [set_solver|done]. }
  rewrite (bool_decide_eq_false_2 (approved = Some "1")) by done.
  rewrite (bool_decide_eq_false_2 (Some approved = Some (Some "1")))
    by congruence.
  destruct (decide (approved = Some "spam")) as [->|H2].
  { rewrite !bool_decide_eq_true_2 by done. split; [set_solver|done]. }
  rewrite (bool_decide_eq_false_2 (approved = Some "spam")) by done.
  rewrite (bool_decide_eq_false_2 (Some approved = Some (Some "spam")))
    by congruence.
  split; [set_solver|done].
Qed.

Lemma rmap_ok {A B} (f : A -> res B) (l : list A) (l' : list B) :
  rmap f l = Ok l' -> Forall2 (fun a b => f a = Ok b) l l'.
Proof.
  revert l'; induction l as [|a l IH]; intros l'; simpl.
  - intros [= <-]. constructor.
  - intros (b & Hb & H)%res_bind_ok.
    apply res_bind_ok in H as (bs & Hbs & [= <-]).
    constructor; [done|by apply IH].
Qed.

Lemma parse_post_fields_ok item status post :
  parse_post_fields py_int strptime item status = Ok post ->
  p_title post <> "" /\ p_status post = status /\
  Forall2 (fun x c => parse_comment py_int strptime x = Ok c)
    (x_comments item) (p_comments post).
Proof.
  unfold parse_post_fields.
  intros (pub_date & _ & H)%res_bind_ok.
  apply res_bind_ok in H as (comments & Hc & H).
  apply res_bind_ok in H as (id_text & _ & H).
  apply res_bind_ok in H as (id & _ & H).
  apply res_bind_ok in H as (title & _ & H).
  apply res_bind_ok in H as (slug & _ & H).
  apply res_bind_ok in H as (author & _ & H).
  injection H as <-. cbn [p_title p_status p_comments].
  split; [by apply or_str_default|]. split; [done|]. by apply rmap_ok.
Qed.

Lemma parse_item_ok item post :
  parse_item py_int strptime item = Ok (Some post) ->
  is_post item /\
  exists wp_status status,
    x_status item = Some wp_status /\ map_status wp_status = Some status /\
    parse_post_fields py_int strptime item status = Ok post.
Proof.
  unfold parse_item, is_post, el.
  destruct (x_post_type item) as [post_type|]; [|done].
  destruct (decide (post_type = Some "post")) as [->|Hn];
    [|by rewrite bool_decide_eq_false_2].
  rewrite bool_decide_eq_true_2 by done. cbn [negb].
  intros (wp_status & Hs & H)%res_bind_ok.
  destruct (x_status item) as [t|]; [|done]. injection Hs as ->.
  destruct (map_status wp_status) as [status|] eqn:Hm; [|done].
  apply res_bind_ok in H as (p & Hp & [= <-]). eauto 10.
Qed.

Lemma map_status_some wp_status status :
  map_status wp_status = Some status ->
  status ∈ ["published"; "draft"; "scheduled"].
Proof.
  unfold map_status. repeat case_bool_decide; intros [= <-]; set_solver.
Qed.

Lemma parse_posts_ok items posts :
  parse_posts py_int strptime items = Ok posts ->
  forall post, post ∈ posts ->
  exists item, item ∈ items /\
    parse_item py_int strptime item = Ok (Some post).
Proof.
  revert posts; induction items as [|item items IH]; intros posts.
  - intros [= <-] post Hin. by apply elem_of_nil in Hin.
  - cbn [parse_posts]. intros (r & Hr & H)%res_bind_ok.
    apply res_bind_ok in H as (ps & Hps & [= <-]).
    intros post Hin.
    assert (post ∈ ps \/ r = Some post) as [Hin' | ->].
    { destruct r as [p|]; [|by left].
      apply elem_of_cons in Hin as [->|?]; [by right|by left]. }
    + destruct (IH ps Hps post Hin') as (x & Hx & Hpx).
      exists x. split; [by right|done].
    + exists item. split; [left|done].
Qed.

(** X5: the posts the parser returns are complete: a title that is not
    empty ([Untitled] stands for a missing one), one of the three statuses
    of the importer's table, and for every comment an author name that is
    not empty ([Anonymous]) and one of the three comment statuses.  So the
    defaults of the importer's two status tables are never used on
    a parsed document. *)
Theorem parse_posts_complete (items : list xml_item) (posts : list wp_post) :
  parse_posts py_int strptime items = Ok posts ->
  forall post, post ∈ posts ->
    p_title post <> "" /\
    p_status post ∈ ["published"; "draft"; "scheduled"] /\
    forall c, c ∈ p_comments post ->
      c_author_name c <> "" /\
      c_status c ∈ ["approved"; "spam"; "pending"].
Proof.
  intros Hposts post Hin.
  destruct (parse_posts_ok _ _ Hposts post Hin) as (item & _ & Hitem).
  apply parse_item_ok in Hitem as (_ & wp_status & status & _ & Hm & Hf).
  apply parse_post_fields_ok in Hf as (Ht & Hs & Hc).
  split; [done|]. split; [rewrite Hs; by eapply map_status_some|].
  intros c Hin'.
  apply list_elem_of_lookup in Hin' as [i Hi].
  destruct (Forall2_lookup_r _ _ _ _ _ Hc Hi) as (x & _ & Hx).
  apply parse_comment_ok in Hx. tauto.
Qed.

(** X6: the moderation state of a comment, from the export to the table:
    [wp:comment_approved] [1] is stored as APPROVED, [spam] as SPAM, and
    everything else (0, trash, an empty element) as PENDING. *)
Theorem comment_status_mapping (comment : xml_comment) (c : wp_comment) :
  parse_comment py_int strptime comment = Ok c ->
  comment_status_of (c_status c)
  = (if bool_decide (x_comment_approved comment = el "1") then APPROVED
     else if bool_decide (x_comment_approved comment = el "spam") then SPAM
     else PENDING).
Proof. intros H. apply parse_comment_ok in H. tauto. Qed.

(** X7: a parsed document has one tag for each [wp:tag] element and one
    author for each [wp:author] element, and no more posts than [item]
    elements. *)
Theorem parse_wordpress_xml_sizes (channel : xml_channel) (data : wp_data) :
  parse_wordpress_xml py_int strptime channel = Ok data ->
  length (d_tags data) = length (ch_tags channel) /\
  length (d_authors data) = length (ch_authors channel) /\
  length (d_posts data) <= length (ch_items channel).
Proof.
  unfold parse_wordpress_xml.
  intros (tags & Ht & H)%res_bind_ok.
  apply res_bind_ok in H as (posts & Hp & H).
  apply res_bind_ok in H as (authors & Ha & [= <-]).
  cbn [d_tags d_authors d_posts].
  apply rmap_ok, Forall2_length in Ht. apply rmap_ok, Forall2_length in Ha.
  split; [done|]. split; [done|].
  clear -Hp. revert posts Hp.
  induction (ch_items channel) as [|item items IH]; intros posts.
  - by intros [= <-].
  - cbn [parse_posts]. intros (r & Hr & H)%res_bind_ok.
    apply res_bind_ok in H as (ps & Hps & [= <-]).
    specialize (IH ps Hps). destruct r; simpl; lia.
Qed.

End ParserFacts.

Lemma parse_posts_stops_witness :
  exists e, parse_posts dec_int no_date [scenario_item; statusless_item]
            = Raise e.
Proof.
  apply (parse_posts_stops dec_int no_date _ statusless_item).
  - set_solver.
  - reflexivity.
  - by left.
Defined.

Lemma parse_posts_complete_witness :
  let post := {| p_id := 1; p_title := "Untitled"; p_slug := None;
                 p_content := ""; p_excerpt := ""; p_status := "draft";
                 p_author := None; p_published_at := None; p_tags := [];
                 p_comments := [] |} in
  p_title post <> "" /\
  p_status post ∈ ["published"; "draft"; "scheduled"] /\
  forall c, c ∈ p_comments post ->
    c_author_name c <> "" /\ c_status c ∈ ["approved"; "spam"; "pending"].
Proof.
  intros post.
  apply (parse_posts_complete dec_int no_date
           [ {| x_post_type := el "post"; x_status := el "draft";
                x_pubDate := el ""; x_content_encoded := None;
                x_excerpt_encoded := None; x_categories := [];
                x_comments := []; x_post_id := el "1"; x_title := el "";
                x_post_name := Some None; x_creator := Some None |} ]
           [post]).
  - reflexivity.
  - left.
Defined.

Lemma comment_status_mapping_witness :
  let c := {| c_id := 10; c_parent := 0; c_author_name := "Ann";
              c_author_email := "ann@example.org"; c_content := "Nice";
              c_status := "approved"; c_created_at := None |} in
  comment_status_of (c_status c)
  = (if bool_decide (x_comment_approved (scenario_comment "10" "0") = el "1")
     then APPROVED
     else if bool_decide
               (x_comment_approved (scenario_comment "10" "0") = el "spam")
          then SPAM else PENDING).
Proof.
  intros c.
  apply (comment_status_mapping dec_int no_date (scenario_comment "10" "0") c).
  reflexivity.
Defined.

Lemma parse_wordpress_xml_sizes_witness :
  let channel := {| ch_tags := ch_tags scenario;
                    ch_items := [page_item; scenario_item];
                    ch_authors := ch_authors scenario |} in
  let data :=
    match parse_wordpress_xml dec_int no_date channel with
    | Ok data => data
    | Raise _ => {| d_tags := []; d_posts := []; d_authors := [] |}
    end in
  length (d_tags data) = length (ch_tags channel) /\
  length (d_authors data) = length (ch_authors channel) /\
  length (d_posts data) <= length (ch_items channel).
Proof.
  intros channel data.
  apply (parse_wordpress_xml_sizes dec_int no_date channel data).
  reflexivity.
Defined.

(** ** Triples on the store *)

(** [hoare P m Q E]: from a store in [P], the program [m] ends with a value
    and a store in [Q], or raises and leaves a store in [E]. *)
Definition hoare {A} (P : DB -> Prop) (m : M A) (Q : A -> DB -> Prop)
  (E : DB -> Prop) : Prop :=
  forall db, P db ->
    match m db with
    | (db', Ok a) => Q a db'
    | (db', Raise _) => E db'
    end.

Lemma hoare_ret {A} (a : A) (P : DB -> Prop) (Q : A -> DB -> Prop) E :
  (forall db, P db -> Q a db) -> hoare P (mret a) Q E.
Proof. intros H db HP. by apply H. Qed.

Lemma hoare_raise {A} e (P : DB -> Prop) (Q : A -> DB -> Prop)
  (E : DB -> Prop) :
  (forall db, P db -> E db) -> hoare P (raise e) Q E.
Proof. intros H db HP. by apply H. Qed.

Lemma hoare_bind {A B} (P : DB -> Prop) (m : M A) (Q : A -> DB -> Prop)
  (f : A -> M B) (R : B -> DB -> Prop) (E : DB -> Prop) :
  hoare P m Q E -> (forall a, hoare (Q a) (f a) R E) -> hoare P (m ≫= f) R E.
Proof.
  intros Hm Hf db HP. unfold mbind, M_bind. specialize (Hm db HP).
  destruct (m db) as [db' [a|e]]; [by apply Hf|done].
Qed.

Lemma hoare_foldM {X S} (f : S -> X -> M S) (I : S -> DB -> Prop)
  (E : DB -> Prop) (l : list X) :
  (forall acc x, x ∈ l -> hoare (I acc) (f acc x) I E) ->
  forall acc, hoare (I acc) (foldM f l acc) I E.
Proof.
  induction l as [|x l IH]; intros Hf acc.
  - by apply hoare_ret.
  - cbn [foldM]. eapply hoare_bind; [apply Hf; left|].
    intros acc'. apply IH. intros acc'' y Hy. apply Hf. by right.
Qed.

(** ** What one access to a table does *)

Lemma filter_singleton_split {A} (P : A -> Prop) `{forall x, Decision (P x)}
  (l : list A) (a : A) :
  filter P l = [a] ->
  exists l1 l2, l = l1 ++ a :: l2 /\ P a /\
    (forall x, x ∈ l1 ++ l2 -> ~ P x).
Proof.
  induction l as [|x l IH]; [done|].
  rewrite filter_cons. destruct (decide (P x)) as [Hx|Hx].
  - intros [= -> Hl]. exists [], l. split; [done|]. split; [done|].
    intros y Hy Hpy.
    assert (y ∈ filter P l) as Hin by by apply list_elem_of_filter.
    rewrite Hl in Hin. by apply elem_of_nil in Hin.
  - intros (l1 & l2 & -> & Ha & Hn)%IH. exists (x :: l1), l2.
    split; [done|]. split; [done|].
    intros y [->|Hy]%elem_of_cons; [done|by apply Hn].
Qed.

Lemma fmap_replace_split {A} (P : A -> Prop) `{forall x, Decision (P x)}
  (l1 l2 : list A) (a b : A) :
  P a -> (forall x, x ∈ l1 ++ l2 -> ~ P x) ->
  (fun x => if bool_decide (P x) then b else x) <$> (l1 ++ a :: l2)
  = l1 ++ b :: l2.
Proof.
  intros Ha Hn. rewrite fmap_app, fmap_cons.
  rewrite bool_decide_eq_true_2 by done.
  rewrite !fmap_id_on; [done|..]; intros x Hx;
    rewrite bool_decide_eq_false_2; try done; apply Hn; set_solver.
Qed.

Lemma filter_all {A} (P : A -> Prop) `{forall x, Decision (P x)} (l : list A) :
  (forall x, x ∈ l -> P x) -> filter P l = l.
Proof.
  induction l as [|a l IH]; intros Hl; [done|].
  rewrite filter_cons_True by (apply Hl; left).
  f_equal. apply IH. intros x Hx. apply Hl. by right.
Qed.

Lemma filter_not_split {A} (P : A -> Prop) `{forall x, Decision (P x)}
  (l1 l2 : list A) (a : A) :
  P a -> (forall x, x ∈ l1 ++ l2 -> ~ P x) ->
  filter (fun x => ~ P x) (l1 ++ a :: l2) = l1 ++ l2.
Proof.
  intros Ha Hn. rewrite filter_app, filter_cons_False by tauto.
  rewrite <- filter_app. by apply filter_all.
Qed.

(** [get_or_create] on the users: the row found, or a new last row whose
    name no row had. *)
Lemma get_or_create_user_cases login email first last staff superuser db :
  match get_or_create_user login email first last staff superuser db with
  | (db', Ok (u, created)) =>
      login = Some (username u) /\
      ((created = false /\ db' = db /\ (u ∈ users db)) \/
       (created = true /\ db' = with_users db (users db ++ [u]) /\
        user_pk u = fresh_pk (user_pk <$> users db) /\
        username u ∉ username <$> users db))
  | (db', Raise _) => db' = db
  end.
Proof.
  unfold get_or_create_user. destruct login as [name|]; [|done].
  destruct (filter _ _) as [|u [|u' l]] eqn:Hf; [| |done].
  - split; [done|]. right. repeat split. cbn [username].
    intros (u & Hu & Hin)%list_elem_of_fmap.
    assert (u ∈ filter (fun u => username u = name) (users db)) as H
      by by apply list_elem_of_filter.
    rewrite Hf in H. by apply elem_of_nil in H.
  - assert (u ∈ filter (fun u => username u = name) (users db)) as H
      by (rewrite Hf; left).
    apply list_elem_of_filter in H as [-> Hin]. split; [done|]. by left.
Qed.

Section StoreFacts.

Variable slugify : string -> string.
Variable render_markdown : string -> string.

(** [get_or_create] on the tags. *)
Lemma get_or_create_tag_cases slug name term_id db :
  match get_or_create_tag slugify slug name term_id db with
  | (db', Ok (pk, created)) =>
      (created = false /\ db' = db /\ (pk ∈ tag_pk <$> tags db)) \/
      (created = true /\
       exists t, db' = with_tags db (tags db ++ [t]) /\ tag_pk t = pk /\
         pk = fresh_pk (tag_pk <$> tags db) /\
         tag_slug t ∉ tag_slug <$> tags db)
  | (db', Raise _) => db' = db
  end.
Proof.
  unfold get_or_create_tag.
  destruct (match slug with Some _ => _ | None => _ end) as [|t [|t' l]] eqn:Hf;
    [| |done].
  - destruct name as [nm|]; [|done].
    repeat case_bool_decide; try done.
    right. split; [done|]. eexists. by repeat split.
  - left. repeat split. apply list_elem_of_fmap. exists t. split; [done|].
    destruct slug as [sl|]; [|done].
    assert (t ∈ filter (fun t => tag_slug t = sl) (tags db)) as H
      by (rewrite Hf; left).
    by apply list_elem_of_filter in H as [_ H].
Qed.

(** [update_or_create] on the posts: a new last row, or the one row of the
    identifier rewritten in its place. *)
Lemma update_or_create_post_cases now id title slug content excerpt status
  author published db :
  match update_or_create_post slugify render_markdown now id title slug
          content excerpt status author published db with
  | (db', Ok (pk, created)) =>
      (created = true /\ post_rows id db = [] /\
       exists p, db' = with_posts db (posts db ++ [p]) /\ post_pk p = pk /\
         pk = fresh_pk (post_pk <$> posts db) /\
         (post_slug p ∉ post_slug <$> posts db) /\
         wp_post_id p = Some id /\ post_author p = author /\
         featured_image p = None) \/
      (created = false /\
       exists l1 p0 l2 p, posts db = l1 ++ p0 :: l2 /\
         wp_post_id p0 = Some id /\
         (forall x, x ∈ l1 ++ l2 -> wp_post_id x <> Some id) /\
         db' = with_posts db (l1 ++ p :: l2) /\
         post_pk p0 = pk /\ post_pk p = pk /\
         (post_slug p ∉ post_slug <$> (l1 ++ l2)) /\
         wp_post_id p = Some id /\ post_author p = author /\
         featured_image p = featured_image p0 /\
         post_created_at p = post_created_at p0 /\
         content_html p = content_html p0)
  | (db', Raise _) => db' = db
  end.
Proof.
  unfold update_or_create_post.
  destruct (filter _ _) as [|p0 [|p' l]] eqn:Hf; [| |done].
  - repeat case_bool_decide; try done.
    left. split; [done|]. split; [done|]. eexists. by repeat split.
  - apply filter_singleton_split in Hf as (l1 & l2 & Hl & Hp0 & Hn).
    rewrite Hl.
    rewrite (filter_not_split (fun p => wp_post_id p = Some id)) by done.
    case_bool_decide as Hs; [done|].
    right. split; [done|].
    rewrite (fmap_replace_split (fun p => wp_post_id p = Some id)) by done.
    eexists l1, p0, l2, _. repeat split; try done.
Qed.

End StoreFacts.

(** [update_or_create] on the comments. *)
Lemma update_or_create_comment_cases now id post parent name email content
  status db :
  match update_or_create_comment now id post parent name email content
          status db with
  | (db', Ok (pk, created)) =>
      (created = true /\ comment_rows id db = [] /\
       exists c, db' = with_comments db (comments db ++ [c]) /\
         comment_pk c = pk /\ pk = fresh_pk (comment_pk <$> comments db) /\
         wp_comment_id c = Some id /\ comment_post c = post /\
         comment_parent c = parent) \/
      (created = false /\
       exists l1 c0 l2 c, comments db = l1 ++ c0 :: l2 /\
         wp_comment_id c0 = Some id /\
         (forall x, x ∈ l1 ++ l2 -> wp_comment_id x <> Some id) /\
         db' = with_comments db (l1 ++ c :: l2) /\
         comment_pk c0 = pk /\ comment_pk c = pk /\
         wp_comment_id c = Some id /\ comment_post c = post /\
         comment_parent c = parent /\
         comment_created_at c = comment_created_at c0)
  | (db', Raise _) => db' = db
  end.
Proof.
  unfold update_or_create_comment.
  destruct (filter _ _) as [|c0 [|c' l]] eqn:Hf; [| |done].
  - case_bool_decide; [done|].
    left. split; [done|]. split; [done|]. eexists. by repeat split.
  - apply filter_singleton_split in Hf as (l1 & l2 & Hl & Hc0 & Hn).
    rewrite Hl. right. split; [done|].
    rewrite (fmap_replace_split (fun c => wp_comment_id c = Some id)) by done.
    eexists l1, c0, l2, _. repeat split; try done.
Qed.

(** The update of [created_at] writes that column alone. *)
Lemma set_comment_created_at_cases pk t db :
  exists l, set_comment_created_at pk t db = (with_comments db l, Ok ()) /\
    Forall2 (fun c c' =>
               comment_pk c' = comment_pk c /\
               comment_post c' = comment_post c /\
               comment_parent c' = comment_parent c /\
               wp_comment_id c' = wp_comment_id c /\
               (comment_pk c <> pk -> c' = c))
      (comments db) l.
Proof.
  eexists. split; [reflexivity|].
  apply Forall2_fmap_r, Forall_Forall2_diag, Forall_forall.
  intros c _. unfold compose. case_bool_decide; by repeat split.
Qed.

Lemma tags_add_cases post tag db :
  tags_add post tag db = (db, Ok ()) /\ ((post, tag) ∈ post_tags db) \/
  tags_add post tag db
  = (with_post_tags db (post_tags db ++ [(post, tag)]), Ok ()) /\
  (post, tag) ∉ post_tags db.
Proof. unfold tags_add. case_bool_decide; [by left|by right]. Qed.

(** ** Invariants of the import *)

(** [m] keeps [P], whether it ends or raises. *)
Definition inv {A} (P : DB -> Prop) (m : M A) : Prop :=
  hoare P m (fun _ => P) P.

Lemma inv_ret {A} P (a : A) : inv P (mret a).
Proof. by apply hoare_ret. Qed.

Lemma inv_raise {A} P e : inv P (@raise A e).
Proof. by apply hoare_raise. Qed.

Lemma inv_bind {A B} P (m : M A) (f : A -> M B) :
  inv P m -> (forall a, inv P (f a)) -> inv P (m ≫= f).
Proof. intros Hm Hf. eapply hoare_bind; [apply Hm|apply Hf]. Qed.

Lemma inv_foldM {X S} P (f : S -> X -> M S) (l : list X) (acc : S) :
  (forall acc x, inv P (f acc x)) -> inv P (foldM f l acc).
Proof.
  intros Hf.
  apply (hoare_foldM f (fun _ => P) P l). intros acc' x _. apply Hf.
Qed.

Lemma inv_run {A} P (m : M A) db : inv P m -> P db -> P (m db).1.
Proof.
  intros Hm HP. specialize (Hm db HP). by destruct (m db) as [db' [a|e]].
Qed.

Section Invariants.

Variable slugify : string -> string.
Variable render_markdown : string -> string.

(** What every access to a table keeps, the import keeps. *)
Lemma inv_import_data (P : DB -> Prop) now data default_author :
  (forall login email first last staff superuser,
     inv P (get_or_create_user login email first last staff superuser)) ->
  (forall slug name term_id,
     inv P (get_or_create_tag slugify slug name term_id)) ->
  (forall id title slug content excerpt status author published,
     inv P (update_or_create_post slugify render_markdown now id title slug
              content excerpt status author published)) ->
  (forall post tag, inv P (tags_add post tag)) ->
  (forall id post parent name email content status,
     inv P (update_or_create_comment now id post parent name email content
              status)) ->
  (forall pk t, inv P (set_comment_created_at pk t)) ->
  inv P (import_data slugify render_markdown now data default_author).
Proof.
  intros Huser Htag Hpost Hadd Hcomment Hset. unfold import_data.
  apply inv_bind.
  { apply inv_foldM. intros authors a. unfold import_author.
    apply inv_bind.
    - destruct (String.eqb _ _); [apply inv_ret|].
      destruct (py_split _); [apply inv_raise|apply inv_ret].
    - intros first. apply inv_bind; [apply Huser|].
      intros [user created]. apply inv_ret. }
  intros authors. apply inv_bind.
  { apply inv_foldM. intros [tag_map stats] t. unfold import_tag.
    apply inv_bind; [apply Htag|].
    intros [tag created]. apply inv_ret. }
  intros [tag_map stats]. apply inv_foldM.
  intros stats' p. unfold import_post.
  apply inv_bind; [apply Hpost|].
  intros [post created]. apply inv_bind.
  { apply inv_foldM. intros _ ts.
    destruct (tag_map !! ts); [apply Hadd|apply inv_ret]. }
  intros _. apply inv_bind.
  { apply inv_foldM. intros [comment_map st] c. unfold import_comment.
    apply inv_bind; [apply Hcomment|].
    intros [comment cr]. apply inv_bind.
    - destruct (c_created_at c); [|apply inv_ret].
      destruct cr; [apply Hset|apply inv_ret].
    - intros _. apply inv_ret. }
  intros [cm st]. apply inv_ret.
Qed.

End Invariants.

(** ** What an import leaves in place *)

(** The columns of a post and of a comment that no import writes once the
    row is there. *)
Definition same_post (p p' : Post) : Prop :=
  post_pk p' = post_pk p /\ wp_post_id p' = wp_post_id p /\
  post_created_at p' = post_created_at p /\
  featured_image p' = featured_image p.

Definition same_comment (c c' : Comment) : Prop :=
  comment_pk c' = comment_pk c /\ wp_comment_id c' = wp_comment_id c.

(** [db'] extends [db]: the images are the same; the users, the tags and
    the tag associations of [db] are the first rows of [db'], unchanged;
    the posts and the comments of [db] are the first rows of [db'], with
    the same keys. *)
Definition extends (db db' : DB) : Prop :=
  images db' = images db /\
  users db `prefix_of` users db' /\
  tags db `prefix_of` tags db' /\
  post_tags db `prefix_of` post_tags db' /\
  (exists l, l `prefix_of` posts db' /\ Forall2 same_post (posts db) l) /\
  (exists l, l `prefix_of` comments db' /\
             Forall2 same_comment (comments db) l).

Lemma same_post_refl p : same_post p p.
Proof. by repeat split. Qed.

Lemma same_comment_refl c : same_comment c c.
Proof. by repeat split. Qed.

Lemma Forall2_refl_on {A} (R : A -> A -> Prop) (l : list A) :
  (forall x, R x x) -> Forall2 R l l.
Proof. intros H. apply Forall_Forall2_diag, Forall_forall. eauto. Qed.

Lemma extends_refl db : extends db db.
Proof.
  repeat split; try done.
  - exists (posts db). split; [done|].
    apply Forall2_refl_on, same_post_refl.
  - exists (comments db). split; [done|].
    apply Forall2_refl_on, same_comment_refl.
Qed.

Lemma prefix_Forall2_trans {A} (R : A -> A -> Prop) (l0 l1 l1' l2 l2' : list A) :
  (forall x y z, R x y -> R y z -> R x z) ->
  l1 `prefix_of` l1' -> Forall2 R l0 l1 ->
  l2 `prefix_of` l2' -> Forall2 R l1' l2 ->
  exists l, l `prefix_of` l2' /\ Forall2 R l0 l.
Proof.
  intros HR [k1 ->] H01 [k2 ->] H12.
  apply Forall2_app_inv_l in H12 as (m1 & m2 & Hm1 & Hm2 & ->).
  exists m1. split.
  - exists (m2 ++ k2). by rewrite <- app_assoc.
  - assert (Transitive R) as HT by (intros x y z; apply HR).
    by transitivity l1.
Qed.

Lemma extends_trans db1 db2 db3 :
  extends db1 db2 -> extends db2 db3 -> extends db1 db3.
Proof.
  intros (A1 & B1 & C1 & D1 & (lp1 & Ep1 & Fp1) & (lc1 & Ec1 & Fc1))
         (A2 & B2 & C2 & D2 & (lp2 & Ep2 & Fp2) & (lc2 & Ec2 & Fc2)).
  split; [congruence|]. split; [by etrans|]. split; [by etrans|].
  split; [by etrans|]. split.
  - apply (prefix_Forall2_trans same_post (posts db1) lp1 (posts db2) lp2
             (posts db3)); [|done..].
    intros x y z (? & ? & ? & ?) (? & ? & ? & ?). repeat split; congruence.
  - apply (prefix_Forall2_trans same_comment (comments db1) lc1
             (comments db2) lc2 (comments db3)); [|done..].
    intros x y z (? & ?) (? & ?). repeat split; congruence.
Qed.

Lemma extends_inv {A} (m : M A) db0 :
  (forall db, extends db (m db).1) -> inv (extends db0) m.
Proof.
  intros Hm db H. specialize (Hm db).
  destruct (m db) as [db' [a|e]]; by eapply extends_trans.
Qed.

Lemma Forall2_same_middle {A} (R : A -> A -> Prop) (l1 l2 : list A) a b :
  (forall x, R x x) -> R a b -> Forall2 R (l1 ++ a :: l2) (l1 ++ b :: l2).
Proof.
  intros Hr Hab. apply Forall2_app; [by apply Forall2_refl_on|].
  constructor; [done|by apply Forall2_refl_on].
Qed.

Lemma extends_get_or_create_user login email first last staff superuser d :
  extends d (get_or_create_user login email first last staff superuser d).1.
Proof.
  pose proof (get_or_create_user_cases login email first last staff
                superuser d) as H.
  destruct (get_or_create_user _ _ _ _ _ _ d) as [d' [[u created]|e]];
    simpl; [|subst; apply extends_refl].
  destruct H as [_ [(_ & -> & _) | (_ & -> & _)]]; [apply extends_refl|].
  destruct (extends_refl d) as (A & B & C & D & P & Q).
  repeat split; try done. simpl. by apply prefix_app_r.
Qed.

Lemma extends_tags_add post tag d : extends d (tags_add post tag d).1.
Proof.
  destruct (extends_refl d) as (A & B & C & D & P & Q).
  destruct (tags_add_cases post tag d) as [[-> _] | [-> _]];
    [apply extends_refl|].
  repeat split; try done. simpl. by apply prefix_app_r.
Qed.

Lemma extends_update_or_create_comment now id post parent name email content
  status d :
  extends d (update_or_create_comment now id post parent name email content
               status d).1.
Proof.
  pose proof (update_or_create_comment_cases now id post parent name email
                content status d) as H.
  destruct (update_or_create_comment _ _ _ _ _ _ _ _ d)
    as [d' [[pk created]|e]]; simpl; [|subst; apply extends_refl].
  destruct (extends_refl d) as (A & B & C & D & P & Q).
  destruct H as [(_ & _ & c & -> & _) |
                 (_ & l1 & c0 & l2 & c & Hl & H0 & _ & -> & H1 & H2 & H3
                  & _)].
  - repeat split; try done. simpl. exists (comments d).
    split; [by apply prefix_app_r|].
    apply Forall2_refl_on, same_comment_refl.
  - repeat split; try done. simpl. exists (l1 ++ c :: l2). split; [done|].
    rewrite Hl. apply Forall2_same_middle; [apply same_comment_refl|].
    repeat split; congruence.
Qed.

Lemma extends_set_comment_created_at pk t d :
  extends d (set_comment_created_at pk t d).1.
Proof.
  destruct (set_comment_created_at_cases pk t d) as (l & -> & Hl).
  destruct (extends_refl d) as (A & B & C & D & P & Q).
  repeat split; try done. simpl. exists l. split; [done|].
  eapply Forall2_impl; [done|]. intros c c' (? & ? & ? & ? & ?).
  by repeat split.
Qed.

Section Frame.

Variable slugify : string -> string.
Variable render_markdown : string -> string.

Lemma extends_get_or_create_tag slug name term_id d :
  extends d (get_or_create_tag slugify slug name term_id d).1.
Proof.
  pose proof (get_or_create_tag_cases slugify slug name term_id d) as H.
  destruct (get_or_create_tag _ _ _ _ d) as [d' [[pk created]|e]];
    simpl; [|subst; apply extends_refl].
  destruct H as [(_ & -> & _) | (_ & t & -> & _)]; [apply extends_refl|].
  destruct (extends_refl d) as (A & B & C & D & P & Q).
  repeat split; try done. simpl. by apply prefix_app_r.
Qed.

Lemma extends_update_or_create_post now id title slug content excerpt status
  author published d :
  extends d (update_or_create_post slugify render_markdown now id title slug
               content excerpt status author published d).1.
Proof.
  pose proof (update_or_create_post_cases slugify render_markdown now id
                title slug content excerpt status author published d) as H.
  destruct (update_or_create_post _ _ _ _ _ _ _ _ _ _ _ d)
    as [d' [[pk created]|e]]; simpl; [|subst; apply extends_refl].
  destruct (extends_refl d) as (A & B & C & D & P & Q).
  destruct H as [(_ & _ & p & -> & _) |
                 (_ & l1 & p0 & l2 & p & Hl & H0 & _ & -> & H1 & H2 & _ & H3
                  & _ & H5 & H6 & _)].
  - repeat split; try done. simpl. exists (posts d).
    split; [by apply prefix_app_r|].
    apply Forall2_refl_on, same_post_refl.
  - repeat split; try done. simpl. exists (l1 ++ p :: l2). split; [done|].
    rewrite Hl. apply Forall2_same_middle; [apply same_post_refl|].
    repeat split; congruence.
Qed.

Lemma extends_import_data now data default_author db :
  extends db (import_data slugify render_markdown now data default_author db).1.
Proof.
  apply (inv_run (extends db)); [|apply extends_refl].
  apply inv_import_data; intros; apply extends_inv; intros d.
  - apply extends_get_or_create_user.
  - apply extends_get_or_create_tag.
  - apply extends_update_or_create_post.
  - apply extends_tags_add.
  - apply extends_update_or_create_comment.
  - apply extends_set_comment_created_at.
Qed.

(** X8: an import, whether it ends or raises, leaves the images as they
    are; the users, the tags and the tag associations that were there are
    still the first rows of their tables, unchanged; and every post and
    every comment that was there is still at its place, with its key, its
    source identifier and, for a post, its date of creation and its featured
    image. *)
Theorem import_data_frame now data default_author db :
  let db' :=
    (import_data slugify render_markdown now data default_author db).1 in
  images db' = images db /\
  users db `prefix_of` users db' /\
  tags db `prefix_of` tags db' /\
  post_tags db `prefix_of` post_tags db' /\
  Forall2 same_post (posts db) (take (length (posts db)) (posts db')) /\
  Forall2 same_comment (comments db)
    (take (length (comments db)) (comments db')).
Proof.
  destruct (extends_import_data now data default_author db)
    as (A & B & C & D & (lp & [kp Ep] & Fp) & (lc & [kc Ec] & Fc)).
  cbv zeta. repeat split; try done.
  - rewrite Ep, (Forall2_length _ _ _ Fp). by rewrite take_app_length.
  - rewrite Ec, (Forall2_length _ _ _ Fc). by rewrite take_app_length.
Qed.

End Frame.

(** ** Keys stay unique *)

(** The keys of the store are unique: the primary keys of each table, the
    names of the users, the slugs of the tags and of the posts, the pairs
    of the association table, and the source identifiers of the posts and
    of the comments (a row without one apart). *)
Definition keys_unique (db : DB) : Prop :=
  NoDup (user_pk <$> users db) /\ NoDup (username <$> users db) /\
  NoDup (tag_pk <$> tags db) /\ NoDup (tag_slug <$> tags db) /\
  NoDup (post_pk <$> posts db) /\ NoDup (post_slug <$> posts db) /\
  NoDup (comment_pk <$> comments db) /\ NoDup (post_tags db) /\
  (forall id, length (post_rows id db) <= 1) /\
  (forall id, length (comment_rows id db) <= 1).

Lemma fresh_pk_new (l : list nat) : fresh_pk l ∉ l.
Proof. intros H%fresh_pk_gt. lia. Qed.

Lemma NoDup_snoc_2 {A} (l : list A) (x : A) :
  NoDup l -> x ∉ l -> NoDup (l ++ [x]).
Proof.
  intros Hl Hx. apply NoDup_app. split; [done|]. split.
  - intros y Hy ->%list_elem_of_singleton. done.
  - apply NoDup_singleton.
Qed.

Lemma NoDup_fmap_snoc {A B} (f : A -> B) (l : list A) (x : A) :
  NoDup (f <$> l) -> f x ∉ f <$> l -> NoDup (f <$> (l ++ [x])).
Proof. intros Hl Hx. rewrite fmap_app. by apply NoDup_snoc_2. Qed.

Lemma NoDup_fmap_middle {A B} (f : A -> B) (l1 l2 : list A) (a b : A) :
  NoDup (f <$> (l1 ++ a :: l2)) -> f b ∉ f <$> (l1 ++ l2) ->
  NoDup (f <$> (l1 ++ b :: l2)).
Proof.
  rewrite !fmap_app, !fmap_cons, <- !Permutation_middle, !NoDup_cons.
  intros [_ H] Hb. by split.
Qed.

Lemma fmap_middle_same {A B} (f : A -> B) (l1 l2 : list A) (a b : A) :
  f b = f a -> f <$> (l1 ++ b :: l2) = f <$> (l1 ++ a :: l2).
Proof. intros H. by rewrite !fmap_app, !fmap_cons, H. Qed.

Lemma filter_middle_same {A} (P : A -> Prop) `{forall x, Decision (P x)}
  (l1 l2 : list A) (a b : A) :
  (P b <-> P a) ->
  length (filter P (l1 ++ b :: l2)) = length (filter P (l1 ++ a :: l2)).
Proof.
  intros Hab. rewrite !filter_app, !filter_cons, !length_app.
  destruct (decide (P b)), (decide (P a)); simpl; tauto || lia.
Qed.

Lemma filter_snoc_length {A} (P : A -> Prop) `{forall x, Decision (P x)}
  (l : list A) (x : A) :
  length (filter P (l ++ [x]))
  = length (filter P l) + (if decide (P x) then 1 else 0).
Proof.
  rewrite filter_app, length_app, filter_cons.
  by destruct (decide (P x)).
Qed.

Section Keys.

Variable slugify : string -> string.
Variable render_markdown : string -> string.

Lemma keys_unique_import_data now data default_author :
  inv keys_unique
    (import_data slugify render_markdown now data default_author).
Proof.
  apply inv_import_data.
  - intros login email first last staff superuser d
      (K1 & K2 & K3 & K4 & K5 & K6 & K7 & K8 & K9 & K10).
    pose proof (get_or_create_user_cases login email first last staff
                  superuser d) as H.
    destruct (get_or_create_user _ _ _ _ _ _ d) as [d' [[u created]|e]];
      [|by subst].
    destruct H as [_ [(_ & -> & _) | (_ & -> & Hpk & Hname)]]; [done|].
    repeat split; try done; simpl.
    + apply NoDup_fmap_snoc; [done|]. rewrite Hpk. apply fresh_pk_new.
    + by apply NoDup_fmap_snoc.
  - intros slug name term_id d
      (K1 & K2 & K3 & K4 & K5 & K6 & K7 & K8 & K9 & K10).
    pose proof (get_or_create_tag_cases slugify slug name term_id d) as H.
    destruct (get_or_create_tag _ _ _ _ d) as [d' [[pk created]|e]];
      [|by subst].
    destruct H as [(_ & -> & _) | (_ & t & -> & Ht & Hpk & Hslug)]; [done|].
    repeat split; try done; simpl.
    + apply NoDup_fmap_snoc; [done|]. rewrite Ht, Hpk. apply fresh_pk_new.
    + by apply NoDup_fmap_snoc.
  - intros id title slug content excerpt status author published d
      (K1 & K2 & K3 & K4 & K5 & K6 & K7 & K8 & K9 & K10).
    pose proof (update_or_create_post_cases slugify render_markdown now id
                  title slug content excerpt status author published d) as H.
    destruct (update_or_create_post _ _ _ _ _ _ _ _ _ _ _ d)
      as [d' [[pk created]|e]]; [|by subst].
    destruct H as [(_ & Hrows & p & -> & Hp & Hpk & Hslug & Hid & _) |
                   (_ & l1 & p0 & l2 & p & Hl & H0 & _ & -> & H1 & H2 & Hs
                    & H3 & _)].
    + repeat split; try done; simpl.
      * apply NoDup_fmap_snoc; [done|]. rewrite Hp, Hpk. apply fresh_pk_new.
      * by apply NoDup_fmap_snoc.
      * intros id'. unfold post_rows. simpl. rewrite filter_snoc_length.
        destruct (decide (wp_post_id p = Some id')) as [Heq|]; [|
          specialize (K9 id'); unfold post_rows in K9; lia].
        assert (id' = id) as -> by congruence.
        unfold post_rows in Hrows. rewrite Hrows. simpl. lia.
    + unfold post_rows in K9. rewrite Hl in K5, K6, K9.
      repeat split; try done; simpl.
      * rewrite (fmap_middle_same post_pk _ _ p0) by congruence. done.
      * by eapply NoDup_fmap_middle.
      * intros id'. unfold post_rows. simpl.
        rewrite (filter_middle_same _ _ _ p0); [apply K9|]. by rewrite H0, H3.
  - intros post tag d (K1 & K2 & K3 & K4 & K5 & K6 & K7 & K8 & K9 & K10).
    destruct (tags_add_cases post tag d) as [[-> _] | [-> Hn]]; [done|].
    repeat split; try done; simpl. by apply NoDup_snoc_2.
  - intros id post parent name email content status d
      (K1 & K2 & K3 & K4 & K5 & K6 & K7 & K8 & K9 & K10).
    pose proof (update_or_create_comment_cases now id post parent name email
                  content status d) as H.
    destruct (update_or_create_comment _ _ _ _ _ _ _ _ d)
      as [d' [[pk created]|e]]; [|by subst].
    destruct H as [(_ & Hrows & c & -> & Hc & Hpk & Hid & _) |
                   (_ & l1 & c0 & l2 & c & Hl & H0 & _ & -> & H1 & H2 & H3
                    & _)].
    + repeat split; try done; simpl.
      * apply NoDup_fmap_snoc; [done|]. rewrite Hc, Hpk. apply fresh_pk_new.
      * intros id'. unfold comment_rows. simpl. rewrite filter_snoc_length.
        destruct (decide (wp_comment_id c = Some id')) as [Heq|]; [|
          specialize (K10 id'); unfold comment_rows in K10; lia].
        assert (id' = id) as -> by congruence.
        unfold comment_rows in Hrows. rewrite Hrows. simpl. lia.
    + unfold comment_rows in K10. rewrite Hl in K7, K10.
      repeat split; try done; simpl.
      * rewrite (fmap_middle_same comment_pk _ _ c0) by congruence. done.
      * intros id'. unfold comment_rows. simpl.
        rewrite (filter_middle_same _ _ _ c0); [apply K10|]. by rewrite H0, H3.
  - intros pk t d (K1 & K2 & K3 & K4 & K5 & K6 & K7 & K8 & K9 & K10).
    destruct (set_comment_created_at_cases pk t d) as (l & -> & Hl).
    assert (comment_pk <$> l = comment_pk <$> comments d) as Hpks.
    { clear -Hl. induction Hl as [|c c' l l' (? & _) _ IH]; [done|].
      rewrite !fmap_cons. congruence. }
    assert (forall id,
              length (filter (fun c => wp_comment_id c = Some id) l)
              = length (filter (fun c => wp_comment_id c = Some id)
                          (comments d))) as Hrows.
    { intros id. clear -Hl.
      induction Hl as [|c c' l l' (_ & _ & _ & Hid & _) _ IH]; [done|].
      rewrite !filter_cons, Hid.
      destruct (decide (wp_comment_id c = Some id)); simpl; lia. }
    repeat split; try done; simpl.
    + by rewrite Hpks.
    + intros id. unfold comment_rows. simpl. rewrite Hrows. apply K10.
Qed.

(** X9: an import keeps the keys of the store unique, whether it ends or
    raises: no second row with the primary key, the user name, the tag
    slug, the post slug, or the source identifier of another row, and no
    second association of a post with a tag. *)
Theorem import_data_keys_unique now data default_author db :
  keys_unique db ->
  keys_unique
    (import_data slugify render_markdown now data default_author db).1.
Proof. apply inv_run, keys_unique_import_data. Qed.

End Keys.

Lemma import_data_keys_unique_witness :
  keys_unique admin_db /\
  keys_unique
    (import_data (fun s => s) (fun s => s) 0%Z small_data admin admin_db).1.
Proof.
  assert (keys_unique admin_db) as H.
  { repeat split; try apply NoDup_nil_2; try apply NoDup_singleton.
    - intros id. simpl. lia.
    - intros id. simpl. lia. }
  split; [done|].
  exact (import_data_keys_unique (fun s => s) (fun s => s) 0%Z small_data
           admin admin_db H).
Defined.

(** ** References stay valid *)

(** Every foreign key of the store names a row that is there: the author
    and the featured image of a post, the post and the tag of an
    association, the post and the parent of a comment. *)
Definition refs_ok (db : DB) : Prop :=
  (forall p, p ∈ posts db ->
     (post_author p ∈ user_pk <$> users db) /\
     forall i, featured_image p = Some i -> i ∈ image_pk <$> images db) /\
  (forall pt, pt ∈ post_tags db ->
     (pt.1 ∈ post_pk <$> posts db) /\ (pt.2 ∈ tag_pk <$> tags db)) /\
  (forall c, c ∈ comments db ->
     (comment_post c ∈ post_pk <$> posts db) /\
     forall q, comment_parent c = Some q -> q ∈ comment_pk <$> comments db).

(** The values of a mapping are among the keys [l]. *)
Definition vals_in {K} `{Countable K} (m : gmap K nat) (l : list nat) : Prop :=
  forall k v, m !! k = Some v -> v ∈ l.

Lemma vals_in_empty {K} `{Countable K} (l : list nat) :
  vals_in (∅ : gmap K nat) l.
Proof. intros k v Hk. by rewrite lookup_empty in Hk. Qed.

Lemma vals_in_insert {K} `{Countable K} (m : gmap K nat) l k v :
  vals_in m l -> v ∈ l -> vals_in (<[k := v]> m) l.
Proof.
  intros Hm Hv k' v'. destruct (decide (k = k')) as [->|Hne].
  - rewrite lookup_insert_eq. by intros [= <-].
  - rewrite lookup_insert_ne by done. apply Hm.
Qed.

Lemma vals_in_mono {K} `{Countable K} (m : gmap K nat) (l l' : list nat) :
  vals_in m l -> (forall v, v ∈ l -> v ∈ l') -> vals_in m l'.
Proof. intros Hm Hl k v Hk. eauto. Qed.

Lemma elem_of_fmap_snoc {A B} (f : A -> B) (l : list A) (x : A) (b : B) :
  b ∈ f <$> l -> b ∈ f <$> (l ++ [x]).
Proof. rewrite fmap_app. set_solver. Qed.

Lemma elem_of_fmap_last {A B} (f : A -> B) (l : list A) (x : A) :
  f x ∈ f <$> (l ++ [x]).
Proof. rewrite fmap_app. set_solver. Qed.

(** The primary keys of the tables. *)
Definition pks (db : DB) : list nat * list nat * list nat * list nat :=
  (user_pk <$> users db, tag_pk <$> tags db, post_pk <$> posts db,
   comment_pk <$> comments db).

(** The keys that were there are still there. *)
Definition pks_le (db db' : DB) : Prop :=
  (forall v, v ∈ user_pk <$> users db -> v ∈ user_pk <$> users db') /\
  (forall v, v ∈ tag_pk <$> tags db -> v ∈ tag_pk <$> tags db') /\
  (forall v, v ∈ post_pk <$> posts db -> v ∈ post_pk <$> posts db') /\
  (forall v, v ∈ comment_pk <$> comments db ->
             v ∈ comment_pk <$> comments db').

Lemma prefix_elem_of_fmap {A B} (f : A -> B) (l l' : list A) b :
  l `prefix_of` l' -> b ∈ f <$> l -> b ∈ f <$> l'.
Proof. intros [k ->]. rewrite fmap_app. set_solver. Qed.

Lemma Forall2_fmap_eq {A B} (f : A -> B) (R : A -> A -> Prop) (l l' : list A) :
  (forall x y, R x y -> f y = f x) -> Forall2 R l l' -> f <$> l' = f <$> l.
Proof.
  intros HR Hl. induction Hl as [|x y l l' Hxy _ IH]; [done|].
  rewrite !fmap_cons, IH. f_equal. by apply HR.
Qed.

Lemma extends_pks_le db db' : extends db db' -> pks_le db db'.
Proof.
  intros (_ & B & C & _ & (lp & Ep & Fp) & (lc & Ec & Fc)).
  repeat split; intros v Hv.
  - by eapply prefix_elem_of_fmap.
  - by eapply prefix_elem_of_fmap.
  - eapply prefix_elem_of_fmap; [done|].
    rewrite (Forall2_fmap_eq post_pk same_post (posts db) lp); [done| |done].
    by intros x y (? & _).
  - eapply prefix_elem_of_fmap; [done|].
    rewrite (Forall2_fmap_eq comment_pk same_comment (comments db) lc);
      [done| |done].
    by intros x y (? & _).
Qed.

(** What the accesses do to the references. *)
Lemma refs_ok_get_or_create_user login email first last staff superuser db :
  refs_ok db ->
  match get_or_create_user login email first last staff superuser db with
  | (db', Ok (u, _)) => refs_ok db' /\ user_pk u ∈ user_pk <$> users db'
  | (db', Raise _) => refs_ok db'
  end.
Proof.
  intros (R1 & R2 & R3).
  pose proof (get_or_create_user_cases login email first last staff
                superuser db) as H.
  destruct (get_or_create_user _ _ _ _ _ _ db) as [db' [[u created]|e]];
    [|by subst].
  destruct H as [_ [(_ & -> & Hu) | (_ & -> & _)]].
  - split; [done|]. apply list_elem_of_fmap. eauto.
  - split; [|apply elem_of_fmap_last].
    split; [|done]. intros p Hp. destruct (R1 p Hp) as [Ha Hf].
    split; [|done]. simpl. by apply elem_of_fmap_snoc.
Qed.

Lemma refs_ok_tags_add post tag db :
  refs_ok db -> post ∈ post_pk <$> posts db -> tag ∈ tag_pk <$> tags db ->
  refs_ok (tags_add post tag db).1.
Proof.
  intros (R1 & R2 & R3) Hp Ht.
  destruct (tags_add_cases post tag db) as [[-> _] | [-> _]]; [done|].
  split; [done|]. split; [|done]. simpl.
  intros pt [Hpt | ->%list_elem_of_singleton]%elem_of_app; [by apply R2|done].
Qed.

Lemma refs_ok_update_or_create_comment now id post parent name email content
  status db :
  refs_ok db -> post ∈ post_pk <$> posts db ->
  (forall q, parent = Some q -> q ∈ comment_pk <$> comments db) ->
  match update_or_create_comment now id post parent name email content
          status db with
  | (db', Ok (pk, _)) => refs_ok db' /\ pk ∈ comment_pk <$> comments db'
  | (db', Raise _) => refs_ok db'
  end.
Proof.
  intros (R1 & R2 & R3) Hpost Hparent.
  pose proof (update_or_create_comment_cases now id post parent name email
                content status db) as H.
  destruct (update_or_create_comment _ _ _ _ _ _ _ _ db)
    as [db' [[pk created]|e]]; [|by subst].
  destruct H as [(_ & _ & c & -> & Hc & _ & _ & Hcp & Hcq) |
                 (_ & l1 & c0 & l2 & c & Hl & _ & _ & -> & H1 & H2 & _ & Hcp
                  & Hcq & _)].
  - split; [|rewrite <- Hc; apply elem_of_fmap_last].
    split; [done|]. split; [done|]. simpl.
    intros x [Hx | ->%list_elem_of_singleton]%elem_of_app.
    + destruct (R3 x Hx) as [Ha Hb]. split; [done|].
      intros q Hq. by apply elem_of_fmap_snoc, Hb.
    + rewrite Hcp, Hcq. split; [done|].
      intros q Hq. by apply elem_of_fmap_snoc, Hparent.
  - assert (comment_pk <$> (l1 ++ c :: l2) = comment_pk <$> comments db)
      as Hpks.
    { rewrite Hl. apply fmap_middle_same. congruence. }
    split.
    + split; [done|]. split; [done|]. simpl. rewrite Hpks.
      intros x Hx.
      assert (x = c \/ x ∈ comments db) as [-> | Hin].
      { rewrite Hl. set_solver. }
      * rewrite Hcp, Hcq. by split.
      * by apply R3.
    + simpl. rewrite Hpks, Hl, <- H1. set_solver.
Qed.

Lemma refs_ok_set_comment_created_at pk t db :
  refs_ok db -> refs_ok (set_comment_created_at pk t db).1.
Proof.
  intros (R1 & R2 & R3).
  destruct (set_comment_created_at_cases pk t db) as (l & -> & Hl).
  assert (comment_pk <$> l = comment_pk <$> comments db) as Hpks.
  { apply (Forall2_fmap_eq comment_pk _ _ _ (fun c c' H => proj1 H) Hl). }
  split; [done|]. split; [done|]. simpl. rewrite Hpks.
  intros c' Hc'. apply list_elem_of_lookup in Hc' as [i Hi].
  destruct (Forall2_lookup_r _ _ _ _ _ Hl Hi) as (c & Hc & _ & -> & -> & _).
  apply R3. by eapply list_elem_of_lookup_2.
Qed.

Section References.

Variable slugify : string -> string.
Variable render_markdown : string -> string.

Lemma refs_ok_get_or_create_tag slug name term_id db :
  refs_ok db ->
  match get_or_create_tag slugify slug name term_id db with
  | (db', Ok (pk, _)) => refs_ok db' /\ pk ∈ tag_pk <$> tags db'
  | (db', Raise _) => refs_ok db'
  end.
Proof.
  intros (R1 & R2 & R3).
  pose proof (get_or_create_tag_cases slugify slug name term_id db) as H.
  destruct (get_or_create_tag _ _ _ _ db) as [db' [[pk created]|e]];
    [|by subst].
  destruct H as [(_ & -> & Hpk) | (_ & t & -> & Ht & _)]; [done|].
  split; [|rewrite <- Ht; apply elem_of_fmap_last].
  split; [done|]. split; [|done]. simpl.
  intros pt Hpt. destruct (R2 pt Hpt) as [Ha Hb].
  split; [done|]. by apply elem_of_fmap_snoc.
Qed.

Lemma refs_ok_update_or_create_post now id title slug content excerpt status
  author published db :
  refs_ok db -> author ∈ user_pk <$> users db ->
  match update_or_create_post slugify render_markdown now id title slug
          content excerpt status author published db with
  | (db', Ok (pk, _)) => refs_ok db' /\ pk ∈ post_pk <$> posts db'
  | (db', Raise _) => refs_ok db'
  end.
Proof.
  intros (R1 & R2 & R3) Hauthor.
  pose proof (update_or_create_post_cases slugify render_markdown now id
                title slug content excerpt status author published db) as H.
  destruct (update_or_create_post _ _ _ _ _ _ _ _ _ _ _ db)
    as [db' [[pk created]|e]]; [|by subst].
  destruct H as [(_ & _ & p & -> & Hp & _ & _ & _ & Ha & Hf) |
                 (_ & l1 & p0 & l2 & p & Hl & _ & _ & -> & H1 & H2 & _ & _
                  & Ha & Hf & _)].
  - split; [|rewrite <- Hp; apply elem_of_fmap_last].
    split; [|split]; simpl.
    + intros x [Hx | ->%list_elem_of_singleton]%elem_of_app; [by apply R1|].
      rewrite Ha, Hf. by split.
    + intros pt Hpt. destruct (R2 pt Hpt) as [Hx Hy].
      split; [by apply elem_of_fmap_snoc|done].
    + intros c Hc. destruct (R3 c Hc) as [Hx Hy].
      split; [by apply elem_of_fmap_snoc|done].
  - assert (post_pk <$> (l1 ++ p :: l2) = post_pk <$> posts db) as Hpks.
    { rewrite Hl. apply fmap_middle_same. congruence. }
    split.
    + split; [|split]; simpl; rewrite ?Hpks; [|done..].
      intros x Hx.
      assert (x = p \/ x ∈ posts db) as [-> | Hin].
      { rewrite Hl. set_solver. }
      * rewrite Ha, Hf. split; [done|]. apply R1. rewrite Hl. set_solver.
      * by apply R1.
    + simpl. rewrite Hpks, Hl, <- H1. set_solver.
Qed.

(** The state of the loops of [import_data]: the references are valid, and
    the default author, the authors and the tags of the two mappings are
    rows of the store. *)
Definition valid (authors tag_map : gmap (option string) nat) (dflt : nat)
  (db : DB) : Prop :=
  refs_ok db /\ (dflt ∈ user_pk <$> users db) /\
  vals_in authors (user_pk <$> users db) /\
  vals_in tag_map (tag_pk <$> tags db).

Lemma valid_extends authors tag_map dflt db db' :
  valid authors tag_map dflt db -> extends db db' -> refs_ok db' ->
  valid authors tag_map dflt db'.
Proof.
  intros (_ & Hd & Ha & Ht) (Hu & Htg & _)%extends_pks_le Hr.
  split; [done|]. split; [by apply Hu|].
  split; eapply vals_in_mono; eauto.
Qed.

Lemma hoare_import_comment (now : Z)
  (authors tag_map : gmap (option string) nat) dflt post acc c :
  hoare
    (fun db => valid authors tag_map dflt db /\
               (post ∈ post_pk <$> posts db) /\
               vals_in acc.1 (comment_pk <$> comments db))
    (import_comment now post acc c)
    (fun acc' db => valid authors tag_map dflt db /\
                    (post ∈ post_pk <$> posts db) /\
                    vals_in acc'.1 (comment_pk <$> comments db))
    refs_ok.
Proof.
  destruct acc as [comment_map stats]. unfold import_comment.
  set (parent := if bool_decide (c_parent c <> 0%Z)
                 then comment_map !! c_parent c else None).
  eapply hoare_bind with
    (Q := fun r db => valid authors tag_map dflt db /\
                      (post ∈ post_pk <$> posts db) /\
                      vals_in comment_map (comment_pk <$> comments db) /\
                      (r.1 ∈ comment_pk <$> comments db)).
  - intros db (Hv & Hp & Hm).
    assert (forall q, parent = Some q -> q ∈ comment_pk <$> comments db)
      as Hparent.
    { intros q. subst parent. case_bool_decide; [apply Hm|done]. }
    pose proof (refs_ok_update_or_create_comment now (c_id c) post parent
                  (c_author_name c) (c_author_email c) (c_content c)
                  (comment_status_of (c_status c)) db (proj1 Hv) Hp Hparent)
      as H.
    pose proof (extends_update_or_create_comment now (c_id c) post parent
                  (c_author_name c) (c_author_email c) (c_content c)
                  (comment_status_of (c_status c)) db) as He.
    destruct (update_or_create_comment _ _ _ _ _ _ _ _ db)
      as [db' [[pk created]|e]]; simpl in *; [|done].
    destruct H as [Hr Hpk].
    pose proof (extends_pks_le _ _ He) as (_ & _ & Hpp & Hpc).
    split; [by eapply valid_extends|]. split; [by apply Hpp|].
    split; [by eapply vals_in_mono|done].
  - intros [pk created]. simpl.
    eapply hoare_bind with
      (Q := fun _ db => valid authors tag_map dflt db /\
                        (post ∈ post_pk <$> posts db) /\
                        vals_in comment_map (comment_pk <$> comments db) /\
                        (pk ∈ comment_pk <$> comments db)).
    + assert (forall t,
                hoare
                  (fun db => valid authors tag_map dflt db /\
                     (post ∈ post_pk <$> posts db) /\
                     vals_in comment_map (comment_pk <$> comments db) /\
                     (pk ∈ comment_pk <$> comments db))
                  (set_comment_created_at pk t)
                  (fun _ db => valid authors tag_map dflt db /\
                     (post ∈ post_pk <$> posts db) /\
                     vals_in comment_map (comment_pk <$> comments db) /\
                     (pk ∈ comment_pk <$> comments db))
                  refs_ok) as Hset.
      { intros t db (Hv & Hp & Hm & Hpk).
        pose proof (refs_ok_set_comment_created_at pk t db (proj1 Hv)) as Hr.
        pose proof (extends_set_comment_created_at pk t db) as He.
        destruct (set_comment_created_at pk t db) as [db' [[]|e]] eqn:Hrun;
          simpl in *; [|done].
        pose proof (extends_pks_le _ _ He) as (_ & _ & Hpp & Hpc).
        split; [by eapply valid_extends|]. split; [by apply Hpp|].
        split; [by eapply vals_in_mono|by apply Hpc]. }
      destruct (c_created_at c) as [t|]; [|by apply hoare_ret].
      destruct created; [apply Hset|by apply hoare_ret].
    + intros _. apply hoare_ret. simpl. intros db (Hv & Hp & Hm & Hpk).
      split; [done|]. split; [done|]. by apply vals_in_insert.
Qed.

Lemma hoare_import_post (now : Z)
  (authors tag_map : gmap (option string) nat) default_author stats p :
  hoare (valid authors tag_map (user_pk default_author))
    (import_post slugify render_markdown now authors tag_map default_author
       stats p)
    (fun _ => valid authors tag_map (user_pk default_author)) refs_ok.
Proof.
  unfold import_post.
  eapply hoare_bind with
    (Q := fun r db => valid authors tag_map (user_pk default_author) db /\
                      (r.1 ∈ post_pk <$> posts db)).
  - intros db Hv.
    assert (default (user_pk default_author) (authors !! p_author p)
              ∈ user_pk <$> users db) as Hauthor.
    { destruct Hv as (_ & Hd & Ha & _).
      destruct (authors !! p_author p) as [a|] eqn:E; simpl; eauto. }
    pose proof (refs_ok_update_or_create_post now (p_id p) (p_title p)
                  (or_str (p_slug p) (slugify (p_title p)))
                  (html_to_markdown (p_content p)) (p_excerpt p)
                  (post_status_of (p_status p)) _ (p_published_at p) db
                  (proj1 Hv) Hauthor) as H.
    pose proof (extends_update_or_create_post slugify render_markdown now
                  (p_id p) (p_title p)
                  (or_str (p_slug p) (slugify (p_title p)))
                  (html_to_markdown (p_content p)) (p_excerpt p)
                  (post_status_of (p_status p))
                  (default (user_pk default_author) (authors !! p_author p))
                  (p_published_at p) db) as He.
    destruct (update_or_create_post _ _ _ _ _ _ _ _ _ _ _ db)
      as [db' [[pk created]|e]]; simpl in *; [|done].
    destruct H as [Hr Hpk]. split; [by eapply valid_extends|done].
  - intros [post created]. simpl.
    eapply hoare_bind with
      (Q := fun _ db => valid authors tag_map (user_pk default_author) db /\
                        (post ∈ post_pk <$> posts db)).
    + apply (hoare_foldM _
               (fun _ db =>
                  valid authors tag_map (user_pk default_author) db /\
                  (post ∈ post_pk <$> posts db))).
      intros [] ts _ db (Hv & Hp).
      destruct (tag_map !! ts) as [tag|] eqn:E; [|done].
      assert (tag ∈ tag_pk <$> tags db) as Ht.
      { destruct Hv as (_ & _ & _ & Ht). eauto. }
      pose proof (refs_ok_tags_add post tag db (proj1 Hv) Hp Ht) as Hr.
      pose proof (extends_tags_add post tag db) as He.
      destruct (tags_add post tag db) as [db' [[]|e]]; simpl in *; [|done].
      pose proof (extends_pks_le _ _ He) as (_ & _ & Hpp & _).
      split; [by eapply valid_extends|by apply Hpp].
    + intros _.
      eapply hoare_bind with
        (Q := fun acc db =>
                valid authors tag_map (user_pk default_author) db /\
                (post ∈ post_pk <$> posts db) /\
                vals_in acc.1 (comment_pk <$> comments db)).
      * intros db (Hv & Hp).
        apply (hoare_foldM (import_comment now post)
                 (fun acc db =>
                    valid authors tag_map (user_pk default_author) db /\
                    (post ∈ post_pk <$> posts db) /\
                    vals_in acc.1 (comment_pk <$> comments db))).
        -- intros acc c _. apply hoare_import_comment.
        -- split; [done|]. split; [done|]. apply vals_in_empty.
      * intros [cm st]. apply hoare_ret. tauto.
Qed.

Lemma hoare_import_data now data default_author :
  hoare
    (fun db => refs_ok db /\
               (user_pk default_author ∈ user_pk <$> users db))
    (import_data slugify render_markdown now data default_author)
    (fun _ => refs_ok) refs_ok.
Proof.
  unfold import_data.
  eapply hoare_bind with
    (Q := fun authors => valid authors ∅ (user_pk default_author)).
  - intros db [Hr Hd].
    apply (hoare_foldM import_author
             (fun authors => valid authors ∅ (user_pk default_author))
             refs_ok).
    + intros authors a _. unfold import_author.
      eapply hoare_bind with
        (Q := fun _ => valid authors ∅ (user_pk default_author)).
      * destruct (String.eqb _ _); [by apply hoare_ret|].
        destruct (py_split _); [apply hoare_raise; by intros ? []|].
        by apply hoare_ret.
      * intros first.
        eapply hoare_bind with
          (Q := fun r db => valid authors ∅ (user_pk default_author) db /\
                            (user_pk r.1 ∈ user_pk <$> users db)).
        -- intros d Hv.
           pose proof (refs_ok_get_or_create_user (a_login a) (a_email a)
                         first
                         (if String.eqb (a_display_name a) "" then ""
                          else join " " (tail (py_split (a_display_name a))))
                         false false d (proj1 Hv)) as H.
           pose proof (extends_get_or_create_user (a_login a) (a_email a)
                         first
                         (if String.eqb (a_display_name a) "" then ""
                          else join " " (tail (py_split (a_display_name a))))
                         false false d) as He.
           destruct (get_or_create_user _ _ _ _ _ _ d)
             as [d' [[u created]|e]]; simpl in *; [|done].
           destruct H as [Hr' Hu]. split; [by eapply valid_extends|done].
        -- intros [user created]. apply hoare_ret.
           intros d ((Hr' & Hd' & Ha & Ht) & Hu).
           split; [done|]. split; [done|].
           split; [by apply vals_in_insert|done].
    + split; [done|]. split; [done|]. split; apply vals_in_empty.
  - intros authors.
    eapply hoare_bind with
      (Q := fun acc => valid authors acc.1 (user_pk default_author)).
    + apply (fun H => hoare_foldM (import_tag slugify)
               (fun acc => valid authors acc.1 (user_pk default_author))
               refs_ok (d_tags data) H
               (∅, {| tags_created := 0; posts_created := 0;
                      comments_created := 0 |})).
      intros [tag_map stats] t _. unfold import_tag.
      eapply hoare_bind with
        (Q := fun r db => valid authors tag_map (user_pk default_author) db /\
                          (r.1 ∈ tag_pk <$> tags db)).
      * intros d Hv.
        pose proof (refs_ok_get_or_create_tag (t_slug t) (t_name t)
                      (t_term_id t) d (proj1 Hv)) as H.
        pose proof (extends_get_or_create_tag slugify (t_slug t) (t_name t)
                      (t_term_id t) d) as He.
        destruct (get_or_create_tag _ _ _ _ d) as [d' [[pk created]|e]];
          simpl in *; [|done].
        destruct H as [Hr' Hpk]. split; [by eapply valid_extends|done].
      * intros [tag created]. apply hoare_ret.
        intros d ((Hr' & Hd' & Ha & Ht) & Hpk).
        split; [done|]. split; [done|].
        split; [done|by apply vals_in_insert].
    + intros [tag_map stats]. simpl.
      intros db Hv.
      pose proof (hoare_foldM
                    (import_post slugify render_markdown now authors tag_map
                       default_author)
                    (fun _ => valid authors tag_map (user_pk default_author))
                    refs_ok (d_posts data)
                    (fun st p _ => hoare_import_post now authors tag_map
                                     default_author st p)
                    stats db Hv) as H.
      destruct (foldM _ _ _ db) as [db' [st|e]]; [by destruct H|done].
Qed.

(** X10: an import keeps the references of the store valid, whether it
    ends or raises: when every author, featured image, tagged post, tag,
    commented post and parent comment named by a row is a row of the
    store, and the default author is a user of the store, the same holds
    afterwards. *)
Theorem import_data_refs_ok now data default_author db :
  refs_ok db -> user_pk default_author ∈ user_pk <$> users db ->
  refs_ok (import_data slugify render_markdown now data default_author db).1.
Proof.
  intros Hr Hd.
  pose proof (hoare_import_data now data default_author db (conj Hr Hd)) as H.
  by destruct (import_data _ _ _ _ _ db) as [db' [st|e]].
Qed.

End References.

Lemma import_data_refs_ok_witness :
  (refs_ok admin_db /\ user_pk admin ∈ user_pk <$> users admin_db) /\
  refs_ok
    (import_data (fun s => s) (fun s => s) 0%Z small_data admin admin_db).1.
Proof.
  assert (refs_ok admin_db) as H.
  { split; [|split]; intros x Hx; by apply elem_of_nil in Hx. }
  assert (user_pk admin ∈ user_pk <$> users admin_db) as Hd by (simpl; left).
  split; [done|].
  exact (import_data_refs_ok (fun s => s) (fun s => s) 0%Z small_data
           admin admin_db H Hd).
Defined.

(** ** The counts of an import *)

(** The tables of tags, posts and comments of [db] have as many rows more
    than those of [db0] as [stats] counts. *)
Definition grown (db0 : DB) (stats : Stats) (db : DB) : Prop :=
  length (tags db) = length (tags db0) + tags_created stats /\
  length (posts db) = length (posts db0) + posts_created stats /\
  length (comments db) = length (comments db0) + comments_created stats.

Section Counts.

Variable slugify : string -> string.
Variable render_markdown : string -> string.

Lemma grown_import_comment now db0 post acc c :
  hoare (grown db0 acc.2) (import_comment now post acc c)
    (fun acc' => grown db0 acc'.2) (fun _ => True).
Proof.
  destruct acc as [comment_map stats]. unfold import_comment.
  set (parent := if bool_decide (c_parent c <> 0%Z)
                 then comment_map !! c_parent c else None).
  eapply hoare_bind with
    (Q := fun r db =>
            grown db0
              (if (r.2 : bool)
               then {| tags_created := tags_created stats;
                       posts_created := posts_created stats;
                       comments_created := S (comments_created stats) |}
               else stats) db).
  - intros db (G1 & G2 & G3).
    pose proof (update_or_create_comment_cases now (c_id c) post parent
                  (c_author_name c) (c_author_email c) (c_content c)
                  (comment_status_of (c_status c)) db) as H.
    destruct (update_or_create_comment _ _ _ _ _ _ _ _ db)
      as [db' [[pk created]|e]]; [|done].
    destruct H as [(-> & _ & x & -> & _) |
                   (-> & l1 & c0 & l2 & x & Hl & _ & _ & -> & _)];
      repeat split; simpl in *; try done.
    + rewrite length_app. simpl. lia.
    + rewrite Hl in G3. by rewrite !length_app in *.
  - intros [pk created]. simpl.
    set (stats' := if created then _ else stats).
    eapply hoare_bind with (Q := fun _ => grown db0 stats');
      [|intros []; by apply hoare_ret].
    destruct (c_created_at c) as [t|]; [|by apply hoare_ret].
    destruct created; [|by apply hoare_ret].
    intros db (G1 & G2 & G3).
    destruct (set_comment_created_at_cases pk t db) as (l & -> & Hl).
    repeat split; simpl; try done.
    by rewrite <- (Forall2_length _ _ _ Hl).
Qed.

Lemma grown_import_post now db0 authors tag_map default_author stats p :
  hoare (grown db0 stats)
    (import_post slugify render_markdown now authors tag_map default_author
       stats p)
    (grown db0) (fun _ => True).
Proof.
  unfold import_post.
  eapply hoare_bind with
    (Q := fun r db =>
            grown db0
              (if (r.2 : bool)
               then {| tags_created := tags_created stats;
                       posts_created := S (posts_created stats);
                       comments_created := comments_created stats |}
               else stats) db).
  - intros db (G1 & G2 & G3).
    pose proof (update_or_create_post_cases slugify render_markdown now
                  (p_id p) (p_title p)
                  (or_str (p_slug p) (slugify (p_title p)))
                  (html_to_markdown (p_content p)) (p_excerpt p)
                  (post_status_of (p_status p))
                  (default (user_pk default_author) (authors !! p_author p))
                  (p_published_at p) db) as H.
    destruct (update_or_create_post _ _ _ _ _ _ _ _ _ _ _ db)
      as [db' [[pk created]|e]]; [|done].
    destruct H as [(-> & _ & x & -> & _) |
                   (-> & l1 & p0 & l2 & x & Hl & _ & _ & -> & _)];
      repeat split; simpl in *; try done.
    + rewrite length_app. simpl. lia.
    + rewrite Hl in G2. by rewrite !length_app in *.
  - intros [post created]. simpl.
    set (stats' := if created then _ else stats).
    eapply hoare_bind with (Q := fun _ => grown db0 stats').
    + apply (hoare_foldM _ (fun _ => grown db0 stats')).
      intros [] ts _ db G.
      destruct (tag_map !! ts) as [tag|]; [|done].
      destruct (tags_add_cases post tag db) as [[-> _] | [-> _]]; done.
    + intros _.
      eapply hoare_bind with (Q := fun acc => grown db0 acc.2).
      * apply (fun H => hoare_foldM (import_comment now post)
                 (fun acc => grown db0 acc.2) (fun _ => True)
                 (sorted_by_id (p_comments p)) H (∅, stats')).
        intros acc c _. apply grown_import_comment.
      * intros [cm st]. by apply hoare_ret.
Qed.

Lemma grown_import_data now data default_author db0 :
  hoare (fun db => db = db0)
    (import_data slugify render_markdown now data default_author)
    (grown db0) (fun _ => True).
Proof.
  unfold import_data.
  eapply hoare_bind with
    (Q := fun _ => grown db0 {| tags_created := 0; posts_created := 0;
                                comments_created := 0 |}).
  - intros db ->.
    apply (hoare_foldM import_author
             (fun _ => grown db0 {| tags_created := 0; posts_created := 0;
                                    comments_created := 0 |})
             (fun _ => True)).
    + intros authors a _. unfold import_author.
      eapply hoare_bind with
        (Q := fun _ => grown db0 {| tags_created := 0; posts_created := 0;
                                    comments_created := 0 |}).
      * destruct (String.eqb _ _); [by apply hoare_ret|].
        destruct (py_split _); [by apply hoare_raise|by apply hoare_ret].
      * intros first.
        eapply hoare_bind with
          (Q := fun _ => grown db0 {| tags_created := 0; posts_created := 0;
                                      comments_created := 0 |});
          [|intros [user created]; by apply hoare_ret].
        intros d G.
        pose proof (get_or_create_user_cases (a_login a) (a_email a) first
                      (if String.eqb (a_display_name a) "" then ""
                       else join " " (tail (py_split (a_display_name a))))
                      false false d) as H.
        destruct (get_or_create_user _ _ _ _ _ _ d)
          as [d' [[u created]|e]]; [|done].
        by destruct H as [_ [(_ & -> & _) | (_ & -> & _)]].
    + unfold grown. simpl. lia.
  - intros authors.
    eapply hoare_bind with (Q := fun acc => grown db0 acc.2).
    + apply (fun H => hoare_foldM (import_tag slugify)
               (fun acc => grown db0 acc.2) (fun _ => True) (d_tags data) H
               (∅, {| tags_created := 0; posts_created := 0;
                      comments_created := 0 |})).
      intros [tag_map stats] t _. unfold import_tag.
      eapply hoare_bind with
        (Q := fun r db =>
                grown db0
                  (if (r.2 : bool)
                   then {| tags_created := S (tags_created stats);
                           posts_created := posts_created stats;
                           comments_created := comments_created stats |}
                   else stats) db).
      * intros d (G1 & G2 & G3).
        pose proof (get_or_create_tag_cases slugify (t_slug t) (t_name t)
                      (t_term_id t) d) as H.
        destruct (get_or_create_tag _ _ _ _ d) as [d' [[pk created]|e]];
          [|done].
        destruct H as [(-> & -> & _) | (-> & x & -> & _)];
          repeat split; simpl in *; try done.
        rewrite length_app. simpl. lia.
      * intros [tag created]. by apply hoare_ret.
    + intros [tag_map stats]. simpl.
      apply (hoare_foldM
               (import_post slugify render_markdown now authors tag_map
                  default_author) (grown db0) (fun _ => True)).
      intros st p _. apply grown_import_post.
Qed.

(** X11: the counts an import returns are the growth of the tables: after
    an import that ends, the table of tags has [tags_created] rows more
    than before, the table of posts [posts_created] rows more, and the
    table of comments [comments_created] rows more. *)
Theorem import_data_counts now data default_author db db' stats :
  import_data slugify render_markdown now data default_author db
  = (db', Ok stats) ->
  length (tags db') = length (tags db) + tags_created stats /\
  length (posts db') = length (posts db) + posts_created stats /\
  length (comments db') = length (comments db) + comments_created stats.
Proof.
  intros Hrun.
  pose proof (grown_import_data now data default_author db db eq_refl) as H.
  by rewrite Hrun in H.
Qed.

End Counts.

Lemma import_data_counts_witness :
  let run := import_data (fun s => s) (fun s => s) 0%Z small_data admin
               admin_db in
  run.2 = Ok {| tags_created := 1; posts_created := 1;
                comments_created := 2 |} /\
  length (tags run.1) = length (tags admin_db) + 1 /\
  length (posts run.1) = length (posts admin_db) + 1 /\
  length (comments run.1) = length (comments admin_db) + 2.
Proof.
  intros run. split; [by vm_compute|].
  apply (import_data_counts (fun s => s) (fun s => s) 0%Z small_data admin
           admin_db run.1
           {| tags_created := 1; posts_created := 1;
              comments_created := 2 |}).
  by vm_compute.
Defined.

(** ** The entry point of the migration *)

Section MainFacts.

Variable py_int : string -> option Z.
Variable strptime : string -> string -> option Z.
Variable slugify : string -> string.
Variable render_markdown : string -> string.

(** X12: [main] parses before it writes: a document the parser raises on
    leaves the store as it is, and [main] raises the parser's exception.
    When the document is parsed, a user named [admin] is in the store
    afterwards, whether the import ends or raises: one that was there
    before, left as it was, or a new one with staff and superuser rights. *)
Theorem main_default_author now channel db :
  (forall e,
     parse_wordpress_xml py_int strptime channel = Raise e ->
     main py_int strptime slugify render_markdown now channel db
     = (db, Raise e)) /\
  (forall data,
     parse_wordpress_xml py_int strptime channel = Ok data ->
     exists u,
       u ∈ users (main py_int strptime slugify render_markdown now channel
                    db).1 /\
       username u = "admin" /\
       (u ∈ users db \/ (is_staff u = true /\ is_superuser u = true))).
Proof.
  unfold main, mbind, M_bind. split.
  - by intros e ->.
  - intros data ->.
    assert (forall u d r,
              u ∈ users d ->
              u ∈ users (import_data slugify render_markdown now data r d).1)
      as Hkeep.
    { intros u d r Hu.
      destruct (extends_import_data slugify render_markdown now data r d)
        as (_ & [k ->] & _). apply elem_of_app. by left. }
    unfold get_or_create_user.
    destruct (filter _ _) as [|u [|u' l]] eqn:Hf.
    + eexists. split; [apply Hkeep|].
      * simpl. apply elem_of_app. right. left.
      * split; [done|]. by right.
    + assert (u ∈ filter (fun u => username u = "admin") (users db)) as Hin
        by (rewrite Hf; left).
      apply list_elem_of_filter in Hin as [Hname Hin].
      exists u. split; [by apply Hkeep|by eauto].
    + assert (u ∈ filter (fun u => username u = "admin") (users db)) as Hin
        by (rewrite Hf; left).
      apply list_elem_of_filter in Hin as [Hname Hin].
      exists u. by eauto.
Qed.

End MainFacts.

(** ** The first image and all the images *)

Lemma search_group_head r i (s : chars) :
  search_group r i s = head (finditer_from r i 0 s).
Proof.
  induction s as [|c s IH]; cbn [search_group finditer_from].
  - by destruct (re_match r []) as [[rest g]|].
  - destruct (re_match r (c :: s)) as [[rest g]|]; [done|]. apply IH.
Qed.

Lemma head_elem_of {A} (l : list A) (x : A) : head l = Some x -> x ∈ l.
Proof. destruct l; [done|]. intros [= ->]. left. Qed.

Section FirstImage.

Variable set_iter : list string -> list string.
Hypothesis set_iter_perm : forall l, set_iter l ≡ₚ l.

Lemma extract_image_urls_elem (content domain url : string) :
  url ∈ extract_image_urls set_iter content domain <->
  (url ∈ str <$> finditer_from md_pattern 1 0 (chs content) \/
   url ∈ str <$> finditer_from html_pattern 1 0 (chs content)) /\
  (contains (chs domain) (chs url) || starts_with (chs "/") (chs url)) = true.
Proof.
  unfold extract_image_urls.
  set (keep := fun url : string =>
    contains (chs domain) (chs url) || starts_with (chs "/") (chs url)).
  destruct (foldl_add_spec keep
              (str <$> finditer_from md_pattern 1 0 (chs content)) [])
    as [Hnd1 Hin1]; [apply NoDup_nil_2|].
  destruct (foldl_add_spec keep
              (str <$> finditer_from html_pattern 1 0 (chs content)) _ Hnd1)
    as [Hnd2 Hin2].
  rewrite set_iter_perm.
  specialize (Hin1 url). specialize (Hin2 url).
  rewrite elem_of_nil in Hin1.
  subst keep. cbv beta in Hin1, Hin2. tauto.
Qed.

(** X13: the image that [extract_first_image_url] finds is one of the
    images that [extract_image_urls] returns, when it passes the domain
    filter; and a content in which the first finds no image gives the
    second nothing to download. *)
Theorem first_image_among_all (content domain : string) :
  (forall url,
     extract_first_image_url content = Some url ->
     (contains (chs domain) (chs url) || starts_with (chs "/") (chs url))
     = true ->
     url ∈ extract_image_urls set_iter content domain) /\
  (extract_first_image_url content = None ->
   extract_image_urls set_iter content domain = []).
Proof.
  unfold extract_first_image_url. rewrite !search_group_head. split.
  - intros url H Hkeep. apply extract_image_urls_elem. split; [|done].
    destruct (head (finditer_from html_pattern 1 0 (chs content)))
      as [u|] eqn:Eh.
    + injection H as <-. right. apply list_elem_of_fmap.
      exists u. split; [done|]. by apply head_elem_of.
    + destruct (head (finditer_from md_pattern 1 0 (chs content)))
        as [u|] eqn:Em; [|done].
      injection H as <-. left. apply list_elem_of_fmap.
      exists u. split; [done|]. by apply head_elem_of.
  - intros H.
    destruct (finditer_from html_pattern 1 0 (chs content)) as [|u l] eqn:Eh;
      [|done].
    destruct (finditer_from md_pattern 1 0 (chs content)) as [|v l] eqn:Em;
      [|done].
    unfold extract_image_urls. rewrite Eh, Em. simpl.
    apply Permutation_nil_r. apply set_iter_perm.
Qed.

End FirstImage.

Lemma first_image_among_all_witness :
  (forall l : list string, (fun l => l) l ≡ₚ l) /\
  extract_first_image_url order_content_2 = Some "/a.png" /\
  "/a.png" ∈ extract_image_urls (fun l => l) order_content_2 "example.com".
Proof.
  split; [reflexivity|]. split; [reflexivity|].
  apply (proj1 (first_image_among_all (fun l => l)
                  (fun l => reflexivity l) order_content_2 "example.com"));
    reflexivity.
Defined.

(** ** Fetching an image *)

Lemma mem_ascii_after_last c (s : chars) :
  mem_ascii c (after_last c s) = false.
Proof.
  induction s as [|a s IH]; [done|]. cbn [after_last].
  destruct (mem_ascii c s) eqn:E; [done|].
  destruct (Ascii.eqb a c) eqn:Ea; [done|].
  cbn [mem_ascii]. by rewrite Ea, E.
Qed.

Lemma mem_ascii_before_first c (s : chars) :
  mem_ascii c (before_first c s) = false.
Proof.
  induction s as [|a s IH]; [done|]. cbn [before_first].
  destruct (Ascii.eqb a c) eqn:Ea; [done|].
  cbn [mem_ascii]. by rewrite Ea, IH.
Qed.

Lemma mem_ascii_before_first_sub c d (s : chars) :
  mem_ascii d s = false -> mem_ascii d (before_first c s) = false.
Proof.
  induction s as [|a s IH]; [done|]. cbn [before_first mem_ascii].
  intros [Ha Hs]%orb_false_iff.
  destruct (Ascii.eqb a c); [done|]. cbn [mem_ascii]. by rewrite Ha, IH.
Qed.

Section Download.

Variable http_get : string -> option (string * option string).
Variable urljoin : string -> string -> res string.
Variable url_basename : string -> res string.
Variable md5_hexdigest : string -> string.

Lemma fetch_image_spec (target : string) :
  (fetch_image http_get url_basename md5_hexdigest target = None <->
   http_get target = None \/ exists e, url_basename target = Raise e) /\
  forall bytes filename,
    fetch_image http_get url_basename md5_hexdigest target
    = Some (bytes, filename) ->
    filename <> "" /\
    (exists header, http_get target = Some (bytes, header)) /\
    (exists name, url_basename target = Ok name /\
       (name <> "" -> filename = name) /\
       (name = "" ->
        exists ext,
          filename = "image-" +:+ str (take 8 (chs (md5_hexdigest target)))
                     +:+ "." +:+ ext /\
          mem_ascii "/" (chs ext) = false /\
          mem_ascii ";" (chs ext) = false)).
Proof.
  unfold fetch_image.
  destruct (http_get target) as [[content header]|]; [|split; [|done]].
  2:{ split; [by left|done]. }
  destruct (url_basename target) as [name|e].
  2:{ split; [|done]. split; [right; by exists e|done]. }
  split.
  { split; [done|]. by intros [?|[e ?]]. }
  intros bytes filename [= <- <-].
  destruct (String.eqb_spec name "") as [He|Hne].
  - split; [done|]. split; [by eexists|]. exists name. split; [done|].
    split; [done|]. intros _.
    eexists. split; [done|]. rewrite !chs_str. split.
    + apply mem_ascii_before_first_sub, mem_ascii_after_last.
    + apply mem_ascii_before_first.
  - split; [done|]. split; [by eexists|]. exists name. by repeat split.
Qed.

(** X14: [download_image] joins a relative URL to the base URL before
    anything else, and what [urljoin] raises leaves the function.
    Otherwise it fetches the joined URL, or the URL as it is when it is not
    relative, and it returns [None] exactly when the fetch fails or
    [urlparse] raises on that URL.  The file name it returns is never
    empty: the last part of the path of the URL, or, when that is empty,
    [image-], eight characters of the hash of the URL, a dot and the
    subtype of the content type, which holds neither [/] nor [;]. *)
Theorem download_image_filename (url base_url : string) :
  let joined := if starts_with (chs "/") (chs url) then urljoin base_url url
                else Ok url in
  match joined with
  | Raise e =>
      download_image http_get urljoin url_basename md5_hexdigest url base_url
      = Raise e
  | Ok target =>
      exists r,
        download_image http_get urljoin url_basename md5_hexdigest url
          base_url = Ok r /\
        (r = None <->
         http_get target = None \/ exists e, url_basename target = Raise e)
        /\
        forall bytes filename,
          r = Some (bytes, filename) ->
          filename <> "" /\
          (exists header, http_get target = Some (bytes, header)) /\
          (exists name, url_basename target = Ok name /\
             (name <> "" -> filename = name) /\
             (name = "" ->
              exists ext,
                filename
                = "image-" +:+ str (take 8 (chs (md5_hexdigest target)))
                  +:+ "." +:+ ext /\
                mem_ascii "/" (chs ext) = false /\
                mem_ascii ";" (chs ext) = false))
  end.
Proof.
  intros joined. subst joined. unfold download_image.
  destruct (starts_with (chs "/") (chs url)).
  - destruct (urljoin base_url url) as [target|e]; [|done].
    eexists. split; [done|]. apply fetch_image_spec.
  - eexists. split; [done|]. apply fetch_image_spec.
Qed.

End Download.

Lemma download_image_filename_witness :
  download_image test_http_get strict_urljoin test_basename test_md5
    "//[x/a.png" "https://example.com" = Raise ValueError /\
  exists r,
    download_image test_http_get strict_urljoin test_basename test_md5
      "/wp/" "https://example.com" = Ok r /\
    (r = None <->
     test_http_get "https://example.com/wp/" = None \/
     exists e, test_basename "https://example.com/wp/" = Raise e) /\
    forall bytes filename,
      r = Some (bytes, filename) ->
      filename <> "" /\
      (exists header,
         test_http_get "https://example.com/wp/" = Some (bytes, header)) /\
      (exists name,
         test_basename "https://example.com/wp/" = Ok name /\
         (name <> "" -> filename = name) /\
         (name = "" ->
          exists ext,
            filename
            = "image-"
              +:+ str (take 8 (chs (test_md5 "https://example.com/wp/")))
              +:+ "." +:+ ext /\
            mem_ascii "/" (chs ext) = false /\
            mem_ascii ";" (chs ext) = false)).
Proof.
  split.
  - exact (download_image_filename test_http_get strict_urljoin test_basename
             test_md5 "//[x/a.png" "https://example.com").
  - exact (download_image_filename test_http_get strict_urljoin test_basename
             test_md5 "/wp/" "https://example.com").
Defined.

(** ** Looking up a stored image *)

Lemma first_latest_none (l : list Image) : first_latest l = None <-> l = [].
Proof.
  split; [|by intros ->].
  destruct l as [|i l]; [done|]. cbn [first_latest].
  destruct (first_latest l); [by case_bool_decide|done].
Qed.

Lemma first_latest_some (l : list Image) (i : Image) :
  first_latest l = Some i ->
  i ∈ l /\ forall j, j ∈ l -> (uploaded_at j <= uploaded_at i)%Z.
Proof.
  revert i; induction l as [|x l IH]; intros i; [done|]. cbn [first_latest].
  destruct (first_latest l) as [m|] eqn:E.
  - destruct (IH m eq_refl) as [Hm Hmax].
    case_bool_decide as Hlt; intros [= <-].
    + split; [by right|]. intros j [->|Hj]%elem_of_cons; [lia|by apply Hmax].
    + split; [left|]. intros j [->|Hj]%elem_of_cons; [lia|].
      specialize (Hmax j Hj). lia.
  - apply first_latest_none in E as ->. intros [= <-].
    split; [left|]. by intros j ->%list_elem_of_singleton.
Qed.

Section Lookup.

Variable url_basename : string -> res string.

Lemma find_existing_image_sound (url : string) (db : DB) (i : Image) :
  find_existing_image url_basename url db = Ok (Some i) ->
  i ∈ images db /\
  exists name,
    url_basename url = Ok name /\
    (original_name i = name \/
     contains (lower <$> chs name) (lower <$> chs (image_file i)) = true).
Proof.
  unfold find_existing_image.
  destruct (url_basename url) as [name|e]; [|done].
  destruct (String.eqb_spec name "") as [He|Hne]; [done|].
  destruct (first_latest (filter (fun i => original_name i = name)
                            (images db))) as [j|] eqn:Ej.
  - apply first_latest_some in Ej as [[Hname Hin]%list_elem_of_filter _].
    intros [= <-]. split; [done|]. exists name. split; [done|by left].
  - intros [= [Hi _]%first_latest_some].
    apply list_elem_of_filter in Hi as [Hc Hi]. split; [done|].
    exists name. split; [done|by right].
Qed.

Lemma find_existing_image_named (url name : string) (db : DB) (i : Image) :
  url_basename url = Ok name -> name <> "" -> i ∈ images db ->
  original_name i = name ->
  exists j,
    find_existing_image url_basename url db = Ok (Some j) /\
    original_name j = name /\
    (uploaded_at i <= uploaded_at j)%Z.
Proof.
  intros Hb Hne Hi Hn. unfold find_existing_image. rewrite Hb.
  rewrite (proj2 (String.eqb_neq _ _) Hne).
  assert (i ∈ filter (fun i => original_name i = name) (images db)) as Hin
    by by apply list_elem_of_filter.
  destruct (first_latest _) as [j|] eqn:Ej.
  - apply first_latest_some in Ej as [[Hname _]%list_elem_of_filter Hmax].
    exists j. split; [done|]. split; [done|by apply Hmax].
  - apply first_latest_none in Ej. rewrite Ej in Hin.
    by apply elem_of_nil in Hin.
Qed.

(** X15: [find_existing_image] raises what [urlparse] raises on the URL,
    and finds nothing for a URL whose path has no last part.  An image it
    finds is a row of the store whose original name is that last part, or
    whose file path holds it in any case.  When a row has the last part as
    its original name, the image found is such a row, and one uploaded
    last among them. *)
Theorem find_existing_image_spec (url : string) (db : DB) :
  (forall e, url_basename url = Raise e ->
             find_existing_image url_basename url db = Raise e) /\
  (url_basename url = Ok "" ->
   find_existing_image url_basename url db = Ok None) /\
  (forall i,
     find_existing_image url_basename url db = Ok (Some i) ->
     i ∈ images db /\
     exists name,
       url_basename url = Ok name /\
       (original_name i = name \/
        contains (lower <$> chs name) (lower <$> chs (image_file i))
        = true)) /\
  (forall i name,
     url_basename url = Ok name -> name <> "" -> i ∈ images db ->
     original_name i = name ->
     exists j,
       find_existing_image url_basename url db = Ok (Some j) /\
       original_name j = name /\
       (uploaded_at i <= uploaded_at j)%Z).
Proof.
  split; [|split; [|split]].
  - unfold find_existing_image. by intros e ->.
  - unfold find_existing_image. by intros ->.
  - apply find_existing_image_sound.
  - intros i name. apply find_existing_image_named.
Qed.

End Lookup.

(** ** Downloading the images of a post *)

Section Downloads.

Variable set_iter : list string -> list string.
Variable http_get : string -> option (string * option string).
Variable urljoin : string -> string -> res string.
Variable url_basename : string -> res string.
Variable md5_hexdigest : string -> string.
Variable storage_save : list string -> Z -> string -> res string.
Variable storage_url : string -> string.
Variable pil_size : string -> option (nat * nat).
Variable slugify : string -> string.
Variable render_markdown : string -> string.

(** The loop of [process_post_images] over the URLs. *)
Definition download_loop (now : Z) (post : Post) (base_url : string)
  : string * nat -> string -> M (string * nat) :=
  fun '(new_content, downloaded) url =>
  match download_image http_get urljoin url_basename md5_hexdigest url
          base_url with
  | Raise e => raise e
  | Ok None => mret (new_content, downloaded)
  | Ok (Some (image_bytes, filename)) =>
      image ← save_image storage_save pil_size now image_bytes filename
                ("Image from " +:+ post_title post);
      let new_url := storage_url (image_file image) in
      mret (str (replace (chs url) (chs new_url) (chs new_content)),
            S downloaded)
  end.

Lemma process_post_images_unfold now post domain base_url :
  process_post_images set_iter http_get urljoin url_basename md5_hexdigest
    storage_save storage_url pil_size slugify render_markdown now post domain
    base_url
  = ('(new_content, downloaded) ←
       foldM (download_loop now post base_url)
         (extract_image_urls set_iter (content_md post) domain)
         (content_md post, 0);
     _ ← (if bool_decide (new_content <> content_md post)
          then save_post slugify render_markdown now
                 {| post_pk := post_pk post; post_title := post_title post;
                    post_slug := post_slug post; content_md := new_content;
                    content_html := content_html post;
                    post_excerpt := post_excerpt post;
                    post_status := post_status post;
                    post_author := post_author post;
                    featured_image := featured_image post;
                    published_at := published_at post;
                    post_created_at := post_created_at post;
                    post_updated_at := post_updated_at post;
                    wp_post_id := wp_post_id post |}
          else mret ());
     mret downloaded).
Proof. reflexivity. Qed.

(** The loop adds one image for each URL that is fetched and stored,
    after the images that were there, and writes no other table; it stops
    at the first URL where [urljoin] or the storage raises. *)
Lemma download_loop_run now post base_url (l : list string) acc db :
  exists new r,
    foldM (download_loop now post base_url) l acc db
    = (with_images db (images db ++ new), r) /\
    length new <= length l /\
    forall out, r = Ok out ->
      out.2 = acc.2 + length new /\ (new = [] -> out.1 = acc.1).
Proof.
  revert acc db; induction l as [|url l IH]; intros [content d] db.
  - exists [], (Ok (content, d)). simpl. rewrite app_nil_r.
    split; [by destruct db|]. split; [done|].
    intros out [= <-]. simpl. split; [lia|done].
  - cbn [foldM]. unfold mbind at 1, M_bind at 1.
    unfold download_loop at 1.
    destruct (download_image _ _ _ _ url base_url) as [[[bytes name]|]|e].
    + unfold mbind at 1, M_bind at 1, save_image at 1.
      destruct (storage_save _ now name) as [file|e].
      * cbn [mret M_ret].
        match goal with
        | |- context [foldM _ l ?a ?d] =>
            destruct (IH a d) as (new & r & Hrun & Hlen & Hr)
        end.
        rewrite Hrun. cbn [images with_images snd].
        eexists (_ :: new), r. split; [|split].
        -- by rewrite <- app_assoc.
        -- simpl. lia.
        -- intros out [Hn _]%Hr. cbn [snd] in Hn. split; [|done].
           cbn [snd length]. lia.
      * exists [], (Raise e). rewrite app_nil_r.
        split; [by destruct db|]. split; [simpl; lia|done].
    + cbn [mret M_ret].
      destruct (IH (content, d) db) as (new & r & Hrun & Hlen & Hr).
      exists new, r. split; [done|]. split; [simpl; lia|done].
    + exists [], (Raise e). rewrite app_nil_r.
      split; [by destruct db|]. split; [simpl; lia|done].
Qed.

Lemma save_post_cases now post db :
  match save_post slugify render_markdown now post db with
  | (db', Ok _) =>
      exists l, db' = with_posts db l /\
        Forall2 (fun p p' => post_pk p' = post_pk p /\
                             (post_pk p <> post_pk post -> p' = p))
          (posts db) l
  | (db', Raise _) => db' = db
  end.
Proof.
  unfold save_post. case_bool_decide; [done|].
  eexists. split; [done|].
  apply Forall2_fmap_r, Forall_Forall2_diag, Forall_forall.
  intros p _. unfold compose. case_bool_decide; by split.
Qed.

Lemma process_post_images_run now post domain base_url db :
  exists new l r,
    process_post_images set_iter http_get urljoin url_basename
      md5_hexdigest storage_save storage_url pil_size slugify
      render_markdown now post domain base_url db
    = (with_posts (with_images db (images db ++ new)) l, r) /\
    Forall2 (fun p p' => post_pk p' = post_pk p /\
                         (post_pk p <> post_pk post -> p' = p))
      (posts db) l /\
    forall n, r = Ok n ->
      n = length new /\
      n <= length (extract_image_urls set_iter (content_md post) domain).
Proof.
  rewrite process_post_images_unfold.
  unfold mbind at 1, M_bind at 1.
  destruct (download_loop_run now post base_url
              (extract_image_urls set_iter (content_md post) domain)
              (content_md post, 0) db)
    as (new & r & -> & Hlen & Hr).
  assert (Forall2 (fun p p' => post_pk p' = post_pk p /\
                               (post_pk p <> post_pk post -> p' = p))
            (posts db) (posts db)) as Hsame.
  { apply Forall_Forall2_diag, Forall_forall. by intros p _. }
  destruct r as [[content n]|e].
  2:{ exists new, (posts db), (Raise e).
      split; [by destruct db|]. split; [exact Hsame|done]. }
  destruct (Hr _ eq_refl) as [Hn _]. cbn [fst snd] in Hn. subst n.
  cbn [fst snd]. unfold mbind at 1, M_bind at 1.
  set (db1 := with_images db (images db ++ new)).
  case_bool_decide.
  - match goal with
    | |- context [save_post _ _ _ ?p db1] =>
        pose proof (save_post_cases now p db1) as Hs;
        destruct (save_post slugify render_markdown now p db1)
          as [db2 [[]|e]]
    end.
    + destruct Hs as (l & -> & Hl).
      exists new, l, (Ok (length new)). split; [done|]. split; [exact Hl|].
      by intros n [= <-].
    + subst db2. exists new, (posts db), (Raise e).
      split; [by destruct db|]. split; [exact Hsame|done].
  - exists new, (posts db), (Ok (length new)).
    split; [by destruct db|]. split; [exact Hsame|]. by intros n [= <-].
Qed.

(** X16: what [process_post_images] does to the store.  It adds images
    after those that were there and writes no other table but the posts,
    where only the row of the post can change; no row is added or
    removed.  When it ends, the number it returns is the number of images
    added, which is at most the number of URLs found in the post. *)
Theorem process_post_images_effects now post domain base_url db :
  let run :=
    process_post_images set_iter http_get urljoin url_basename
      md5_hexdigest storage_save storage_url pil_size slugify
      render_markdown now post domain base_url db in
  users run.1 = users db /\ tags run.1 = tags db /\
  post_tags run.1 = post_tags db /\ comments run.1 = comments db /\
  images db `prefix_of` images run.1 /\
  Forall2 (fun p p' => post_pk p' = post_pk p /\
                       (post_pk p <> post_pk post -> p' = p))
    (posts db) (posts run.1) /\
  forall n, run.2 = Ok n ->
    length (images run.1) = length (images db) + n /\
    n <= length (extract_image_urls set_iter (content_md post) domain).
Proof.
  destruct (process_post_images_run now post domain base_url db)
    as (new & l & r & -> & Hl & Hn).
  cbn. do 4 (split; [done|]). split; [by apply prefix_app_r|].
  split; [done|]. intros n [-> Hle]%Hn. by rewrite length_app.
Qed.

(** With no image fetched, the loop leaves the store as it is, and it
    stops with the first relative URL that [urljoin] refuses. *)
Lemma download_loop_offline now post base_url (l : list string) acc db :
  (forall url, http_get url = None) ->
  exists r,
    foldM (download_loop now post base_url) l acc db = (db, r) /\
    (forall out, r = Ok out -> out = acc) /\
    ((forall url, url ∈ l -> starts_with (chs "/") (chs url) = true ->
        exists target, urljoin base_url url = Ok target) ->
     r = Ok acc) /\
    (forall url e, url ∈ l -> starts_with (chs "/") (chs url) = true ->
       urljoin base_url url = Raise e ->
       exists url' e', r = Raise e' /\ url' ∈ l /\
         starts_with (chs "/") (chs url') = true /\
         urljoin base_url url' = Raise e').
Proof.
  intros Hoff. revert acc db; induction l as [|url l IH]; intros [content n] db.
  - exists (Ok (content, n)). split; [done|]. split; [by intros ? [= <-]|].
    split; [done|]. by intros url e ?%elem_of_nil.
  - cbn [foldM]. unfold mbind at 1, M_bind at 1.
    unfold download_loop at 1, download_image, fetch_image.
    destruct (starts_with (chs "/") (chs url)) eqn:Hrel.
    + destruct (urljoin base_url url) as [target|e] eqn:Hjoin.
      * rewrite Hoff. cbn [mret M_ret].
        destruct (IH (content, n) db) as (r & Hrun & Hout & Hok & Hraise).
        exists r. split; [done|]. split; [done|]. split.
        -- intros Hall. apply Hok. intros u Hu. apply Hall. by right.
        -- intros u e [->|Hu]%elem_of_cons Hs Hj; [congruence|].
           destruct (Hraise u e Hu Hs Hj) as (u' & e' & -> & Hu' & Hs' & Hj').
           exists u', e'. split; [done|]. split; [by right|done].
      * exists (Raise e). split; [done|]. split; [done|]. split.
        -- intros Hall. destruct (Hall url) as [t Ht]; [by left|done|].
           congruence.
        -- intros _ _ _ _ _. exists url, e. split; [done|].
           split; [by left|done].
    + rewrite Hoff. cbn [mret M_ret].
      destruct (IH (content, n) db) as (r & Hrun & Hout & Hok & Hraise).
      exists r. split; [done|]. split; [done|]. split.
      * intros Hall. apply Hok. intros u Hu. apply Hall. by right.
      * intros u e [->|Hu]%elem_of_cons Hs Hj; [congruence|].
        destruct (Hraise u e Hu Hs Hj) as (u' & e' & -> & Hu' & Hs' & Hj').
        exists u', e'. split; [done|]. split; [by right|done].
Qed.

(** X17: when no image can be fetched, [process_post_images] leaves the
    store as it is: no image is stored, and the post is not saved again.
    It returns 0 when [urljoin] joins every relative URL found in the post
    to the base URL; when it refuses one of them, the function raises what
    [urljoin] raises on a relative URL of the post. *)
Theorem process_post_images_offline now post domain base_url db :
  (forall url, http_get url = None) ->
  let run :=
    process_post_images set_iter http_get urljoin url_basename
      md5_hexdigest storage_save storage_url pil_size slugify
      render_markdown now post domain base_url db in
  let relative :=
    filter (fun url => starts_with (chs "/") (chs url) = true)
      (extract_image_urls set_iter (content_md post) domain) in
  run.1 = db /\
  ((forall url, url ∈ relative ->
      exists target, urljoin base_url url = Ok target) ->
   run.2 = Ok 0) /\
  (forall url e, url ∈ relative -> urljoin base_url url = Raise e ->
     exists url' e', run.2 = Raise e' /\ url' ∈ relative /\
       urljoin base_url url' = Raise e').
Proof.
  intros Hoff run relative. subst run relative.
  rewrite process_post_images_unfold.
  destruct (download_loop_offline now post base_url
              (extract_image_urls set_iter (content_md post) domain)
              (content_md post, 0) db Hoff)
    as (r & Hrun & Hout & Hok & Hraise).
  assert (forall k : string * nat -> M nat,
            (foldM (download_loop now post base_url)
               (extract_image_urls set_iter (content_md post) domain)
               (content_md post, 0) ≫= k) db
            = match r with
              | Ok out => k out db
              | Raise e => (db, Raise e)
              end) as Hbind.
  { intros k. unfold mbind at 1, M_bind at 1. rewrite Hrun. by destruct r. }
  rewrite Hbind. clear Hbind Hrun.
  assert (forall out, r = Ok out ->
                      r = Ok (content_md post, 0)) as Hout'.
  { intros out Hr. by rewrite Hr, (Hout _ Hr). }
  split; [|split].
  - destruct r as [out|e]; [|done].
    specialize (Hout' _ eq_refl) as [= ->].
    cbn [fst snd]. unfold mbind at 1, M_bind at 1.
    by rewrite bool_decide_eq_false_2 by (by intros []).
  - intros Hall.
    rewrite Hok.
    + cbn [fst snd]. unfold mbind at 1, M_bind at 1.
      by rewrite bool_decide_eq_false_2 by (by intros []).
    + intros url Hu Hs. apply Hall. by apply list_elem_of_filter.
  - intros url e [Hs Hu]%list_elem_of_filter Hj.
    destruct (Hraise url e Hu Hs Hj) as (u' & e' & -> & Hu' & Hs' & Hj').
    exists u', e'. split; [done|]. split; [by apply list_elem_of_filter|done].
Qed.

End Downloads.

Lemma process_post_images_offline_witness :
  (forall url, no_http url = None) /\
  let run :=
    process_post_images (fun l => l) no_http strict_urljoin test_basename
      test_md5 test_storage_save test_storage_url test_pil_size
      (fun s => s) (fun s => s) 0%Z bracket_post "example.com"
      "https://example.com" media_db in
  let relative :=
    filter (fun url => starts_with (chs "/") (chs url) = true)
      (extract_image_urls (fun l => l) (content_md bracket_post)
         "example.com") in
  run.1 = media_db /\
  ((forall url, url ∈ relative ->
      exists target, strict_urljoin "https://example.com" url = Ok target) ->
   run.2 = Ok 0) /\
  (forall url e, url ∈ relative ->
     strict_urljoin "https://example.com" url = Raise e ->
     exists url' e', run.2 = Raise e' /\ url' ∈ relative /\
       strict_urljoin "https://example.com" url' = Raise e').
Proof.
  split; [done|].
  exact (process_post_images_offline (fun l => l) no_http strict_urljoin
           test_basename test_md5 test_storage_save test_storage_url
           test_pil_size (fun s => s) (fun s => s) 0%Z bracket_post
           "example.com" "https://example.com" media_db (fun _ => eq_refl)).
Defined.

(** The post with the image [//[x/a.png]: the function raises, and the
    store is as it was. *)
Example process_post_images_bracket :
  process_post_images (fun l => l) no_http strict_urljoin test_basename
    test_md5 test_storage_save test_storage_url test_pil_size
    (fun s => s) (fun s => s) 0%Z bracket_post "example.com"
    "https://example.com" media_db
  = (media_db, Raise ValueError).
Proof. by vm_compute. Qed.

(** ** The slug that [Post.save] makes *)

From Stdlib Require Import DecimalNat.

Lemma decimal_inj (m n : nat) : decimal m = decimal n -> m = n.
Proof.
  unfold decimal. intros H.
  assert (Nat.to_uint m = Nat.to_uint n) as Hu.
  { apply (f_equal NilEmpty.uint_of_string) in H.
    rewrite !NilEmpty.usu in H. congruence. }
  apply (f_equal Nat.of_uint) in Hu.
  by rewrite !Unsigned.of_to in Hu.
Qed.

Lemma append_inj_r (a x y : string) : a +:+ x = a +:+ y -> x = y.
Proof. induction a as [|c a IH]; simpl; [done|]. intros [= H]. by apply IH. Qed.

Lemma append_length (a b : string) :
  String.length (a +:+ b) = String.length a + String.length b.
Proof. induction a as [|c a IH]; simpl; [done|]. by rewrite IH. Qed.

(** The slugs the loop tries, in order: [slug], then [base-counter],
    [base-(counter+1)], ... *)
Fixpoint candidates (base slug : string) (counter fuel : nat) : list string :=
  match fuel with
  | O => []
  | S fuel' =>
      slug :: candidates base (base +:+ "-" +:+ decimal counter) (S counter)
                fuel'
  end.

Lemma candidates_length base slug counter fuel :
  length (candidates base slug counter fuel) = fuel.
Proof.
  revert slug counter; induction fuel as [|fuel IH]; intros slug counter;
    simpl; [done|]. by rewrite IH.
Qed.

Lemma candidates_tail base k fuel :
  candidates base (base +:+ "-" +:+ decimal k) (S k) fuel
  = (fun j => base +:+ "-" +:+ decimal j) <$> seq k fuel.
Proof.
  revert k; induction fuel as [|fuel IH]; intros k; simpl; [done|].
  by rewrite IH.
Qed.

Lemma candidates_NoDup base fuel : NoDup (candidates base base 1 fuel).
Proof.
  destruct fuel as [|fuel]; [apply NoDup_nil_2|]. cbn [candidates].
  rewrite candidates_tail. apply NoDup_cons. split.
  - intros (j & Hj & _)%list_elem_of_fmap.
    apply (f_equal String.length) in Hj.
    rewrite !append_length in Hj. simpl in Hj. lia.
  - apply NoDup_fmap_2_strong; [|apply NoDup_seq].
    intros x y _ _ H. by apply append_inj_r, append_inj_r, decimal_inj in H.
Qed.

(** The loop returns the first slug it tries that is free; when none of
    them is free it returns the next one, which it has not tried. *)
Lemma unique_slug_first taken base slug counter fuel :
  (exists c, c ∈ candidates base slug counter fuel /\ c ∉ taken) ->
  (unique_slug taken base slug counter fuel ∉ taken) /\
  unique_slug taken base slug counter fuel
    ∈ candidates base slug counter fuel.
Proof.
  revert slug counter; induction fuel as [|fuel IH]; intros slug counter.
  - intros (c & Hc & _). by apply elem_of_nil in Hc.
  - intros (c & Hc & Hn). cbn [unique_slug candidates].
    case_bool_decide as Hs; [|split; [done|left]].
    apply elem_of_cons in Hc as [->|Hc]; [done|].
    destruct (IH _ _ (ex_intro _ c (conj Hc Hn))) as [H1 H2].
    split; [done|by right].
Qed.

Lemma candidates_free taken base :
  exists c, c ∈ candidates base base 1 (S (length taken)) /\ c ∉ taken.
Proof.
  destruct (decide (Forall (fun c => c ∈ taken)
                      (candidates base base 1 (S (length taken)))))
    as [Hall|Hex].
  - rewrite Forall_forall in Hall.
    pose proof (submseteq_length _ _
                  (NoDup_submseteq _ _ (candidates_NoDup base _) Hall)) as H.
    rewrite candidates_length in H. lia.
  - apply not_Forall_Exists in Hex; [|apply _].
    apply Exists_exists in Hex as (c & Hc & Hn). eauto.
Qed.

Section Slug.

Variable slugify : string -> string.

(** X18: the slug that [Post.save] gives a post without slug is the slug
    of the title, or the slug of the title with a suffix [-k] for a [k]
    from 1 to the number of other posts, and no other post has it: the
    loop that looks for a free slug ends within that many turns.  When no
    other post has the slug of the title, it is the slug of the title. *)
Theorem save_slug_fresh (others : list Post) (title : string) :
  let slug := save_slug slugify others "" title in
  (slug ∉ post_slug <$> others) /\
  (slug = slugify title \/
   exists k, 1 <= k <= length others /\
             slug = slugify title +:+ "-" +:+ decimal k) /\
  (slugify title ∉ post_slug <$> others -> slug = slugify title).
Proof.
  cbv zeta. unfold save_slug. cbn [String.eqb].
  set (taken := post_slug <$> others). set (base := slugify title).
  assert (length others = length taken) as ->
    by (subst taken; by rewrite length_fmap).
  destruct (unique_slug_first taken base base 1 (S (length taken))
              (candidates_free taken base)) as [Hfree Hin].
  split; [done|]. split.
  - cbn [candidates] in Hin. rewrite candidates_tail in Hin.
    apply elem_of_cons in Hin as [Hin|Hin]; [by left|]. right.
    apply list_elem_of_fmap in Hin as (k & Hk & Hseq).
    apply elem_of_seq in Hseq. exists k. split; [lia|done].
  - intros Hbase. cbn [unique_slug]. by rewrite bool_decide_eq_false_2.
Qed.

End Slug.

(** ** The order in which the comments are imported *)

Lemma filter_id_insert_by_id (id : Z) c l :
  StronglySorted id_le l ->
  filter (fun x => c_id x = id) (insert_by_id c l)
  = filter (fun x => c_id x = id) l ++ filter (fun x => c_id x = id) [c].
Proof.
  induction l as [|d l IH]; intros Hl; [by rewrite app_nil_l|].
  apply StronglySorted_cons in Hl as [Hd Hl]. cbn [insert_by_id].
  case_bool_decide as Hle.
  - rewrite !(filter_cons _ d), IH by done. by destruct (decide (c_id d = id)).
  - rewrite (filter_cons _ c), (filter_cons _ c [])%list, filter_nil.
    destruct (decide (c_id c = id)) as [Hc|Hc]; [|by rewrite app_nil_r].
    rewrite (filter_none _ (d :: l)); [done|].
    rewrite Forall_forall in Hd.
    intros x [->|Hx]%elem_of_cons; [lia|].
    specialize (Hd x Hx). unfold id_le in Hd. lia.
Qed.

Lemma filter_id_foldl_insert (id : Z) (l acc : list wp_comment) :
  StronglySorted id_le acc ->
  filter (fun x => c_id x = id)
    (foldl (fun acc c => insert_by_id c acc) acc l)
  = filter (fun x => c_id x = id) acc ++ filter (fun x => c_id x = id) l.
Proof.
  revert acc; induction l as [|c l IH]; intros acc Hacc; simpl.
  - by rewrite filter_nil, app_nil_r.
  - rewrite IH by by apply insert_by_id_sorted.
    rewrite filter_id_insert_by_id by done.
    by rewrite <- app_assoc, <- filter_app.
Qed.

(** X19: the comments of a post are imported in the order
    [sorted(comments, key=id)]: every comment once, in ascending order of
    the identifier, and the comments with the same identifier in the
    order of the export. *)
Theorem sorted_by_id_spec (l : list wp_comment) :
  sorted_by_id l ≡ₚ l /\
  StronglySorted (fun a b => (c_id a <= c_id b)%Z) (sorted_by_id l) /\
  forall id,
    filter (fun c => c_id c = id) (sorted_by_id l)
    = filter (fun c => c_id c = id) l.
Proof.
  split; [apply sorted_by_id_perm|]. split; [apply sorted_by_id_sorted|].
  intros id. unfold sorted_by_id.
  rewrite filter_id_foldl_insert by constructor. by rewrite filter_nil.
Qed.

(** ** The thumbnail of a post *)

(** The list [whitespace] is the class [\s]. *)
Lemma whitespace_is_space (c : ascii) : mem_ascii c whitespace = is_space c.
Proof. by destruct c as [[] [] [] [] [] [] [] []]. Qed.

Lemma match_uploads_prefix tail k (s : chars) r :
  match_uploads tail k s = Some r -> starts_with (chs "/uploads/") s = true.
Proof.
  unfold match_uploads, uploads_re. intros H.
  destruct (rmatch (cat [lit "/uploads/images/"; _]) s [] k) as [r'|] eqn:E.
  - cbn [cat rmatch lit] in E.
    destruct (starts_with (chs "/uploads/images/") s) eqn:Es; [|done].
    apply starts_with_spec in Es as [t ->]. done.
  - cbn [cat rmatch lit] in H.
    by destruct (starts_with (chs "/uploads/") s).
Qed.

Lemma wp_uploads_not_local (t : string) :
  wp_uploads +:+ t <> "" /\
  starts_with (chs "/uploads/") (chs (wp_uploads +:+ t)) = false.
Proof. done. Qed.

Lemma starts_with_http_not_local (s : chars) :
  starts_with (chs "http") s = true ->
  starts_with (chs "/uploads/") s = false.
Proof. intros [t ->]%starts_with_spec. done. Qed.

Lemma to_wordpress_url_some (url u : string) :
  to_wordpress_url url = Some u ->
  u <> "" /\ starts_with (chs "/uploads/") (chs u) = false.
Proof.
  unfold to_wordpress_url.
  destruct (String.eqb_spec url "") as [|Hne]; [done|].
  destruct (starts_with (chs "http") (chs url)) eqn:Eh.
  - apply starts_with_http_not_local in Eh.
    destruct (contains _ _); [|by intros [= <-]].
    destruct (search_uploads _); intros [= <-]; [|done].
    apply wp_uploads_not_local.
  - destruct (match_uploads _ _ _) as [[rest g]|].
    + intros [= <-]. apply wp_uploads_not_local.
    + destruct (starts_with (chs "/uploads/") (chs url)) eqn:E; [done|].
      by intros [= <-].
Qed.

(** X20: the thumbnail of a post is never a local upload: the URL that
    [to_wordpress_url], and so [first_image_url], returns is not empty and
    does not start with [/uploads/].  [to_wordpress_url] returns no URL
    only for the empty URL and for a URL under [/uploads/]; a URL that
    starts neither with [http] nor with [/uploads/] is returned as it
    is. *)
Theorem first_image_url_not_local :
  (forall url u,
     to_wordpress_url url = Some u ->
     u <> "" /\ starts_with (chs "/uploads/") (chs u) = false) /\
  (forall post u,
     first_image_url post = Some u ->
     u <> "" /\ starts_with (chs "/uploads/") (chs u) = false) /\
  (forall url,
     to_wordpress_url url = None ->
     url = "" \/ starts_with (chs "/uploads/") (chs url) = true) /\
  (forall url,
     url <> "" -> starts_with (chs "http") (chs url) = false ->
     starts_with (chs "/uploads/") (chs url) = false ->
     to_wordpress_url url = Some url).
Proof.
  split; [apply to_wordpress_url_some|]. split; [|split].
  - intros post u. unfold first_image_url.
    destruct (search_group html_pattern 1 _); [apply to_wordpress_url_some|].
    destruct (search_group md_pattern 1 _); [apply to_wordpress_url_some|done].
  - intros url. unfold to_wordpress_url.
    destruct (String.eqb_spec url "") as [|Hne]; [by left|].
    destruct (starts_with (chs "http") (chs url)).
    + destruct (contains _ _); [|done]. by destruct (search_uploads _).
    + destruct (match_uploads _ _ _) as [[rest g]|] eqn:E.
      * apply match_uploads_prefix in E. by right.
      * destruct (starts_with (chs "/uploads/") (chs url)); [by right|done].
  - intros url Hne Hh Hu. unfold to_wordpress_url.
    rewrite (proj2 (String.eqb_neq _ _) Hne), Hh.
    destruct (match_uploads _ _ _) as [[rest g]|] eqn:E.
    + apply match_uploads_prefix in E. congruence.
    + by rewrite Hu.
Qed.

(** ** Local uploads become WordPress URLs *)

Lemma chs_app (a b : string) : chs (a +:+ b) = chs a ++ chs b.
Proof. induction a as [|c a IH]; simpl; [done|]. by rewrite IH. Qed.

Lemma str_app (a b : chars) : str (a ++ b) = str a +:+ str b.
Proof. induction a as [|c a IH]; simpl; [done|]. by rewrite IH. Qed.

Lemma starts_with_app (p s : chars) : starts_with p (p ++ s) = true.
Proof. apply starts_with_spec. by exists s. Qed.

(** A run of exactly [n] characters of the class is taken whole. *)
Lemma run_len_exact cs (w rest : chars) :
  Forall (fun c => cs_mem cs c = true) w ->
  run_len cs (Some (length w)) (w ++ rest) = length w.
Proof.
  induction w as [|c w IH]; intros Hw; [by destruct rest|].
  apply Forall_cons in Hw as [Hc Hw]. cbn [length app run_len fmap option_fmap
    option_map pred]. rewrite Hc. f_equal. by apply IH.
Qed.

Lemma run_len_all cs (w : chars) :
  Forall (fun c => cs_mem cs c = true) w -> run_len cs None w = length w.
Proof.
  induction w as [|c w IH]; intros Hw; [done|].
  apply Forall_cons in Hw as [Hc Hw]. cbn [length run_len fmap option_fmap
    option_map]. rewrite Hc. f_equal. by apply IH.
Qed.

Lemma rep_greedy_first k (s : chars) g lo j r :
  k (drop (lo + j) s) g = Some r -> rep_greedy k s g lo j = Some r.
Proof. intros H. destruct j; simpl; by rewrite H. Qed.

Lemma rmatch_digits n (w rest : chars) g k :
  Forall (fun c => cs_mem digit c = true) w -> length w = n ->
  rmatch (digits n) (w ++ rest) g k = k rest g.
Proof.
  intros Hw <-. unfold digits. cbn [rmatch].
  rewrite run_len_exact by done. rewrite Nat.ltb_irrefl, Nat.sub_diag.
  cbn [rep_greedy]. rewrite Nat.add_0_r, drop_app_length.
  by destruct (k rest g).
Qed.

(** The dated part [YYYY/MM/file] of an upload. *)
Definition dated (y m file : chars) : chars :=
  y ++ chs "/" ++ m ++ chs "/" ++ file.

Lemma rmatch_dated (y m file : chars) g :
  Forall (fun c => cs_mem digit c = true) y -> length y = 4 ->
  Forall (fun c => cs_mem digit c = true) m -> length m = 2 ->
  file <> [] -> nl ∉ file ->
  rmatch (Grp 1 (cat [digits 4; lit "/"; digits 2; lit "/";
                      plus (NoneOf [nl])]))
    (dated y m file) g (fun s' g' => Some (s', g'))
  = Some ([], (1, dated y m file) :: g).
Proof.
  intros Hy Ly Hm Lm Hf Hnl. unfold dated. cbn [rmatch cat].
  rewrite rmatch_digits by done. cbn [rmatch lit chs list_ascii_of_string app
    starts_with length drop]. rewrite Ascii.eqb_refl, drop_0. cbn [andb].
  rewrite rmatch_digits by done. cbn [rmatch app starts_with length drop
    plus]. rewrite Ascii.eqb_refl, drop_0. cbn [andb].
  assert (Forall (fun c => cs_mem (NoneOf [nl]) c = true) file) as Hall.
  { apply Forall_forall. intros c Hc. cbn [cs_mem mem_ascii].
    rewrite orb_false_r. apply negb_true_iff, Ascii.eqb_neq.
    intros <-. done. }
  rewrite run_len_all by done.
  destruct file as [|c file]; [done|]. cbn [length Nat.ltb Nat.leb].
  erewrite rep_greedy_first; [done|].
  replace (1 + (S (length file) - 1)) with (length (c :: file))
    by (simpl; lia).
  rewrite drop_all. cbn [length]. by rewrite Nat.sub_0_r, firstn_all.
Qed.

Lemma rmatch_cat_lit (l : chars) (r : regex) (s : chars) g k :
  rmatch (Cat (Lit l) r) (l ++ s) g k = rmatch r s g k.
Proof. cbn [rmatch]. by rewrite starts_with_app, drop_app_length. Qed.

Lemma rmatch_cat_lit_none (l : chars) (r : regex) (s : chars) g k :
  starts_with l s = false -> rmatch (Cat (Lit l) r) s g k = None.
Proof. intros H. cbn [rmatch]. by rewrite H. Qed.

Lemma uploads_re_cat images tail :
  uploads_re images tail
  = Cat (Lit (chs (if images then "/uploads/images/" else "/uploads/")))
      (Grp 1 (cat [digits 4; lit "/"; digits 2; lit "/"; tail])).
Proof. done. Qed.

(** X21: a local upload [/uploads/YYYY/MM/file], with or without [images/]
    after [/uploads/], becomes the URL of the same file under the uploads
    of the WordPress site.  [YYYY] and [MM] are four and two digits,
    [file] is not empty and holds no newline. *)
Theorem to_wordpress_url_local (images : bool) (y m file : chars) :
  Forall (fun c => cs_mem digit c = true) y -> length y = 4 ->
  Forall (fun c => cs_mem digit c = true) m -> length m = 2 ->
  file <> [] -> nl ∉ file ->
  to_wordpress_url
    (str (chs (if images then "/uploads/images/" else "/uploads/")
          ++ dated y m file))
  = Some (wp_uploads +:+ str (dated y m file)).
Proof.
  intros Hy Ly Hm Lm Hf Hnl. unfold to_wordpress_url.
  assert (exists c y', y = c :: y' /\ cs_mem digit c = true)
    as (c & y' & -> & Hc).
  { destruct y as [|c y']; [done|]. apply Forall_cons in Hy as [Hc _]. eauto. }
  assert (str (chs (if images then "/uploads/images/" else "/uploads/")
               ++ dated (c :: y') m file) <> "") as He.
  { intros He. apply (f_equal chs) in He. rewrite chs_str in He.
    by destruct images. }
  rewrite (proj2 (String.eqb_neq _ _) He), chs_str.
  assert (starts_with (chs "http")
            (chs (if images then "/uploads/images/" else "/uploads/")
             ++ dated (c :: y') m file) = false) as -> by by destruct images.
  unfold match_uploads. rewrite !uploads_re_cat.
  destruct images.
  - by rewrite rmatch_cat_lit, rmatch_dated.
  - rewrite rmatch_cat_lit_none.
    + by rewrite rmatch_cat_lit, rmatch_dated.
    + destruct (starts_with _ _) eqn:E; [|done].
      apply starts_with_spec in E as [t Ht].
      apply (f_equal (fun l => l !! 9)) in Ht. simpl in Ht.
      injection Ht as ->. by vm_compute in Hc.
Qed.

Lemma to_wordpress_url_local_witness :
  to_wordpress_url "/uploads/images/2024/01/a.png"
  = Some "https://chrisblanduk.wordpress.com/wp-content/uploads/2024/01/a.png".
Proof.
  apply (to_wordpress_url_local true (chs "2024") (chs "01") (chs "a.png"));
    try done.
  - by repeat constructor.
  - by repeat constructor.
  - apply (bool_decide_unpack _). by vm_compute.
Defined.

(** ** Publishing *)

Section Publishing.

Variable slugify : string -> string.
Variable render_markdown : string -> string.

(** X22: [Post.save] dates what it publishes.  After a save of a post at
    the time [now], the row of the post is published ([is_published]) at
    the time [t] exactly when its status is PUBLISHED and its date, or
    [now] when it had none, is not after [t]. *)
Theorem save_post_is_published now post db db' p' t :
  save_post slugify render_markdown now post db = (db', Ok ()) ->
  p' ∈ posts db' -> post_pk p' = post_pk post ->
  is_published t p'
  = match post_status post with
    | PUBLISHED => bool_decide (default now (published_at post) <= t)%Z
    | _ => false
    end.
Proof.
  unfold save_post. case_bool_decide; [done|]. intros [= <-]. simpl.
  intros (p & -> & Hp)%list_elem_of_fmap.
  case_bool_decide as Hpk; [|done]. intros _.
  unfold is_published. simpl.
  destruct (post_status post), (published_at post); done.
Qed.

End Publishing.

Lemma save_post_is_published_witness :
  let db := with_posts empty_db [dateless_post] in
  let run := save_post (fun s => s) (fun s => s) 5%Z dateless_post db in
  run = (run.1, Ok ()) /\
  Forall (fun p' => is_published 7%Z p' = true) (posts run.1).
Proof.
  intros db run. split; [reflexivity|].
  apply Forall_forall. intros p' Hp'.
  rewrite (save_post_is_published (fun s => s) (fun s => s) 5%Z dateless_post
             db run.1 p' 7%Z eq_refl Hp').
  - reflexivity.
  - apply list_elem_of_singleton in Hp'. by subst p'.
Defined.

(** ** A display name of whitespace *)

Lemma split_ws_blank (s : chars) :
  Forall (fun c => is_space c = true) s -> split_ws s [] = [].
Proof.
  induction s as [|c s IH]; [done|]. intros [Hc Hs]%Forall_cons.
  cbn [split_ws]. rewrite Hc. by apply IH.
Qed.

Section BlankAuthor.

Variable slugify : string -> string.
Variable render_markdown : string -> string.

(** X23: an author whose display name is not empty and made of whitespace
    alone stops the import with IndexError: the first word of the name is
    taken from an empty list of words.  The import raises in its first
    loop, so no tag, no post and no comment of the export is imported. *)
Theorem import_data_blank_author now data default_author db a :
  a ∈ d_authors data ->
  a_display_name a <> "" ->
  Forall (fun c => is_space c = true) (chs (a_display_name a)) ->
  (forall authors d, import_author authors a d = (d, Raise IndexError)) /\
  let run := import_data slugify render_markdown now data default_author db in
  (exists e, run.2 = Raise e) /\
  tags run.1 = tags db /\ posts run.1 = posts db /\
  post_tags run.1 = post_tags db /\ comments run.1 = comments db.
Proof.
  intros Hin Hne Hblank.
  assert (forall authors d, import_author authors a d = (d, Raise IndexError))
    as Hraise.
  { intros authors d. unfold import_author, mbind, M_bind.
    rewrite (proj2 (String.eqb_neq _ _) Hne).
    unfold py_split. by rewrite split_ws_blank. }
  split; [done|].
  assert (forall l authors d,
            a ∈ l ->
            exists d' e,
              foldM import_author l authors d = (d', Raise e) /\
              tags d' = tags d /\ posts d' = posts d /\
              post_tags d' = post_tags d /\ comments d' = comments d)
    as Hloop.
  { induction l as [|x l IH]; intros authors d Hl;
      [by apply elem_of_nil in Hl|].
    cbn [foldM]. unfold mbind at 1, M_bind at 1.
    destruct (import_author authors x d) as [d1 [authors1|e]] eqn:Ex.
    - assert (tags d1 = tags d /\ posts d1 = posts d /\
              post_tags d1 = post_tags d /\ comments d1 = comments d)
        as (T1 & T2 & T3 & T4).
      { revert Ex. unfold import_author, mbind, M_bind.
        destruct (if String.eqb _ _ then _ else _) as [d0 [first|e0]] eqn:E0;
          [|done].
        assert (d0 = d) as ->.
        { destruct (String.eqb _ _); [by injection E0|].
          destruct (py_split _); by injection E0. }
        pose proof (get_or_create_user_cases (a_login x) (a_email x) first
                      (if String.eqb (a_display_name x) "" then ""
                       else join " " (tail (py_split (a_display_name x))))
                      false false d) as H.
        destruct (get_or_create_user _ _ _ _ _ _ d)
          as [d2 [[u created]|e2]]; [|done].
        intros [= <- _].
        by destruct H as [_ [(_ & -> & _) | (_ & -> & _)]]. }
      apply elem_of_cons in Hl as [->|Hl]; [by rewrite Hraise in Ex|].
      destruct (IH authors1 d1 Hl) as (d' & e & -> & U1 & U2 & U3 & U4).
      exists d', e. split; [done|]. repeat split; congruence.
    - exists d1, e. split; [done|].
      revert Ex. unfold import_author, mbind, M_bind.
      destruct (if String.eqb _ _ then _ else _) as [d0 [first|e0]] eqn:E0.
      + assert (d0 = d) as ->.
        { destruct (String.eqb _ _); [by injection E0|].
          destruct (py_split _); by injection E0. }
        pose proof (get_or_create_user_cases (a_login x) (a_email x) first
                      (if String.eqb (a_display_name x) "" then ""
                       else join " " (tail (py_split (a_display_name x))))
                      false false d) as H.
        destruct (get_or_create_user _ _ _ _ _ _ d)
          as [d2 [[u created]|e2]]; [done|].
        intros [= <- _]. by subst d2.
      + assert (d0 = d) as ->.
        { destruct (String.eqb _ _); [by injection E0|].
          destruct (py_split _); by injection E0. }
        by intros [= <- _]. }
  destruct (Hloop (d_authors data) ∅ db Hin)
    as (d' & e & Hrun & U1 & U2 & U3 & U4).
  assert (import_data slugify render_markdown now data default_author db
          = (d', Raise e)) as ->.
  { unfold import_data, mbind, M_bind. by rewrite Hrun. }
  simpl. split; [by exists e|done].
Qed.

End BlankAuthor.

Lemma import_data_blank_author_witness :
  let a := {| a_login := Some "chris"; a_email := "";
              a_display_name := "  " |} in
  let run := import_data (fun s => s) (fun s => s) 0%Z blank_author_data
               admin admin_db in
  run = (admin_db, Raise IndexError) /\
  (forall authors d, import_author authors a d = (d, Raise IndexError)) /\
  (exists e, run.2 = Raise e) /\
  tags run.1 = tags admin_db /\ posts run.1 = posts admin_db /\
  post_tags run.1 = post_tags admin_db /\
  comments run.1 = comments admin_db.
Proof.
  intros a run. split; [reflexivity|].
  apply (import_data_blank_author (fun s => s) (fun s => s) 0%Z
           blank_author_data admin admin_db a).
  - left.
  - done.
  - by repeat constructor.
Defined.

(** ** Featured images *)

(** [p'] is [p] but for its featured image. *)
Definition same_but_featured (p p' : Post) : Prop :=
  post_pk p' = post_pk p /\ post_title p' = post_title p /\
  post_slug p' = post_slug p /\ content_md p' = content_md p /\
  content_html p' = content_html p /\ post_excerpt p' = post_excerpt p /\
  post_status p' = post_status p /\ post_author p' = post_author p /\
  published_at p' = published_at p /\
  post_created_at p' = post_created_at p /\
  post_updated_at p' = post_updated_at p /\ wp_post_id p' = wp_post_id p.

Lemma set_featured_image_cases pk image db :
  exists l, set_featured_image pk image db = (with_posts db l, Ok ()) /\
    Forall2 (fun p p' =>
               same_but_featured p p' /\
               (post_pk p <> pk -> p' = p) /\
               (post_pk p = pk -> featured_image p' = Some image))
      (posts db) l.
Proof.
  eexists. split; [reflexivity|].
  apply Forall2_fmap_r, Forall_Forall2_diag, Forall_forall.
  intros p _. unfold compose. case_bool_decide; by repeat split.
Qed.

Section FeaturedFacts.

Variable http_get : string -> option (string * option string).
Variable url_basename : string -> res string.
Variable md5_hexdigest : string -> string.
Variable storage_save : list string -> Z -> string -> res string.
Variable pil_size : string -> option (nat * nat).
Variable base_dir : string.
Variable media_root : string.
Variable media_url : string.
Variable path_join : string -> string -> string.
Variable path_name : string -> string.
Variable path_exists : string -> res bool.
Variable read_bytes : string -> res string.

Local Abbreviation process_post :=
  (Featured.process_post http_get url_basename md5_hexdigest storage_save
     pil_size base_dir media_root media_url path_join path_name path_exists
     read_bytes).

(** The outcomes of [process_post]: nothing is done and it returns
    [False]; or nothing is done and it raises; or the featured image of
    the post is set to an image [i] of the store, which is one that was
    there or one new last row, and it returns [True]. *)
Lemma process_post_cases now post db :
  process_post now post db = (db, Ok false) \/
  (exists e, process_post now post db = (db, Raise e) /\
             featured_image post = None) \/
  exists new l i,
    process_post now post db
    = (with_posts (with_images db (images db ++ new)) l, Ok true) /\
    featured_image post = None /\
    length new <= 1 /\ (i ∈ images db ++ new) /\
    Forall2 (fun p p' =>
               same_but_featured p p' /\
               (post_pk p <> post_pk post -> p' = p) /\
               (post_pk p = post_pk post ->
                featured_image p' = Some (image_pk i)))
      (posts db) l.
Proof.
  destruct (process_post now post db) as [db' r] eqn:Hrun.
  revert Hrun. unfold Featured.process_post.
  destruct (featured_image post) as [f|]; [intros [= <- <-]; by left|].
  destruct (match extract_first_image_url (content_html post) with
            | Some url => Some url
            | None => extract_first_image_url (content_md post)
            end) as [url|]; [|intros [= <- <-]; by left].
  unfold mbind at 1, M_bind at 1.
  pose proof (find_existing_image_sound url_basename url db) as Hfound.
  destruct (find_existing_image url_basename url db) as [[i|]|e].
  - destruct (Hfound i eq_refl) as [Hi _].
    destruct (set_featured_image_cases (post_pk post) (image_pk i) db)
      as (l & Hset & Hl).
    unfold mbind, M_bind. rewrite Hset. intros [= <- <-].
    right. right. exists [], l, i. rewrite app_nil_r.
    split; [reflexivity|]. split; [done|]. split; [simpl; lia|]. by split.
  - destruct (Featured.download_image _ _ _ _ _ _ _ _ _ _ url)
      as [[[bytes name]|]|e]; [|intros [= <- <-]; by left|].
    + unfold mbind at 1, M_bind at 1, save_image at 1.
      destruct (storage_save _ now name) as [file|e].
      2:{ intros [= <- <-]. right. left. by exists e. }
      set (i := {| image_pk := fresh_pk (image_pk <$> images db);
                   image_file := file; original_name := name |}).
      set (db1 := with_images db (images db ++ [i])).
      destruct (set_featured_image_cases (post_pk post) (image_pk i) db1)
        as (l & Hset & Hl).
      unfold mbind, M_bind. rewrite Hset. intros [= <- <-].
      right. right. exists [i], l, i.
      split; [done|]. split; [done|]. split; [simpl; lia|].
      split; [|done]. apply elem_of_app. right. left.
    + intros [= <- <-]. right. left. by exists e.
  - intros [= <- <-]. right. left. by exists e.
Qed.

(** X24: what [process_post] does to the store.  There are three
    outcomes.  It returns [False] and does nothing, always so for a post
    that has a featured image.  Or it raises and does nothing: what
    [urlparse] raises on the URL of the image, what [exists] or
    [read_bytes] raise on a local path, what the storage raises.  Or it
    returns [True], and then the featured image of the post is an image
    of the store.  It stores at most one image, after those that were
    there; of the posts it writes the column [featured_image] of the row
    of the post and nothing else; the other tables stay as they are. *)
Theorem process_post_effects now post db :
  let run := process_post now post db in
  (featured_image post <> None -> run = (db, Ok false)) /\
  (run.2 = Ok false /\ run.1 = db \/
   (exists e, run.2 = Raise e) /\ run.1 = db \/
   run.2 = Ok true /\
   exists i, i ∈ images run.1 /\
     forall p', p' ∈ posts run.1 -> post_pk p' = post_pk post ->
                featured_image p' = Some (image_pk i)) /\
  users run.1 = users db /\ tags run.1 = tags db /\
  post_tags run.1 = post_tags db /\ comments run.1 = comments db /\
  images db `prefix_of` images run.1 /\
  length (images run.1) <= S (length (images db)) /\
  Forall2 (fun p p' => same_but_featured p p' /\
                       (post_pk p <> post_pk post -> p' = p))
    (posts db) (posts run.1).
Proof.
  cbv zeta.
  destruct (process_post_cases now post db)
    as [-> | [(e & -> & Hf) | (new & l & i & -> & Hf & Hlen & Hi & Hl)]].
  - simpl. split; [done|]. split; [by left|].
    do 4 (split; [done|]). split; [done|]. split; [lia|].
    apply Forall_Forall2_diag, Forall_forall. intros p _.
    by repeat split.
  - simpl. split; [by rewrite Hf|].
    split; [right; left; split; [by exists e|done]|].
    do 4 (split; [done|]). split; [done|]. split; [lia|].
    apply Forall_Forall2_diag, Forall_forall. intros p _.
    by repeat split.
  - simpl. split; [by rewrite Hf|]. split.
    + right. right. split; [done|]. exists i. split; [done|].
      intros p' Hp' Hpk. apply list_elem_of_lookup in Hp' as [n Hn].
      destruct (Forall2_lookup_r _ _ _ _ _ Hl Hn)
        as (p & _ & Hs & _ & Hfi).
      apply Hfi. destruct Hs as (Hpk' & _). congruence.
    + do 4 (split; [done|]). split; [by apply prefix_app_r|].
      split; [rewrite length_app; lia|].
      eapply Forall2_impl; [done|]. intros p p' (? & ? & ?). by split.
Qed.

(** X25: [process_post] stores an image once.  When the post has no
    featured image, [url] is the first image of its rendered content, the
    path of [url] has a last part, and an image of the store has that
    last part as its original name, then [process_post] returns [True],
    stores no image, and makes an image with that original name the
    featured image of the post. *)
Theorem process_post_reuses now post db url name i :
  featured_image post = None ->
  extract_first_image_url (content_html post) = Some url ->
  url_basename url = Ok name -> name <> "" ->
  i ∈ images db -> original_name i = name ->
  let run := process_post now post db in
  run.2 = Ok true /\ images run.1 = images db /\
  exists j, j ∈ images db /\ original_name j = name /\
    forall p', p' ∈ posts run.1 -> post_pk p' = post_pk post ->
               featured_image p' = Some (image_pk j).
Proof.
  intros Hf Hurl Hb Hne Hi Hname.
  pose proof (find_existing_image_sound url_basename url db) as Hsound.
  pose proof (find_existing_image_named url_basename url name db) as Hfind.
  destruct (Hfind i Hb Hne Hi Hname) as (j & Hj & Hjn & _).
  destruct (Hsound j Hj) as [Hjin _].
  destruct (set_featured_image_cases (post_pk post) (image_pk j) db)
    as (l & Hset & Hl).
  assert (process_post now post db = (with_posts db l, Ok true)) as ->.
  { unfold Featured.process_post. rewrite Hf, Hurl.
    unfold mbind, M_bind. by rewrite Hj, Hset. }
  simpl.
  split; [done|]. split; [done|]. exists j. split; [done|]. split; [done|].
  intros p' Hp' Hpk. apply list_elem_of_lookup in Hp' as [n Hn].
  destruct (Forall2_lookup_r _ _ _ _ _ Hl Hn) as (p & _ & Hs & _ & Hfi).
  apply Hfi. destruct Hs as (Hpk' & _). congruence.
Qed.

End FeaturedFacts.

Lemma process_post_reuses_witness :
  let run :=
    Featured.process_post no_http test_basename test_md5 test_storage_save
      test_pil_size "" "" "/uploads/" append (fun p => p) no_file
      read_directory 0%Z featured_post featured_db in
  run.2 = Ok true /\ images run.1 = images featured_db /\
  exists j, j ∈ images featured_db /\
    original_name j = "a.png" /\
    forall p', p' ∈ posts run.1 -> post_pk p' = post_pk featured_post ->
               featured_image p' = Some (image_pk j).
Proof.
  apply (process_post_reuses no_http test_basename test_md5
           test_storage_save test_pil_size "" "" "/uploads/" append
           (fun p => p) no_file read_directory 0%Z featured_post featured_db
           "https://example.com/wp/a.png" "a.png" stored_image).
  - reflexivity.
  - reflexivity.
  - reflexivity.
  - done.
  - left.
  - reflexivity.
Defined.

(** The post whose first image is [/], on a disk where every path is a
    directory: [process_post] raises what [read_bytes] raises, and the
    store is as it was. *)
Example process_post_directory :
  Featured.process_post no_http test_basename test_md5 test_storage_save
    test_pil_size "" "" "/uploads/" append (fun p => p) all_directories
    read_directory 0%Z root_image_post (with_posts empty_db [root_image_post])
  = (with_posts empty_db [root_image_post], Raise OSError).
Proof. by vm_compute. Qed.

(** ** The rules of the transcoder, one element at a time *)

(** The substitutions of [html_to_markdown] before the last three steps,
    in order. *)
Definition rules : list (regex * ((nat -> chars) -> chars)) :=
  [ (elem_re "h1", fun m => chs "# " ++ m 1 ++ [nl]);
    (elem_re "h2", fun m => chs "## " ++ m 1 ++ [nl]);
    (elem_re "h3", fun m => chs "### " ++ m 1 ++ [nl]);
    (elem_re "h4", fun m => chs "#### " ++ m 1 ++ [nl]);
    (elem_re "strong", fun m => chs "**" ++ m 1 ++ chs "**");
    (elem_re "b", fun m => chs "**" ++ m 1 ++ chs "**");
    (elem_re "em", fun m => chs "*" ++ m 1 ++ chs "*");
    (elem_re "i", fun m => chs "*" ++ m 1 ++ chs "*");
    (a_re, fun m => chs "[" ++ m 2 ++ chs "](" ++ m 1 ++ chs ")");
    (img_alt_re, fun m => chs "![" ++ m 2 ++ chs "](" ++ m 1 ++ chs ")");
    (img_re, fun m => chs "![](" ++ m 1 ++ chs ")");
    (open_re "ul", fun _ => []);
    (lit "</ul>", fun _ => [nl]);
    (open_re "ol", fun _ => []);
    (lit "</ol>", fun _ => [nl]);
    (elem_re "li", fun m => chs "- " ++ m 1 ++ [nl]);
    (pre_code_re,
     fun m => chs "```" ++ [nl] ++ m 1 ++ [nl] ++ chs "```" ++ [nl]);
    (elem_re "code", fun m => chs "`" ++ m 1 ++ chs "`");
    (elem_re "blockquote", blockquote_repl);
    (elem_re "p", fun m => m 1 ++ [nl; nl]);
    (void_re "br", fun _ => [nl]);
    (void_re "hr", fun _ => [nl] ++ chs "---" ++ [nl]) ].

Definition apply_rules (l : list (regex * ((nat -> chars) -> chars)))
  (s : chars) : chars :=
  foldl (fun s rule => sub_chars rule.1 rule.2 s) s l.

Lemma html_to_markdown_rules (html : string) :
  html <> "" ->
  html_to_markdown html
  = str (strip (sub_chars nl3_re (fun _ => [nl; nl])
                  (sub_chars tag_re (fun _ => [])
                     (apply_rules rules (chs html))))).
Proof.
  intros Hne. unfold html_to_markdown.
  rewrite (proj2 (String.eqb_neq _ _) Hne). cbv zeta.
  unfold re_sub. by rewrite !chs_str.
Qed.

Lemma apply_rules_app l1 l2 s :
  apply_rules (l1 ++ l2) s = apply_rules l2 (apply_rules l1 s).
Proof. apply foldl_app. Qed.

(** *** A rule that does not apply *)

(** [p] and [u] differ at a position that both have. *)
Fixpoint clash (p u : chars) : bool :=
  match p, u with
  | a :: p', b :: u' => negb (Ascii.eqb a b) || clash p' u'
  | _, _ => false
  end.

Lemma clash_starts_with (p u x : chars) :
  clash p u = true -> starts_with p (u ++ x) = false.
Proof.
  revert u; induction p as [|a p IH]; intros [|b u]; simpl; try done.
  intros [Hab|H]%orb_true_iff.
  - apply negb_true_iff in Hab. by rewrite Hab.
  - rewrite (IH u H). apply andb_false_r.
Qed.

(** The literal start [p] of a pattern occurs nowhere in the tags [opening]
    and [closing], and it starts with [<]. *)
Definition misses (opening closing p : chars) : bool :=
  match p with
  | a :: _ => Ascii.eqb a lt
  | [] => false
  end
  && forallb (fun i => clash p (drop i opening)) (seq 0 (length opening))
  && forallb (fun i => clash p (drop i closing)) (seq 0 (length closing)).

Lemma re_match_lit_prefix r (s : chars) :
  starts_with (lit_prefix r) s = false -> re_match r s = None.
Proof.
  intros H. destruct (re_match r s) as [[rest g]|] eqn:E; [|done].
  apply re_match_sound in E as (w & -> & Hw).
  apply lang_lit_prefix in Hw as [u ->].
  rewrite <- app_assoc in H. by rewrite starts_with_app in H.
Qed.

Lemma forallb_seq_lt (f : nat -> bool) n i :
  forallb f (seq 0 n) = true -> i < n -> f i = true.
Proof.
  intros H Hi. rewrite forallb_forall in H. apply H, in_seq. lia.
Qed.

Lemma misses_no_match r (opening t closing : chars) :
  misses opening closing (lit_prefix r) = true -> lt ∉ t ->
  forall a u, opening ++ t ++ closing = a ++ u -> re_match r u = None.
Proof.
  unfold misses. intros [[Hp Ho]%andb_true_iff Hc]%andb_true_iff Ht a u Hs.
  apply re_match_lit_prefix.
  destruct (lit_prefix r) as [|x p] eqn:Ep; [done|].
  apply Ascii.eqb_eq in Hp as ->.
  assert (u = drop (length a) (opening ++ t ++ closing)) as ->
    by by rewrite Hs, drop_app_length.
  clear Hs. set (i := length a).
  destruct (decide (i < length opening)) as [Hi|Hi].
  { rewrite drop_app_le by lia. apply clash_starts_with.
    by apply (forallb_seq_lt _ _ _ Ho). }
  rewrite drop_app_ge by lia. set (j := i - length opening).
  destruct (decide (j < length t)) as [Hj|Hj].
  { rewrite drop_app_le by lia.
    destruct (drop j t) as [|c t'] eqn:Ed.
    - apply (f_equal length) in Ed. rewrite length_drop in Ed. simpl in Ed. lia.
    - assert (c ∈ t) as Hc'.
      { rewrite <- (take_drop j t), Ed. set_solver. }
      cbn [app starts_with].
      destruct (Ascii.eqb_spec lt c) as [<-|]; [done|done]. }
  rewrite drop_app_ge by lia. set (k := j - length t).
  destruct (decide (k < length closing)) as [Hk|Hk].
  { rewrite <- (app_nil_r (drop k closing)). apply clash_starts_with.
    by apply (forallb_seq_lt _ _ _ Hc). }
  by rewrite drop_ge by lia.
Qed.

Lemma misses_sub rule (opening t closing : chars) :
  misses opening closing (lit_prefix rule.1) = true -> lt ∉ t ->
  sub_chars rule.1 rule.2 (opening ++ t ++ closing) = opening ++ t ++ closing.
Proof.
  intros Hm Ht. apply sub_chars_no_match. by eapply misses_no_match.
Qed.

Lemma misses_apply_rules l (opening t closing : chars) :
  forallb (fun rule => misses opening closing (lit_prefix rule.1)) l = true ->
  lt ∉ t ->
  apply_rules l (opening ++ t ++ closing) = opening ++ t ++ closing.
Proof.
  intros Hl Ht. induction l as [|rule l IH]; [done|].
  apply andb_true_iff in Hl as [Hr Hl]. unfold apply_rules. cbn [foldl].
  rewrite misses_sub by done. by apply IH.
Qed.

(** *** The rule of the element *)

Lemma rep_lazy_find k (s : chars) g n j m r :
  (forall i, i < m -> k (drop (n + i) s) g = None) ->
  k (drop (n + m) s) g = Some r -> m <= j ->
  rep_lazy k s g n j = Some r.
Proof.
  revert n j; induction m as [|m IH]; intros n j Hnone Hsome Hle.
  - rewrite Nat.add_0_r in Hsome. destruct j; simpl; by rewrite Hsome.
  - destruct j as [|j]; [lia|]. simpl.
    rewrite <- (Nat.add_0_r n) at 1. rewrite (Hnone 0) by lia.
    apply IH; [|by replace (S n + m) with (n + S m) by lia|lia].
    intros i Hi. replace (S n + i) with (n + S i) by lia. apply Hnone. lia.
Qed.

Lemma run_len_any (s : chars) : run_len Any None s = length s.
Proof. induction s as [|c s IH]; [done|]. simpl. by rewrite IH. Qed.

(** The opening and the closing tag of an element without attributes. *)
Definition opening (name : string) : chars := chs ("<" +:+ name) ++ [gt].
Definition closing (name : string) : chars := chs ("</" +:+ name +:+ ">").

Lemma elem_re_match name (t rest : chars) :
  lt ∉ t ->
  re_match (elem_re name) (opening name ++ t ++ closing name ++ rest)
  = Some (rest, [(1, t)]).
Proof.
  intros Ht. unfold re_match, elem_re, opening.
  change (cat [lit ("<" +:+ name); star (not_of ">"); lit ">";
               Grp 1 (lazy_star Any); lit ("</" +:+ name +:+ ">")])
    with (Cat (Lit (chs ("<" +:+ name)))
            (Cat (star (not_of ">"))
               (Cat (Lit [gt])
                  (Cat (Grp 1 (lazy_star Any)) (Lit (closing name)))))).
  rewrite <- app_assoc, rmatch_cat_lit.
  cbn [rmatch star]. cbn [app run_len cs_mem not_of chs list_ascii_of_string
    mem_ascii]. change (Ascii.eqb ">" gt) with true. cbn [orb negb].
  cbn [Nat.ltb Nat.leb Nat.sub rep_greedy Nat.add].
  rewrite drop_0. cbn [starts_with length]. change (Ascii.eqb gt gt) with true.
  cbn [andb drop]. rewrite !drop_0.
  set (s := t ++ closing name ++ rest).
  match goal with
  | |- match ?X with _ => _ end = _ =>
      assert (X = Some (rest, [(1, t)])) as ->; [|done]
  end.
  unfold lazy_star. cbn [rmatch]. rewrite run_len_any. cbn [Nat.ltb Nat.leb].
  rewrite Nat.sub_0_r.
  apply (rep_lazy_find _ s [] 0 (length s) (length t)).
  - intros i Hi. cbn [Nat.add]. subst s. rewrite drop_app_le by lia.
    destruct (drop i t) as [|c t'] eqn:Ed.
    { apply (f_equal length) in Ed. rewrite length_drop in Ed.
      simpl in Ed. lia. }
    assert (c ∈ t) as Hc.
    { rewrite <- (take_drop i t), Ed. set_solver. }
    assert (forall x, starts_with (closing name) (c :: x) = false) as Hclose.
    { intros x. destruct (starts_with _ _) eqn:E; [|done].
      apply starts_with_spec in E as [y Hy]. unfold closing in Hy.
      simpl in Hy. injection Hy as -> _. done. }
    cbn [app]. by rewrite Hclose.
  - cbn [Nat.add]. subst s. rewrite drop_app_length.
    rewrite starts_with_app, drop_app_length.
    rewrite !length_app.
    replace (length t + (length (closing name) + length rest)
             - (length (closing name) + length rest)) with (length t) by lia.
    by rewrite take_app_length.
  - subst s. rewrite length_app. lia.
Qed.

Lemma elem_re_sub name repl (t : chars) :
  lt ∉ t ->
  sub_chars (elem_re name) repl (opening name ++ t ++ closing name)
  = repl (group [(1, t)]).
Proof.
  intros Ht. unfold sub_chars.
  pose proof (elem_re_match name t [] Ht) as Hm. rewrite app_nil_r in Hm.
  destruct (opening name ++ t ++ closing name) as [|c s] eqn:Es.
  { unfold opening in Es. by destruct (chs ("<" +:+ name)). }
  cbn [sub_from]. rewrite Hm. cbn [length Nat.sub].
  rewrite sub_from_skip by lia. rewrite drop_all. cbn [sub_from].
  rewrite (re_match_lit_prefix (elem_re name) []) by done.
  by rewrite app_nil_r.
Qed.

(** *** The rules after it, and the last three steps *)

Lemma has_tag_lt (s : chars) : has_tag s -> lt ∈ s.
Proof. intros (a & w & b & -> & _). set_solver. Qed.

Lemma tag_like_apply_rules l (s : chars) :
  forallb (fun rule => tag_like rule.1) l = true -> ~ has_tag s ->
  apply_rules l s = s.
Proof.
  intros Hl Hs. induction l as [|rule l IH]; [done|].
  apply andb_true_iff in Hl as [Hr Hl]. unfold apply_rules. cbn [foldl].
  rewrite sub_chars_no_match by by apply tag_like_no_match.
  by apply IH.
Qed.

Lemma mem_ascii_spec c (l : list ascii) : mem_ascii c l = true <-> c ∈ l.
Proof.
  induction l as [|a l IH]; simpl.
  - split; [done|by intros ?%elem_of_nil].
  - rewrite orb_true_iff, IH, Ascii.eqb_eq, elem_of_cons.
    split; intros [?|?]; eauto.
Qed.

Lemma no3_of_no_sub (s : chars) :
  (forall a b, s <> a ++ [nl; nl; nl] ++ b) -> no3 s.
Proof.
  induction s as [|c s IH]; intros H; [done|]. cbn [no3]. split.
  - destruct (decide (nls (c :: s) < 3)) as [|Hn]; [done|].
    destruct (nls_ge3 (c :: s)) as [t Ht]; [lia|]. by destruct (H [] t).
  - apply IH. intros a b ->. by apply (H (c :: a) b).
Qed.

Lemma no3_no_nl (s : chars) : nl ∉ s -> no3 s.
Proof.
  intros H. apply no3_of_no_sub. intros a b ->. apply H. set_solver.
Qed.

(** [s] does not end with a newline. *)
Definition ends_ok (s : chars) : Prop := forall r c, s = r ++ [c] -> c <> nl.

Lemma ends_ok_tail c (s : chars) : s <> [] -> ends_ok (c :: s) -> ends_ok s.
Proof. intros _ H r d ->. by apply (H (c :: r) d). Qed.

Lemma nls_app_ends (s y : chars) :
  s <> [] -> ends_ok s -> nls (s ++ y) = nls s.
Proof.
  induction s as [|c s IH]; intros Hne He; [done|].
  cbn [app]. rewrite !nls_cons.
  destruct (Ascii.eqb_spec nl c) as [<-|]; [|done].
  destruct s as [|d s]; [by destruct (He [] nl)|].
  f_equal. apply IH; [done|]. by eapply ends_ok_tail.
Qed.

Lemma no3_app (x y : chars) :
  no3 x -> ends_ok x -> no3 y -> no3 (x ++ y).
Proof.
  induction x as [|c x IH]; intros Hx He Hy; [done|].
  cbn [app no3]. destruct Hx as [Hn Hx]. split.
  - change (c :: x ++ y) with ((c :: x) ++ y).
    by rewrite nls_app_ends.
  - destruct x as [|d x]; [done|].
    apply IH; [done| |done]. by eapply ends_ok_tail.
Qed.

Lemma lstrip_app_space (w s : chars) :
  Forall (fun c => is_space c = true) w -> lstrip (w ++ s) = lstrip s.
Proof.
  induction w as [|c w IH]; [done|]. intros [Hc Hw]%Forall_cons.
  cbn [app lstrip]. rewrite Hc. by apply IH.
Qed.

Lemma strip_trailing (x ws : chars) :
  (forall c r, x = c :: r -> is_space c = false) ->
  (forall c r, x = r ++ [c] -> is_space c = false) ->
  Forall (fun c => is_space c = true) ws ->
  strip (x ++ ws) = x.
Proof.
  intros Hhead Hlast Hws. unfold strip.
  assert (rstrip (x ++ ws) = x) as Hr.
  { unfold rstrip. rewrite rev_app_distr, lstrip_app_space.
    - rewrite lstrip_fixed; [apply rev_involutive|].
      intros c r Hr. apply (Hlast c (rev r)).
      by rewrite <- (rev_involutive x), Hr.
    - apply Forall_forall. intros c Hc. rewrite Forall_forall in Hws.
      apply Hws. by apply list_elem_of_In, in_rev, list_elem_of_In. }
  destruct x as [|c r].
  - cbn [app]. rewrite <- (app_nil_r ws), lstrip_app_space by done. done.
  - rewrite lstrip_fixed; [done|]. intros c' r' [= <- <-]. by eapply Hhead.
Qed.

(** *** An element with plain text *)

(** Text without [<] that is in the form of an output and not empty. *)
Definition plain (t : chars) : Prop :=
  t <> [] /\ (lt ∉ t) /\
  (forall a b, t <> a ++ [nl; nl; nl] ++ b) /\
  (forall c r, t = c :: r -> is_space c = false) /\
  (forall c r, t = r ++ [c] -> is_space c = false).

(** What a rule writes around the text: [pre], and after the text [pv]
    and then the newlines [ws]. *)
Definition shape_ok (pre pv ws : chars) : bool :=
  negb (mem_ascii lt (pre ++ pv ++ ws)) && negb (mem_ascii nl (pre ++ pv))
  && forallb (Ascii.eqb nl) ws && (length ws <=? 2)
  && match pre with c :: _ => negb (is_space c) | [] => true end
  && match last pv with Some c => negb (is_space c) | None => true end.

Lemma convert_element k name repl (pre pv ws t : chars) :
  rules !! k = Some (elem_re name, repl) ->
  (forall m, repl m = pre ++ m 1 ++ pv ++ ws) ->
  forallb (fun rule => misses (opening name) (closing name)
                         (lit_prefix rule.1)) (take k rules) = true ->
  forallb (fun rule => tag_like rule.1) (drop (S k) rules) = true ->
  shape_ok pre pv ws = true -> plain t ->
  html_to_markdown (str (opening name ++ t ++ closing name))
  = str (pre ++ t ++ pv).
Proof.
  intros Hk Hrepl Hbefore Hafter Hshape (Hne & Hlt & Hnl & Hhead & Hlast).
  unfold shape_ok in Hshape.
  apply andb_true_iff in Hshape as [Hshape Hpv].
  apply andb_true_iff in Hshape as [Hshape Hpre].
  apply andb_true_iff in Hshape as [Hshape Hlen].
  apply andb_true_iff in Hshape as [Hshape Hws].
  apply andb_true_iff in Hshape as [Hnolt Hnonl].
  apply negb_true_iff in Hnolt, Hnonl.
  assert (lt ∉ pre ++ pv ++ ws) as Hnolt'.
  { intros H%mem_ascii_spec. congruence. }
  assert (nl ∉ pre ++ pv) as Hnonl'.
  { intros H%mem_ascii_spec. congruence. }
  assert (Forall (fun c => c = nl) ws) as Hws'.
  { apply Forall_forall. intros c Hc%list_elem_of_In.
    rewrite forallb_forall in Hws. by apply Hws, Ascii.eqb_eq in Hc. }
  rewrite html_to_markdown_rules, chs_str.
  2:{ intros H. apply (f_equal chs) in H. rewrite chs_str in H.
      unfold opening in H. by destruct (chs ("<" +:+ name)). }
  rewrite <- (take_drop_middle rules k _ Hk), apply_rules_app.
  rewrite misses_apply_rules by done.
  unfold apply_rules at 1. cbn [foldl fst snd].
  rewrite elem_re_sub by done. rewrite Hrepl. cbn [group Nat.eqb].
  set (out := pre ++ t ++ pv ++ ws).
  assert (lt ∉ out) as Hout.
  { subst out. intros [H|[H|H]%elem_of_app]%elem_of_app; [| done |];
      apply Hnolt'; set_solver. }
  assert (~ has_tag out) as Htag by (by intros H%has_tag_lt).
  change (foldl _ out (drop (S k) rules))
    with (apply_rules (drop (S k) rules) out).
  rewrite tag_like_apply_rules by done.
  rewrite (sub_chars_no_match tag_re) by by apply tag_re_no_match.
  assert (ends_ok t) as Het.
  { intros r c -> ->. by specialize (Hlast nl r eq_refl). }
  assert (forall x, nl ∉ x -> ends_ok x) as Hends.
  { intros x Hx r c -> ->. apply Hx. set_solver. }
  assert (no3 ws) as Hno3ws.
  { destruct ws as [|a [|b [|c ws]]]; [done| | |simpl in Hlen; done].
    - apply Forall_cons in Hws' as [-> _]. cbn. split; [|done].
      unfold nls. simpl. lia.
    - apply Forall_cons in Hws' as [-> [-> _]%Forall_cons]. cbn.
      unfold nls. simpl. repeat split; lia. }
  assert (no3 (pre ++ t ++ pv)) as Hno3x.
  { apply no3_app; [apply no3_no_nl|apply Hends|]; [set_solver..|].
    apply no3_app; [by apply no3_of_no_sub|done|].
    apply no3_no_nl. set_solver. }
  assert (ends_ok (pre ++ t ++ pv)) as Hex.
  { intros r c Hr ->.
    destruct pv as [|d pv _] using rev_ind.
    - rewrite app_nil_r in Hr. destruct t as [|d t _] using rev_ind; [done|].
      rewrite app_assoc in Hr. apply app_inj_tail in Hr as [_ ->].
      by specialize (Hlast nl t eq_refl).
    - rewrite !app_assoc in Hr. apply app_inj_tail in Hr as [_ ->].
      apply Hnonl'. set_solver. }
  assert (no3 out) as Hno3.
  { subst out. replace (pre ++ t ++ pv ++ ws) with ((pre ++ t ++ pv) ++ ws)
      by by rewrite <- !app_assoc.
    by apply no3_app. }
  rewrite (sub_chars_no_match nl3_re)
    by by apply nl3_no_match, no3_no_sub.
  subst out. replace (pre ++ t ++ pv ++ ws) with ((pre ++ t ++ pv) ++ ws)
    by by rewrite <- !app_assoc.
  rewrite strip_trailing; [done| | |].
  - intros c r Hr. destruct pre as [|d pre].
    + destruct t as [|d t]; [done|]. injection Hr as <- _.
      by eapply Hhead.
    + injection Hr as <- _. by apply negb_true_iff in Hpre.
  - intros c r Hr. destruct pv as [|d pv _] using rev_ind.
    + rewrite app_nil_r in Hr. destruct t as [|d t _] using rev_ind; [done|].
      rewrite app_assoc in Hr. apply app_inj_tail in Hr as [_ ->].
      by eapply Hlast.
    + rewrite !app_assoc in Hr. apply app_inj_tail in Hr as [_ ->].
      rewrite last_snoc in Hpv. by apply negb_true_iff in Hpv.
  - eapply Forall_impl; [done|]. by intros c ->.
Qed.

(** X26: an element without attributes around plain text becomes the
    Markdown of the element (a heading of level 1 to 4, bold, italic,
    inline code, a list item, a paragraph).  Plain text holds no [<], is
    not empty and is in the form of an output. *)
Theorem html_to_markdown_elements (t : chars) :
  plain t ->
  html_to_markdown (str (chs "<h1>" ++ t ++ chs "</h1>"))
  = str (chs "# " ++ t) /\
  html_to_markdown (str (chs "<h2>" ++ t ++ chs "</h2>"))
  = str (chs "## " ++ t) /\
  html_to_markdown (str (chs "<h3>" ++ t ++ chs "</h3>"))
  = str (chs "### " ++ t) /\
  html_to_markdown (str (chs "<h4>" ++ t ++ chs "</h4>"))
  = str (chs "#### " ++ t) /\
  html_to_markdown (str (chs "<strong>" ++ t ++ chs "</strong>"))
  = str (chs "**" ++ t ++ chs "**") /\
  html_to_markdown (str (chs "<b>" ++ t ++ chs "</b>"))
  = str (chs "**" ++ t ++ chs "**") /\
  html_to_markdown (str (chs "<em>" ++ t ++ chs "</em>"))
  = str (chs "*" ++ t ++ chs "*") /\
  html_to_markdown (str (chs "<i>" ++ t ++ chs "</i>"))
  = str (chs "*" ++ t ++ chs "*") /\
  html_to_markdown (str (chs "<li>" ++ t ++ chs "</li>"))
  = str (chs "- " ++ t) /\
  html_to_markdown (str (chs "<code>" ++ t ++ chs "</code>"))
  = str (chs "`" ++ t ++ chs "`") /\
  html_to_markdown (str (chs "<p>" ++ t ++ chs "</p>")) = str t.
Proof.
  intros Ht.
  assert (forall k name repl (pre pv ws : chars),
            rules !! k = Some (elem_re name, repl) ->
            (forall m, repl m = pre ++ m 1 ++ pv ++ ws) ->
            forallb (fun rule => misses (opening name) (closing name)
                                   (lit_prefix rule.1)) (take k rules)
            = true ->
            forallb (fun rule => tag_like rule.1) (drop (S k) rules) = true ->
            shape_ok pre pv ws = true ->
            html_to_markdown (str (opening name ++ t ++ closing name))
            = str (pre ++ t ++ pv)) as H.
  { intros. by eapply convert_element. }
  repeat split.
  - rewrite <- (app_nil_r t) at 2.
    by eapply (H 0 "h1" _ (chs "# ") [] [nl]).
  - rewrite <- (app_nil_r t) at 2.
    by eapply (H 1 "h2" _ (chs "## ") [] [nl]).
  - rewrite <- (app_nil_r t) at 2.
    by eapply (H 2 "h3" _ (chs "### ") [] [nl]).
  - rewrite <- (app_nil_r t) at 2.
    by eapply (H 3 "h4" _ (chs "#### ") [] [nl]).
  - by eapply (H 4 "strong" _ (chs "**") (chs "**") []).
  - by eapply (H 5 "b" _ (chs "**") (chs "**") []).
  - by eapply (H 6 "em" _ (chs "*") (chs "*") []).
  - by eapply (H 7 "i" _ (chs "*") (chs "*") []).
  - rewrite <- (app_nil_r t) at 2.
    by eapply (H 15 "li" _ (chs "- ") [] [nl]).
  - by eapply (H 17 "code" _ (chs "`") (chs "`") []).
  - rewrite <- (app_nil_r t) at 2.
    by eapply (H 19 "p" _ [] [] [nl; nl]).
Qed.

Lemma html_to_markdown_elements_witness :
  plain (chs "Hi") /\
  html_to_markdown "<h2>Hi</h2>" = "## Hi" /\
  html_to_markdown "<p>Hi</p>" = "Hi".
Proof.
  assert (plain (chs "Hi")) as H.
  { split; [done|]. split; [|split; [|split]].
    - apply (bool_decide_unpack _). by vm_compute.
    - intros [|a [|b [|c l]]] b'; done.
    - by intros c r [= <- _].
    - intros c [|a [|b [|d l]]]; try done. by intros [= _ <-]. }
  split; [done|].
  destruct (html_to_markdown_elements (chs "Hi") H)
    as (_ & H2 & _ & _ & _ & _ & _ & _ & _ & _ & Hp).
  split; [exact H2|exact Hp].
Defined.

(** ** The fields of the imported rows *)

Section Fields.

Variable slugify : string -> string.
Variable render_markdown : string -> string.

(** X27: an import that ends stores the export.  For an export whose
    posts have distinct identifiers and whose comments have distinct
    identifiers, every post has one row afterwards, with the title, the
    excerpt and the status of the export, the transcoded content, and the
    slug of the export (or of the title) when that is not empty; and every
    comment of the post has one row, which belongs to the row of the post
    and has the author, the content and the status of the export. *)
Theorem import_data_fields now data default_author db db' stats :
  NoDup (p_id <$> d_posts data) ->
  NoDup (comment_ids (d_posts data)) ->
  import_data slugify render_markdown now data default_author db
  = (db', Ok stats) ->
  forall p, p ∈ d_posts data ->
    exists r,
      post_rows (p_id p) db' = [r] /\
      post_title r = p_title p /\
      content_md r = html_to_markdown (p_content p) /\
      post_excerpt r = p_excerpt p /\
      post_status r = post_status_of (p_status p) /\
      (slug_arg slugify p <> "" -> post_slug r = slug_arg slugify p) /\
      forall c, c ∈ p_comments p ->
        exists rc,
          comment_rows (c_id c) db' = [rc] /\
          comment_post rc = post_pk r /\
          author_name rc = c_author_name c /\
          author_email rc = c_author_email c /\
          comment_content rc = c_content c /\
          comment_status rc = comment_status_of (c_status c).
Proof.
  intros Hnd Hndc Hrun p Hp.
  apply import_data_steps in Hrun
    as (dbA & authors & dbT & tag_map & statsT & HA & HT & HP).
  destruct (import_posts_ok _ _ _ _ _ _ _ _ _ _ _ Hnd HP) as (_ & _ & Hposts).
  destruct (Hposts p Hp) as (r & Hr & Hm & _).
  destruct (import_posts_comments_ok _ _ _ _ _ _ _ _ _ _ _ Hndc HP p Hp)
    as (r' & Hr' & Hcs).
  assert (r' = r) as -> by congruence.
  destruct Hm as (_ & M1 & M2 & M3 & M4 & _ & M5).
  exists r. do 5 (split; [done|]). split; [done|].
  intros c Hc.
  assert (c ∈ sorted_by_id (p_comments p)) as Hin
    by by rewrite sorted_by_id_perm.
  apply list_elem_of_split in Hin as (pre & suf & Hl).
  destruct (Hcs pre c suf Hl) as (rc & Hrc & Hcm & _).
  destruct Hcm as (_ & C1 & C2 & C3 & C4 & C5).
  exists rc. by repeat split.
Qed.

End Fields.

Lemma import_data_fields_witness :
  let run := import_data (fun s => s) (fun s => s) 0%Z small_data admin
               admin_db in
  run = (run.1, Ok {| tags_created := 1; posts_created := 1;
                      comments_created := 2 |}) /\
  forall p, p ∈ d_posts small_data ->
    exists r,
      post_rows (p_id p) run.1 = [r] /\
      post_title r = p_title p /\
      content_md r = html_to_markdown (p_content p) /\
      post_excerpt r = p_excerpt p /\
      post_status r = post_status_of (p_status p) /\
      (slug_arg (fun s => s) p <> "" ->
       post_slug r = slug_arg (fun s => s) p) /\
      forall c, c ∈ p_comments p ->
        exists rc,
          comment_rows (c_id c) run.1 = [rc] /\
          comment_post rc = post_pk r /\
          author_name rc = c_author_name c /\
          author_email rc = c_author_email c /\
          comment_content rc = c_content c /\
          comment_status rc = comment_status_of (c_status c).
Proof.
  intros run. split; [reflexivity|].
  apply (import_data_fields (fun s => s) (fun s => s) 0%Z small_data admin
           admin_db run.1
           {| tags_created := 1; posts_created := 1;
              comments_created := 2 |}).
  - apply NoDup_singleton.
  - apply (bool_decide_unpack _). by vm_compute.
  - reflexivity.
Defined.

(** ** The command [add_wp_featured_images] *)

Lemma NoDup_fmap_filter_length {A B} `{EqDecision B} (f : A -> B)
  (l : list A) (k : B) :
  NoDup (f <$> l) -> length (filter (fun x => f x = k) l) <= 1.
Proof.
  induction l as [|a l IH]; [simpl; lia|].
  rewrite fmap_cons, NoDup_cons. intros [Ha Hl].
  rewrite filter_cons. destruct (decide (f a = k)) as [<-|Hk]; [|by apply IH].
  rewrite filter_none; [simpl; lia|].
  intros x Hx Hfx. apply Ha. rewrite <- Hfx. apply list_elem_of_fmap.
  by exists x.
Qed.

Lemma NoDup_fmap_eq {A B} (f : A -> B) (l : list A) (x y : A) :
  NoDup (f <$> l) -> x ∈ l -> y ∈ l -> f x = f y -> x = y.
Proof.
  induction l as [|a l IH]; [by intros _ ?%elem_of_nil|].
  rewrite fmap_cons, NoDup_cons. intros [Ha Hl].
  intros [->|Hx]%elem_of_cons [->|Hy]%elem_of_cons Hf; [done|..].
  - destruct Ha. rewrite Hf. apply list_elem_of_fmap. by exists y.
  - destruct Ha. rewrite <- Hf. apply list_elem_of_fmap. by exists x.
  - by apply IH.
Qed.

Lemma with_posts_same (db : DB) : with_posts db (posts db) = db.
Proof. by destruct db. Qed.

Lemma with_posts_twice (db : DB) (l l' : list Post) :
  with_posts (with_posts db l) l' = with_posts db l'.
Proof. done. Qed.

Lemma rmatch_cat_star_none cs (r : regex) c (s : chars) g k :
  cs_mem cs c = false ->
  rmatch (Cat (star cs) r) (c :: s) g k = rmatch r (c :: s) g k.
Proof.
  intros Hc. cbn [rmatch star run_len]. rewrite Hc.
  cbn [Nat.ltb Nat.leb Nat.sub rep_greedy Nat.add]. rewrite drop_0.
  by destruct (rmatch r (c :: s) g k).
Qed.

Lemma rmatch_grp_plus_lit cs i (w l rest : chars) g k r :
  w <> [] -> run_len cs None (w ++ l ++ rest) = length w ->
  k rest ((i, w) :: g) = Some r ->
  rmatch (Cat (Grp i (plus cs)) (Lit l)) (w ++ l ++ rest) g k = Some r.
Proof.
  intros Hw Hrun Hk. cbn [rmatch plus]. rewrite Hrun.
  destruct w as [|c w]; [done|]. cbn [length Nat.ltb Nat.leb].
  apply rep_greedy_first.
  replace (1 + (S (length w) - 1)) with (length (c :: w))
    by (cbn [length]; lia).
  rewrite drop_app_length, starts_with_app, drop_app_length.
  rewrite !length_app.
  replace (length (c :: w) + (length l + length rest)
           - (length l + length rest)) with (length (c :: w)) by lia.
  by rewrite take_app_length.
Qed.

(** The first image of a text that begins with the Markdown of an
    image. *)
Lemma search_md_image (url rest : chars) :
  url <> [] -> ")"%char ∉ url ->
  search_group md_pattern 1 (chs "![](" ++ url ++ chs ")" ++ rest)
  = Some url.
Proof.
  intros Hne Hurl.
  assert (Forall (fun c => cs_mem (not_of ")") c = true) url) as Hcs.
  { apply Forall_forall. intros c Hc.
    cbn [cs_mem not_of list_ascii_of_string mem_ascii].
    destruct (Ascii.eqb_spec ")" c) as [<-|]; [done|done]. }
  assert (run_len (not_of ")") None (url ++ chs ")" ++ rest) = length url)
    as Hrun.
  { clear Hne Hurl. induction url as [|c url IH]; [done|].
    apply Forall_cons in Hcs as [Hc Hcs].
    cbn [app run_len fmap option_fmap option_map length]. rewrite Hc.
    f_equal. by apply IH. }
  assert (re_match md_pattern (chs "![](" ++ url ++ chs ")" ++ rest)
          = Some (rest, [(1, url)])) as Hm.
  { unfold re_match, md_pattern, lit. cbn [cat].
    change (chs "![](" ++ url ++ chs ")" ++ rest)
      with (chs "![" ++ "]"%char :: chs "(" ++ url ++ chs ")" ++ rest).
    rewrite rmatch_cat_lit, rmatch_cat_star_none by done.
    change ("]"%char :: chs "(" ++ url ++ chs ")" ++ rest)
      with (chs "](" ++ url ++ chs ")" ++ rest).
    rewrite rmatch_cat_lit.
    by apply rmatch_grp_plus_lit. }
  destruct url as [|c url]; [done|].
  change (chs "![](" ++ (c :: url) ++ chs ")" ++ rest)
    with ("!"%char :: (chs "[](" ++ (c :: url) ++ chs ")" ++ rest)) in *.
  cbn [search_group]. by rewrite Hm.
Qed.

Lemma filter_and_count {A} (P Q : A -> Prop) `{forall x, Decision (P x)}
  `{forall x, Decision (Q x)} (l1 l2 : list A) (a : A) :
  (forall x, x ∈ l1 ++ l2 -> ~ P x) ->
  length (filter (fun x => P x /\ Q x) (l1 ++ a :: l2))
  = if decide (P a /\ Q a) then 1 else 0.
Proof.
  intros Hn. rewrite filter_app, filter_cons.
  rewrite (filter_none _ l1), (filter_none _ l2).
  - by destruct (decide (P a /\ Q a)).
  - intros x Hx [HP _]. apply (Hn x); [|done]. apply elem_of_app. by right.
  - intros x Hx [HP _]. apply (Hn x); [|done]. apply elem_of_app. by left.
Qed.

Section CommandFacts.

Variable slugify : string -> string.
Variable render_markdown : string -> string.

(** The row that [handle] writes for a post of the table: the image at
    the head of the content, and what [Post.save] sets. *)
Definition updated_row (now : Z) (img_url : string) (p : Post) : Post :=
  {| post_pk := post_pk p; post_title := post_title p;
     post_slug := post_slug p;
     content_md := img_md img_url (content_md p);
     content_html := render_markdown (img_md img_url (content_md p));
     post_excerpt := post_excerpt p; post_status := post_status p;
     post_author := post_author p; featured_image := featured_image p;
     published_at := save_published_at now (post_status p) (published_at p);
     post_created_at := post_created_at p; post_updated_at := now;
     wp_post_id := wp_post_id p |}.

(** What one turn of the loop does to a row. *)
Definition entry_row (now : Z) (entry : string * string) (p : Post) : Post :=
  if bool_decide (post_slug p = entry.1) && negb (truthy (thumbnail_url p))
  then updated_row now entry.2 p else p.

(** What the loop does to a row. *)
Fixpoint table_row (now : Z) (entries : list (string * string)) (p : Post)
  : Post :=
  match entries with
  | [] => p
  | entry :: entries' =>
      if bool_decide (post_slug p = entry.1) then entry_row now entry p
      else table_row now entries' p
  end.

Lemma entry_row_pk now entry p : post_pk (entry_row now entry p) = post_pk p.
Proof. unfold entry_row. by destruct (_ && _). Qed.

Lemma entry_row_slug now entry p :
  post_slug (entry_row now entry p) = post_slug p.
Proof. unfold entry_row. by destruct (_ && _). Qed.

Lemma entry_row_other now entry p :
  post_slug p <> entry.1 -> entry_row now entry p = p.
Proof. intros H. unfold entry_row. by rewrite bool_decide_eq_false_2. Qed.

Lemma table_row_other now entries p :
  post_slug p ∉ entries.*1 -> table_row now entries p = p.
Proof.
  induction entries as [|e es IH]; [done|].
  rewrite fmap_cons, not_elem_of_cons. intros [Hne Hes]. cbn [table_row].
  rewrite bool_decide_eq_false_2 by done. by apply IH.
Qed.

Lemma table_row_skipped now entries p :
  truthy (thumbnail_url p) = true -> table_row now entries p = p.
Proof.
  intros Ht. induction entries as [|e es IH]; [done|]. cbn [table_row].
  case_bool_decide; [|done]. unfold entry_row.
  by rewrite Ht, andb_false_r.
Qed.

Lemma table_row_updated now entries p img_url :
  NoDup entries.*1 -> (post_slug p, img_url) ∈ entries ->
  truthy (thumbnail_url p) = false ->
  table_row now entries p = updated_row now img_url p.
Proof.
  intros Hnd Hin Ht. induction entries as [|e es IH]; [by apply elem_of_nil in Hin|].
  rewrite fmap_cons, NoDup_cons in Hnd. destruct Hnd as [He Hnd].
  cbn [table_row]. apply elem_of_cons in Hin as [<-|Hin].
  - rewrite bool_decide_eq_true_2 by done. unfold entry_row. cbn [fst snd].
    by rewrite bool_decide_eq_true_2, Ht.
  - case_bool_decide as Hs; [|by apply IH].
    destruct He. rewrite <- Hs. apply list_elem_of_fmap.
    by exists (post_slug p, img_url).
Qed.

Lemma handle_entry_run now u s entry db :
  entry.1 <> "" ->
  NoDup (post_pk <$> posts db) -> NoDup (post_slug <$> posts db) ->
  handle_entry slugify render_markdown now (u, s) entry db
  = (with_posts db (entry_row now entry <$> posts db),
     Ok (u + length (filter (fun p => post_slug p = entry.1 /\
                                      truthy (thumbnail_url p) = false)
                       (posts db)),
         s + length (filter (fun p => post_slug p = entry.1 /\
                                      truthy (thumbnail_url p) = true)
                       (posts db)))).
Proof.
  destruct entry as [slug img_url]. cbn [fst snd]. intros Hne Hpk Hslug.
  unfold handle_entry.
  pose proof (NoDup_fmap_filter_length post_slug (posts db) slug Hslug) as Hle.
  destruct (filter (fun p => post_slug p = slug) (posts db))
    as [|post [|q rest]] eqn:Ef; [| |simpl in Hle; lia].
  - assert (forall x, x ∈ posts db -> post_slug x <> slug) as Hno.
    { intros x Hx Hs.
      assert (x ∈ filter (fun p => post_slug p = slug) (posts db)) as Hin
        by by apply list_elem_of_filter.
      rewrite Ef in Hin. by apply elem_of_nil in Hin. }
    rewrite fmap_id_on, with_posts_same.
    + rewrite !filter_none; [by rewrite !Nat.add_0_r|..];
        intros x Hx [Hs _]; by apply (Hno x).
    + intros x Hx. apply entry_row_other. by apply Hno.
  - apply filter_singleton_split in Ef as (l1 & l2 & Hl & Hp & Hoth).
    assert (post ∈ posts db) as Hpost.
    { rewrite Hl. apply elem_of_app. right. left. }
    assert (forall x, x ∈ posts db -> post_slug x = slug -> x = post) as Huniq.
    { intros x Hx Hs. apply (NoDup_fmap_eq post_slug (posts db)); try done.
      by rewrite Hs. }
    rewrite Hl at 2 3. rewrite !filter_and_count by done.
    destruct (truthy (thumbnail_url post)) eqn:Et.
    + rewrite fmap_id_on, with_posts_same.
      * rewrite decide_False by (intros [_ ?]; done).
        rewrite decide_True by done. by rewrite Nat.add_0_r, Nat.add_1_r.
      * intros x Hx. unfold entry_row. cbn [fst].
        case_bool_decide as Hs; [|done].
        rewrite (Huniq x Hx Hs), Et. done.
    + rewrite decide_True by done.
      rewrite decide_False by (intros [_ ?]; done).
      rewrite Nat.add_0_r, Nat.add_1_r.
      unfold mbind, M_bind, save_post. cbn [post_pk post_slug with_content_md].
      unfold save_slug. rewrite Hp.
      rewrite (proj2 (String.eqb_neq _ _) Hne).
      rewrite bool_decide_eq_false_2.
      * unfold mret, M_ret. cbn [with_content_md post_title content_md
          post_excerpt post_status post_author featured_image published_at
          post_created_at wp_post_id]. do 2 f_equal.
        apply Forall_fmap_ext, Forall_forall. intros x Hx.
        unfold entry_row. cbn [fst snd].
        case_bool_decide as Hx1.
        -- assert (x = post) as ->
             by by apply (NoDup_fmap_eq post_pk (posts db)).
           rewrite bool_decide_eq_true_2, Et by done. cbn [negb andb].
           unfold updated_row. by rewrite Hp.
        -- rewrite bool_decide_eq_false_2; [done|].
           intros Hs. apply Hx1. by rewrite (Huniq x Hx Hs).
      * intros (x & Hs & [Hx1 Hx]%list_elem_of_filter)%list_elem_of_fmap.
        apply Hx1. by rewrite (Huniq x Hx).
Qed.

Lemma count_step now k img_url (ks : list string) (X : bool)
  (l : list Post) :
  k ∉ ks ->
  length (filter (fun p => post_slug p = k /\ truthy (thumbnail_url p) = X) l)
  + length (filter (fun p => post_slug p ∈ ks /\
                             truthy (thumbnail_url p) = X)
              (entry_row now (k, img_url) <$> l))
  = length (filter (fun p => post_slug p ∈ k :: ks /\
                             truthy (thumbnail_url p) = X) l).
Proof.
  intros Hk. induction l as [|p l IH]; [done|].
  rewrite fmap_cons, !filter_cons.
  destruct (decide (post_slug p = k)) as [Hs|Hs].
  - rewrite (decide_False (P := post_slug (entry_row _ _ p) ∈ ks /\ _)).
    2:{ rewrite entry_row_slug, Hs. by intros [? _]. }
    destruct (decide (truthy (thumbnail_url p) = X)) as [Ht|Ht].
    + rewrite decide_True by done.
      rewrite decide_True by (split; [rewrite Hs; left|done]).
      cbn [length]. lia.
    + rewrite decide_False by (by intros [_ ?]).
      rewrite decide_False by (by intros [_ ?]). done.
  - rewrite entry_row_other by done.
    rewrite decide_False by (by intros [? _]).
    destruct (decide (post_slug p ∈ ks /\ truthy (thumbnail_url p) = X))
      as [[H1 H2]|Hn].
    + rewrite decide_True by (split; [by right|done]). cbn [length]. lia.
    + rewrite decide_False; [done|].
      intros [[?|?]%elem_of_cons ?]; [done|]. by apply Hn.
Qed.

Lemma handle_run now entries : forall u s db,
  NoDup entries.*1 -> Forall (fun e => e.1 <> "") entries ->
  NoDup (post_pk <$> posts db) -> NoDup (post_slug <$> posts db) ->
  foldM (handle_entry slugify render_markdown now) entries (u, s) db
  = (with_posts db (table_row now entries <$> posts db),
     Ok (u + length (filter (fun p => post_slug p ∈ entries.*1 /\
                                      truthy (thumbnail_url p) = false)
                       (posts db)),
         s + length (filter (fun p => post_slug p ∈ entries.*1 /\
                                      truthy (thumbnail_url p) = true)
                       (posts db)))).
Proof.
  induction entries as [|[k img_url] es IH]; intros u s db Hks Hne Hpk Hslug.
  - cbn [foldM mret M_ret table_row]. rewrite list_fmap_id, with_posts_same.
    rewrite !filter_none; [by rewrite !Nat.add_0_r|..];
      intros x _ [Hx _]; by apply elem_of_nil in Hx.
  - rewrite fmap_cons, NoDup_cons in Hks. destruct Hks as [Hk Hks].
    apply Forall_cons in Hne as [Hk0 Hne]. cbn [fst] in Hk, Hk0.
    cbn [foldM]. unfold mbind at 1, M_bind at 1.
    rewrite handle_entry_run by done. cbn [fst snd].
    rewrite IH; try done; cbn [posts with_posts].
    + rewrite with_posts_twice, <- !Nat.add_assoc.
      rewrite !(count_step now k img_url) by done.
      do 2 f_equal. rewrite <- list_fmap_compose.
      apply Forall_fmap_ext, Forall_forall. intros p _. unfold compose.
      cbn [table_row fst]. case_bool_decide as Hs.
      * apply table_row_other. by rewrite entry_row_slug, Hs.
      * by rewrite entry_row_other.
    + rewrite <- list_fmap_compose.
      by rewrite (list_fmap_ext _ post_pk (posts db))
        by (intros; apply entry_row_pk).
    + rewrite <- list_fmap_compose.
      by rewrite (list_fmap_ext _ post_slug (posts db))
        by (intros; apply entry_row_slug).
Qed.

Lemma updated_row_thumbnail now img_url p :
  img_url ∈ WP_FEATURED_IMAGES.*2 ->
  thumbnail_url (updated_row now img_url p)
  = match search_group html_pattern 1
            (chs (content_html (updated_row now img_url p))) with
    | Some u => to_wordpress_url (str u)
    | None => Some img_url
    end.
Proof.
  intros Hin. unfold thumbnail_url, first_image_url.
  destruct (search_group html_pattern 1 _); [done|].
  cbn [content_md updated_row]. unfold img_md. rewrite chs_str.
  assert (chs img_url <> [] /\ (")"%char ∉ chs img_url) /\
          to_wordpress_url img_url = Some img_url) as (Hne & Hcl & Hwp).
  { cbn in Hin.
    repeat (apply elem_of_cons in Hin as [->|Hin]);
      [| | | |by apply elem_of_nil in Hin];
      (split; [done|split; [|by vm_compute]]);
      apply (bool_decide_unpack _); by vm_compute. }
  change (chs ")" ++ [nl; nl] ++ chs (content_md p))
    with (chs ")" ++ ([nl; nl] ++ chs (content_md p))).
  rewrite search_md_image by done. by rewrite str_chs.
Qed.

(** X28: in a store whose posts have distinct keys and distinct slugs,
    the command [add_wp_featured_images] ends, and it writes the posts
    only.  A post whose slug is not in the table, or that has a thumbnail,
    stays as it is.  A post of the table without thumbnail gets the image
    of the table at the head of its content and is saved: the content is
    rendered again and the dates are those of [Post.save].  Its thumbnail
    is then the first image of the rendered content, or the image of the
    table when the rendered content holds none.  The two numbers of the
    last line are the numbers of the posts of the table without and with
    a thumbnail. *)
Theorem handle_updates now db :
  NoDup (post_pk <$> posts db) -> NoDup (post_slug <$> posts db) ->
  exists l,
    handle slugify render_markdown now db
    = (with_posts db l,
       Ok (length (filter (fun p => post_slug p ∈ WP_FEATURED_IMAGES.*1 /\
                                    truthy (thumbnail_url p) = false)
                     (posts db)),
           length (filter (fun p => post_slug p ∈ WP_FEATURED_IMAGES.*1 /\
                                    truthy (thumbnail_url p) = true)
                     (posts db)))) /\
    Forall2
      (fun p p' =>
         (post_slug p ∉ WP_FEATURED_IMAGES.*1 \/
          truthy (thumbnail_url p) = true -> p' = p) /\
         forall img_url,
           (post_slug p, img_url) ∈ WP_FEATURED_IMAGES ->
           truthy (thumbnail_url p) = false ->
           p' = updated_row now img_url p /\
           thumbnail_url p'
           = match search_group html_pattern 1 (chs (content_html p')) with
             | Some u => to_wordpress_url (str u)
             | None => Some img_url
             end)
      (posts db) l.
Proof.
  intros Hpk Hslug.
  assert (NoDup WP_FEATURED_IMAGES.*1) as Hks
    by (apply (bool_decide_unpack _); by vm_compute).
  assert (Forall (fun e : string * string => e.1 <> "") WP_FEATURED_IMAGES)
    as Hne by (repeat constructor; done).
  exists (table_row now WP_FEATURED_IMAGES <$> posts db). split.
  - unfold handle. by rewrite (handle_run now _ 0 0 db).
  - apply Forall2_fmap_r, Forall_Forall2_diag, Forall_forall.
    intros p _. split.
    + intros [Hout|Ht];
        [by apply table_row_other|by apply table_row_skipped].
    + intros img_url Hin Ht.
      rewrite (table_row_updated now _ p img_url) by done.
      split; [done|]. apply updated_row_thumbnail.
      apply list_elem_of_fmap. by exists (post_slug p, img_url).
Qed.

End CommandFacts.

Lemma handle_updates_witness :
  NoDup (post_pk <$> posts heel_db) /\
  NoDup (post_slug <$> posts heel_db) /\
  exists l,
    handle (fun s => s) (fun s => s) 5%Z heel_db
    = (with_posts heel_db l,
       Ok (length (filter (fun p => post_slug p ∈ WP_FEATURED_IMAGES.*1 /\
                                    truthy (thumbnail_url p) = false)
                     (posts heel_db)),
           length (filter (fun p => post_slug p ∈ WP_FEATURED_IMAGES.*1 /\
                                    truthy (thumbnail_url p) = true)
                     (posts heel_db)))) /\
    Forall2
      (fun p p' =>
         (post_slug p ∉ WP_FEATURED_IMAGES.*1 \/
          truthy (thumbnail_url p) = true -> p' = p) /\
         forall img_url,
           (post_slug p, img_url) ∈ WP_FEATURED_IMAGES ->
           truthy (thumbnail_url p) = false ->
           p' = updated_row (fun s => s) 5%Z img_url p /\
           thumbnail_url p'
           = match search_group html_pattern 1 (chs (content_html p')) with
             | Some u => to_wordpress_url (str u)
             | None => Some img_url
             end)
      (posts heel_db) l.
Proof.
  assert (NoDup (post_pk <$> posts heel_db)) as H1 by apply NoDup_singleton.
  assert (NoDup (post_slug <$> posts heel_db)) as H2
    by apply NoDup_singleton.
  split; [done|]. split; [done|].
  exact (handle_updates (fun s => s) (fun s => s) 5%Z heel_db H1 H2).
Defined.

(** ** Tag names are matched by their first letters *)

(** A piece of a document, a tag or text without [<]: only its first
    character can be [<], and the start [p] of a pattern differs from it
    at a position that both have. *)
Definition piece_ok (p c : chars) : Prop :=
  (lt ∉ drop 1 c) /\ (c = [] \/ clash p c = true).

Lemma piece_ok_text p' (t : chars) : lt ∉ t -> piece_ok (lt :: p') t.
Proof.
  intros Ht. split.
  - intros H. apply Ht. destruct t; [done|]. by right.
  - destruct t as [|c t]; [by left|]. right. cbn [clash].
    destruct (Ascii.eqb_spec lt c) as [<-|]; [|done].
    destruct Ht. left.
Qed.

Lemma pieces_miss p' (cs : list chars) (x : chars) :
  Forall (piece_ok (lt :: p')) cs ->
  forall a u, concat cs = a ++ u -> u <> [] ->
              starts_with (lt :: p') (u ++ x) = false.
Proof.
  induction cs as [|c cs IH]; intros Hcs a u Hs Hu.
  { cbn in Hs. symmetry in Hs. by apply app_eq_nil in Hs as [_ ->]. }
  apply Forall_cons in Hcs as [[Hlt Hc] Hcs]. cbn [concat] in Hs.
  apply app_eq_app in Hs as [l [[-> Hl]|[-> Hl]]].
  - destruct l as [|y l].
    + rewrite app_nil_l in Hl. apply (IH Hcs [] u); [by rewrite Hl|done].
    + rewrite Hl, <- app_assoc. destruct a as [|b a].
      * destruct Hc as [Hc|Hc]; [done|]. by apply clash_starts_with.
      * cbn [app starts_with].
        destruct (Ascii.eqb_spec lt y) as [<-|]; [|done].
        destruct Hlt. cbn [app drop]. rewrite drop_0. set_solver.
  - by apply (IH Hcs l u).
Qed.

Lemma pieces_no_match r p' (cs : list chars) :
  lit_prefix r = lt :: p' -> Forall (piece_ok (lt :: p')) cs ->
  forall a u, concat cs = a ++ u -> re_match r u = None.
Proof.
  intros Hp Hcs a u Hs. apply re_match_lit_prefix. rewrite Hp.
  destruct u as [|c u]; [done|].
  rewrite <- (app_nil_r (c :: u)). by eapply pieces_miss.
Qed.

Lemma pieces_apply_rules l (cs : list chars) :
  Forall (fun rule => exists p', lit_prefix rule.1 = lt :: p' /\
                                 Forall (piece_ok (lt :: p')) cs) l ->
  apply_rules l (concat cs) = concat cs.
Proof.
  induction l as [|rule l IH]; [done|]. intros [(p' & Hp & Hcs) Hl]%Forall_cons.
  unfold apply_rules. cbn [foldl].
  rewrite sub_chars_no_match by by eapply pieces_no_match.
  by apply IH.
Qed.

(** *** An opening tag with more than the name *)

Lemma run_len_until cs (w rest : chars) c :
  Forall (fun c => cs_mem cs c = true) w -> cs_mem cs c = false ->
  run_len cs None (w ++ c :: rest) = length w.
Proof.
  intros Hw Hc. induction w as [|d w IH].
  - cbn [app run_len]. by rewrite Hc.
  - apply Forall_cons in Hw as [Hd Hw].
    cbn [app run_len fmap option_fmap option_map length]. rewrite Hd.
    f_equal. by apply IH.
Qed.

Lemma rmatch_cat_star_run cs (r : regex) (w rest : chars) c g k res :
  Forall (fun c => cs_mem cs c = true) w -> cs_mem cs c = false ->
  rmatch r (c :: rest) g k = Some res ->
  rmatch (Cat (star cs) r) (w ++ c :: rest) g k = Some res.
Proof.
  intros Hw Hc Hr. cbn [rmatch star]. rewrite run_len_until by done.
  cbn [Nat.ltb Nat.leb]. apply rep_greedy_first.
  rewrite Nat.sub_0_r. cbn [Nat.add]. by rewrite drop_app_length.
Qed.

Lemma elem_re_match_attrs name (attrs body rest : chars) :
  gt ∉ attrs ->
  (forall a u, body = a ++ u -> u <> [] ->
     starts_with (closing name) (u ++ closing name ++ rest) = false) ->
  re_match (elem_re name)
    (chs ("<" +:+ name) ++ attrs ++ gt :: body ++ closing name ++ rest)
  = Some (rest, [(1, body)]).
Proof.
  intros Hattrs Hbody. unfold re_match, elem_re.
  change (cat [lit ("<" +:+ name); star (not_of ">"); lit ">";
               Grp 1 (lazy_star Any); lit ("</" +:+ name +:+ ">")])
    with (Cat (Lit (chs ("<" +:+ name)))
            (Cat (star (not_of ">"))
               (Cat (Lit [gt])
                  (Cat (Grp 1 (lazy_star Any)) (Lit (closing name)))))).
  rewrite rmatch_cat_lit. apply rmatch_cat_star_run; [|done|].
  { apply Forall_forall. intros c Hc.
    cbn [cs_mem not_of list_ascii_of_string mem_ascii].
    destruct (Ascii.eqb_spec ">" c) as [<-|]; [by destruct Hattrs|done]. }
  change (gt :: body ++ closing name ++ rest)
    with ([gt] ++ body ++ closing name ++ rest).
  rewrite rmatch_cat_lit.
  set (s := body ++ closing name ++ rest).
  unfold lazy_star. cbn [rmatch]. rewrite run_len_any. cbn [Nat.ltb Nat.leb].
  rewrite Nat.sub_0_r.
  apply (rep_lazy_find _ s [] 0 (length s) (length body)).
  - intros i Hi. cbn [Nat.add]. subst s. rewrite drop_app_le by lia.
    rewrite (Hbody (take i body) (drop i body)); [done| |].
    + by rewrite take_drop.
    + intros Hd. apply (f_equal length) in Hd. rewrite length_drop in Hd.
      simpl in Hd. lia.
  - cbn [Nat.add]. subst s. rewrite drop_app_length.
    rewrite starts_with_app, drop_app_length.
    rewrite !length_app.
    replace (length body + (length (closing name) + length rest)
             - (length (closing name) + length rest)) with (length body) by lia.
    by rewrite take_app_length.
  - subst s. rewrite length_app. lia.
Qed.

Lemma elem_re_sub_attrs name repl (attrs body : chars) :
  gt ∉ attrs ->
  (forall a u, body = a ++ u -> u <> [] ->
     starts_with (closing name) (u ++ closing name) = false) ->
  sub_chars (elem_re name) repl
    (chs ("<" +:+ name) ++ attrs ++ gt :: body ++ closing name)
  = repl (group [(1, body)]).
Proof.
  intros Hattrs Hbody. unfold sub_chars.
  pose proof (elem_re_match_attrs name attrs body [] Hattrs) as Hm.
  rewrite app_nil_r in Hm. specialize (Hm Hbody).
  destruct (chs ("<" +:+ name) ++ attrs ++ gt :: body ++ closing name)
    as [|c s] eqn:Es.
  { by destruct (chs ("<" +:+ name)). }
  cbn [sub_from]. rewrite Hm. cbn [length Nat.sub].
  rewrite sub_from_skip by lia. rewrite drop_all. cbn [sub_from].
  rewrite (re_match_lit_prefix (elem_re name) []) by done.
  by rewrite app_nil_r.
Qed.

(** *** The tag that is left *)

Lemma sub_tag_re_text (x s : chars) :
  lt ∉ x ->
  sub_chars tag_re (fun _ => []) (x ++ s)
  = x ++ sub_chars tag_re (fun _ => []) s.
Proof.
  intros Hx. unfold sub_chars. induction x as [|c x IH]; [done|].
  cbn [app sub_from].
  rewrite (re_match_lit_prefix tag_re).
  - f_equal. apply IH. set_solver.
  - unfold tag_re, lit. cbn [cat lit_prefix list_ascii_of_string starts_with].
    destruct (Ascii.eqb_spec "<" c) as [<-|]; [|done].
    destruct Hx. left.
Qed.

Lemma re_match_tag_re (w y : chars) :
  w <> [] -> gt ∉ w ->
  re_match tag_re (lt :: w ++ gt :: y) = Some (y, []).
Proof.
  intros Hne Hw. unfold re_match, tag_re.
  change (cat [lit "<"; plus (not_of ">"); lit ">"])
    with (Cat (Lit [lt]) (Cat (plus (not_of ">")) (Lit [gt]))).
  change (lt :: w ++ gt :: y) with ([lt] ++ w ++ gt :: y).
  rewrite rmatch_cat_lit. cbn [rmatch plus].
  rewrite run_len_until; [| |done].
  - destruct w as [|c w]; [done|]. cbn [length Nat.ltb Nat.leb].
    apply rep_greedy_first.
    replace (1 + (S (length w) - 1)) with (length (c :: w))
      by (cbn [length]; lia).
    rewrite drop_app_length. cbn [starts_with length drop].
    change (Ascii.eqb gt gt) with true. by rewrite drop_0.
  - apply Forall_forall. intros c Hc.
    cbn [cs_mem not_of list_ascii_of_string mem_ascii].
    destruct (Ascii.eqb_spec ">" c) as [<-|]; [by destruct Hw|done].
Qed.

Lemma sub_tag_re_one (x w y : chars) :
  lt ∉ x -> lt ∉ y -> w <> [] -> gt ∉ w ->
  sub_chars tag_re (fun _ => []) (x ++ lt :: w ++ gt :: y) = x ++ y.
Proof.
  intros Hx Hy Hne Hw. rewrite sub_tag_re_text by done. f_equal.
  unfold sub_chars. cbn [sub_from]. rewrite re_match_tag_re by done.
  cbn [app length]. rewrite length_app. cbn [length].
  replace (S (length w + S (length y)) - length y) with (S (S (length w)))
    by lia.
  rewrite sub_from_skip by (rewrite length_app; cbn [length]; lia).
  replace (S (length w)) with (length (w ++ [gt]))
    by (rewrite length_app; cbn [length]; lia).
  replace (w ++ gt :: y) with ((w ++ [gt]) ++ y) by by rewrite <- app_assoc.
  rewrite drop_app_length.
  apply (sub_chars_no_match tag_re), tag_re_no_match.
  by intros H%has_tag_lt.
Qed.

(** *** The last steps *)

Lemma nls_app_zero (x y : chars) : nls y = 0 -> nls (x ++ y) = nls x.
Proof.
  intros Hy. induction x as [|c x IH]; [done|].
  cbn [app]. rewrite !nls_cons, IH. done.
Qed.

Lemma no3_app_r (x y : chars) : no3 x -> nl ∉ y -> no3 (x ++ y).
Proof.
  intros Hx Hy. induction x as [|c x IH]; [by apply no3_no_nl|].
  cbn [app no3]. destruct Hx as [Hn Hx]. split; [|by apply IH].
  change (c :: x ++ y) with ((c :: x) ++ y). rewrite nls_app_zero; [done|].
  destruct y as [|d y]; [done|]. rewrite nls_cons.
  destruct (Ascii.eqb_spec nl d) as [<-|]; [|done]. destruct Hy. left.
Qed.

(** *** An element that a longer tag opens *)

(** The start [p] of a pattern is a [<] and then differs from the tag. *)
Definition tag_misses (p tag : chars) : bool :=
  match p with
  | a :: _ => Ascii.eqb a lt && clash p tag
  | [] => false
  end.

Lemma tag_misses_piece (p tag : chars) :
  tag_misses p tag = true -> (lt ∉ drop 1 tag) ->
  exists p', p = lt :: p' /\ piece_ok (lt :: p') tag.
Proof.
  destruct p as [|a p]; [done|]. cbn [tag_misses].
  intros [->%Ascii.eqb_eq Hc]%andb_true_iff Hlt.
  exists p. split; [done|]. split; [done|by right].
Qed.

Lemma convert_prefixed k name repl (pre pv attrs t1 t2 : chars) :
  rules !! k = Some (elem_re name, repl) ->
  (forall m, repl m = pre ++ m 1 ++ pv) ->
  name <> "" -> (lt ∉ chs name) -> (gt ∉ chs name) ->
  (lt ∉ attrs) -> (gt ∉ attrs) ->
  forallb (fun rule =>
             tag_misses (lit_prefix rule.1) (chs ("<" +:+ name) ++ attrs ++ [gt])
             && tag_misses (lit_prefix rule.1) (opening name)
             && tag_misses (lit_prefix rule.1) (closing name))
    (take k rules) = true ->
  forallb (fun rule => tag_misses (lit_prefix rule.1) (opening name))
    (drop (S k) rules) = true ->
  tag_misses (closing name) (opening name) = true ->
  (lt ∉ pre ++ pv) -> (nl ∉ pre ++ pv) ->
  (forall c r, pre ++ pv = c :: r -> is_space c = false) ->
  (forall c r, pre ++ pv = r ++ [c] -> is_space c = false) ->
  pre <> [] -> pv <> [] ->
  (lt ∉ t1) -> (lt ∉ t2) ->
  (forall a b, t1 ++ t2 <> a ++ [nl; nl; nl] ++ b) ->
  html_to_markdown
    (str (chs ("<" +:+ name) ++ attrs ++ gt :: t1 ++ opening name ++ t2
          ++ closing name))
  = str (pre ++ t1 ++ t2 ++ pv).
Proof.
  intros Hk Hrepl Hname Hnlt Hngt Halt Hagt Hbefore Hafter Hclose Hlt Hnl
    Hhead Hlast Hpre Hpv Ht1 Ht2 Hno3.
  assert (chs name <> []) as Hname'.
  { intros H. apply Hname. by rewrite <- (str_chs name), H. }
  assert (lt <> gt) as Hlg by done.
  assert (lt ∉ drop 1 (chs ("<" +:+ name) ++ attrs ++ [gt])) as Hd1.
  { change (chs ("<" +:+ name)) with (lt :: chs name).
    cbn [app drop]. rewrite drop_0. set_solver. }
  assert (lt ∉ drop 1 (opening name)) as Hd2.
  { unfold opening. change (chs ("<" +:+ name)) with (lt :: chs name).
    cbn [app drop]. rewrite drop_0. set_solver. }
  assert (lt ∉ drop 1 (closing name)) as Hd3.
  { unfold closing.
    change (chs ("</" +:+ name +:+ ">"))
      with (lt :: "/"%char :: chs (name +:+ ">")).
    cbn [drop]. rewrite chs_app.
    change (chs ">") with [gt].
    intros [H|H]%elem_of_cons; [done|]. set_solver. }
  rewrite html_to_markdown_rules, chs_str.
  2:{ intros H. apply (f_equal chs) in H. by rewrite chs_str in H. }
  rewrite <- (take_drop_middle rules k _ Hk), apply_rules_app.
  (* the rules before the rule of the element *)
  replace (chs ("<" +:+ name) ++ attrs ++ gt :: t1 ++ opening name ++ t2
           ++ closing name)
    with (concat [chs ("<" +:+ name) ++ attrs ++ [gt]; t1; opening name; t2;
                  closing name])
    by (cbn [concat]; by rewrite app_nil_r, <- !app_assoc).
  rewrite pieces_apply_rules.
  2:{ apply Forall_forall. intros rule Hrule%list_elem_of_In.
      rewrite forallb_forall in Hbefore. specialize (Hbefore rule Hrule).
      apply andb_true_iff in Hbefore as [[H1 H2]%andb_true_iff H3].
      destruct (tag_misses_piece _ _ H1 Hd1) as (p' & Hp & Hp1).
      destruct (tag_misses_piece _ _ H2 Hd2) as (p2 & Hp2' & Hp2).
      destruct (tag_misses_piece _ _ H3 Hd3) as (p3 & Hp3' & Hp3).
      rewrite Hp in Hp2', Hp3'. injection Hp2' as <-. injection Hp3' as <-.
      exists p'. split; [done|].
      repeat (apply Forall_cons; split); try done;
        try by apply piece_ok_text. }
  (* the rule of the element *)
  unfold apply_rules at 1. cbn [foldl fst snd].
  replace (concat [chs ("<" +:+ name) ++ attrs ++ [gt]; t1; opening name; t2;
                   closing name])
    with (chs ("<" +:+ name) ++ attrs ++ gt :: (t1 ++ opening name ++ t2)
          ++ closing name)
    by (cbn [concat]; by rewrite app_nil_r, <- !app_assoc).
  rewrite elem_re_sub_attrs; [|done|].
  2:{ intros a u Hs Hu.
      destruct (tag_misses_piece _ _ Hclose Hd2) as (p' & Hp & Hp1).
      rewrite Hp.
      apply (pieces_miss p' [t1; opening name; t2]) with (a := a);
        [|cbn [concat]; by rewrite app_nil_r|done].
      repeat (apply Forall_cons; split); try done; by apply piece_ok_text. }
  rewrite Hrepl. cbn [group Nat.eqb].
  (* the rules after it *)
  change (foldl _ ?s (drop (S k) rules))
    with (apply_rules (drop (S k) rules) s).
  replace (pre ++ (t1 ++ opening name ++ t2) ++ pv)
    with (concat [pre ++ t1; opening name; t2 ++ pv])
    by (cbn [concat]; by rewrite app_nil_r, <- !app_assoc).
  rewrite pieces_apply_rules.
  2:{ apply Forall_forall. intros rule Hrule%list_elem_of_In.
      rewrite forallb_forall in Hafter. specialize (Hafter rule Hrule).
      destruct (tag_misses_piece _ _ Hafter Hd2) as (p' & Hp & Hp1).
      exists p'. split; [done|].
      repeat (apply Forall_cons; split); try done;
        apply piece_ok_text; set_solver. }
  (* the tag that is left, and the last two steps *)
  replace (concat [pre ++ t1; opening name; t2 ++ pv])
    with ((pre ++ t1) ++ lt :: chs name ++ gt :: (t2 ++ pv))
    by (cbn [concat]; unfold opening;
        change (chs ("<" +:+ name)) with (lt :: chs name);
        cbn [app]; by rewrite app_nil_r, <- !app_assoc).
  rewrite sub_tag_re_one; [|set_solver..|done|done].
  assert (no3 ((pre ++ t1) ++ t2 ++ pv)) as Hn3.
  { rewrite <- app_assoc. apply no3_app.
    - apply no3_no_nl. set_solver.
    - intros r c -> ->. apply Hnl. set_solver.
    - rewrite app_assoc. apply no3_app_r; [by apply no3_of_no_sub|].
      set_solver. }
  rewrite (sub_chars_no_match nl3_re) by by apply nl3_no_match, no3_no_sub.
  rewrite <- (app_nil_r ((pre ++ t1) ++ t2 ++ pv)).
  rewrite strip_trailing; [by rewrite <- !app_assoc| | |done].
  - intros c r Hr. destruct pre as [|d pre]; [done|].
    injection Hr as <- _. by apply (Hhead d (pre ++ pv)).
  - intros c r Hr. destruct pv as [|d pv _] using rev_ind; [done|].
    rewrite !app_assoc in Hr. apply app_inj_tail in Hr as [_ ->].
    apply (Hlast c (pre ++ pv)). by rewrite app_assoc.
Qed.

(** X29: the rules of [html_to_markdown] take the first letters of a tag
    for its name, so [<br>] opens an element [b] and [<img ...>] an
    element [i].  A line break before text and a bold element gives the
    text and the element in bold together, without line break; an image
    before text and an italic element gives the two in italics, and the
    image is lost.  The texts hold no [<] and together no three newlines in
    a row, the address of the image neither [<] nor [>]. *)
Theorem html_to_markdown_tag_prefix (t1 t2 u : chars) :
  (lt ∉ t1) -> (lt ∉ t2) ->
  (forall a b, t1 ++ t2 <> a ++ [nl; nl; nl] ++ b) ->
  (lt ∉ u) -> (gt ∉ u) ->
  html_to_markdown (str (chs "<br>" ++ t1 ++ chs "<b>" ++ t2 ++ chs "</b>"))
  = str (chs "**" ++ t1 ++ t2 ++ chs "**") /\
  html_to_markdown
    (str (chs "<img src=" ++ [dq] ++ u ++ [dq; gt] ++ t1 ++ chs "<i>" ++ t2
          ++ chs "</i>"))
  = str (chs "*" ++ t1 ++ t2 ++ chs "*").
Proof.
  intros Ht1 Ht2 Hno3 Hu1 Hu2. split.
  - eapply (convert_prefixed 5 "b" _ (chs "**") (chs "**") (chs "r") t1 t2);
      try done.
    + intros [H|H]%elem_of_cons; [done|by apply elem_of_nil in H].
    + intros [H|H]%elem_of_cons; [done|by apply elem_of_nil in H].
    + intros [H|H]%elem_of_cons; [done|by apply elem_of_nil in H].
    + intros [H|H]%elem_of_cons; [done|by apply elem_of_nil in H].
    + apply (bool_decide_unpack _). by vm_compute.
    + apply (bool_decide_unpack _). by vm_compute.
    + by intros c r [= <- _].
    + intros c r H. change (chs "**" ++ chs "**") with (chs "***" ++ ["*"%char]) in H.
      by apply app_inj_tail in H as [_ <-].
  - replace (chs "<img src=" ++ [dq] ++ u ++ [dq; gt] ++ t1 ++ chs "<i>" ++ t2
             ++ chs "</i>")
      with (chs ("<" +:+ "i") ++ (chs "mg src=" ++ [dq] ++ u ++ [dq])
            ++ gt :: t1 ++ opening "i" ++ t2 ++ closing "i")
      by (cbn [app list_ascii_of_string String.append]; by rewrite <- app_assoc).
    eapply (convert_prefixed 7 "i" _ (chs "*") (chs "*")); try done.
    + intros [H|H]%elem_of_cons; [done|by apply elem_of_nil in H].
    + intros [H|H]%elem_of_cons; [done|by apply elem_of_nil in H].
    + rewrite !not_elem_of_app.
      repeat split; try done; apply (bool_decide_unpack _); by vm_compute.
    + rewrite !not_elem_of_app.
      repeat split; try done; apply (bool_decide_unpack _); by vm_compute.
    + apply (bool_decide_unpack _). by vm_compute.
    + apply (bool_decide_unpack _). by vm_compute.
    + by intros c r [= <- _].
    + intros c r H. change (chs "*" ++ chs "*") with (chs "*" ++ ["*"%char]) in H.
      by apply app_inj_tail in H as [_ <-].
Qed.

Lemma html_to_markdown_tag_prefix_witness :
  html_to_markdown
    (str (chs "<br>" ++ chs "x" ++ chs "<b>" ++ chs "y" ++ chs "</b>"))
  = str (chs "**" ++ chs "x" ++ chs "y" ++ chs "**") /\
  html_to_markdown
    (str (chs "<img src=" ++ [dq] ++ chs "a.png" ++ [dq; gt] ++ chs "x"
          ++ chs "<i>" ++ chs "y" ++ chs "</i>"))
  = str (chs "*" ++ chs "x" ++ chs "y" ++ chs "*").
Proof.
  apply (html_to_markdown_tag_prefix (chs "x") (chs "y") (chs "a.png")).
  - apply (bool_decide_unpack _). by vm_compute.
  - apply (bool_decide_unpack _). by vm_compute.
  - intros a b H. apply (f_equal length) in H.
    rewrite !length_app in H. simpl in H. lia.
  - apply (bool_decide_unpack _). by vm_compute.
  - apply (bool_decide_unpack _). by vm_compute.
Defined.
